(** * SecureWifi: the access-control engine of the captive portal

    A shallow embedding of the backend services that keep the session
    table, the MAC/IP binding table and the firewall-rule ledger in step
    with the packet-filter tooling:

    - [AuthService]          backend/src/services/auth.service.js
    - [BindingService]       backend/src/services/firewall/binding.service.js
    - [IptablesService]      backend/src/services/firewall/iptables.service.js
    - [EbtablesService]      backend/src/services/firewall/ebtables.service.js
    - [RuleEngine]           backend/src/services/firewall/rule-engine.service.js
    - [SessionFirewall]      backend/src/services/session-firewall.service.js
    - [SessionService], [DeviceService], [VoucherService],
      [DatabaseService], [Helpers]

    Modelling conventions.
    - The database is the better-sqlite3 one of database.config.js with
      [foreign_keys = ON]: a table is the list of its rows in rowid order,
      [.get] is the first matching row, [.all] the matching rows, an
      [UPDATE] a map over the rows, an [INSERT] appends a row whose id is
      the table's AUTOINCREMENT counter.  A statement that violates
      NOT NULL or a foreign key throws.
    - Instants are milliseconds since the epoch ([Z]).  A DATETIME column
      written by the services holds the string [toISOString] gives for
      its instant; the model keeps the instant.  Where the code compares
      [Date] objects the instants are compared; where it leaves the
      comparison to SQL, the strings are ([sql_text_lt]).
    - Strings are 8-bit strings; [toLowerCase] acts on A-Z.
    - An [async] function is run to completion: every [await] in these
      services resolves without another request being served in between
      when the enforcer is simulated, and the model keeps that order. *)

From Stdlib Require Import ZArith List Bool Ascii String Lia DecimalString.
Import ListNotations.

Local Open Scope string_scope.
Local Open Scope Z_scope.

(** ** JavaScript values the services traffic in *)

(** The outcome of a call that may raise a [TypeError]. *)
Inductive js_result (A : Type) : Type :=
| Returns (a : A)
| Throws.
Arguments Returns {A} a.
Arguments Throws {A}.

(** [x || null] on a number: 0 is falsy. *)
Definition num_or_null (x : Z) : option Z :=
  if x =? 0 then None else Some x.

(** [x || null] on an optional number. *)
Definition opt_num_or_null (x : option Z) : option Z :=
  match x with
  | Some n => num_or_null n
  | None => None
  end.

(** [x || null] on an optional string: the empty string is falsy. *)
Definition str_or_null (x : option string) : option string :=
  match x with
  | Some "" => None
  | other => other
  end.

Module JsString.

(** The characters removed by [replace(/[:-]/g, '')]. *)
Definition is_separator (c : ascii) : bool :=
  (c =? ":")%char || (c =? "-")%char.

Fixpoint strip_separators (s : string) : string :=
  match s with
  | EmptyString => EmptyString
  | String c rest =>
      if is_separator c then strip_separators rest
      else String c (strip_separators rest)
  end.

Definition lower_char (c : ascii) : ascii :=
  let n := nat_of_ascii c in
  if (Nat.leb 65 n && Nat.leb n 90)%bool then ascii_of_nat (n + 32) else c.

Fixpoint toLowerCase (s : string) : string :=
  match s with
  | EmptyString => EmptyString
  | String c rest => String (lower_char c) (toLowerCase rest)
  end.

Definition upper_char (c : ascii) : ascii :=
  let n := nat_of_ascii c in
  if (Nat.leb 97 n && Nat.leb n 122)%bool then ascii_of_nat (n - 32) else c.

Fixpoint toUpperCase (s : string) : string :=
  match s with
  | EmptyString => EmptyString
  | String c rest => String (upper_char c) (toUpperCase rest)
  end.

(** What [.] matches in a regular expression without the [s] flag:
    anything but a line terminator. *)
Definition dot (c : ascii) : bool :=
  negb (Nat.eqb (nat_of_ascii c) 10 || Nat.eqb (nat_of_ascii c) 13).

(** [s.match(/.{2}/g)]: the successive non-overlapping pairs of
    characters, scanning left to right; the empty list stands for the
    [null] that [match] returns when nothing matches. *)
Fixpoint match_pairs (s : string) : list string :=
  match s with
  | String a ((String b rest) as tail) =>
      if (dot a && dot b)%bool
      then String a (String b EmptyString) :: match_pairs rest
      else match_pairs tail
  | _ => []
  end.

(** [parts.join(':')]. *)
Definition join_colon (parts : list string) : string :=
  String.concat ":" parts.

(** [mac.replace(/[:-]/g, '').toLowerCase()]. *)
Definition clean (mac : string) : string :=
  toLowerCase (strip_separators mac).

(** [s.split(c)] for a separator of one character: never empty. *)
Fixpoint split (c : ascii) (s : string) : list string :=
  match s with
  | EmptyString => [EmptyString]
  | String a rest =>
      if (a =? c)%char then EmptyString :: split c rest
      else match split c rest with
           | part :: parts => String a part :: parts
           | [] => [String a EmptyString]
           end
  end.

(** The white space [parseInt] skips, as far as 8-bit strings have it. *)
Definition is_space (c : ascii) : bool :=
  let n := nat_of_ascii c in
  ((Nat.leb 9 n && Nat.leb n 13) || Nat.eqb n 32)%bool.

Fixpoint skip_spaces (s : string) : string :=
  match s with
  | String c rest => if is_space c then skip_spaces rest else s
  | EmptyString => s
  end.

Definition digit_value (c : ascii) : option Z :=
  let n := nat_of_ascii c in
  if (Nat.leb 48 n && Nat.leb n 57)%bool then Some (Z.of_nat (n - 48)) else None.

(** The number the longest prefix of decimal digits denotes; [acc] is
    what was read so far, [None] while no digit was. *)
Fixpoint read_digits (acc : option Z) (s : string) : option Z :=
  match s with
  | String c rest =>
      match digit_value c with
      | Some d => read_digits (Some (10 * match acc with Some a => a | None => 0 end + d)) rest
      | None => acc
      end
  | EmptyString => acc
  end.

(** [parseInt(s, 10)]; [None] is [NaN].  The numbers are the integers
    they denote, which is what a JavaScript number is below 2^53. *)
Definition parseInt (s : string) : option Z :=
  match skip_spaces s with
  | String "-" rest => option_map Z.opp (read_digits None rest)
  | String "+" rest => read_digits None rest
  | t => read_digits None t
  end.

(** [n.toString()] of an integer. *)
Definition toString (n : Z) : string :=
  NilZero.string_of_int (Z.to_int n).

End JsString.

(** [Date]: time values and [toISOString], as ECMA-262 defines them
    (Day Number and Time within Day, Year Number, Month Number, Date
    Number, Hours to Milliseconds; Date Time String Format). *)
Module JsDate.

Definition msPerDay : Z := 86400000.

(** The largest time value a [Date] holds; beyond it the [Date] is
    invalid and [toISOString] throws a [RangeError]. *)
Definition maxTime : Z := 8640000000000000.

Definition valid (t : Z) : bool := ((- maxTime <=? t) && (t <=? maxTime))%bool.

Definition Day (t : Z) : Z := t / msPerDay.

Definition DayFromYear (y : Z) : Z :=
  365 * (y - 1970) + (y - 1969) / 4 - (y - 1901) / 100 + (y - 1601) / 400.

Definition DaysInYear (y : Z) : Z :=
  if negb (y mod 4 =? 0) then 365
  else if negb (y mod 100 =? 0) then 366
  else if negb (y mod 400 =? 0) then 365
  else 366.

(** The largest [y] with [DayFromYear y <= d]: the year of the mean
    calendar, put right by one where the leap days make it differ. *)
Definition YearFromDay (d : Z) : Z :=
  let y := 1970 + (400 * d) / 146097 in
  if DayFromYear (y + 1) <=? d then y + 1
  else if d <? DayFromYear y then y - 1
  else y.

Definition YearFromTime (t : Z) : Z := YearFromDay (Day t).

Definition InLeapYear (t : Z) : Z :=
  if DaysInYear (YearFromTime t) =? 366 then 1 else 0.

Definition DayWithinYear (t : Z) : Z := Day t - DayFromYear (YearFromTime t).

Definition MonthFromTime (t : Z) : Z :=
  let d := DayWithinYear t in
  let leap := InLeapYear t in
  if d <? 31 then 0
  else if d <? 59 + leap then 1
  else if d <? 90 + leap then 2
  else if d <? 120 + leap then 3
  else if d <? 151 + leap then 4
  else if d <? 181 + leap then 5
  else if d <? 212 + leap then 6
  else if d <? 243 + leap then 7
  else if d <? 273 + leap then 8
  else if d <? 304 + leap then 9
  else if d <? 334 + leap then 10
  else 11.

Definition DateFromTime (t : Z) : Z :=
  let d := DayWithinYear t in
  let leap := InLeapYear t in
  match MonthFromTime t with
  | 0 => d + 1
  | 1 => d - 30
  | 2 => d - 58 - leap
  | 3 => d - 89 - leap
  | 4 => d - 119 - leap
  | 5 => d - 150 - leap
  | 6 => d - 180 - leap
  | 7 => d - 211 - leap
  | 8 => d - 242 - leap
  | 9 => d - 272 - leap
  | 10 => d - 303 - leap
  | _ => d - 333 - leap
  end.

Definition HourFromTime (t : Z) : Z := (t / 3600000) mod 24.
Definition MinFromTime (t : Z) : Z := (t / 60000) mod 60.
Definition SecFromTime (t : Z) : Z := (t / 1000) mod 60.
Definition msFromTime (t : Z) : Z := t mod 1000.

(** A decimal digit, and a number in [k] digits with leading zeros. *)
Definition digit (n : Z) : ascii := ascii_of_nat (48 + Z.to_nat n).

Fixpoint digits (k : nat) (n : Z) : string :=
  match k with
  | O => EmptyString
  | S k' => digits k' (n / 10) ++ String (digit (n mod 10)) EmptyString
  end.

(** Four digits for the years 0 to 9999, the expanded form of a sign
    and six digits otherwise. *)
Definition year_string (y : Z) : string :=
  if ((0 <=? y) && (y <=? 9999))%bool then digits 4 y
  else if y <? 0 then "-" ++ digits 6 (- y)
  else "+" ++ digits 6 y.

(** [YYYY-MM-DDTHH:mm:ss.sssZ]. *)
Definition toISOString (t : Z) : string :=
  year_string (YearFromTime t)
  ++ "-" ++ digits 2 (MonthFromTime t + 1)
  ++ "-" ++ digits 2 (DateFromTime t)
  ++ "T" ++ digits 2 (HourFromTime t)
  ++ ":" ++ digits 2 (MinFromTime t)
  ++ ":" ++ digits 2 (SecFromTime t)
  ++ "." ++ digits 3 (msFromTime t) ++ "Z".

End JsDate.

(** ** The persisted tables (database.service.js, [initializeDatabase]) *)

Record Session := {
  s_id : Z;
  s_session_token : string;
  s_user_id : option Z;
  s_voucher_id : option Z;
  s_device_id : Z;
  s_mac_address : string;
  s_ip_address : string;
  s_auth_method : string;
  s_started_at : Z;
  s_expires_at : Z;
  s_ended_at : option Z;
  s_is_active : bool;
  s_firewall_applied : bool
}.

Record Binding := {
  b_id : Z;
  b_mac_address : string;
  b_ip_address : string;
  b_session_id : option Z;
  b_created_at : Z;
  b_expires_at : option Z;
  b_is_active : bool
}.

Record FirewallRule := {
  r_id : Z;
  r_rule_type : string;
  r_rule_action : string;
  r_rule_command : string;
  r_session_id : option Z;
  r_mac_address : string;
  r_ip_address : string;
  r_applied_at : option Z;
  r_removed_at : option Z;
  r_is_active : bool;
  r_is_simulated : bool
}.

Record Device := {
  d_id : Z;
  d_mac_address : string;
  d_last_seen : Z;
  d_total_sessions : Z;
  d_is_blocked : bool;
  d_block_reason : option string
}.

Record Voucher := {
  v_id : Z;
  v_code : string;
  v_duration_hours : Z;
  v_max_devices : Z;
  v_expires_at : option Z;
  v_used_at : option Z;
  v_used_by_device : option string;
  v_is_active : bool
}.

Record User := {
  u_id : Z;
  u_username : string;
  u_password_hash : string;
  u_is_active : bool;
  u_last_login : option Z
}.

Inductive EventCategory := AUTH | SESSION | SECURITY | ADMIN | SYSTEM | FIREWALL.
Inductive Severity := DEBUG | INFO | WARNING | ERROR | CRITICAL.

Record EventLog := {
  e_event_category : EventCategory;
  e_event_type : string;
  e_severity : Severity;
  e_mac_address : option string;
  e_ip_address : option string;
  e_user_id : option Z;
  e_session_id : option Z;
  e_details : list (string * string)
}.

(** What the process did to the outside, in the order it did it: calls of
    the enforcer ([executeCommand]) and writes to the rule ledger. *)
Inductive Effect :=
| EnforcerCall (fullCommand : string) (simulated success : bool)
| LedgerInsert (rule_command : string) (session_id : option Z)
| LedgerRetract (session_id : Z) (rule_type : option string).

Record World := {
  sessions : list Session;
  mac_ip_bindings : list Binding;
  firewall_rules : list FirewallRule;
  devices : list Device;
  vouchers : list Voucher;
  users : list User;
  event_logs : list EventLog;
  seq_sessions : Z;
  seq_bindings : Z;
  seq_rules : Z;
  seq_devices : Z;
  clock : Z;
  trace : list Effect
}.

Definition with_sessions (w : World) (x : list Session) (seq : Z) : World :=
  {| sessions := x; mac_ip_bindings := mac_ip_bindings w;
     firewall_rules := firewall_rules w; devices := devices w;
     vouchers := vouchers w; users := users w; event_logs := event_logs w;
     seq_sessions := seq; seq_bindings := seq_bindings w;
     seq_rules := seq_rules w; seq_devices := seq_devices w;
     clock := clock w; trace := trace w |}.

Definition with_bindings (w : World) (x : list Binding) (seq : Z) : World :=
  {| sessions := sessions w; mac_ip_bindings := x;
     firewall_rules := firewall_rules w; devices := devices w;
     vouchers := vouchers w; users := users w; event_logs := event_logs w;
     seq_sessions := seq_sessions w; seq_bindings := seq;
     seq_rules := seq_rules w; seq_devices := seq_devices w;
     clock := clock w; trace := trace w |}.

Definition with_rules (w : World) (x : list FirewallRule) (seq : Z) : World :=
  {| sessions := sessions w; mac_ip_bindings := mac_ip_bindings w;
     firewall_rules := x; devices := devices w;
     vouchers := vouchers w; users := users w; event_logs := event_logs w;
     seq_sessions := seq_sessions w; seq_bindings := seq_bindings w;
     seq_rules := seq; seq_devices := seq_devices w;
     clock := clock w; trace := trace w |}.

Definition with_devices (w : World) (x : list Device) (seq : Z) : World :=
  {| sessions := sessions w; mac_ip_bindings := mac_ip_bindings w;
     firewall_rules := firewall_rules w; devices := x;
     vouchers := vouchers w; users := users w; event_logs := event_logs w;
     seq_sessions := seq_sessions w; seq_bindings := seq_bindings w;
     seq_rules := seq_rules w; seq_devices := seq;
     clock := clock w; trace := trace w |}.

Definition with_vouchers (w : World) (x : list Voucher) : World :=
  {| sessions := sessions w; mac_ip_bindings := mac_ip_bindings w;
     firewall_rules := firewall_rules w; devices := devices w;
     vouchers := x; users := users w; event_logs := event_logs w;
     seq_sessions := seq_sessions w; seq_bindings := seq_bindings w;
     seq_rules := seq_rules w; seq_devices := seq_devices w;
     clock := clock w; trace := trace w |}.

Definition with_users (w : World) (x : list User) : World :=
  {| sessions := sessions w; mac_ip_bindings := mac_ip_bindings w;
     firewall_rules := firewall_rules w; devices := devices w;
     vouchers := vouchers w; users := x; event_logs := event_logs w;
     seq_sessions := seq_sessions w; seq_bindings := seq_bindings w;
     seq_rules := seq_rules w; seq_devices := seq_devices w;
     clock := clock w; trace := trace w |}.

Definition with_event_logs (w : World) (x : list EventLog) : World :=
  {| sessions := sessions w; mac_ip_bindings := mac_ip_bindings w;
     firewall_rules := firewall_rules w; devices := devices w;
     vouchers := vouchers w; users := users w; event_logs := x;
     seq_sessions := seq_sessions w; seq_bindings := seq_bindings w;
     seq_rules := seq_rules w; seq_devices := seq_devices w;
     clock := clock w; trace := trace w |}.

Definition with_trace (w : World) (x : list Effect) : World :=
  {| sessions := sessions w; mac_ip_bindings := mac_ip_bindings w;
     firewall_rules := firewall_rules w; devices := devices w;
     vouchers := vouchers w; users := users w; event_logs := event_logs w;
     seq_sessions := seq_sessions w; seq_bindings := seq_bindings w;
     seq_rules := seq_rules w; seq_devices := seq_devices w;
     clock := clock w; trace := x |}.

Definition with_clock (w : World) (t : Z) : World :=
  {| sessions := sessions w; mac_ip_bindings := mac_ip_bindings w;
     firewall_rules := firewall_rules w; devices := devices w;
     vouchers := vouchers w; users := users w; event_logs := event_logs w;
     seq_sessions := seq_sessions w; seq_bindings := seq_bindings w;
     seq_rules := seq_rules w; seq_devices := seq_devices w;
     clock := t; trace := trace w |}.

(** ** Deployment parameters *)

Inductive SecurityMode := simulation | production.

(** config/firewall.config.js; the fields read from the environment are
    the record's fields. *)
Record FirewallConfig := {
  fc_mode : SecurityMode;
  fc_bridge : string;
  fc_lan : string;
  fc_portalIp : string;
  fc_subnet : string;
  fc_gateway : string;
  fc_portal_port : string;
  fc_dns_port : string;
  fc_logPrefix : string;
  fc_logLevel : string;
  fc_logDropped : bool;
  fc_cleanup_intervalMs : Z;
  fc_cleanup_graceperiodMs : Z
}.

(** The defaults of firewall.config.js and app.config.js. *)
Definition firewallConfig : FirewallConfig := {|
  fc_mode := simulation;
  fc_bridge := "wlan0";
  fc_lan := "eth0";
  fc_portalIp := "192.168.4.1";
  fc_subnet := "192.168.4.0/24";
  fc_gateway := "192.168.4.1";
  fc_portal_port := "3000";
  fc_dns_port := "53";
  fc_logPrefix := "CAPTIVE_PORTAL: ";
  fc_logLevel := "4";
  fc_logDropped := true;
  fc_cleanup_intervalMs := 60000;
  fc_cleanup_graceperiodMs := 5000
|}.

(** Everything the services take from their surroundings: the firewall
    configuration, the gateway MAC of the environment, the outcome of a
    shell command given the effects so far, and the library functions
    (bcrypt, uuid, jsonwebtoken) the engine treats as opaque. *)
Record Env := {
  config : FirewallConfig;
  gateway_mac : string;
  maxDevicesPerUser : Z;
  session_durationHours : Z;
  shell : list Effect -> string -> bool;
  bcrypt_compare : string -> string -> bool;
  uuidv4 : Z -> string;
  jwt_sign : Z -> string -> string -> string
}.

(** ** The monad of the services: state passing over [World] *)

Definition M (A : Type) : Type := World -> A * World.

Definition ret {A} (a : A) : M A := fun w => (a, w).

Definition bind {A B} (c : M A) (k : A -> M B) : M B :=
  fun w => let (a, w') := c w in k a w'.

Declare Scope monad_scope.
Delimit Scope monad_scope with monad.
Notation "x <- c ;; k" := (bind c (fun x => k))
  (at level 61, c at next level, right associativity) : monad_scope.
Notation "c ;;; k" := (bind c (fun _ => k))
  (at level 61, right associativity) : monad_scope.
Local Open Scope monad_scope.

Definition gets {A} (f : World -> A) : M A := fun w => (f w, w).
Definition modify (f : World -> World) : M unit := fun w => (tt, f w).

(** [for (const x of xs) { ... }], collecting what each turn yields. *)
Fixpoint forM {A B} (xs : list A) (body : A -> M B) : M (list B) :=
  match xs with
  | [] => ret []
  | x :: rest =>
      y <- body x ;;
      ys <- forM rest body ;;
      ret (y :: ys)
  end.

Definition date_now : M Z := gets clock.

Definition emit (e : Effect) : M unit :=
  modify (fun w => with_trace w (trace w ++ [e])).

(** ** SQL helpers *)

Definition opt_Z_eqb (a : option Z) (b : Z) : bool :=
  match a with
  | Some x => x =? b
  | None => false
  end.

(** [col = ?] when both sides may be NULL: NULL equals nothing. *)
Definition sql_eq_str (col : string) (arg : option string) : bool :=
  match arg with
  | Some x => String.eqb col x
  | None => false
  end.

(** [col != ?]: NULL differs from nothing either. *)
Definition sql_ne_str (col : string) (arg : option string) : bool :=
  match arg with
  | Some x => negb (String.eqb col x)
  | None => false
  end.

Definition sql_eq_optZ (col : option Z) (arg : option Z) : bool :=
  match col, arg with
  | Some x, Some y => x =? y
  | _, _ => false
  end.

(** [x && new Date(x) < new Date(arg)]: a nullable instant earlier than
    [arg], the two compared as [Date] objects. *)
Definition sql_lt_opt (col : option Z) (arg : Z) : bool :=
  match col with
  | Some x => x <? arg
  | None => false
  end.

(** [col < ?] in SQL, column and argument being the ISO strings of two
    instants: TEXT against TEXT, byte by byte. *)
Definition sql_text_lt (col arg : Z) : bool :=
  String.ltb (JsDate.toISOString col) (JsDate.toISOString arg).

Arguments sql_text_lt : simpl never.

Definition sql_text_lt_opt (col : option Z) (arg : Z) : bool :=
  match col with
  | Some x => sql_text_lt x arg
  | None => false
  end.

(** [SELECT DISTINCT]: a row that was produced before is left out. *)
Fixpoint distinct {R} (eqb : R -> R -> bool) (rows : list R) : list R :=
  match rows with
  | [] => []
  | r :: rest => r :: filter (fun x => negb (eqb r x)) (distinct eqb rest)
  end.

Definition session_exists (w : World) (id : Z) : bool :=
  existsb (fun s => s_id s =? id) (sessions w).

Definition user_exists (w : World) (id : Z) : bool :=
  existsb (fun u => u_id u =? id) (users w).

(** The foreign key [session_id REFERENCES sessions(id)]. *)
Definition fk_session (w : World) (sid : option Z) : bool :=
  match sid with
  | Some id => session_exists w id
  | None => true
  end.

Definition fk_user (w : World) (uid : option Z) : bool :=
  match uid with
  | Some id => user_exists w id
  | None => true
  end.

(** [UPDATE t SET ... WHERE p], returning [changes]. *)
Definition update_where {R} (p : R -> bool) (f : R -> R) (rows : list R) : list R :=
  map (fun r => if p r then f r else r) rows.

Definition count_where {R} (p : R -> bool) (rows : list R) : Z :=
  Z.of_nat (List.length (filter p rows)).

(** ** services/logging.service.js *)

Module Logging.

(** [logEvent]: one row of [event_logs]; a row whose session or user
    does not exist violates the foreign key, and the failure is caught
    and dropped. *)
Definition logEvent (category : EventCategory) (eventType : string)
    (macAddress ipAddress : option string) (userId sessionId : option Z)
    (details : list (string * string)) (severity : Severity) : M unit :=
  fun w =>
    let row := {| e_event_category := category;
                  e_event_type := eventType;
                  e_severity := severity;
                  e_mac_address := str_or_null macAddress;
                  e_ip_address := str_or_null ipAddress;
                  e_user_id := opt_num_or_null userId;
                  e_session_id := opt_num_or_null sessionId;
                  e_details := details |} in
    (tt, with_event_logs w
           (if (fk_session w (e_session_id row) && fk_user w (e_user_id row))%bool
            then event_logs w ++ [row]
            else event_logs w)).

Definition bool_json (b : bool) : string := if b then "true" else "false".

Definition authSuccess (mac : string) (ip : string) (method : string)
    (userId : option Z) : M unit :=
  logEvent AUTH "AUTH_SUCCESS" (Some mac) (Some ip) userId None
           [("method", method)] INFO.

Definition authFailure (mac : string) (ip : string) (reason : string) : M unit :=
  logEvent AUTH "AUTH_FAILURE" (Some mac) (Some ip) None None
           [("reason", reason)] WARNING.

Definition sessionCreated (sessionId : Z) (mac ip : string) : M unit :=
  logEvent SESSION "SESSION_CREATED" (Some mac) (Some ip) None (Some sessionId)
           [] INFO.

Definition sessionExpired (sessionId : Z) (mac : string) : M unit :=
  logEvent SESSION "SESSION_EXPIRED" (Some mac) None None (Some sessionId)
           [] INFO.

Definition suspiciousActivity (mac : string) (activity : string) : M unit :=
  logEvent SECURITY "SUSPICIOUS_ACTIVITY" (Some mac) None None None
           [("activity", activity)] WARNING.

Definition ruleApplied (ruleType action : string) (simulated : bool) : M unit :=
  logEvent FIREWALL "RULE_APPLIED" None None None None
           [("ruleType", ruleType); ("action", action);
            ("simulated", bool_json simulated)] INFO.

Definition ruleRemoved (ruleType : string) (mac : string) (simulated : bool) : M unit :=
  logEvent FIREWALL "RULE_REMOVED" (Some mac) None None None
           [("ruleType", ruleType); ("simulated", bool_json simulated)] INFO.

End Logging.

(** ** utils/helpers.js *)

Module Helpers.
Import JsString.

Definition normalizeMac (mac : option string) : js_result (option string) :=
  match str_or_null mac with
  | None => Returns None
  | Some m =>
      let clean := clean m in
      if negb (Nat.eqb (String.length clean) 12) then Returns None
      else match match_pairs clean with
           | [] => Throws
           | parts => Returns (Some (join_colon parts))
           end
  end.

(** [[0-9A-Fa-f]]. *)
Definition is_hex (c : ascii) : bool :=
  let n := nat_of_ascii c in
  ((Nat.leb 48 n && Nat.leb n 57) || (Nat.leb 65 n && Nat.leb n 70)
   || (Nat.leb 97 n && Nat.leb n 102))%bool.

(** [([0-9A-Fa-f]{2}[:-]){n}] matched at the head of [s]: what is left of
    [s] after the [n] groups. *)
Fixpoint hex_groups (n : nat) (s : string) : option string :=
  match n with
  | O => Some s
  | S k =>
      match s with
      | String a (String b (String c rest)) =>
          if (is_hex a && is_hex b && is_separator c)%bool
          then hex_groups k rest else None
      | _ => None
      end
  end.

(** [/^([0-9A-Fa-f]{2}[:-]){5}([0-9A-Fa-f]{2})$/.test(mac)]. *)
Definition isValidMac (mac : string) : bool :=
  match hex_groups 5 mac with
  | Some (String a (String b EmptyString)) => (is_hex a && is_hex b)%bool
  | _ => false
  end.

(** [isValidIp]: [parts.every(...)] over the four parts. *)
Definition isValidIp (ip : string) : bool :=
  let parts := split "." ip in
  if negb (Nat.eqb (List.length parts) 4) then false
  else forallb (fun part =>
                  match parseInt part with
                  | None => false
                  | Some num =>
                      ((0 <=? num) && (num <=? 255)
                       && String.eqb part (toString num))%bool
                  end) parts.

(** [s.replace(/c/g, r)] for a pattern of one character. *)
Fixpoint replace_char (c : ascii) (r : string) (s : string) : string :=
  match s with
  | EmptyString => EmptyString
  | String a rest =>
      if (a =? c)%char then r ++ replace_char c r rest
      else String a (replace_char c r rest)
  end.

Definition sanitize (str : option string) : string :=
  match str_or_null str with
  | None => ""
  | Some s =>
      replace_char "'" "&#039;"
        (replace_char (ascii_of_nat 34) "&quot;"
           (replace_char ">" "&gt;"
              (replace_char "<" "&lt;"
                 (replace_char "&" "&amp;" s))))
  end.

End Helpers.

(** ** services/firewall/binding.service.js *)

Module BindingService.
Import JsString.

Definition normalizeMac (mac : option string) : js_result (option string) :=
  match str_or_null mac with
  | None => Returns None
  | Some m =>
      let clean := clean m in
      if negb (Nat.eqb (String.length clean) 12)
      then Returns (Some (toLowerCase m))
      else match match_pairs clean with
           | [] => Throws
           | parts => Returns (Some (join_colon parts))
           end
  end.

Inductive CreateResult :=
| Created (bindingId : Z) (macAddress : string) (ipAddress : string)
| CreateFailed.

Definition cr_success (r : CreateResult) : bool :=
  match r with
  | Created _ _ _ => true
  | CreateFailed => false
  end.

Definition retire (b : Binding) : Binding :=
  {| b_id := b_id b; b_mac_address := b_mac_address b;
     b_ip_address := b_ip_address b; b_session_id := b_session_id b;
     b_created_at := b_created_at b; b_expires_at := b_expires_at b;
     b_is_active := false |}.

(** [UPDATE mac_ip_bindings SET is_active = 0 WHERE id = ?]. *)
Definition retire_by_id (id : Z) : M unit :=
  modify (fun w =>
    with_bindings w
      (update_where (fun b => b_id b =? id) retire (mac_ip_bindings w))
      (seq_bindings w)).

(** Same MAC, active, another IP. *)
Definition rebinds (nm : option string) (ip : string) (b : Binding) : bool :=
  (sql_eq_str (b_mac_address b) nm && b_is_active b
     && negb (String.eqb (b_ip_address b) ip))%bool.

(** Same IP, active, another MAC. *)
Definition conflicts (nm : option string) (ip : string) (b : Binding) : bool :=
  (String.eqb (b_ip_address b) ip && b_is_active b
     && sql_ne_str (b_mac_address b) nm)%bool.

(** The row that [UNIQUE(mac_address, ip_address)] makes
    [INSERT OR REPLACE] delete. *)
Definition same_pair (mac ip : string) (b : Binding) : bool :=
  (String.eqb (b_mac_address b) mac && String.eqb (b_ip_address b) ip)%bool.

(** [INSERT OR REPLACE INTO mac_ip_bindings (...) VALUES (mac, ip,
    session, expires, 1)], yielding [lastInsertRowid]. *)
Definition insert_or_replace (mac ip : string) (sessionId : option Z)
    (expiresAt : option Z) : M Z :=
  fun w =>
    let id := seq_bindings w + 1 in
    let row := {| b_id := id; b_mac_address := mac; b_ip_address := ip;
                  b_session_id := sessionId; b_created_at := clock w;
                  b_expires_at := expiresAt; b_is_active := true |} in
    (id, with_bindings w
           (filter (fun b => negb (same_pair mac ip b)) (mac_ip_bindings w)
              ++ [row]) id).

Definition createBinding (macAddress : option string) (ipAddress : string)
    (sessionId : option Z) (expiresAt : option Z) : M (js_result CreateResult) :=
  match normalizeMac macAddress with
  | Throws => ret Throws
  | Returns normalizedMac =>
      existingBinding <- gets (fun w =>
        find (rebinds normalizedMac ipAddress) (mac_ip_bindings w)) ;;
      match existingBinding with
      | Some old =>
          Logging.logEvent SECURITY "MAC_IP_CHANGE" normalizedMac None None sessionId
            [("oldIp", b_ip_address old); ("newIp", ipAddress)] WARNING ;;;
          retire_by_id (b_id old)
      | None => ret tt
      end ;;;
      ipConflict <- gets (fun w =>
        find (conflicts normalizedMac ipAddress) (mac_ip_bindings w)) ;;
      match ipConflict with
      | Some other =>
          Logging.logEvent SECURITY "IP_CONFLICT" None (Some ipAddress) None sessionId
            [("existingMac", b_mac_address other);
             ("newMac", match normalizedMac with Some m => m | None => "null" end)]
            WARNING ;;;
          retire_by_id (b_id other)
      | None => ret tt
      end ;;;
      fk <- gets (fun w => fk_session w sessionId) ;;
      match normalizedMac, fk with
      | Some mac, true =>
          id <- insert_or_replace mac ipAddress sessionId expiresAt ;;
          ret (Returns (Created id mac ipAddress))
      | _, _ => ret (Returns CreateFailed)
      end
  end.

Inductive ValidateResult :=
| Valid (binding : Binding)
| NO_BINDING
| IP_MISMATCH (expectedIp : string)
| EXPIRED.

Definition active_for (nm : option string) (b : Binding) : bool :=
  (sql_eq_str (b_mac_address b) nm && b_is_active b)%bool.

Definition validateBinding (macAddress : option string) (ipAddress : string)
    : M (js_result ValidateResult) :=
  match normalizeMac macAddress with
  | Throws => ret Throws
  | Returns normalizedMac =>
      found <- gets (fun w => find (active_for normalizedMac) (mac_ip_bindings w)) ;;
      match found with
      | None => ret (Returns NO_BINDING)
      | Some binding =>
          if negb (String.eqb (b_ip_address binding) ipAddress) then
            Logging.logEvent SECURITY "BINDING_VIOLATION" normalizedMac None None None
              [("expectedIp", b_ip_address binding); ("actualIp", ipAddress)]
              WARNING ;;;
            ret (Returns (IP_MISMATCH (b_ip_address binding)))
          else
            now <- date_now ;;
            if sql_lt_opt (b_expires_at binding) now
            then ret (Returns EXPIRED)
            else ret (Returns (Valid binding))
      end
  end.

(** [UPDATE ... SET is_active = 0 WHERE p], yielding [changes]. *)
Definition retire_where (p : Binding -> bool) : M Z :=
  fun w =>
    (count_where p (mac_ip_bindings w),
     with_bindings w (update_where p retire (mac_ip_bindings w)) (seq_bindings w)).

Definition removeBinding (macAddress : option string) : M (js_result Z) :=
  match normalizeMac macAddress with
  | Throws => ret Throws
  | Returns normalizedMac =>
      removed <- retire_where (active_for normalizedMac) ;;
      ret (Returns removed)
  end.

Definition removeBindingBySession (sessionId : Z) : M Z :=
  retire_where (fun b => (opt_Z_eqb (b_session_id b) sessionId && b_is_active b)%bool).

Definition cleanupExpiredBindings : M Z :=
  now <- date_now ;;
  retire_where (fun b => (b_is_active b && sql_text_lt_opt (b_expires_at b) now)%bool).

Definition getBindingByMac (macAddress : option string)
    : M (js_result (option Binding)) :=
  match normalizeMac macAddress with
  | Throws => ret Throws
  | Returns normalizedMac =>
      found <- gets (fun w => find (active_for normalizedMac) (mac_ip_bindings w)) ;;
      ret (Returns found)
  end.

Definition getBindingByIp (ipAddress : string) : M (option Binding) :=
  gets (fun w =>
    find (fun b => (String.eqb (b_ip_address b) ipAddress && b_is_active b)%bool)
         (mac_ip_bindings w)).

End BindingService.

(** ** What the two rule services share in shape *)

Record Rule := {
  description : string;
  commands : list string;
  removeCommands : list string
}.

Record CommandResult := {
  cmd_success : bool;
  cmd_simulated : bool;
  cmd_command : string
}.

Record RulesResult := {
  rr_success : bool;
  rr_rules : list CommandResult
}.

(** [results.every(r => r.success)]. *)
Definition every_success (results : list CommandResult) : bool :=
  forallb cmd_success results.

Definition dquote : string := String (ascii_of_nat 34) EmptyString.

Definition removed (r : FirewallRule) (now : Z) : FirewallRule :=
  {| r_id := r_id r; r_rule_type := r_rule_type r;
     r_rule_action := r_rule_action r; r_rule_command := r_rule_command r;
     r_session_id := r_session_id r; r_mac_address := r_mac_address r;
     r_ip_address := r_ip_address r; r_applied_at := r_applied_at r;
     r_removed_at := Some now; r_is_active := false;
     r_is_simulated := r_is_simulated r |}.

(** ** services/firewall/iptables.service.js *)

Module IptablesService.
Section WithEnv.
Variable env : Env.

Definition isSimulationMode : bool :=
  match fc_mode (config env) with
  | simulation => true
  | production => false
  end.

Definition executeCommand (command description : string) : M CommandResult :=
  let fullCommand := "iptables " ++ command in
  if isSimulationMode then
    Logging.ruleApplied "iptables" description true ;;;
    emit (EnforcerCall fullCommand true true) ;;;
    ret {| cmd_success := true; cmd_simulated := true; cmd_command := fullCommand |}
  else
    ok <- gets (fun w => shell env (trace w) fullCommand) ;;
    emit (EnforcerCall fullCommand false ok) ;;;
    (if ok then Logging.ruleApplied "iptables" description false else ret tt) ;;;
    ret {| cmd_success := ok; cmd_simulated := false; cmd_command := fullCommand |}.

Definition generateAllowRule (macAddress ipAddress : string) : Rule :=
  let cfg := config env in
  {| description := "Allow internet access for " ++ macAddress ++ " (" ++ ipAddress ++ ")";
     commands :=
       [ "-A FORWARD -i " ++ fc_bridge cfg ++ " -o " ++ fc_lan cfg
           ++ " -m mac --mac-source " ++ macAddress ++ " -s " ++ ipAddress ++ " -j ACCEPT";
         "-A FORWARD -i " ++ fc_lan cfg ++ " -o " ++ fc_bridge cfg
           ++ " -d " ++ ipAddress ++ " -j ACCEPT" ];
     removeCommands :=
       [ "-D FORWARD -i " ++ fc_bridge cfg ++ " -o " ++ fc_lan cfg
           ++ " -m mac --mac-source " ++ macAddress ++ " -s " ++ ipAddress ++ " -j ACCEPT";
         "-D FORWARD -i " ++ fc_lan cfg ++ " -o " ++ fc_bridge cfg
           ++ " -d " ++ ipAddress ++ " -j ACCEPT" ] |}.

Definition generatePortalRedirectRule (macAddress : string) : Rule :=
  let cfg := config env in
  let dnat (op port : string) :=
    "-t nat " ++ op ++ " PREROUTING -i " ++ fc_bridge cfg
      ++ " -m mac --mac-source " ++ macAddress ++ " -p tcp --dport " ++ port
      ++ " -j DNAT --to-destination " ++ fc_portalIp cfg ++ ":" ++ fc_portal_port cfg in
  {| description := "Redirect HTTP to portal for " ++ macAddress;
     commands := [ dnat "-A" "80"; dnat "-A" "443" ];
     removeCommands := [ dnat "-D" "80"; dnat "-D" "443" ] |}.

Definition generateBindingRule (macAddress ipAddress : string) : Rule :=
  let cfg := config env in
  let from (op : string) :=
    op ++ " FORWARD -i " ++ fc_bridge cfg ++ " -m mac --mac-source " ++ macAddress in
  let spoof := " -j LOG --log-prefix " ++ dquote ++ fc_logPrefix cfg ++ "SPOOF: " ++ dquote in
  {| description := "MAC/IP binding validation for " ++ macAddress ++ " -> " ++ ipAddress;
     commands :=
       [ from "-A" ++ " -s " ++ ipAddress ++ " -j RETURN";
         from "-A" ++ " ! -s " ++ ipAddress ++ spoof;
         from "-A" ++ " ! -s " ++ ipAddress ++ " -j DROP" ];
     removeCommands :=
       [ from "-D" ++ " -s " ++ ipAddress ++ " -j RETURN";
         from "-D" ++ " ! -s " ++ ipAddress ++ spoof;
         from "-D" ++ " ! -s " ++ ipAddress ++ " -j DROP" ] |}.

Definition generateDnsAllowRule (macAddress : string) : Rule :=
  let cfg := config env in
  let dns (op proto : string) :=
    op ++ " INPUT -i " ++ fc_bridge cfg ++ " -m mac --mac-source " ++ macAddress
      ++ " -p " ++ proto ++ " --dport " ++ fc_dns_port cfg ++ " -j ACCEPT" in
  {| description := "Allow DNS for " ++ macAddress;
     commands := [ dns "-A" "udp"; dns "-A" "tcp" ];
     removeCommands := [ dns "-D" "udp"; dns "-D" "tcp" ] |}.

(** [storeRule]: the ledger row of one command; a foreign-key failure
    is caught and logged to the console only. *)
Definition storeRule (ruleType action command macAddress ipAddress : string)
    (sessionId : Z) : M unit :=
  fun w =>
    if session_exists w sessionId then
      let id := seq_rules w + 1 in
      let row := {| r_id := id; r_rule_type := ruleType; r_rule_action := action;
                    r_rule_command := command; r_session_id := Some sessionId;
                    r_mac_address := macAddress; r_ip_address := ipAddress;
                    r_applied_at := Some (clock w); r_removed_at := None;
                    r_is_active := true; r_is_simulated := isSimulationMode |} in
      emit (LedgerInsert command (Some sessionId))
           (with_rules w (firewall_rules w ++ [row]) id)
    else (tt, w).

Definition markRulesRemoved (sessionId : Z) : M unit :=
  now <- date_now ;;
  modify (fun w =>
    with_rules w
      (update_where
         (fun r => (opt_Z_eqb (r_session_id r) sessionId && r_is_active r)%bool)
         (fun r => removed r now) (firewall_rules w))
      (seq_rules w)) ;;;
  emit (LedgerRetract sessionId None).

(** The rules of an authenticated client, in the order they are pushed. *)
Definition clientRules (macAddress ipAddress : string) : list Rule :=
  [ generateAllowRule macAddress ipAddress;
    generateBindingRule macAddress ipAddress;
    generateDnsAllowRule macAddress ].

Definition applyAuthenticatedRules (macAddress ipAddress : string) (sessionId : Z)
    : M RulesResult :=
  nested <- forM (clientRules macAddress ipAddress) (fun rule =>
    forM (commands rule) (fun cmd =>
      result <- executeCommand cmd (description rule) ;;
      storeRule "iptables" "ALLOW" cmd macAddress ipAddress sessionId ;;;
      ret result)) ;;
  let results := List.concat nested in
  ret {| rr_success := every_success results; rr_rules := results |}.

Definition removeClientRules (macAddress ipAddress : string) (sessionId : Z)
    : M RulesResult :=
  nested <- forM (clientRules macAddress ipAddress) (fun rule =>
    forM (removeCommands rule) (fun cmd =>
      executeCommand cmd ("Remove: " ++ description rule))) ;;
  let results := List.concat nested in
  markRulesRemoved sessionId ;;;
  Logging.ruleRemoved "iptables" macAddress isSimulationMode ;;;
  ret {| rr_success := every_success results; rr_rules := results |}.

Definition applyPortalRedirect (macAddress : string) : M RulesResult :=
  let rule := generatePortalRedirectRule macAddress in
  results <- forM (commands rule) (fun cmd =>
    executeCommand cmd (description rule)) ;;
  ret {| rr_success := every_success results; rr_rules := results |}.

Definition removePortalRedirect (macAddress : string) : M RulesResult :=
  let rule := generatePortalRedirectRule macAddress in
  results <- forM (removeCommands rule) (fun cmd =>
    executeCommand cmd ("Remove: " ++ description rule)) ;;
  ret {| rr_success := every_success results; rr_rules := results |}.

(** [getActiveRules], the rows behind [getSimulationSummary]. *)
Definition getActiveRules : M (list FirewallRule) :=
  gets (fun w => filter r_is_active (firewall_rules w)).

End WithEnv.
End IptablesService.

(** ** services/firewall/ebtables.service.js *)

Module EbtablesService.
Section WithEnv.
Variable env : Env.

Definition isSimulationMode : bool :=
  match fc_mode (config env) with
  | simulation => true
  | production => false
  end.

Definition executeCommand (command description : string) : M CommandResult :=
  let fullCommand := "ebtables " ++ command in
  if isSimulationMode then
    Logging.ruleApplied "ebtables" description true ;;;
    emit (EnforcerCall fullCommand true true) ;;;
    ret {| cmd_success := true; cmd_simulated := true; cmd_command := fullCommand |}
  else
    ok <- gets (fun w => shell env (trace w) fullCommand) ;;
    emit (EnforcerCall fullCommand false ok) ;;;
    (if ok then Logging.ruleApplied "ebtables" description false else ret tt) ;;;
    ret {| cmd_success := ok; cmd_simulated := false; cmd_command := fullCommand |}.

Definition generateArpProtectionRule (gatewayIp gatewayMac clientMac clientIp : string)
    : Rule :=
  let cfg := config env in
  let level := " --log-level " ++ fc_logLevel cfg in
  let log (tag : string) := " -j LOG --log-prefix " ++ dquote ++ tag ++ dquote ++ level in
  let arp (op : string) := op ++ " FORWARD -p arp" in
  let body (op : string) :=
    [ arp op ++ " --arp-ip-src " ++ gatewayIp ++ " --arp-mac-src " ++ gatewayMac ++ " -j ACCEPT";
      arp op ++ " --arp-ip-src " ++ clientIp ++ " --arp-mac-src " ++ clientMac ++ " -j ACCEPT";
      arp op ++ " --arp-ip-src " ++ gatewayIp ++ " ! --arp-mac-src " ++ gatewayMac
        ++ log "ARP_SPOOF_GW: ";
      arp op ++ " --arp-ip-src " ++ gatewayIp ++ " ! --arp-mac-src " ++ gatewayMac ++ " -j DROP";
      arp op ++ " --arp-mac-src " ++ clientMac ++ " ! --arp-ip-src " ++ clientIp
        ++ log "ARP_SPOOF_CLIENT: ";
      arp op ++ " --arp-mac-src " ++ clientMac ++ " ! --arp-ip-src " ++ clientIp ++ " -j DROP" ] in
  {| description := "ARP protection for " ++ clientMac ++ " (" ++ clientIp ++ ")";
     commands := body "-A";
     removeCommands := body "-D" |}.

Definition generateMacIpBindingRule (clientMac clientIp : string) : Rule :=
  let cfg := config env in
  let ip (op : string) := op ++ " FORWARD -p ip -i " ++ fc_bridge cfg in
  let body (op : string) :=
    [ ip op ++ " --ip-src " ++ clientIp ++ " -s " ++ clientMac ++ " -j ACCEPT";
      ip op ++ " -s " ++ clientMac ++ " ! --ip-src " ++ clientIp
        ++ " -j LOG --log-prefix " ++ dquote ++ "IP_SPOOF: " ++ dquote
        ++ " --log-level " ++ fc_logLevel cfg;
      ip op ++ " -s " ++ clientMac ++ " ! --ip-src " ++ clientIp ++ " -j DROP" ] in
  {| description := "L2 MAC/IP binding for " ++ clientMac ++ " -> " ++ clientIp;
     commands := body "-A";
     removeCommands := body "-D" |}.

Definition storeRule (ruleType action command macAddress ipAddress : string)
    (sessionId : Z) : M unit :=
  fun w =>
    if session_exists w sessionId then
      let id := seq_rules w + 1 in
      let row := {| r_id := id; r_rule_type := ruleType; r_rule_action := action;
                    r_rule_command := command; r_session_id := Some sessionId;
                    r_mac_address := macAddress; r_ip_address := ipAddress;
                    r_applied_at := Some (clock w); r_removed_at := None;
                    r_is_active := true; r_is_simulated := isSimulationMode |} in
      emit (LedgerInsert command (Some sessionId))
           (with_rules w (firewall_rules w ++ [row]) id)
    else (tt, w).

Definition markRulesRemoved (sessionId : Z) (ruleType : option string) : M unit :=
  now <- date_now ;;
  modify (fun w =>
    with_rules w
      (update_where
         (fun r => (opt_Z_eqb (r_session_id r) sessionId && r_is_active r
                      && match str_or_null ruleType with
                         | Some t => String.eqb (r_rule_type r) t
                         | None => true
                         end)%bool)
         (fun r => removed r now) (firewall_rules w))
      (seq_rules w)) ;;;
  emit (LedgerRetract sessionId ruleType).

Definition clientRules (macAddress ipAddress : string) : list Rule :=
  [ generateMacIpBindingRule macAddress ipAddress;
    generateArpProtectionRule (fc_gateway (config env)) (gateway_mac env)
                              macAddress ipAddress ].

Definition applyClientIsolation (macAddress ipAddress : string) (sessionId : Z)
    : M RulesResult :=
  nested <- forM (clientRules macAddress ipAddress) (fun rule =>
    forM (commands rule) (fun cmd =>
      result <- executeCommand cmd (description rule) ;;
      storeRule "ebtables" "ISOLATION" cmd macAddress ipAddress sessionId ;;;
      ret result)) ;;
  let results := List.concat nested in
  ret {| rr_success := every_success results; rr_rules := results |}.

Definition removeClientIsolation (macAddress ipAddress : string) (sessionId : Z)
    : M RulesResult :=
  nested <- forM (clientRules macAddress ipAddress) (fun rule =>
    forM (removeCommands rule) (fun cmd =>
      executeCommand cmd ("Remove: " ++ description rule))) ;;
  let results := List.concat nested in
  markRulesRemoved sessionId (Some "ebtables") ;;;
  Logging.ruleRemoved "ebtables" macAddress isSimulationMode ;;;
  ret {| rr_success := every_success results; rr_rules := results |}.

End WithEnv.
End EbtablesService.

(** ** services/firewall/rule-engine.service.js *)

Record SessionData := {
  sessionId : Z;
  macAddress : string;
  ipAddress : string;
  authMethod : string;
  expiresAt : option Z
}.

Record Step := {
  step : string;
  step_success : bool
}.

Record EngineResult := {
  success : bool;
  steps : list Step;
  error : bool
}.

Module RuleEngine.
Section WithEnv.
Variable env : Env.

Definition grantClientAccess (sessionData : SessionData) : M EngineResult :=
  let sid := sessionId sessionData in
  let mac := macAddress sessionData in
  let ip := ipAddress sessionData in
  bindingResult <- BindingService.createBinding (Some mac) ip (Some sid)
                     (expiresAt sessionData) ;;
  match bindingResult with
  | Throws =>
      Logging.logEvent FIREWALL "ACCESS_GRANT_ERROR" (Some mac) (Some ip) None (Some sid)
        [] ERROR ;;;
      ret {| success := false; steps := []; error := true |}
  | Returns binding =>
      redirectResult <- IptablesService.removePortalRedirect env mac ;;
      iptablesResult <- IptablesService.applyAuthenticatedRules env mac ip sid ;;
      ebtablesResult <- EbtablesService.applyClientIsolation env mac ip sid ;;
      let steps :=
        [ {| step := "MAC/IP Binding";
             step_success := BindingService.cr_success binding |};
          {| step := "Remove Portal Redirect";
             step_success := rr_success redirectResult |};
          {| step := "Layer 3 Rules (iptables)";
             step_success := rr_success iptablesResult |};
          {| step := "Layer 2 Rules (ebtables)";
             step_success := rr_success ebtablesResult |} ] in
      Logging.logEvent FIREWALL "ACCESS_GRANTED" (Some mac) (Some ip) None (Some sid)
        [("authMethod", authMethod sessionData);
         ("simulated", Logging.bool_json (IptablesService.isSimulationMode env))]
        INFO ;;;
      ret {| success := forallb step_success steps; steps := steps; error := false |}
  end.

Definition revokeClientAccess (sessionData : SessionData) : M EngineResult :=
  let sid := sessionId sessionData in
  let mac := macAddress sessionData in
  let ip := ipAddress sessionData in
  iptablesResult <- IptablesService.removeClientRules env mac ip sid ;;
  ebtablesResult <- EbtablesService.removeClientIsolation env mac ip sid ;;
  removedBindings <- BindingService.removeBindingBySession sid ;;
  redirectResult <- IptablesService.applyPortalRedirect env mac ;;
  let steps :=
    [ {| step := "Remove Layer 3 Rules"; step_success := rr_success iptablesResult |};
      {| step := "Remove Layer 2 Rules"; step_success := rr_success ebtablesResult |};
      {| step := "Remove MAC/IP Binding"; step_success := true |};
      {| step := "Apply Portal Redirect"; step_success := rr_success redirectResult |} ] in
  Logging.logEvent FIREWALL "ACCESS_REVOKED" (Some mac) (Some ip) None (Some sid)
    [("simulated", Logging.bool_json (IptablesService.isSimulationMode env))] INFO ;;;
  ret {| success := forallb step_success steps; steps := steps; error := false |}.

Record CleanupResult := {
  cleaned : Z;
  bindingsCleaned : option Z;
  cleaned_sessions : list (Z * string * bool)
}.

(** A row of the cleanup query: [id], [mac_address], [ip_address]. *)
Definition ExpiredSession : Type := (Z * string * string)%type.

Definition expired_eqb (a b : ExpiredSession) : bool :=
  ((fst (fst a) =? fst (fst b))
   && String.eqb (snd (fst a)) (snd (fst b))
   && String.eqb (snd a) (snd b))%bool.

(** [SELECT DISTINCT s.id, s.mac_address, s.ip_address FROM sessions s
    INNER JOIN firewall_rules f ON s.id = f.session_id
    WHERE s.expires_at < ? AND f.is_active = 1].  SQLite scans
    [firewall_rules] and looks the session of each rule up by its key, so
    the sessions come in the order of their first active rule. *)
Definition expired_with_active_rules (now : Z) (w : World) : list ExpiredSession :=
  distinct expired_eqb
    (flat_map
       (fun f =>
          if r_is_active f
          then map (fun s => (s_id s, s_mac_address s, s_ip_address s))
                   (filter (fun s => (opt_Z_eqb (r_session_id f) (s_id s)
                                      && sql_text_lt (s_expires_at s) now)%bool)
                           (sessions w))
          else [])
       (firewall_rules w)).

Definition cleanupExpiredSessions : M CleanupResult :=
  now <- date_now ;;
  expiredSessions <- gets (expired_with_active_rules now) ;;
  match expiredSessions with
  | [] => ret {| cleaned := 0; bindingsCleaned := None; cleaned_sessions := [] |}
  | _ =>
      results <- forM expiredSessions (fun session =>
        result <- revokeClientAccess
                    {| sessionId := fst (fst session);
                       macAddress := snd (fst session);
                       ipAddress := snd session;
                       authMethod := "";
                       expiresAt := None |} ;;
        ret (fst (fst session), snd (fst session), success result)) ;;
      bindings <- BindingService.cleanupExpiredBindings ;;
      ret {| cleaned := Z.of_nat (List.length results);
             bindingsCleaned := Some bindings;
             cleaned_sessions := results |}
  end.


End WithEnv.
End RuleEngine.

(** ** services/session-firewall.service.js *)

Module SessionFirewall.
Section WithEnv.
Variable env : Env.

Definition sessionData_of (session : Session) : SessionData :=
  {| sessionId := s_id session;
     macAddress := s_mac_address session;
     ipAddress := s_ip_address session;
     authMethod := s_auth_method session;
     expiresAt := Some (s_expires_at session) |}.

Definition set_firewall_applied (flag : bool) (s : Session) : Session :=
  {| s_id := s_id s; s_session_token := s_session_token s;
     s_user_id := s_user_id s; s_voucher_id := s_voucher_id s;
     s_device_id := s_device_id s; s_mac_address := s_mac_address s;
     s_ip_address := s_ip_address s; s_auth_method := s_auth_method s;
     s_started_at := s_started_at s; s_expires_at := s_expires_at s;
     s_ended_at := s_ended_at s; s_is_active := s_is_active s;
     s_firewall_applied := flag |}.

Definition end_session (s : Session) : Session :=
  {| s_id := s_id s; s_session_token := s_session_token s;
     s_user_id := s_user_id s; s_voucher_id := s_voucher_id s;
     s_device_id := s_device_id s; s_mac_address := s_mac_address s;
     s_ip_address := s_ip_address s; s_auth_method := s_auth_method s;
     s_started_at := s_started_at s; s_expires_at := s_expires_at s;
     s_ended_at := s_ended_at s; s_is_active := false;
     s_firewall_applied := false |}.

Definition update_sessions (p : Session -> bool) (f : Session -> Session) : M unit :=
  modify (fun w =>
    with_sessions w (update_where p f (sessions w)) (seq_sessions w)).

Definition onSessionCreated (session : Session) : M EngineResult :=
  result <- RuleEngine.grantClientAccess env (sessionData_of session) ;;
  update_sessions (fun s => s_id s =? s_id session)
                  (set_firewall_applied (success result)) ;;;
  ret result.

Definition onSessionEnded (session : Session) : M EngineResult :=
  result <- RuleEngine.revokeClientAccess env
              {| sessionId := s_id session;
                 macAddress := s_mac_address session;
                 ipAddress := s_ip_address session;
                 authMethod := "";
                 expiresAt := None |} ;;
  update_sessions (fun s => s_id s =? s_id session) end_session ;;;
  ret result.

Definition find_session (id : Z) : M (option Session) :=
  gets (fun w => find (fun s => s_id s =? id) (sessions w)).

Definition logoutSession (sessionId : Z) : M (option EngineResult) :=
  session <- find_session sessionId ;;
  match session with
  | None => ret None
  | Some s => result <- onSessionEnded s ;; ret (Some result)
  end.

Definition logoutDevice (macAddress : string) : M (list (Z * EngineResult)) :=
  found <- gets (fun w =>
    filter (fun s => (String.eqb (s_mac_address s) macAddress && s_is_active s)%bool)
           (sessions w)) ;;
  forM found (fun session =>
    result <- onSessionEnded session ;;
    ret (s_id session, result)).

Definition forceDisconnect (sessionId : Z) (adminId : Z) (reason : string)
    : M (option EngineResult) :=
  session <- find_session sessionId ;;
  match session with
  | None => ret None
  | Some s =>
      Logging.logEvent ADMIN "FORCE_DISCONNECT" (Some (s_mac_address s)) None None
        (Some sessionId) [("reason", reason)] WARNING ;;;
      result <- onSessionEnded s ;;
      ret (Some result)
  end.

End WithEnv.
End SessionFirewall.

(** ** services/auth.service.js *)

Inductive AuthResult :=
| AuthOk (token : string) (session_id : Z) (expires_at : Z) (message : string)
| AuthFailed (message : string).

Definition auth_success (r : AuthResult) : bool :=
  match r with
  | AuthOk _ _ _ _ => true
  | AuthFailed _ => false
  end.

Module AuthService.
Import JsString.

Definition default_mac : string := "00:00:00:00:00:00".

Definition normalizeMacAddress (mac : option string) : string :=
  match str_or_null mac with
  | None => default_mac
  | Some m =>
      match match_pairs (clean m) with
      | [] => default_mac
      | parts => join_colon parts
      end
  end.

Section WithEnv.
Variable env : Env.

Definition generateToken (session : Session) : string :=
  jwt_sign env (s_id session) (s_mac_address session) (s_auth_method session).

Definition touch_device (now : Z) (d : Device) : Device :=
  {| d_id := d_id d; d_mac_address := d_mac_address d; d_last_seen := now;
     d_total_sessions := d_total_sessions d; d_is_blocked := d_is_blocked d;
     d_block_reason := d_block_reason d |}.

Definition count_session (now : Z) (d : Device) : Device :=
  {| d_id := d_id d; d_mac_address := d_mac_address d; d_last_seen := now;
     d_total_sessions := d_total_sessions d + 1; d_is_blocked := d_is_blocked d;
     d_block_reason := d_block_reason d |}.

Definition getOrCreateDevice (macAddress : string) : M Device :=
  found <- gets (fun w =>
    find (fun d => String.eqb (d_mac_address d) macAddress) (devices w)) ;;
  match found with
  | None =>
      fun w =>
        let id := seq_devices w + 1 in
        let row := {| d_id := id; d_mac_address := macAddress;
                      d_last_seen := clock w; d_total_sessions := 0;
                      d_is_blocked := false; d_block_reason := None |} in
        (row, with_devices w (devices w ++ [row]) id)
  | Some device =>
      modify (fun w =>
        with_devices w
          (update_where (fun d => d_id d =? d_id device) (touch_device (clock w))
                        (devices w))
          (seq_devices w)) ;;;
      ret device
  end.

Record NewSession := {
  ns_id : Z;
  ns_token : string;
  ns_expiresAt : Z
}.

(** [createSession]; the background [onSessionCreated] it triggers is
    run here, where its synchronous prefix (the binding step of the
    grant) runs in the source. *)
Definition createSession (userId voucherId : option Z) (deviceId : Z)
    (macAddress ipAddress authMethod : string) (durationHours : Z) : M NewSession :=
  now <- date_now ;;
  let expiresAt := now + durationHours * 60 * 60 * 1000 in
  session <- (fun w =>
    let id := seq_sessions w + 1 in
    let row := {| s_id := id; s_session_token := uuidv4 env id;
                  s_user_id := opt_num_or_null userId;
                  s_voucher_id := opt_num_or_null voucherId;
                  s_device_id := deviceId; s_mac_address := macAddress;
                  s_ip_address := ipAddress; s_auth_method := authMethod;
                  s_started_at := now; s_expires_at := expiresAt;
                  s_ended_at := None; s_is_active := true;
                  s_firewall_applied := false |} in
    (row, with_sessions w (sessions w ++ [row]) id)) ;;
  BindingService.insert_or_replace macAddress ipAddress (Some (s_id session))
                                   (Some expiresAt) ;;;
  modify (fun w =>
    with_devices w
      (update_where (fun d => d_id d =? deviceId) (count_session (clock w)) (devices w))
      (seq_devices w)) ;;;
  Logging.sessionCreated (s_id session) macAddress ipAddress ;;;
  SessionFirewall.onSessionCreated env session ;;;
  ret {| ns_id := s_id session; ns_token := generateToken session;
         ns_expiresAt := expiresAt |}.

(** [COUNT(DISTINCT mac_address)] over the rows selected by [p]. *)
Definition count_distinct_macs (p : Session -> bool) (rows : list Session) : Z :=
  Z.of_nat (List.length (nodup string_dec (map s_mac_address (filter p rows)))).

Definition mark_used (now : Z) (mac : string) (v : Voucher) : Voucher :=
  {| v_id := v_id v; v_code := v_code v; v_duration_hours := v_duration_hours v;
     v_max_devices := v_max_devices v; v_expires_at := v_expires_at v;
     v_used_at := Some now; v_used_by_device := Some mac;
     v_is_active := v_is_active v |}.

Definition authenticateWithVoucher (code : string) (macAddress : option string)
    (ipAddress : string) : M AuthResult :=
  let normalizedMac := normalizeMacAddress macAddress in
  voucher <- gets (fun w =>
    find (fun v => (String.eqb (v_code v) (toUpperCase code) && v_is_active v)%bool)
         (vouchers w)) ;;
  match voucher with
  | None =>
      Logging.authFailure normalizedMac ipAddress "Invalid voucher code" ;;;
      ret (AuthFailed "Invalid voucher code")
  | Some voucher =>
      now <- date_now ;;
      if sql_lt_opt (v_expires_at voucher) now then
        Logging.authFailure normalizedMac ipAddress "Voucher expired" ;;;
        ret (AuthFailed "Voucher has expired")
      else
        let uses (s : Session) :=
          (opt_Z_eqb (s_voucher_id s) (v_id voucher) && s_is_active s)%bool in
        deviceCount <- gets (fun w => count_distinct_macs uses (sessions w)) ;;
        existingSession <- gets (fun w =>
          find (fun s => (opt_Z_eqb (s_voucher_id s) (v_id voucher)
                            && String.eqb (s_mac_address s) normalizedMac
                            && s_is_active s)%bool)
               (sessions w)) ;;
        match existingSession, v_max_devices voucher <=? deviceCount with
        | None, true =>
            Logging.authFailure normalizedMac ipAddress "Voucher device limit reached" ;;;
            ret (AuthFailed "Maximum devices reached for this voucher")
        | _, _ =>
            device <- getOrCreateDevice normalizedMac ;;
            if d_is_blocked device then
              Logging.authFailure normalizedMac ipAddress "Device is blocked" ;;;
              ret (AuthFailed "This device has been blocked")
            else
              match existingSession with
              | Some existing =>
                  ret (AuthOk (generateToken existing) (s_id existing)
                              (s_expires_at existing) "Session resumed")
              | None =>
                  session <- createSession None (Some (v_id voucher)) (d_id device)
                               normalizedMac ipAddress "voucher"
                               (v_duration_hours voucher) ;;
                  (match v_used_at voucher with
                   | None =>
                       modify (fun w =>
                         with_vouchers w
                           (update_where (fun v => v_id v =? v_id voucher)
                                         (mark_used (clock w) normalizedMac)
                                         (vouchers w)))
                   | Some _ => ret tt
                   end) ;;;
                  Logging.authSuccess normalizedMac ipAddress "voucher" None ;;;
                  ret (AuthOk (ns_token session) (ns_id session)
                              (ns_expiresAt session) "Authentication successful")
              end
        end
  end.

Definition logged_in (now : Z) (u : User) : User :=
  {| u_id := u_id u; u_username := u_username u;
     u_password_hash := u_password_hash u; u_is_active := u_is_active u;
     u_last_login := Some now |}.

Definition authenticateWithCredentials (username password : string)
    (macAddress : option string) (ipAddress : string) : M AuthResult :=
  let normalizedMac := normalizeMacAddress macAddress in
  user <- gets (fun w =>
    find (fun u => (String.eqb (u_username u) username && u_is_active u)%bool)
         (users w)) ;;
  match user with
  | None =>
      Logging.authFailure normalizedMac ipAddress "User not found" ;;;
      ret (AuthFailed "Invalid username or password")
  | Some user =>
      if negb (bcrypt_compare env password (u_password_hash user)) then
        Logging.authFailure normalizedMac ipAddress "Invalid password" ;;;
        ret (AuthFailed "Invalid username or password")
      else
        device <- getOrCreateDevice normalizedMac ;;
        if d_is_blocked device then
          Logging.authFailure normalizedMac ipAddress "Device is blocked" ;;;
          ret (AuthFailed "This device has been blocked")
        else
          let uses (s : Session) :=
            (opt_Z_eqb (s_user_id s) (u_id user) && s_is_active s)%bool in
          activeDevices <- gets (fun w => count_distinct_macs uses (sessions w)) ;;
          existingSession <- gets (fun w =>
            find (fun s => (opt_Z_eqb (s_user_id s) (u_id user)
                              && String.eqb (s_mac_address s) normalizedMac
                              && s_is_active s)%bool)
                 (sessions w)) ;;
          match existingSession with
          | Some existing =>
              ret (AuthOk (generateToken existing) (s_id existing)
                          (s_expires_at existing) "Session resumed")
          | None =>
              if maxDevicesPerUser env <=? activeDevices then
                Logging.authFailure normalizedMac ipAddress "Device limit reached" ;;;
                ret (AuthFailed "Maximum devices reached")
              else
                session <- createSession (Some (u_id user)) None (d_id device)
                             normalizedMac ipAddress "user"
                             (session_durationHours env) ;;
                modify (fun w =>
                  with_users w
                    (update_where (fun u => u_id u =? u_id user)
                                  (logged_in (clock w)) (users w))) ;;;
                Logging.authSuccess normalizedMac ipAddress "user" (Some (u_id user)) ;;;
                ret (AuthOk (ns_token session) (ns_id session)
                            (ns_expiresAt session) "Authentication successful")
          end
  end.

Definition deactivate (s : Session) : Session :=
  {| s_id := s_id s; s_session_token := s_session_token s;
     s_user_id := s_user_id s; s_voucher_id := s_voucher_id s;
     s_device_id := s_device_id s; s_mac_address := s_mac_address s;
     s_ip_address := s_ip_address s; s_auth_method := s_auth_method s;
     s_started_at := s_started_at s; s_expires_at := s_expires_at s;
     s_ended_at := s_ended_at s; s_is_active := false;
     s_firewall_applied := s_firewall_applied s |}.

(** [validateSession], given the session id the token decodes to
    ([None] for a token that does not verify). *)
Definition validateSession (decoded : option Z) : M (option Session) :=
  match decoded with
  | None => ret None
  | Some id =>
      session <- gets (fun w =>
        find (fun s => ((s_id s =? id) && s_is_active s)%bool) (sessions w)) ;;
      match session with
      | None => ret None
      | Some s =>
          now <- date_now ;;
          if s_expires_at s <? now then
            SessionFirewall.update_sessions (fun x => s_id x =? s_id s) deactivate ;;;
            ret None
          else ret (Some s)
      end
  end.

Definition endSession (sessionId : Z) : M unit :=
  SessionFirewall.logoutSession env sessionId ;;;
  BindingService.retire_where (fun b => opt_Z_eqb (b_session_id b) sessionId) ;;;
  ret tt.

End WithEnv.
End AuthService.

(** ** services/session.service.js *)

Module SessionService.

Definition disconnect (now : Z) (s : Session) : Session :=
  {| s_id := s_id s; s_session_token := s_session_token s;
     s_user_id := s_user_id s; s_voucher_id := s_voucher_id s;
     s_device_id := s_device_id s; s_mac_address := s_mac_address s;
     s_ip_address := s_ip_address s; s_auth_method := s_auth_method s;
     s_started_at := s_started_at s; s_expires_at := s_expires_at s;
     s_ended_at := Some now; s_is_active := false;
     s_firewall_applied := s_firewall_applied s |}.

(** [disconnectSession], the operator's DELETE /sessions/:id. *)
Definition disconnectSession (sessionId : Z) : M bool :=
  session <- SessionFirewall.find_session sessionId ;;
  match session with
  | None => ret false
  | Some s =>
      now <- date_now ;;
      SessionFirewall.update_sessions (fun x => s_id x =? sessionId) (disconnect now) ;;;
      BindingService.retire_where (fun b => opt_Z_eqb (b_session_id b) sessionId) ;;;
      Logging.sessionExpired sessionId (s_mac_address s) ;;;
      ret true
  end.

Definition set_session_expiry (t : Z) (s : Session) : Session :=
  {| s_id := s_id s; s_session_token := s_session_token s;
     s_user_id := s_user_id s; s_voucher_id := s_voucher_id s;
     s_device_id := s_device_id s; s_mac_address := s_mac_address s;
     s_ip_address := s_ip_address s; s_auth_method := s_auth_method s;
     s_started_at := s_started_at s; s_expires_at := t;
     s_ended_at := s_ended_at s; s_is_active := s_is_active s;
     s_firewall_applied := s_firewall_applied s |}.

Definition set_binding_expiry (t : Z) (b : Binding) : Binding :=
  {| b_id := b_id b; b_mac_address := b_mac_address b;
     b_ip_address := b_ip_address b; b_session_id := b_session_id b;
     b_created_at := b_created_at b; b_expires_at := Some t;
     b_is_active := b_is_active b |}.

(** [extendSession]: [toISOString] throws a [RangeError] when the new
    instant is not a time value a [Date] holds; nothing is written then. *)
Definition extendSession (sessionId : Z) (additionalHours : Z)
    : M (js_result (option Z)) :=
  session <- SessionFirewall.find_session sessionId ;;
  match session with
  | None => ret (Returns None)
  | Some s =>
      let newExpiry := s_expires_at s + additionalHours * 60 * 60 * 1000 in
      if negb (JsDate.valid newExpiry) then ret Throws
      else
        SessionFirewall.update_sessions (fun x => s_id x =? sessionId)
                                        (set_session_expiry newExpiry) ;;;
        modify (fun w =>
          with_bindings w
            (update_where (fun b => opt_Z_eqb (b_session_id b) sessionId)
                          (set_binding_expiry newExpiry) (mac_ip_bindings w))
            (seq_bindings w)) ;;;
        ret (Returns (Some newExpiry))
  end.

End SessionService.

(** ** services/device.service.js *)

Module DeviceService.

Definition block (reason : string) (d : Device) : Device :=
  {| d_id := d_id d; d_mac_address := d_mac_address d; d_last_seen := d_last_seen d;
     d_total_sessions := d_total_sessions d; d_is_blocked := true;
     d_block_reason := Some reason |}.

Definition blockDevice (macAddress : string) (reason : string) : M bool :=
  device <- gets (fun w =>
    find (fun d => String.eqb (d_mac_address d) macAddress) (devices w)) ;;
  match device with
  | None => ret false
  | Some _ =>
      modify (fun w =>
        with_devices w
          (update_where (fun d => String.eqb (d_mac_address d) macAddress)
                        (block reason) (devices w))
          (seq_devices w)) ;;;
      now <- date_now ;;
      SessionFirewall.update_sessions
        (fun s => (String.eqb (s_mac_address s) macAddress && s_is_active s)%bool)
        (SessionService.disconnect now) ;;;
      BindingService.retire_where
        (fun b => String.eqb (b_mac_address b) macAddress) ;;;
      Logging.suspiciousActivity macAddress ("Device blocked: " ++ reason) ;;;
      ret true
  end.

Definition unblock (d : Device) : Device :=
  {| d_id := d_id d; d_mac_address := d_mac_address d; d_last_seen := d_last_seen d;
     d_total_sessions := d_total_sessions d; d_is_blocked := false;
     d_block_reason := None |}.

Definition unblockDevice (macAddress : string) : M bool :=
  fun w =>
    let changes :=
      count_where (fun d => String.eqb (d_mac_address d) macAddress) (devices w) in
    (0 <? changes,
     with_devices w
       (update_where (fun d => String.eqb (d_mac_address d) macAddress) unblock
                     (devices w))
       (seq_devices w)).

End DeviceService.

(** ** services/database.service.js *)

Module DatabaseService.

Definition cleanupExpiredSessions : M Z :=
  now <- date_now ;;
  changes <- gets (fun w =>
    count_where (fun s => (s_is_active s && sql_text_lt (s_expires_at s) now)%bool)
                (sessions w)) ;;
  SessionFirewall.update_sessions
    (fun s => (s_is_active s && sql_text_lt (s_expires_at s) now)%bool)
    (SessionService.disconnect now) ;;;
  BindingService.retire_where
    (fun b => (b_is_active b && sql_text_lt_opt (b_expires_at b) now)%bool) ;;;
  modify (fun w =>
    with_rules w
      (update_where
         (fun r =>
            (r_is_active r
             && existsb (fun s => opt_Z_eqb (r_session_id r) (s_id s)
                                  && negb (s_is_active s))
                        (sessions w))%bool)
         (fun r => removed r now) (firewall_rules w))
      (seq_rules w)) ;;;
  ret changes.

End DatabaseService.

(** ** services/voucher.service.js *)

Module VoucherService.

Definition deactivate (v : Voucher) : Voucher :=
  {| v_id := v_id v; v_code := v_code v; v_duration_hours := v_duration_hours v;
     v_max_devices := v_max_devices v; v_expires_at := v_expires_at v;
     v_used_at := v_used_at v; v_used_by_device := v_used_by_device v;
     v_is_active := false |}.

Definition deactivateVoucher (voucherId : Z) : M bool :=
  fun w =>
    let changes := count_where (fun v => v_id v =? voucherId) (vouchers w) in
    (0 <? changes,
     with_vouchers w
       (update_where (fun v => v_id v =? voucherId) deactivate (vouchers w))).

(** [getVoucherByCode]: the voucher and its [active_devices] column. *)
Definition getVoucherByCode (code : string) : M (option (Voucher * Z)) :=
  gets (fun w =>
    match find (fun v => String.eqb (v_code v) (JsString.toUpperCase code))
               (vouchers w) with
    | None => None
    | Some v =>
        Some (v, AuthService.count_distinct_macs
                   (fun s => (opt_Z_eqb (s_voucher_id s) (v_id v) && s_is_active s)%bool)
                   (sessions w))
    end).

End VoucherService.

(** ** The system as a whole *)

(** The store as [initializeDatabase] leaves it, with the vouchers and
    accounts the operator has issued. *)
Definition initial (vs : list Voucher) (us : list User) (t : Z) : World :=
  {| sessions := []; mac_ip_bindings := []; firewall_rules := [];
     devices := []; vouchers := vs; users := us; event_logs := [];
     seq_sessions := 0; seq_bindings := 0; seq_rules := 0; seq_devices := 0;
     clock := t; trace := [] |}.

(** What a request, an operator or the scheduler can ask of the engine. *)
Inductive Request :=
| ReqAuthVoucher (code : string) (mac : option string) (ip : string)
| ReqAuthCredentials (username password : string) (mac : option string) (ip : string)
| ReqValidateSession (decoded : option Z)
| ReqEndSession (sessionId : Z)
| ReqLogoutDevice (mac : string)
| ReqForceDisconnect (sessionId adminId : Z) (reason : string)
| ReqDisconnectSession (sessionId : Z)
| ReqExtendSession (sessionId hours : Z)
| ReqBlockDevice (mac reason : string)
| ReqCreateBinding (mac : option string) (ip : string) (expiresAt : option Z)
| ReqRemoveBinding (mac : option string)
| ReqValidateBinding (mac : option string) (ip : string)
| ReqRefreshSession (sessionId : Z)
| ReqFirewallCleanup
| ReqDatabaseCleanup.

Definition run {A} (c : M A) (w : World) : World := snd (c w).

Section System.
Variable env : Env.

(** [refreshSessionRules] of the integration service. *)
Definition refreshSessionRules (sessionId : Z) : M unit :=
  session <- gets (fun w =>
    find (fun s => ((s_id s =? sessionId) && s_is_active s)%bool) (sessions w)) ;;
  match session with
  | None => ret tt
  | Some s =>
      now <- date_now ;;
      if s_expires_at s <? now
      then SessionFirewall.onSessionEnded env s ;;; ret tt
      else SessionFirewall.onSessionCreated env s ;;; ret tt
  end.

Definition handle (req : Request) : M unit :=
  match req with
  | ReqAuthVoucher code mac ip =>
      AuthService.authenticateWithVoucher env code mac ip ;;; ret tt
  | ReqAuthCredentials username password mac ip =>
      AuthService.authenticateWithCredentials env username password mac ip ;;; ret tt
  | ReqValidateSession decoded =>
      AuthService.validateSession decoded ;;; ret tt
  | ReqEndSession sid => AuthService.endSession env sid
  | ReqLogoutDevice mac => SessionFirewall.logoutDevice env mac ;;; ret tt
  | ReqForceDisconnect sid admin reason =>
      SessionFirewall.forceDisconnect env sid admin reason ;;; ret tt
  | ReqDisconnectSession sid => SessionService.disconnectSession sid ;;; ret tt
  | ReqExtendSession sid hours => SessionService.extendSession sid hours ;;; ret tt
  | ReqBlockDevice mac reason => DeviceService.blockDevice mac reason ;;; ret tt
  | ReqCreateBinding mac ip expires =>
      BindingService.createBinding mac ip None expires ;;; ret tt
  | ReqRemoveBinding mac => BindingService.removeBinding mac ;;; ret tt
  | ReqValidateBinding mac ip => BindingService.validateBinding mac ip ;;; ret tt
  | ReqRefreshSession sid => refreshSessionRules sid
  | ReqFirewallCleanup => RuleEngine.cleanupExpiredSessions env ;;; ret tt
  | ReqDatabaseCleanup => DatabaseService.cleanupExpiredSessions ;;; ret tt
  end.

(** The states the engine can be in between two requests: time passes,
    then a request is served. *)
Inductive reachable (vs : list Voucher) (us : list User) : World -> Prop :=
| reach_init : forall t, reachable vs us (initial vs us t)
| reach_step : forall w req t,
    reachable vs us w ->
    clock w <= t ->
    reachable vs us (run (handle req) (with_clock w t)).

End System.

(** * Properties *)

(** ** MAC normalisation *)

Section Normalisation.
Import JsString.

(** A character that [clean] leaves alone and that [.] matches. *)
Definition settled (c : ascii) : Prop :=
  is_separator c = false /\ lower_char c = c.

Fixpoint all_chars (P : ascii -> Prop) (s : string) : Prop :=
  match s with
  | EmptyString => True
  | String c rest => P c /\ all_chars P rest
  end.

Definition settled_pair (p : string) : Prop :=
  exists a b, p = String a (String b EmptyString)
              /\ settled a /\ settled b /\ dot a = true /\ dot b = true.

Lemma lower_char_idem c : lower_char (lower_char c) = lower_char c.
Proof. destruct c as [[] [] [] [] [] [] [] []]; reflexivity. Qed.

Lemma lower_char_separator c : is_separator (lower_char c) = is_separator c.
Proof. destruct c as [[] [] [] [] [] [] [] []]; reflexivity. Qed.

Lemma clean_settled m : all_chars settled (clean m).
Proof.
  unfold clean. induction m as [|c m IH]; simpl; [exact I|].
  destruct (is_separator c) eqn:E; [exact IH|].
  simpl. split; [|exact IH]. split.
  - now rewrite lower_char_separator.
  - apply lower_char_idem.
Qed.

Lemma match_pairs_step a b rest :
  match_pairs (String a (String b rest))
  = if (dot a && dot b)%bool
    then String a (String b EmptyString) :: match_pairs rest
    else match_pairs (String b rest).
Proof. reflexivity. Qed.

Lemma match_pairs_settled_len n : forall s,
  (String.length s <= n)%nat -> all_chars settled s ->
  Forall settled_pair (match_pairs s).
Proof.
  induction n as [|n IH]; intros s Hlen Hs.
  - destruct s; simpl in *; [constructor | lia].
  - destruct s as [|a [|b rest]]; try (simpl; constructor).
    rewrite match_pairs_step.
    simpl in Hlen, Hs. destruct Hs as (Ha & Hb & Hrest).
    destruct (dot a && dot b)%bool eqn:D.
    + apply andb_true_iff in D. destruct D as [Da Db]. constructor.
      * exists a, b. repeat split; try assumption; apply Ha || apply Hb.
      * apply IH; [lia | exact Hrest].
    + apply (IH (String b rest)); [simpl; lia | simpl; auto].
Qed.

Lemma match_pairs_settled m : Forall settled_pair (match_pairs (clean m)).
Proof. apply (match_pairs_settled_len (String.length (clean m))); [lia | apply clean_settled]. Qed.

(** The pairs laid end to end. *)
Fixpoint flat (ps : list string) : string :=
  match ps with
  | [] => EmptyString
  | p :: rest => p ++ flat rest
  end.

Lemma join_colon_cons p q rest :
  join_colon (p :: q :: rest) = p ++ ":" ++ join_colon (q :: rest).
Proof. reflexivity. Qed.

Lemma strip_join ps :
  Forall settled_pair ps -> strip_separators (join_colon ps) = flat ps.
Proof.
  induction 1 as [|p rest Hp Hrest IH]; [reflexivity|].
  destruct Hp as (a & b & -> & [Ha _] & [Hb _] & _).
  destruct rest as [|q rest'].
  - simpl. now rewrite Ha, Hb.
  - rewrite join_colon_cons. simpl flat. simpl. rewrite Ha, Hb.
    simpl in IH. now rewrite IH.
Qed.

Lemma lower_flat ps : Forall settled_pair ps -> toLowerCase (flat ps) = flat ps.
Proof.
  induction 1 as [|p rest Hp Hrest IH]; [reflexivity|].
  destruct Hp as (a & b & -> & [_ Ha] & [_ Hb] & _).
  simpl. now rewrite Ha, Hb, IH.
Qed.

Lemma lower_join ps : Forall settled_pair ps -> toLowerCase (join_colon ps) = join_colon ps.
Proof.
  induction 1 as [|p rest Hp Hrest IH]; [reflexivity|].
  destruct Hp as (a & b & -> & [_ Ha] & [_ Hb] & _).
  destruct rest as [|q rest'].
  - simpl. now rewrite Ha, Hb.
  - rewrite join_colon_cons. simpl. rewrite Ha, Hb. simpl in IH. now rewrite IH.
Qed.

Lemma match_flat ps : Forall settled_pair ps -> match_pairs (flat ps) = ps.
Proof.
  induction 1 as [|p rest Hp Hrest IH]; [reflexivity|].
  destruct Hp as (a & b & -> & _ & _ & Da & Db).
  simpl. rewrite Da, Db. simpl. now rewrite IH.
Qed.

Lemma join_nonempty p rest :
  settled_pair p -> exists c s, join_colon (p :: rest) = String c s.
Proof.
  intros (a & b & -> & _). destruct rest; simpl; do 2 eexists; reflexivity.
Qed.

(** The binding service leaves a MAC made of settled pairs as it is. *)
Lemma normalizeMac_join ps :
  ps <> [] -> Forall settled_pair ps ->
  BindingService.normalizeMac (Some (join_colon ps)) = Returns (Some (join_colon ps)).
Proof.
  intros Hne Hps. destruct ps as [|p rest]; [congruence|].
  destruct (join_nonempty p rest) as (c & s & E); [now inversion Hps|].
  unfold BindingService.normalizeMac. rewrite E. simpl str_or_null. rewrite <- E.
  unfold clean. rewrite strip_join, lower_flat, match_flat by assumption.
  rewrite lower_join by assumption.
  destruct (negb _); reflexivity.
Qed.

(** What the auth service stores is a fixed point of what the binding
    service looks up. *)
Lemma normalizeMac_normalizeMacAddress mac :
  BindingService.normalizeMac (Some (AuthService.normalizeMacAddress mac))
  = Returns (Some (AuthService.normalizeMacAddress mac)).
Proof.
  unfold AuthService.normalizeMacAddress.
  destruct (str_or_null mac) as [m|]; [|reflexivity].
  pose proof (match_pairs_settled m) as Hps.
  destruct (match_pairs (clean m)) as [|p rest] eqn:E; [reflexivity|].
  apply normalizeMac_join; [discriminate | exact Hps].
Qed.

End Normalisation.

(** ** Reasoning about the services step by step *)

(** [along R c]: whatever the state, running [c] moves it along [R]. *)
Definition along {A} (R : World -> World -> Prop) (c : M A) : Prop :=
  forall w, R w (snd (c w)).

Class Preorder (R : World -> World -> Prop) : Prop := {
  pre_refl : forall w, R w w;
  pre_trans : forall a b c, R a b -> R b c -> R a c
}.

Section Along.
Context (R : World -> World -> Prop) `{Preorder R}.

Lemma along_ret {A} (a : A) : along R (ret a).
Proof. intro w. apply pre_refl. Qed.

Lemma along_gets {A} (f : World -> A) : along R (gets f).
Proof. intro w. apply pre_refl. Qed.

Lemma along_bind {A B} (c : M A) (k : A -> M B) :
  along R c -> (forall a, along R (k a)) -> along R (bind c k).
Proof.
  intros Hc Hk w. unfold bind. specialize (Hc w).
  destruct (c w) as [a w1]. simpl in Hc.
  eapply pre_trans; [exact Hc | apply Hk].
Qed.

Lemma along_forM {A B} (xs : list A) (body : A -> M B) :
  (forall x, along R (body x)) -> along R (forM xs body).
Proof.
  intros Hb. induction xs as [|x xs IH]; simpl.
  - apply along_ret.
  - apply along_bind; [apply Hb|]. intros y.
    apply along_bind; [exact IH|]. intros ys. apply along_ret.
Qed.

Lemma along_modify (f : World -> World) :
  (forall w, R w (f w)) -> along R (modify f).
Proof. intros Hf w. apply Hf. Qed.

End Along.

(** A projection of the state that a computation leaves as it is. *)
Definition same {X} (f : World -> X) : World -> World -> Prop :=
  fun w w' => f w' = f w.

#[export] Instance same_preorder {X} (f : World -> X) : Preorder (same f).
Proof. split; unfold same; intros; congruence. Qed.

Create HintDb along discriminated.

(** Break a service down to its primitive statements. *)
Ltac along_structure :=
  repeat match goal with
         | |- along _ (ret _) => apply along_ret; typeclasses eauto
         | |- along _ (gets _) => apply along_gets; typeclasses eauto
         | |- along _ (forM _ _) => apply along_forM; [typeclasses eauto | intros]
         | |- along _ (bind _ _) => apply along_bind; [typeclasses eauto | | intros]
         | |- along _ (match ?x with _ => _ end) => destruct x
         | |- along _ (let _ := _ in _) => cbv zeta
         end.

(** The statements the services are made of. *)
Ltac unfold_statements :=
  unfold IptablesService.storeRule, EbtablesService.storeRule,
    BindingService.retire_where, BindingService.insert_or_replace,
    Logging.logEvent, emit, modify, gets, ret.

(** A primitive that visibly leaves the projection alone. *)
Ltac frame_primitive :=
  let w := fresh "w" in
  intro w; unfold same; unfold_statements; cbn;
  repeat match goal with
         | |- context [if ?b then _ else _] => destruct b; cbn
         end;
  reflexivity.

Ltac along_auto :=
  along_structure; try solve [eauto with along | frame_primitive].

Section Frames.

Lemma logEvent_events {X} (f : World -> X) :
  (forall w l, f (with_event_logs w l) = f w) ->
  forall cat ty mac ip uid sid details sev,
    along (same f) (Logging.logEvent cat ty mac ip uid sid details sev).
Proof.
  intros Hf cat ty mac ip uid sid details sev w. unfold same, Logging.logEvent.
  cbn. apply Hf.
Qed.

Lemma emit_trace {X} (f : World -> X) :
  (forall w l, f (with_trace w l) = f w) ->
  forall e, along (same f) (emit e).
Proof. intros Hf e w. apply Hf. Qed.

End Frames.

(** ** Counting rows *)

Section Rows.
Context {Row : Type}.

(** How many rows satisfy [p]. *)
Definition matching (p : Row -> bool) (rows : list Row) : nat :=
  List.length (filter p rows).

Lemma matching_app p (l1 l2 : list Row) :
  matching p (l1 ++ l2) = (matching p l1 + matching p l2)%nat.
Proof. unfold matching. now rewrite filter_app, length_app. Qed.

Lemma matching_none p (l : list Row) :
  (forall r, In r l -> p r = false) -> matching p l = 0%nat.
Proof.
  induction l as [|r l IH]; intros Hn; [reflexivity|].
  unfold matching in *. simpl. rewrite (Hn r (or_introl eq_refl)).
  apply IH. intros r' Hr'. apply Hn. now right.
Qed.

Lemma matching_filter_le p q (l : list Row) :
  (matching p (filter q l) <= matching p l)%nat.
Proof.
  unfold matching. induction l as [|r l IH]; simpl; [lia|].
  destruct (q r); simpl; destruct (p r); simpl; lia.
Qed.

Lemma matching_weaken p q (l : list Row) :
  (forall r, p r = true -> q r = true) -> (matching p l <= matching q l)%nat.
Proof.
  intros Hpq. unfold matching. induction l as [|r l IH]; simpl; [lia|].
  destruct (p r) eqn:Ep.
  - rewrite (Hpq r Ep). simpl. lia.
  - destruct (q r); simpl; lia.
Qed.

(** Two different rows that satisfy [p] count for two. *)
Lemma matching_two p (l : list Row) (a b : Row) :
  In a l -> In b l -> a <> b -> p a = true -> p b = true ->
  (2 <= matching p l)%nat.
Proof.
  intros Ha Hb Hab Pa Pb. unfold matching.
  change 2%nat with (List.length [a; b]).
  apply NoDup_incl_length.
  - constructor; [simpl; intuition congruence|]. constructor; [simpl; tauto | constructor].
  - intros x [<-|[<-|[]]]; apply filter_In; auto.
Qed.

(** A pointwise change of the rows under which [p] can only be lost. *)
Lemma matching_pointwise (rel : Row -> Row -> Prop) p (l l' : list Row) :
  Forall2 rel l l' ->
  (forall r r', rel r r' -> p r' = true -> p r = true) ->
  (matching p l' <= matching p l)%nat.
Proof.
  intros Hrel Hp. unfold matching.
  induction Hrel as [|r r' l l' Hr Hl IH]; simpl; [lia|].
  destruct (p r') eqn:E.
  - rewrite (Hp r r' Hr E). simpl. lia.
  - destruct (p r); simpl; lia.
Qed.

Lemma update_where_pointwise (rel : Row -> Row -> Prop) sel f (l : list Row) :
  (forall r, rel r r) -> (forall r, rel r (f r)) ->
  Forall2 rel l (update_where sel f l).
Proof.
  intros Hrefl Hf. induction l as [|r l IH]; simpl; constructor; [|exact IH].
  destruct (sel r); auto.
Qed.

Lemma Forall2_refl (rel : Row -> Row -> Prop) (l : list Row) :
  (forall r, rel r r) -> Forall2 rel l l.
Proof. intros Hr. induction l; constructor; auto. Qed.

Lemma Forall2_trans (rel : Row -> Row -> Prop) (l1 l2 l3 : list Row) :
  (forall a b c, rel a b -> rel b c -> rel a c) ->
  Forall2 rel l1 l2 -> Forall2 rel l2 l3 -> Forall2 rel l1 l3.
Proof.
  intros Ht H12. revert l3.
  induction H12 as [|a b l1 l2 Hab H12 IH]; intros l3 H23; inversion H23; subst;
    constructor; eauto.
Qed.

Lemma Forall2_In_r (rel : Row -> Row -> Prop) (l l' : list Row) r' :
  Forall2 rel l l' -> In r' l' -> exists r, In r l /\ rel r r'.
Proof.
  induction 1 as [|a b l l' Hab Hl IH]; intros Hin; [inversion Hin|].
  destruct Hin as [<-|Hin].
  - exists a. split; [now left | assumption].
  - destruct (IH Hin) as (r & Hr & Hrel). exists r. split; [now right | assumption].
Qed.

End Rows.

(** ** The binding table *)

Definition active_mac (m : string) (b : Binding) : bool :=
  (b_is_active b && String.eqb (b_mac_address b) m)%bool.

Definition active_ip (i : string) (b : Binding) : bool :=
  (b_is_active b && String.eqb (b_ip_address b) i)%bool.

(** (B1) at most one ACTIVE binding per MAC. *)
Definition one_active_per_mac (bs : list Binding) : Prop :=
  forall m, (matching (active_mac m) bs <= 1)%nat.

(** (B2) at most one ACTIVE binding per IP. *)
Definition one_active_per_ip (bs : list Binding) : Prop :=
  forall i, (matching (active_ip i) bs <= 1)%nat.

(** A row after retirements and changes of expiry: same MAC, same IP,
    same owner, and active only if it was. *)
Definition binding_calm (b b' : Binding) : Prop :=
  b_mac_address b' = b_mac_address b /\
  b_ip_address b' = b_ip_address b /\
  b_session_id b' = b_session_id b /\
  (b_is_active b' = true -> b' = b).

Definition bindings_calm (bs bs' : list Binding) : Prop :=
  Forall2 binding_calm bs bs'.

(** What [createBinding mac ip] needs of the table to restore (B1) and
    (B2): both hold away from [mac] and [ip], and at most one active row
    rebinds the MAC and at most one claims the IP. *)
Definition nearly_unique (nm : option string) (ip : string) (bs : list Binding) : Prop :=
  (forall m, nm <> Some m -> (matching (active_mac m) bs <= 1)%nat) /\
  (forall i, i <> ip -> (matching (active_ip i) bs <= 1)%nat) /\
  (matching (BindingService.rebinds nm ip) bs <= 1)%nat /\
  (matching (BindingService.conflicts nm ip) bs <= 1)%nat.

(** [find p] then [UPDATE ... WHERE id = found.id]. *)
Definition retire_first (p : Binding -> bool) (bs : list Binding) : list Binding :=
  match find p bs with
  | Some old => update_where (fun b => b_id b =? b_id old) BindingService.retire bs
  | None => bs
  end.

Section BindingTable.
Import BindingService.

Lemma binding_calm_refl b : binding_calm b b.
Proof. unfold binding_calm. auto. Qed.

Lemma binding_calm_trans a b c : binding_calm a b -> binding_calm b c -> binding_calm a c.
Proof.
  unfold binding_calm. intros (M1 & I1 & S1 & A1) (M2 & I2 & S2 & A2).
  repeat split; try congruence.
  intros Hc. specialize (A2 Hc). subst c. auto.
Qed.

Lemma bindings_calm_refl bs : bindings_calm bs bs.
Proof. apply Forall2_refl, binding_calm_refl. Qed.

Lemma bindings_calm_trans a b c :
  bindings_calm a b -> bindings_calm b c -> bindings_calm a c.
Proof. apply Forall2_trans, binding_calm_trans. Qed.

Lemma retire_calm b : binding_calm b (retire b).
Proof. unfold binding_calm, retire. simpl. repeat split. discriminate. Qed.

Lemma retire_where_calm sel bs : bindings_calm bs (update_where sel retire bs).
Proof. apply update_where_pointwise; [apply binding_calm_refl | apply retire_calm]. Qed.

Lemma retire_first_calm p bs : bindings_calm bs (retire_first p bs).
Proof.
  unfold retire_first. destruct (find p bs); [apply retire_where_calm | apply bindings_calm_refl].
Qed.

(** An active row of the calmer table is a row of the older one. *)
Lemma calm_active_In bs bs' b :
  bindings_calm bs bs' -> In b bs' -> b_is_active b = true -> In b bs.
Proof.
  intros Hc Hin Ha. destruct (Forall2_In_r _ _ _ _ Hc Hin) as (b0 & Hb0 & Hrel).
  destruct Hrel as (_ & _ & _ & Heq). now rewrite (Heq Ha).
Qed.

Lemma calm_matching (q : Binding -> bool) bs bs' :
  bindings_calm bs bs' ->
  (forall b, q b = true -> b_is_active b = true) ->
  (matching q bs' <= matching q bs)%nat.
Proof.
  intros Hc Hq. apply (matching_pointwise binding_calm); [exact Hc|].
  intros b b' (_ & _ & _ & Heq) Hb'. now rewrite <- (Heq (Hq _ Hb')).
Qed.

Lemma active_mac_active m b : active_mac m b = true -> b_is_active b = true.
Proof. unfold active_mac. intros H. now apply andb_true_iff in H. Qed.

Lemma active_ip_active i b : active_ip i b = true -> b_is_active b = true.
Proof. unfold active_ip. intros H. now apply andb_true_iff in H. Qed.

Lemma rebinds_active nm ip b : rebinds nm ip b = true -> b_is_active b = true.
Proof.
  unfold rebinds. intros H. apply andb_true_iff in H. destruct H as [H _].
  now apply andb_true_iff in H.
Qed.

Lemma conflicts_active nm ip b : conflicts nm ip b = true -> b_is_active b = true.
Proof.
  unfold conflicts. intros H. apply andb_true_iff in H. destruct H as [H _].
  now apply andb_true_iff in H.
Qed.

Lemma calm_one_active_per_mac bs bs' :
  bindings_calm bs bs' -> one_active_per_mac bs -> one_active_per_mac bs'.
Proof.
  intros Hc H1 m. specialize (H1 m).
  pose proof (calm_matching (active_mac m) bs bs' Hc (active_mac_active m)). lia.
Qed.

Lemma calm_one_active_per_ip bs bs' :
  bindings_calm bs bs' -> one_active_per_ip bs -> one_active_per_ip bs'.
Proof.
  intros Hc H1 i. specialize (H1 i).
  pose proof (calm_matching (active_ip i) bs bs' Hc (active_ip_active i)). lia.
Qed.

(** Once the first match is retired, no match is left, provided there was
    at most one. *)
Lemma retire_first_clears p bs :
  (forall b, p b = true -> b_is_active b = true) ->
  (matching p bs <= 1)%nat ->
  forall b, In b (retire_first p bs) -> p b = false.
Proof.
  intros Hact Hone b Hin. unfold retire_first in Hin.
  destruct (find p bs) as [old|] eqn:Ef.
  - destruct (find_some _ _ Ef) as [Hold Pold].
    destruct (p b) eqn:Pb; [exfalso|reflexivity].
    unfold update_where in Hin. apply in_map_iff in Hin.
    destruct Hin as (b0 & Hb & Hb0).
    destruct (b_id b0 =? b_id old) eqn:Eid.
    + subst b. specialize (Hact _ Pb). discriminate.
    + subst b0.
      assert (Hne : b <> old) by (intros ->; rewrite Z.eqb_refl in Eid; discriminate).
      pose proof (matching_two p bs b old Hb0 Hold Hne Pb Pold). lia.
  - destruct (p b) eqn:Pb; [|reflexivity].
    now rewrite (find_none _ _ Ef b Hin) in Pb.
Qed.

(** A table without a match stays without one as rows calm down. *)
Lemma calm_keeps_clear p bs bs' :
  (forall b, p b = true -> b_is_active b = true) ->
  bindings_calm bs bs' ->
  (forall b, In b bs -> p b = false) ->
  forall b, In b bs' -> p b = false.
Proof.
  intros Hact Hc Hclear b Hin. destruct (p b) eqn:Pb; [|reflexivity].
  rewrite <- Pb. apply Hclear. eapply calm_active_In; eauto.
Qed.

End BindingTable.

Section CreateBinding.
Import BindingService.

(** The row that [createBinding] installs. *)
Definition installed (w : World) (m ip : string) (sid exp : option Z) : Binding :=
  {| b_id := seq_bindings w + 1; b_mac_address := m; b_ip_address := ip;
     b_session_id := sid; b_created_at := clock w; b_expires_at := exp;
     b_is_active := true |}.

Lemma bind_run {A B} (c : M A) (k : A -> M B) w :
  bind c k w = k (fst (c w)) (snd (c w)).
Proof. unfold bind. now destruct (c w). Qed.

Lemma logEvent_bindings cat ty mac ip uid sid details sev w :
  mac_ip_bindings (snd (Logging.logEvent cat ty mac ip uid sid details sev w))
  = mac_ip_bindings w.
Proof. apply (logEvent_events mac_ip_bindings). reflexivity. Qed.

Lemma logEvent_sessions cat ty mac ip uid sid details sev w :
  sessions (snd (Logging.logEvent cat ty mac ip uid sid details sev w)) = sessions w.
Proof. apply (logEvent_events sessions). reflexivity. Qed.

Lemma logEvent_seq_bindings cat ty mac ip uid sid details sev w :
  seq_bindings (snd (Logging.logEvent cat ty mac ip uid sid details sev w))
  = seq_bindings w.
Proof. apply (logEvent_events seq_bindings). reflexivity. Qed.

Lemma logEvent_clock cat ty mac ip uid sid details sev w :
  clock (snd (Logging.logEvent cat ty mac ip uid sid details sev w)) = clock w.
Proof. apply (logEvent_events clock). reflexivity. Qed.

Lemma createBinding_bindings mac ip sid exp w nm :
  normalizeMac mac = Returns nm ->
  let bs2 := retire_first (conflicts nm ip)
               (retire_first (rebinds nm ip) (mac_ip_bindings w)) in
  let r := createBinding mac ip sid exp w in
  match nm, fk_session w sid with
  | Some m, true =>
      fst r = Returns (Created (seq_bindings w + 1) m ip) /\
      mac_ip_bindings (snd r)
      = (filter (fun b => negb (same_pair m ip b)) bs2 ++ [installed w m ip sid exp])%list
  | _, _ =>
      fst r = Returns CreateFailed /\ mac_ip_bindings (snd r) = bs2
  end.
Proof.
  intros Hn. unfold createBinding, retire_first. rewrite Hn.
  unfold bind, gets, ret, Logging.logEvent, retire_by_id, modify, insert_or_replace.
  destruct (find (rebinds nm ip) (mac_ip_bindings w)) as [old|] eqn:E1; cbn;
    destruct (find (conflicts nm ip) _) as [other|] eqn:E2; cbn;
    unfold fk_session, session_exists; cbn;
    destruct nm as [m|]; try (split; reflexivity);
    destruct sid as [id|]; cbn; try (split; reflexivity);
    destruct (existsb _ (sessions w)); split; reflexivity.
Qed.


Lemma unique_nearly nm ip bs :
  one_active_per_mac bs -> one_active_per_ip bs -> nearly_unique nm ip bs.
Proof.
  intros H1 H2. repeat split.
  - intros m _. apply H1.
  - intros i _. apply H2.
  - destruct nm as [m|].
    + specialize (H1 m).
      pose proof (matching_weaken (rebinds (Some m) ip) (active_mac m) bs) as Hw.
      assert (Himp : forall r, rebinds (Some m) ip r = true -> active_mac m r = true).
      { intros r. unfold rebinds, active_mac, sql_eq_str.
        destruct (b_is_active r), (String.eqb (b_mac_address r) m); simpl; congruence. }
      specialize (Hw Himp). lia.
    + rewrite matching_none; [lia|]. intros r _. reflexivity.
  - specialize (H2 ip).
    pose proof (matching_weaken (conflicts nm ip) (active_ip ip) bs) as Hw.
    assert (Himp : forall r, conflicts nm ip r = true -> active_ip ip r = true).
    { intros r. unfold conflicts, active_ip.
      destruct (b_is_active r), (String.eqb (b_ip_address r) ip); simpl; congruence. }
    specialize (Hw Himp). lia.
Qed.

(** The table after the two retirements of [createBinding]. *)
Definition retired_for (nm : option string) (ip : string) (bs : list Binding) : list Binding :=
  retire_first (conflicts nm ip) (retire_first (rebinds nm ip) bs).

Lemma retired_for_calm nm ip bs : bindings_calm bs (retired_for nm ip bs).
Proof.
  unfold retired_for. eapply bindings_calm_trans; apply retire_first_calm.
Qed.

Lemma retired_for_no_rebinds nm ip bs :
  nearly_unique nm ip bs ->
  forall b, In b (retired_for nm ip bs) -> rebinds nm ip b = false.
Proof.
  intros (_ & _ & Hr & _). unfold retired_for.
  apply (calm_keeps_clear (rebinds nm ip) (retire_first (rebinds nm ip) bs)).
  - apply rebinds_active.
  - apply retire_first_calm.
  - apply retire_first_clears; [apply rebinds_active | exact Hr].
Qed.

Lemma retired_for_no_conflicts nm ip bs :
  nearly_unique nm ip bs ->
  forall b, In b (retired_for nm ip bs) -> conflicts nm ip b = false.
Proof.
  intros (_ & _ & _ & Hc). unfold retired_for.
  apply retire_first_clears; [apply conflicts_active|].
  pose proof (calm_matching (conflicts nm ip) bs (retire_first (rebinds nm ip) bs)
                (retire_first_calm _ _) (conflicts_active nm ip)). lia.
Qed.

(** The table [createBinding] leaves when the insert goes through. *)
Definition rebound (m ip : string) (row : Binding) (bs : list Binding) : list Binding :=
  (filter (fun b => negb (same_pair m ip b)) (retired_for (Some m) ip bs) ++ [row])%list.

Lemma rebound_only_row m ip bs b :
  nearly_unique (Some m) ip bs ->
  In b (filter (fun b => negb (same_pair m ip b)) (retired_for (Some m) ip bs)) ->
  b_is_active b = true ->
  b_mac_address b <> m /\ b_ip_address b <> ip.
Proof.
  intros Hn Hin Ha. apply filter_In in Hin. destruct Hin as [Hin Hsp].
  pose proof (retired_for_no_rebinds _ _ _ Hn b Hin) as Hr.
  pose proof (retired_for_no_conflicts _ _ _ Hn b Hin) as Hc.
  unfold rebinds, conflicts, same_pair, sql_eq_str, sql_ne_str in *.
  rewrite Ha in *.
  destruct (String.eqb_spec (b_mac_address b) m), (String.eqb_spec (b_ip_address b) ip);
    simpl in *; try discriminate; auto.
Qed.

Lemma rebound_unique m ip row bs :
  b_mac_address row = m -> b_ip_address row = ip -> b_is_active row = true ->
  nearly_unique (Some m) ip bs ->
  one_active_per_mac (rebound m ip row bs) /\ one_active_per_ip (rebound m ip row bs).
Proof.
  intros Hm Hi Ha Hn. unfold rebound. split.
  - intros m'. rewrite matching_app.
    destruct (String.eqb_spec m m') as [<-|Hne].
    + rewrite matching_none.
      * unfold matching. simpl. destruct (active_mac m row); simpl; lia.
      * intros b Hb. unfold active_mac.
        destruct (b_is_active b) eqn:Eb; [|reflexivity]. simpl.
        destruct (rebound_only_row m ip bs b Hn Hb Eb) as [Hb1 _].
        now apply String.eqb_neq.
    + assert (matching (active_mac m') [row] = 0%nat) as ->.
      { apply matching_none. intros r [<-|[]]. unfold active_mac.
        rewrite Hm. apply String.eqb_neq in Hne. rewrite Hne. apply andb_false_r. }
      pose proof (matching_filter_le (active_mac m')
                    (fun b => negb (same_pair m ip b)) (retired_for (Some m) ip bs)).
      pose proof (calm_matching (active_mac m') bs _ (retired_for_calm (Some m) ip bs)
                    (active_mac_active m')).
      destruct Hn as (H1 & _). specialize (H1 m').
      assert (Hneq : Some m <> Some m') by congruence. specialize (H1 Hneq). lia.
  - intros i'. rewrite matching_app.
    destruct (String.eqb_spec ip i') as [<-|Hne].
    + rewrite matching_none.
      * unfold matching. simpl. destruct (active_ip ip row); simpl; lia.
      * intros b Hb. unfold active_ip.
        destruct (b_is_active b) eqn:Eb; [|reflexivity]. simpl.
        destruct (rebound_only_row m ip bs b Hn Hb Eb) as [_ Hb2].
        now apply String.eqb_neq.
    + assert (matching (active_ip i') [row] = 0%nat) as ->.
      { apply matching_none. intros r [<-|[]]. unfold active_ip.
        rewrite Hi. apply String.eqb_neq in Hne. rewrite Hne. apply andb_false_r. }
      pose proof (matching_filter_le (active_ip i')
                    (fun b => negb (same_pair m ip b)) (retired_for (Some m) ip bs)).
      pose proof (calm_matching (active_ip i') bs _ (retired_for_calm (Some m) ip bs)
                    (active_ip_active i')).
      destruct Hn as (_ & H2 & _). specialize (H2 i').
      assert (Hneq : i' <> ip) by congruence. specialize (H2 Hneq). lia.
Qed.

(** The bare [INSERT OR REPLACE] leaves the table in the state from which
    [createBinding] for the same pair restores uniqueness. *)
Lemma insert_nearly m ip row bs :
  b_mac_address row = m -> b_ip_address row = ip ->
  one_active_per_mac bs -> one_active_per_ip bs ->
  nearly_unique (Some m) ip
    (filter (fun b => negb (same_pair m ip b)) bs ++ [row])%list.
Proof.
  intros Hm Hi H1 H2.
  destruct (unique_nearly (Some m) ip bs H1 H2) as (_ & _ & Hr & Hc).
  repeat split.
  - intros m' Hne. rewrite matching_app.
    assert (matching (active_mac m') [row] = 0%nat) as ->.
    { apply matching_none. intros r [<-|[]]. unfold active_mac. rewrite Hm.
      assert (Hneq : m <> m') by congruence. apply String.eqb_neq in Hneq.
      rewrite Hneq. apply andb_false_r. }
    pose proof (matching_filter_le (active_mac m') (fun b => negb (same_pair m ip b)) bs).
    specialize (H1 m'). lia.
  - intros i' Hne. rewrite matching_app.
    assert (matching (active_ip i') [row] = 0%nat) as ->.
    { apply matching_none. intros r [<-|[]]. unfold active_ip. rewrite Hi.
      assert (Hneq : ip <> i') by congruence. apply String.eqb_neq in Hneq.
      rewrite Hneq. apply andb_false_r. }
    pose proof (matching_filter_le (active_ip i') (fun b => negb (same_pair m ip b)) bs).
    specialize (H2 i'). lia.
  - rewrite matching_app.
    assert (matching (rebinds (Some m) ip) [row] = 0%nat) as ->.
    { apply matching_none. intros r [<-|[]]. unfold rebinds. rewrite Hi.
      rewrite String.eqb_refl. apply andb_false_r. }
    pose proof (matching_filter_le (rebinds (Some m) ip)
                  (fun b => negb (same_pair m ip b)) bs). lia.
  - rewrite matching_app.
    assert (matching (conflicts (Some m) ip) [row] = 0%nat) as ->.
    { apply matching_none. intros r [<-|[]]. unfold conflicts, sql_ne_str. rewrite Hm.
      rewrite String.eqb_refl. apply andb_false_r. }
    pose proof (matching_filter_le (conflicts (Some m) ip)
                  (fun b => negb (same_pair m ip b)) bs). lia.
Qed.

End CreateBinding.

Section CreateBindingOutcome.
Import BindingService.

(** The anomaly rows [createBinding] writes to [event_logs]. *)
Definition mac_ip_change (nm : option string) (ip : string) (sid : option Z)
    (old : Binding) : EventLog :=
  {| e_event_category := SECURITY; e_event_type := "MAC_IP_CHANGE";
     e_severity := WARNING; e_mac_address := str_or_null nm;
     e_ip_address := None; e_user_id := None;
     e_session_id := opt_num_or_null sid;
     e_details := [("oldIp", b_ip_address old); ("newIp", ip)] |}.

Definition ip_conflict (nm : option string) (ip : string) (sid : option Z)
    (other : Binding) : EventLog :=
  {| e_event_category := SECURITY; e_event_type := "IP_CONFLICT";
     e_severity := WARNING; e_mac_address := None;
     e_ip_address := str_or_null (Some ip); e_user_id := None;
     e_session_id := opt_num_or_null sid;
     e_details := [("existingMac", b_mac_address other);
                   ("newMac", match nm with Some m => m | None => "null" end)] |}.

Definition anomalies_of {X} (found : option X) (ev : X -> EventLog) : list EventLog :=
  match found with
  | Some x => [ev x]
  | None => []
  end.

Lemma fk_session_or_null w sid :
  fk_session w sid = true -> fk_session w (opt_num_or_null sid) = true.
Proof.
  destruct sid as [id|]; [|reflexivity]. simpl. unfold num_or_null.
  destruct (id =? 0); auto.
Qed.

Lemma createBinding_events mac ip sid exp w nm :
  normalizeMac mac = Returns nm ->
  fk_session w sid = true ->
  event_logs (snd (createBinding mac ip sid exp w))
  = (event_logs w
     ++ anomalies_of (find (rebinds nm ip) (mac_ip_bindings w))
                     (mac_ip_change nm ip sid)
     ++ anomalies_of (find (conflicts nm ip)
                           (retire_first (rebinds nm ip) (mac_ip_bindings w)))
                     (ip_conflict nm ip sid))%list.
Proof.
  intros Hn Hfk. pose proof (fk_session_or_null w sid Hfk) as Hfk'.
  unfold createBinding, retire_first. rewrite Hn.
  unfold bind, gets, ret, Logging.logEvent, retire_by_id, modify, insert_or_replace.
  destruct (find (rebinds nm ip) (mac_ip_bindings w)) as [old|] eqn:E1; cbn;
    destruct (find (conflicts nm ip) _) as [other|] eqn:E2; cbn;
    unfold fk_session, session_exists in *; cbn;
    rewrite ?Hfk'; cbn; rewrite ?Hfk'; cbn;
    destruct nm as [m|]; cbn; rewrite ?Hfk; cbn;
    rewrite <- ?app_assoc, ?app_nil_r; reflexivity.
Qed.

Lemma retire_idem b : retire (retire b) = retire b.
Proof. reflexivity. Qed.

Lemma retire_first_keeps_retired p bs b :
  In (retire b) bs -> In (retire b) (retire_first p bs).
Proof.
  intros Hin. unfold retire_first. destruct (find p bs) as [old|]; [|exact Hin].
  unfold update_where. apply in_map_iff. exists (retire b). split; [|exact Hin].
  destruct (_ =? _); reflexivity.
Qed.

Lemma Binding_eq_dec (a b : Binding) : {a = b} + {a <> b}.
Proof.
  decide equality; try apply bool_dec; try apply Z.eq_dec; try apply string_dec;
    decide equality; apply Z.eq_dec.
Qed.

(** The one match of [p] is the row that [retire_first] retires. *)
Lemma retire_first_retires p bs b :
  (matching p bs <= 1)%nat -> In b bs -> p b = true ->
  find p bs = Some b /\ In (retire b) (retire_first p bs).
Proof.
  intros Hone Hin Pb. unfold retire_first.
  destruct (find p bs) as [old|] eqn:Ef.
  - destruct (find_some _ _ Ef) as [Hold Pold].
    assert (old = b) as ->.
    { destruct (Binding_eq_dec old b) as [|Hne]; [assumption|].
      pose proof (matching_two p bs old b Hold Hin Hne Pold Pb). lia. }
    split; [reflexivity|].
    unfold update_where. apply in_map_iff. exists b. rewrite Z.eqb_refl. auto.
  - rewrite (find_none _ _ Ef b Hin) in Pb. discriminate.
Qed.

Lemma update_where_In_or sel bs b :
  In b bs -> In b (update_where sel retire bs) \/ In (retire b) (update_where sel retire bs).
Proof.
  intros Hin. unfold update_where. destruct (sel b) eqn:E.
  - right. apply in_map_iff. exists b. now rewrite E.
  - left. apply in_map_iff. exists b. now rewrite E.
Qed.

Lemma retired_for_rebinding nm ip bs b :
  nearly_unique nm ip bs -> In b bs -> rebinds nm ip b = true ->
  find (rebinds nm ip) bs = Some b /\ In (retire b) (retired_for nm ip bs).
Proof.
  intros (_ & _ & Hr & _) Hin Hb.
  destruct (retire_first_retires _ _ _ Hr Hin Hb) as [Hf Hret].
  split; [exact Hf|]. unfold retired_for. now apply retire_first_keeps_retired.
Qed.

Lemma retired_for_conflicting nm ip bs b :
  nearly_unique nm ip bs -> In b bs -> conflicts nm ip b = true ->
  In (retire b) (retired_for nm ip bs).
Proof.
  intros (_ & _ & _ & Hc) Hin Hb. unfold retired_for.
  assert (Hc1 : (matching (conflicts nm ip) (retire_first (rebinds nm ip) bs) <= 1)%nat).
  { pose proof (calm_matching (conflicts nm ip) bs _ (retire_first_calm (rebinds nm ip) bs)
                  (conflicts_active nm ip)). lia. }
  assert (Hor : In b (retire_first (rebinds nm ip) bs)
                \/ In (retire b) (retire_first (rebinds nm ip) bs)).
  { unfold retire_first. destruct (find _ bs); [now apply update_where_In_or | now left]. }
  destruct Hor as [Hkept|Hgone].
  - now apply retire_first_retires.
  - now apply retire_first_keeps_retired.
Qed.

(** With unique ids, retiring the rebinding row leaves the conflicting
    row for the second lookup to find. *)
Lemma conflicting_found nm ip bs b :
  NoDup (map b_id bs) ->
  nearly_unique nm ip bs -> In b bs -> conflicts nm ip b = true ->
  find (conflicts nm ip) (retire_first (rebinds nm ip) bs) = Some b.
Proof.
  intros Hpk (_ & _ & _ & Hc) Hin Hb.
  assert (Hc1 : (matching (conflicts nm ip) (retire_first (rebinds nm ip) bs) <= 1)%nat).
  { pose proof (calm_matching (conflicts nm ip) bs _ (retire_first_calm (rebinds nm ip) bs)
                  (conflicts_active nm ip)). lia. }
  assert (Hkept : In b (retire_first (rebinds nm ip) bs)).
  { unfold retire_first. destruct (find (rebinds nm ip) bs) as [old|] eqn:Ef; [|exact Hin].
    destruct (find_some _ _ Ef) as [Hold Pold].
    unfold update_where. apply in_map_iff. exists b. split; [|exact Hin].
    destruct (b_id b =? b_id old) eqn:Eid; [exfalso|reflexivity].
    apply Z.eqb_eq in Eid.
    assert (b = old) as ->.
    { clear - Hpk Hin Hold Eid. induction bs as [|x bs IH]; [inversion Hin|].
      simpl in Hpk. inversion Hpk as [|? ? Hnot Hnd]; subst.
      destruct Hin as [->|Hin], Hold as [->|Hold]; auto.
      - exfalso. apply Hnot. rewrite Eid. now apply in_map.
      - exfalso. apply Hnot. rewrite <- Eid. now apply in_map. }
    unfold rebinds, conflicts, sql_eq_str, sql_ne_str in *.
    destruct nm as [m|]; [|rewrite andb_false_r in Hb; discriminate].
    destruct (String.eqb (b_mac_address old) m); simpl in *;
      [rewrite andb_false_r in Hb|]; discriminate. }
  apply (retire_first_retires _ _ _ Hc1 Hkept Hb).
Qed.

End CreateBindingOutcome.

(** No row rebinds or conflicts with a MAC that is [null]. *)
Lemma retired_for_null ip bs : retired_for None ip bs = bs.
Proof.
  assert (H1 : forall l, find (BindingService.rebinds None ip) l = None).
  { induction l as [|x l IH]; [reflexivity|]. cbn [find].
    unfold BindingService.rebinds at 1. cbn [sql_eq_str andb]. exact IH. }
  assert (H2 : forall l, find (BindingService.conflicts None ip) l = None).
  { induction l as [|x l IH]; [reflexivity|]. cbn [find].
    unfold BindingService.conflicts at 1. cbn [sql_ne_str]. rewrite andb_false_r.
    exact IH. }
  unfold retired_for, retire_first. now rewrite H1, H2.
Qed.

(** C7, as the code has it.  [createBinding(MAC, IP, sessionId,
    expiresAt)].  When the normalisation of the MAC throws, so does the
    call, and for a MAC that is [null] or empty it returns failure; in
    both cases no binding changes.  For a MAC that normalises to [m], on
    a table with its primary key that satisfies (B1) and (B2), or that
    did so before the [INSERT OR REPLACE] of [(m, IP)] that
    [createSession] makes ahead of the grant: every ACTIVE row with the
    same MAC and another IP and every ACTIVE row with the same IP and
    another MAC is retired, whatever becomes of the insert.  When the
    session id is [null] or names a session, the call returns success with
    the new binding's id, the new (MAC, IP) row is installed ACTIVE, a
    MAC_IP_CHANGE and an IP_CONFLICT anomaly are logged for the retired
    rows, the installed row is the only ACTIVE one with that MAC or that
    IP, and (B1) and (B2) hold.  When the session id names no session, the
    insert violates the foreign key: the call returns failure and
    installs nothing, the retirements standing. *)
Theorem createBinding_retires_and_installs :
  forall (w : World) (mac : option string) (ip : string) (sid exp : option Z),
    let r := BindingService.createBinding mac ip sid exp w in
    let bs' := mac_ip_bindings (snd r) in
    (BindingService.normalizeMac mac = Throws -> r = (Throws, w))
    /\ (BindingService.normalizeMac mac = Returns None ->
        fst r = Returns BindingService.CreateFailed /\ bs' = mac_ip_bindings w)
    /\ (forall m : string,
          BindingService.normalizeMac mac = Returns (Some m) ->
          NoDup (map b_id (mac_ip_bindings w)) ->
          ((one_active_per_mac (mac_ip_bindings w)
            /\ one_active_per_ip (mac_ip_bindings w))
           \/ exists w0 sid0 exp0,
                (one_active_per_mac (mac_ip_bindings w0)
                 /\ one_active_per_ip (mac_ip_bindings w0))
                /\ mac_ip_bindings w
                   = mac_ip_bindings
                       (snd (BindingService.insert_or_replace m ip sid0 exp0 w0))) ->
          (forall b, In b (mac_ip_bindings w) -> b_is_active b = true ->
                     (b_mac_address b = m /\ b_ip_address b <> ip)
                     \/ (b_ip_address b = ip /\ b_mac_address b <> m) ->
                     In (BindingService.retire b) bs')
          /\ (fk_session w sid = true ->
              fst r = Returns (BindingService.Created (seq_bindings w + 1) m ip)
              /\ In (installed w m ip sid exp) bs'
              /\ (forall b, In b (mac_ip_bindings w) -> b_is_active b = true ->
                            b_mac_address b = m -> b_ip_address b <> ip ->
                            In (mac_ip_change (Some m) ip sid b) (event_logs (snd r)))
              /\ (forall b, In b (mac_ip_bindings w) -> b_is_active b = true ->
                            b_ip_address b = ip -> b_mac_address b <> m ->
                            In (ip_conflict (Some m) ip sid b) (event_logs (snd r)))
              /\ (forall b, In b bs' -> b_is_active b = true ->
                            b_mac_address b = m \/ b_ip_address b = ip ->
                            b = installed w m ip sid exp)
              /\ one_active_per_mac bs' /\ one_active_per_ip bs')
          /\ (fk_session w sid = false ->
              fst r = Returns BindingService.CreateFailed
              /\ List.length bs' = List.length (mac_ip_bindings w)
              /\ (forall b, In b bs' -> b_is_active b = true ->
                            In b (mac_ip_bindings w)))).
Proof.
  intros w mac ip sid exp r bs'. split; [|split].
  { intros Hn. subst r. unfold BindingService.createBinding. now rewrite Hn. }
  { intros Hn. pose proof (createBinding_bindings mac ip sid exp w None Hn) as Hb.
    cbv zeta in Hb. fold r in Hb. fold bs' in Hb.
    fold (retired_for None ip (mac_ip_bindings w)) in Hb.
    rewrite retired_for_null in Hb. exact Hb. }
  intros m Hn Hpk Hw.
  assert (Hnear : nearly_unique (Some m) ip (mac_ip_bindings w)).
  { destruct Hw as [[H1 H2]|(w0 & sid0 & exp0 & [H1 H2] & ->)].
    - now apply unique_nearly.
    - unfold BindingService.insert_or_replace. cbn [snd mac_ip_bindings with_bindings].
      now apply insert_nearly. }
  pose proof (createBinding_bindings mac ip sid exp w (Some m) Hn) as Hb.
  cbv zeta in Hb. fold r in Hb. fold bs' in Hb.
  fold (retired_for (Some m) ip (mac_ip_bindings w)) in Hb.
  assert (Hnot_pair : forall b, b_mac_address b <> m \/ b_ip_address b <> ip ->
            negb (BindingService.same_pair m ip (BindingService.retire b)) = true).
  { intros b Hor. unfold BindingService.same_pair. simpl.
    destruct (String.eqb_spec (b_mac_address b) m), (String.eqb_spec (b_ip_address b) ip);
      simpl; auto. destruct Hor; contradiction. }
  assert (Hreb : forall b, b_is_active b = true -> b_mac_address b = m ->
                           b_ip_address b <> ip ->
                           BindingService.rebinds (Some m) ip b = true).
  { intros b Ha Hm Hi. unfold BindingService.rebinds, sql_eq_str.
    rewrite Ha, Hm, String.eqb_refl. apply String.eqb_neq in Hi. now rewrite Hi. }
  assert (Hcon : forall b, b_is_active b = true -> b_ip_address b = ip ->
                           b_mac_address b <> m ->
                           BindingService.conflicts (Some m) ip b = true).
  { intros b Ha Hi Hm. unfold BindingService.conflicts, sql_ne_str.
    rewrite Ha, Hi, String.eqb_refl. apply String.eqb_neq in Hm. now rewrite Hm. }
  assert (Hretired : forall b, In b (mac_ip_bindings w) -> b_is_active b = true ->
                       (b_mac_address b = m /\ b_ip_address b <> ip)
                       \/ (b_ip_address b = ip /\ b_mac_address b <> m) ->
                       In (BindingService.retire b)
                          (retired_for (Some m) ip (mac_ip_bindings w))).
  { intros b Hin Ha [[Hm Hi]|[Hi Hm]].
    - now apply (retired_for_rebinding _ _ _ b Hnear Hin (Hreb b Ha Hm Hi)).
    - apply retired_for_conflicting; auto. }
  split; [|split].
  - intros b Hin Ha Hor. pose proof (Hretired b Hin Ha Hor) as Hret.
    destruct (fk_session w sid); destruct Hb as [_ Hbs]; rewrite Hbs; [|exact Hret].
    apply in_or_app. left. apply filter_In. split; [exact Hret|].
    apply Hnot_pair. destruct Hor as [[_ Hi]|[_ Hm]]; [now right | now left].
  - intros Hfk. rewrite Hfk in Hb. destruct Hb as [Hres Hbs].
    pose proof (createBinding_events mac ip sid exp w (Some m) Hn Hfk) as He.
    fold r in He.
    split; [exact Hres|].
    split; [rewrite Hbs; apply in_or_app; right; now left|].
    split.
    { intros b Hin Ha Hm Hi.
      destruct (retired_for_rebinding _ _ _ b Hnear Hin (Hreb b Ha Hm Hi)) as [Hfind _].
      rewrite He, Hfind. apply in_or_app. right. apply in_or_app. left. now left. }
    split.
    { intros b Hin Ha Hi Hm.
      rewrite He, (conflicting_found _ _ _ b Hpk Hnear Hin (Hcon b Ha Hi Hm)).
      apply in_or_app. right. apply in_or_app. right. now left. }
    split.
    { intros b Hin Ha Hor. rewrite Hbs in Hin. apply in_app_or in Hin.
      destruct Hin as [Hin|[<-|[]]]; [|reflexivity].
      destruct (rebound_only_row m ip _ b Hnear Hin Ha). destruct Hor; contradiction. }
    rewrite Hbs. apply (rebound_unique m ip); auto.
  - intros Hfk. rewrite Hfk in Hb. destruct Hb as [Hres Hbs].
    pose proof (retired_for_calm (Some m) ip (mac_ip_bindings w)) as Hcalm.
    rewrite <- Hbs in Hcalm.
    split; [exact Hres|]. split.
    + symmetry. exact (Forall2_length Hcalm).
    + intros b Hin Ha. destruct (Forall2_In_r _ _ _ _ Hcalm Hin) as (b0 & Hb0 & Hrel).
      destruct Hrel as (_ & _ & _ & Heq). now rewrite (Heq Ha).
Qed.

(** ** Validation *)

Definition binding_violation (nm : option string) (ip : string) (b : Binding) : EventLog :=
  {| e_event_category := SECURITY; e_event_type := "BINDING_VIOLATION";
     e_severity := WARNING; e_mac_address := str_or_null nm;
     e_ip_address := None; e_user_id := None; e_session_id := None;
     e_details := [("expectedIp", b_ip_address b); ("actualIp", ip)] |}.

Lemma validateBinding_run mac ip w nm :
  BindingService.normalizeMac mac = Returns nm ->
  BindingService.validateBinding mac ip w
  = match find (BindingService.active_for nm) (mac_ip_bindings w) with
    | None => (Returns BindingService.NO_BINDING, w)
    | Some b =>
        if negb (String.eqb (b_ip_address b) ip)
        then (Returns (BindingService.IP_MISMATCH (b_ip_address b)),
              with_event_logs w (event_logs w ++ [binding_violation nm ip b]))
        else if sql_lt_opt (b_expires_at b) (clock w)
             then (Returns BindingService.EXPIRED, w)
             else (Returns (BindingService.Valid b), w)
    end.
Proof.
  intros Hn. unfold BindingService.validateBinding. rewrite Hn.
  unfold bind, gets, ret, date_now. cbn.
  destruct (find _ _) as [b|]; [|reflexivity].
  destruct (negb _); cbn; [reflexivity|].
  destruct (sql_lt_opt _ _); reflexivity.
Qed.

(** C8, as the code has it.  [validateBinding(MAC, IP)] reads the binding
    table and writes to no table but the audit log, where it records a
    BINDING_VIOLATION warning in the IP_MISMATCH case only.  With (B1) and a MAC that
    normalises to [nm], it returns NO_BINDING when no ACTIVE row has that
    MAC, and otherwise, for the ACTIVE row [b] of that MAC: IP_MISMATCH
    with [b]'s IP when that IP differs from the argument, EXPIRED when the
    IPs agree and [expires_at] is in the past, and the binding itself
    (valid) when the IPs agree and it has not expired. *)
Theorem validateBinding_outcome :
  forall (w : World) (mac : option string) (ip : string) (nm : option string),
    BindingService.normalizeMac mac = Returns nm ->
    one_active_per_mac (mac_ip_bindings w) ->
    let r := BindingService.validateBinding mac ip w in
    (sessions (snd r) = sessions w
     /\ mac_ip_bindings (snd r) = mac_ip_bindings w
     /\ firewall_rules (snd r) = firewall_rules w
     /\ devices (snd r) = devices w
     /\ trace (snd r) = trace w)
    /\ ((forall b, In b (mac_ip_bindings w) -> b_is_active b = true ->
                   Some (b_mac_address b) <> nm) ->
        fst r = Returns BindingService.NO_BINDING /\ event_logs (snd r) = event_logs w)
    /\ (forall b, In b (mac_ip_bindings w) -> b_is_active b = true ->
                  Some (b_mac_address b) = nm ->
          (b_ip_address b <> ip ->
             fst r = Returns (BindingService.IP_MISMATCH (b_ip_address b))
             /\ event_logs (snd r) = (event_logs w ++ [binding_violation nm ip b])%list)
          /\ (b_ip_address b = ip ->
              (exists e, b_expires_at b = Some e /\ e < clock w) ->
              fst r = Returns BindingService.EXPIRED /\ event_logs (snd r) = event_logs w)
          /\ (b_ip_address b = ip ->
              (forall e, b_expires_at b = Some e -> clock w <= e) ->
              fst r = Returns (BindingService.Valid b)
              /\ event_logs (snd r) = event_logs w)).
Proof.
  intros w mac ip nm Hn H1 r. subst r. rewrite (validateBinding_run mac ip w nm Hn).
  split.
  { destruct (find _ _) as [b|]; [|auto].
    destruct (negb _); [cbn; auto|]. destruct (sql_lt_opt _ _); auto. }
  split.
  { intros Hnone. destruct (find _ _) as [b|] eqn:Ef; [exfalso|auto].
    destruct (find_some _ _ Ef) as [Hin Hb]. unfold BindingService.active_for in Hb.
    apply andb_true_iff in Hb. destruct Hb as [Hm Ha].
    apply (Hnone b Hin Ha). unfold sql_eq_str in Hm. destruct nm as [m|]; [|discriminate].
    apply String.eqb_eq in Hm. now rewrite Hm. }
  intros b Hin Ha Hm. subst nm.
  assert (Hone : (matching (BindingService.active_for (Some (b_mac_address b)))
                           (mac_ip_bindings w) <= 1)%nat).
  { specialize (H1 (b_mac_address b)).
    pose proof (matching_weaken (BindingService.active_for (Some (b_mac_address b)))
                  (active_mac (b_mac_address b)) (mac_ip_bindings w)) as Hw.
    assert (Himp : forall r, BindingService.active_for (Some (b_mac_address b)) r = true ->
                             active_mac (b_mac_address b) r = true).
    { intros r. unfold BindingService.active_for, active_mac, sql_eq_str.
      now rewrite andb_comm. }
    specialize (Hw Himp). lia. }
  assert (Hb : BindingService.active_for (Some (b_mac_address b)) b = true).
  { unfold BindingService.active_for, sql_eq_str. now rewrite Ha, String.eqb_refl. }
  destruct (retire_first_retires _ _ b Hone Hin Hb) as [-> _].
  split; [|split].
  - intros Hi. apply String.eqb_neq in Hi. rewrite Hi. cbn. auto.
  - intros Hi (e & He & Hlt). rewrite Hi, String.eqb_refl. cbn.
    rewrite He. cbn. apply Z.ltb_lt in Hlt. rewrite Hlt. auto.
  - intros Hi Hle. rewrite Hi, String.eqb_refl. cbn.
    destruct (b_expires_at b) as [e|]; cbn; [|auto].
    specialize (Hle e eq_refl). apply Z.ltb_ge in Hle. rewrite Hle. auto.
Qed.

(** ** Operations that only retire bindings *)

(** A binding row after a retirement or a change of expiry. *)
Definition binding_tame (b b' : Binding) : Prop :=
  b_mac_address b' = b_mac_address b /\
  b_ip_address b' = b_ip_address b /\
  (b_is_active b' = true -> b_is_active b = true).

Definition tame_bindings (w w' : World) : Prop :=
  Forall2 binding_tame (mac_ip_bindings w) (mac_ip_bindings w').

Lemma binding_tame_refl b : binding_tame b b.
Proof. unfold binding_tame. auto. Qed.

Lemma binding_tame_trans a b c : binding_tame a b -> binding_tame b c -> binding_tame a c.
Proof. unfold binding_tame. intros (? & ? & ?) (? & ? & ?). repeat split; try congruence; auto. Qed.

#[export] Instance tame_bindings_preorder : Preorder tame_bindings.
Proof.
  split; unfold tame_bindings.
  - intros w. apply Forall2_refl, binding_tame_refl.
  - intros a b c. apply Forall2_trans, binding_tame_trans.
Qed.

Lemma tame_refl bs : Forall2 binding_tame bs bs.
Proof. apply Forall2_refl, binding_tame_refl. Qed.

Lemma tame_retire sel bs :
  Forall2 binding_tame bs (update_where sel BindingService.retire bs).
Proof.
  apply update_where_pointwise; [apply binding_tame_refl|].
  intros b. unfold binding_tame. simpl. repeat split. discriminate.
Qed.

Lemma tame_expiry sel t bs :
  Forall2 binding_tame bs (update_where sel (SessionService.set_binding_expiry t) bs).
Proof.
  apply update_where_pointwise; [apply binding_tame_refl|].
  intros b. unfold binding_tame. simpl. auto.
Qed.

Lemma tame_unique w w' :
  tame_bindings w w' ->
  one_active_per_mac (mac_ip_bindings w) /\ one_active_per_ip (mac_ip_bindings w) ->
  one_active_per_mac (mac_ip_bindings w') /\ one_active_per_ip (mac_ip_bindings w').
Proof.
  unfold tame_bindings. intros Ht [H1 H2]. split.
  - intros m. specialize (H1 m).
    pose proof (matching_pointwise binding_tame (active_mac m) _ _ Ht) as Hle.
    assert (Hq : forall r r', binding_tame r r' -> active_mac m r' = true -> active_mac m r = true).
    { intros r r' (Hm & _ & Ha). unfold active_mac. rewrite Hm. intros Hr.
      apply andb_true_iff in Hr. destruct Hr as [Hr1 Hr2]. now rewrite (Ha Hr1), Hr2. }
    specialize (Hle Hq). lia.
  - intros i. specialize (H2 i).
    pose proof (matching_pointwise binding_tame (active_ip i) _ _ Ht) as Hle.
    assert (Hq : forall r r', binding_tame r r' -> active_ip i r' = true -> active_ip i r = true).
    { intros r r' (_ & Hi & Ha). unfold active_ip. rewrite Hi. intros Hr.
      apply andb_true_iff in Hr. destruct Hr as [Hr1 Hr2]. now rewrite (Ha Hr1), Hr2. }
    specialize (Hle Hq). lia.
Qed.

(** The services down to their statements. *)
Ltac unfold_services :=
  unfold handle, refreshSessionRules,
    AuthService.endSession, AuthService.validateSession,
    SessionFirewall.logoutSession, SessionFirewall.logoutDevice,
    SessionFirewall.forceDisconnect, SessionFirewall.onSessionEnded,
    SessionFirewall.onSessionCreated, SessionFirewall.find_session,
    SessionFirewall.update_sessions,
    SessionService.disconnectSession, SessionService.extendSession,
    DeviceService.blockDevice, DatabaseService.cleanupExpiredSessions,
    RuleEngine.cleanupExpiredSessions, RuleEngine.revokeClientAccess,
    RuleEngine.grantClientAccess,
    IptablesService.removeClientRules, IptablesService.applyPortalRedirect,
    IptablesService.removePortalRedirect, IptablesService.applyAuthenticatedRules,
    IptablesService.executeCommand, IptablesService.markRulesRemoved,
    EbtablesService.removeClientIsolation, EbtablesService.applyClientIsolation,
    EbtablesService.executeCommand, EbtablesService.markRulesRemoved,
    BindingService.removeBinding, BindingService.removeBindingBySession,
    BindingService.cleanupExpiredBindings, BindingService.validateBinding,
    BindingService.retire_by_id, BindingService.createBinding,
    AuthService.getOrCreateDevice,
    Logging.authSuccess, Logging.authFailure, Logging.sessionCreated,
    Logging.sessionExpired, Logging.suspiciousActivity, Logging.ruleApplied,
    Logging.ruleRemoved, emit, date_now.

(** A statement that leaves the binding table alone, or retires rows, or
    moves expiries. *)
Ltac tame_statement :=
  let w := fresh "w" in
  intro w; unfold tame_bindings; unfold_statements; cbn;
  repeat match goal with
         | |- context [if ?b then _ else _] => destruct b; cbn
         end;
  first [ apply tame_refl | apply tame_retire | apply tame_expiry ].

Ltac tame_auto :=
  unfold_services; along_structure; try tame_statement.


(** [keeps I c]: running [c] preserves [I]. *)
Definition keeps {A} (I : World -> Prop) (c : M A) : Prop :=
  forall w, I w -> I (snd (c w)).

Section Keeps.
Context (I : World -> Prop).

Lemma keeps_ret {A} (a : A) : keeps I (ret a).
Proof. intros w Hw. exact Hw. Qed.

Lemma keeps_gets {A} (f : World -> A) : keeps I (gets f).
Proof. intros w Hw. exact Hw. Qed.

Lemma keeps_bind {A B} (c : M A) (k : A -> M B) :
  keeps I c -> (forall a, keeps I (k a)) -> keeps I (bind c k).
Proof.
  intros Hc Hk w Hw. rewrite bind_run. apply Hk, Hc, Hw.
Qed.

Lemma keeps_forM {A B} (xs : list A) (body : A -> M B) :
  (forall x, keeps I (body x)) -> keeps I (forM xs body).
Proof.
  intros Hb. induction xs as [|x xs IH]; simpl.
  - apply keeps_ret.
  - apply keeps_bind; [apply Hb|]. intros y.
    apply keeps_bind; [exact IH|]. intros ys. apply keeps_ret.
Qed.

Lemma keeps_along {A} (R : World -> World -> Prop) (c : M A) :
  (forall w w', R w w' -> I w -> I w') -> along R c -> keeps I c.
Proof. intros HR Hc w Hw. exact (HR _ _ (Hc w) Hw). Qed.

End Keeps.

Ltac keeps_structure :=
  repeat match goal with
         | |- keeps _ (ret _) => apply keeps_ret
         | |- keeps _ (gets _) => apply keeps_gets
         | |- keeps _ (forM _ _) => apply keeps_forM; intros
         | |- keeps _ (bind _ _) => apply keeps_bind; [|intros]
         | |- keeps _ (match ?x with _ => _ end) => destruct x
         | |- keeps _ (let _ := _ in _) => cbv zeta
         end.

Ltac frame_auto :=
  unfold_services; along_structure; try frame_primitive.

(** ** (B1) and (B2) over the life of the system *)

Definition unique_bindings (w : World) : Prop :=
  one_active_per_mac (mac_ip_bindings w) /\ one_active_per_ip (mac_ip_bindings w).

Section UniqueBindings.
Variable env : Env.

Lemma createBinding_keeps_unique mac ip sid exp :
  keeps unique_bindings (BindingService.createBinding mac ip sid exp).
Proof.
  intros w [H1 H2].
  destruct (BindingService.normalizeMac mac) as [nm|] eqn:Hn.
  - pose proof (createBinding_bindings mac ip sid exp w nm Hn) as Hb. cbv zeta in Hb.
    unfold unique_bindings.
    destruct nm as [m|]; [destruct (fk_session w sid)|]; destruct Hb as [_ ->].
    + apply (rebound_unique m ip); auto. now apply unique_nearly.
    + split; [eapply calm_one_active_per_mac | eapply calm_one_active_per_ip];
        eauto using retired_for_calm.
    + split; [eapply calm_one_active_per_mac | eapply calm_one_active_per_ip];
        eauto using retired_for_calm.
  - unfold BindingService.createBinding. rewrite Hn. now split.
Qed.

(** After its binding step, the grant leaves the binding table alone. *)
Lemma grantClientAccess_bindings sd w :
  mac_ip_bindings (snd (RuleEngine.grantClientAccess env sd w))
  = mac_ip_bindings
      (snd (BindingService.createBinding (Some (macAddress sd)) (ipAddress sd)
              (Some (sessionId sd)) (expiresAt sd) w)).
Proof.
  unfold RuleEngine.grantClientAccess. rewrite bind_run.
  destruct (fst (BindingService.createBinding _ _ _ _ w)) as [binding|].
  - match goal with
    | |- mac_ip_bindings (snd (?k ?w1)) = _ =>
        enough (Hk : along (same mac_ip_bindings) k) by apply Hk
    end.
    frame_auto.
  - rewrite bind_run. cbn. reflexivity.
Qed.

Lemma onSessionCreated_bindings session w :
  mac_ip_bindings (snd (SessionFirewall.onSessionCreated env session w))
  = mac_ip_bindings
      (snd (BindingService.createBinding (Some (s_mac_address session))
              (s_ip_address session) (Some (s_id session))
              (Some (s_expires_at session)) w)).
Proof.
  unfold SessionFirewall.onSessionCreated. rewrite bind_run, bind_run. cbn.
  apply grantClientAccess_bindings.
Qed.

Lemma onSessionCreated_keeps_unique session :
  keeps unique_bindings (SessionFirewall.onSessionCreated env session).
Proof.
  intros w Hw. unfold unique_bindings. rewrite onSessionCreated_bindings.
  now apply createBinding_keeps_unique.
Qed.


Lemma createSession_keeps_unique uid vid dev x ip method hours :
  keeps unique_bindings
    (AuthService.createSession env uid vid dev (AuthService.normalizeMacAddress x)
                               ip method hours).
Proof.
  intros w [H1 H2]. unfold AuthService.createSession.
  repeat rewrite bind_run. cbn [ret snd].
  unfold unique_bindings. rewrite onSessionCreated_bindings.
  match goal with
  | |- context [BindingService.createBinding ?m ?i ?s ?e ?w3] =>
      set (before := w3);
      pose proof (createBinding_bindings m i s e before _
                    (normalizeMac_normalizeMacAddress x)) as Hb
  end.
  cbv zeta in Hb.
  assert (Hfk : fk_session before (Some (seq_sessions w + 1)) = true).
  { subst before. unfold_services. unfold_statements. cbn.
    unfold session_exists. cbn. rewrite existsb_app. cbn.
    rewrite Z.eqb_refl. now rewrite orb_true_r. }
  assert (Hbs : exists row,
             b_mac_address row = AuthService.normalizeMacAddress x
             /\ b_ip_address row = ip
             /\ mac_ip_bindings before
                = (filter (fun b => negb (BindingService.same_pair
                                            (AuthService.normalizeMacAddress x) ip b))
                          (mac_ip_bindings w) ++ [row])%list).
  { subst before. unfold_services. unfold_statements. cbn.
    eexists. split; [|split]; [| |reflexivity]; reflexivity. }
  destruct Hbs as (row & Hrm & Hri & Hbs).
  cbn [s_id fst date_now gets snd] in Hb, Hfk. rewrite Hfk in Hb.
  destruct Hb as [_ Hb]. cbn [s_id fst date_now gets snd]. rewrite Hb, Hbs.
  apply (rebound_unique (AuthService.normalizeMacAddress x) ip); auto.
  now apply insert_nearly.
Qed.


Lemma tame_keeps_unique {A} (c : M A) :
  along tame_bindings c -> keeps unique_bindings c.
Proof.
  apply keeps_along. intros w w' Ht Hw. now apply (tame_unique w w').
Qed.

Ltac unique_statement :=
  first [ apply createSession_keeps_unique
        | apply createBinding_keeps_unique
        | apply onSessionCreated_keeps_unique
        | apply tame_keeps_unique; tame_auto ].

Lemma handle_keeps_unique req : keeps unique_bindings (handle env req).
Proof.
  destruct req;
    unfold handle, refreshSessionRules, AuthService.authenticateWithVoucher,
      AuthService.authenticateWithCredentials;
    keeps_structure; unique_statement.
Qed.

Lemma reachable_unique vs us w :
  reachable env vs us w -> unique_bindings w.
Proof.
  induction 1 as [t|w req t Hr IH Ht].
  - split; intros x; cbn; lia.
  - apply handle_keeps_unique. exact IH.
Qed.

End UniqueBindings.

(** C3, as the code has it. [createBinding] preserves (B1) and (B2),
    whatever its arguments; so does every request the engine serves,
    authentication included, so that both hold at every state between two
    requests.  Inside [createSession] the bare [INSERT OR REPLACE] does not
    retire anything: it is the [createBinding] of the grant, run for the
    same MAC and IP before [createSession] returns, that retires the older
    rows. *)
Theorem bindings_unique_between_requests :
  forall env : Env,
    (forall mac ip sid exp w,
        unique_bindings w ->
        unique_bindings (snd (BindingService.createBinding mac ip sid exp w)))
    /\ (forall req w,
           unique_bindings w -> unique_bindings (run (handle env req) w))
    /\ (forall vs us w, reachable env vs us w -> unique_bindings w).
Proof.
  intros env. split; [|split].
  - intros mac ip sid exp. apply createBinding_keeps_unique.
  - intros req. apply handle_keeps_unique.
  - apply reachable_unique.
Qed.


(** ** Sessions over the life of the system *)

(** A session row after any update the services make to it: its id, MAC
    and credential stay, and it is active only if it was. *)
Definition session_tame (s s' : Session) : Prop :=
  s_id s' = s_id s /\
  s_mac_address s' = s_mac_address s /\
  s_voucher_id s' = s_voucher_id s /\
  s_user_id s' = s_user_id s /\
  (s_is_active s' = true -> s_is_active s = true).

Definition tame_sessions (w w' : World) : Prop :=
  Forall2 session_tame (sessions w) (sessions w').

Lemma session_tame_refl s : session_tame s s.
Proof. unfold session_tame. auto. Qed.

Lemma session_tame_trans a b c : session_tame a b -> session_tame b c -> session_tame a c.
Proof.
  unfold session_tame. intros (? & ? & ? & ? & ?) (? & ? & ? & ? & ?).
  repeat split; try congruence; auto.
Qed.

#[export] Instance tame_sessions_preorder : Preorder tame_sessions.
Proof.
  split; unfold tame_sessions.
  - intros w. apply Forall2_refl, session_tame_refl.
  - intros a b c. apply Forall2_trans, session_tame_trans.
Qed.

Lemma sessions_tame_refl ss : Forall2 session_tame ss ss.
Proof. apply Forall2_refl, session_tame_refl. Qed.

Lemma sessions_tame_update sel f ss :
  (forall s, session_tame s (f s)) ->
  Forall2 session_tame ss (update_where sel f ss).
Proof. intros Hf. apply update_where_pointwise; [apply session_tame_refl | exact Hf]. Qed.

Ltac tame_sessions_statement :=
  let w := fresh "w" in
  intro w; unfold tame_sessions; unfold_statements; cbn;
  repeat match goal with
         | |- context [if ?b then _ else _] => destruct b; cbn
         end;
  first [ apply sessions_tame_refl
        | apply sessions_tame_update; intros ?; unfold session_tame; cbn;
          repeat split; auto; discriminate ].

Ltac tame_sessions_auto :=
  unfold_services; along_structure; try tame_sessions_statement.

(** An ACTIVE session of MAC [m] under voucher [v], under account [u]. *)
Definition uses_voucher (m : string) (v : Z) (s : Session) : bool :=
  (opt_Z_eqb (s_voucher_id s) v && String.eqb (s_mac_address s) m && s_is_active s)%bool.

Definition uses_account (m : string) (u : Z) (s : Session) : bool :=
  (opt_Z_eqb (s_user_id s) u && String.eqb (s_mac_address s) m && s_is_active s)%bool.

(** At most one ACTIVE session per MAC and credential. *)
Definition one_session_per_credential (w : World) : Prop :=
  (forall m v, (matching (uses_voucher m v) (sessions w) <= 1)%nat) /\
  (forall m u, (matching (uses_account m u) (sessions w) <= 1)%nat).

(** At most one ACTIVE session per MAC: (I1) as the specification words it. *)
Definition active_session_of (m : string) (s : Session) : bool :=
  (s_is_active s && String.eqb (s_mac_address s) m)%bool.

Definition one_session_per_mac (w : World) : Prop :=
  forall m, (matching (active_session_of m) (sessions w) <= 1)%nat.

Section SessionsInvariant.
Variable env : Env.

Lemma uses_voucher_tame m v s s' :
  session_tame s s' -> uses_voucher m v s' = true -> uses_voucher m v s = true.
Proof.
  intros (_ & Hm & Hv & _ & Ha). unfold uses_voucher. rewrite Hm, Hv. intros H.
  apply andb_true_iff in H. destruct H as [H Hact]. now rewrite H, (Ha Hact).
Qed.

Lemma uses_account_tame m u s s' :
  session_tame s s' -> uses_account m u s' = true -> uses_account m u s = true.
Proof.
  intros (_ & Hm & _ & Hu & Ha). unfold uses_account. rewrite Hm, Hu. intros H.
  apply andb_true_iff in H. destruct H as [H Hact]. now rewrite H, (Ha Hact).
Qed.

Lemma tame_keeps_credentials {A} (c : M A) :
  along tame_sessions c -> keeps one_session_per_credential c.
Proof.
  apply keeps_along. unfold tame_sessions. intros w w' Ht [Hv Hu]. split.
  - intros m v. specialize (Hv m v).
    pose proof (matching_pointwise session_tame (uses_voucher m v) _ _ Ht
                  (uses_voucher_tame m v)). lia.
  - intros m u. specialize (Hu m u).
    pose proof (matching_pointwise session_tame (uses_account m u) _ _ Ht
                  (uses_account_tame m u)). lia.
Qed.

(** [createSession] appends one row and otherwise only updates rows. *)
Lemma createSession_sessions uid vid dev mac ip method hours w :
  exists row,
    s_mac_address row = mac
    /\ s_voucher_id row = opt_num_or_null vid
    /\ s_user_id row = opt_num_or_null uid
    /\ s_is_active row = true
    /\ Forall2 session_tame (sessions w ++ [row])
         (sessions (snd (AuthService.createSession env uid vid dev mac ip method hours w))).
Proof.
  unfold AuthService.createSession. rewrite bind_run, bind_run.
  cbn [date_now gets fst snd].
  match goal with
  | |- context [snd (?k (with_sessions w (sessions w ++ [?row])%list ?n))] =>
      exists row; repeat split; try reflexivity;
      enough (Hk : along tame_sessions k) by apply (Hk (with_sessions w _ n))
  end.
  tame_sessions_auto.
Qed.


Lemma sessions_grow w w' row :
  one_session_per_credential w ->
  Forall2 session_tame (sessions w ++ [row]) (sessions w') ->
  (forall v, s_voucher_id row = Some v ->
             matching (uses_voucher (s_mac_address row) v) (sessions w) = 0%nat) ->
  (forall u, s_user_id row = Some u ->
             matching (uses_account (s_mac_address row) u) (sessions w) = 0%nat) ->
  one_session_per_credential w'.
Proof.
  intros [Hv Hu] Ht Hfv Hfu. split.
  - intros m v.
    pose proof (matching_pointwise session_tame (uses_voucher m v) _ _ Ht
                  (uses_voucher_tame m v)) as Hle.
    rewrite matching_app in Hle. specialize (Hv m v).
    destruct (uses_voucher m v row) eqn:Er.
    + unfold uses_voucher in Er. apply andb_true_iff in Er. destruct Er as [Er _].
      apply andb_true_iff in Er. destruct Er as [Ev Em].
      apply String.eqb_eq in Em. unfold opt_Z_eqb in Ev.
      destruct (s_voucher_id row) as [v0|] eqn:E0; [|discriminate].
      apply Z.eqb_eq in Ev. subst v0 m. rewrite (Hfv v eq_refl) in Hle.
      unfold matching in Hle at 2. simpl in Hle. destruct (uses_voucher _ _ row); simpl in Hle; lia.
    + unfold matching in Hle at 3. simpl in Hle. rewrite Er in Hle. simpl in Hle. lia.
  - intros m u.
    pose proof (matching_pointwise session_tame (uses_account m u) _ _ Ht
                  (uses_account_tame m u)) as Hle.
    rewrite matching_app in Hle. specialize (Hu m u).
    destruct (uses_account m u row) eqn:Er.
    + unfold uses_account in Er. apply andb_true_iff in Er. destruct Er as [Er _].
      apply andb_true_iff in Er. destruct Er as [Ev Em].
      apply String.eqb_eq in Em. unfold opt_Z_eqb in Ev.
      destruct (s_user_id row) as [u0|] eqn:E0; [|discriminate].
      apply Z.eqb_eq in Ev. subst u0 m. rewrite (Hfu u eq_refl) in Hle.
      unfold matching in Hle at 2. simpl in Hle. destruct (uses_account _ _ row); simpl in Hle; lia.
    + unfold matching in Hle at 3. simpl in Hle. rewrite Er in Hle. simpl in Hle. lia.
Qed.

Lemma num_or_null_Some x v : num_or_null x = Some v -> v = x.
Proof. unfold num_or_null. destruct (x =? 0); congruence. Qed.

Lemma find_none_matching {R} (p : R -> bool) rows :
  find p rows = None -> matching p rows = 0%nat.
Proof. intros Hf. apply matching_none. intros r Hr. exact (find_none _ _ Hf r Hr). Qed.

(** The rest of a request only updates session rows. *)
Ltac tame_rest :=
  match goal with
  | |- one_session_per_credential (snd (?k ?w0)) =>
      apply (tame_keeps_credentials k); [tame_sessions_auto | try assumption]
  end.

Lemma getOrCreateDevice_sessions mac w :
  sessions (snd (AuthService.getOrCreateDevice mac w)) = sessions w.
Proof.
  revert w.
  enough (H : along (same sessions) (AuthService.getOrCreateDevice mac)) by exact H.
  frame_auto.
Qed.

Lemma authenticateWithVoucher_keeps code mac ip :
  keeps one_session_per_credential (AuthService.authenticateWithVoucher env code mac ip).
Proof.
  intros w Hinv. unfold AuthService.authenticateWithVoucher.
  rewrite bind_run. cbn [gets fst snd].
  destruct (find _ (vouchers w)) as [v|]; [|tame_rest].
  rewrite bind_run. cbn [date_now gets fst snd].
  destruct (sql_lt_opt _ _); [tame_rest|].
  rewrite bind_run, bind_run. cbn [gets fst snd].
  destruct (find _ (sessions w)) as [existing|] eqn:Eex.
  { cbv iota. tame_rest. }
  destruct (Z.leb _ _); [tame_rest|].
  rewrite bind_run.
  pose proof (getOrCreateDevice_sessions (AuthService.normalizeMacAddress mac) w) as Hs1.
  set (w1 := snd (AuthService.getOrCreateDevice _ w)) in *.
  assert (Hinv1 : one_session_per_credential w1).
  { unfold one_session_per_credential. now rewrite Hs1. }
  destruct (d_is_blocked _); [tame_rest|].
  rewrite bind_run.
  match goal with
  | |- context [AuthService.createSession env ?u ?vi ?d ?m ?i ?me ?h w1] =>
      destruct (createSession_sessions u vi d m i me h w1)
        as (row & Hm & Hv & Hu & _ & Ht);
      set (w2 := snd (AuthService.createSession env u vi d m i me h w1)) in *
  end.
  assert (Hinv2 : one_session_per_credential w2).
  { apply (sessions_grow w1 w2 row Hinv1 Ht).
    - intros v0 Hv0. rewrite Hv in Hv0. simpl in Hv0.
      apply num_or_null_Some in Hv0. subst v0. rewrite Hm, Hs1.
      now apply find_none_matching.
    - intros u0 Hu0. rewrite Hu in Hu0. discriminate. }
  tame_rest.
Qed.

Lemma authenticateWithCredentials_keeps username password mac ip :
  keeps one_session_per_credential
        (AuthService.authenticateWithCredentials env username password mac ip).
Proof.
  intros w Hinv. unfold AuthService.authenticateWithCredentials.
  rewrite bind_run. cbn [gets fst snd].
  destruct (find _ (users w)) as [u|]; [|tame_rest].
  destruct (negb _); [tame_rest|].
  rewrite bind_run.
  pose proof (getOrCreateDevice_sessions (AuthService.normalizeMacAddress mac) w) as Hs1.
  set (w1 := snd (AuthService.getOrCreateDevice _ w)) in *.
  assert (Hinv1 : one_session_per_credential w1).
  { unfold one_session_per_credential. now rewrite Hs1. }
  destruct (d_is_blocked _); [tame_rest|].
  rewrite bind_run, bind_run. cbn [gets fst snd].
  destruct (find _ (sessions w1)) as [existing|] eqn:Eex; [tame_rest|].
  destruct (Z.leb _ _); [tame_rest|].
  rewrite bind_run.
  match goal with
  | |- context [AuthService.createSession env ?ui ?vi ?d ?m ?i ?me ?h w1] =>
      destruct (createSession_sessions ui vi d m i me h w1)
        as (row & Hm & Hv & Hu & _ & Ht);
      set (w2 := snd (AuthService.createSession env ui vi d m i me h w1)) in *
  end.
  assert (Hinv2 : one_session_per_credential w2).
  { apply (sessions_grow w1 w2 row Hinv1 Ht).
    - intros v0 Hv0. rewrite Hv in Hv0. discriminate.
    - intros u0 Hu0. rewrite Hu in Hu0. simpl in Hu0.
      apply num_or_null_Some in Hu0. subst u0. rewrite Hm.
      now apply find_none_matching. }
  tame_rest.
Qed.

Lemma handle_keeps_credentials req :
  keeps one_session_per_credential (handle env req).
Proof.
  destruct req; unfold handle;
    try solve [apply tame_keeps_credentials; tame_sessions_auto].
  - apply keeps_bind; [apply authenticateWithVoucher_keeps | intros; apply keeps_ret].
  - apply keeps_bind; [apply authenticateWithCredentials_keeps | intros; apply keeps_ret].
Qed.

Lemma reachable_credentials vs us w :
  reachable env vs us w -> one_session_per_credential w.
Proof.
  induction 1 as [t|w req t Hr IH Ht].
  - split; intros; cbn; lia.
  - apply handle_keeps_credentials. exact IH.
Qed.

End SessionsInvariant.

(** ** A small deployment to run the services on *)

(** The defaults: simulation mode, every shell command succeeds. *)
Definition demo_env : Env :=
  {| config := firewallConfig;
     gateway_mac := "dc:a6:32:xx:xx:xx";
     maxDevicesPerUser := 2;
     session_durationHours := 4;
     shell := fun _ _ => true;
     bcrypt_compare := String.eqb;
     uuidv4 := fun n => "token";
     jwt_sign := fun _ mac _ => mac |}.

(** The sample vouchers of [createSampleVouchers]. *)
Definition demo_vouchers : list Voucher :=
  [ {| v_id := 1; v_code := "TEST1234"; v_duration_hours := 4; v_max_devices := 2;
       v_expires_at := None; v_used_at := None; v_used_by_device := None;
       v_is_active := true |};
    {| v_id := 2; v_code := "DEMO5678"; v_duration_hours := 8; v_max_devices := 1;
       v_expires_at := None; v_used_at := None; v_used_by_device := None;
       v_is_active := true |};
    {| v_id := 3; v_code := "WIFI2024"; v_duration_hours := 24; v_max_devices := 3;
       v_expires_at := None; v_used_at := None; v_used_by_device := None;
       v_is_active := true |} ].

Definition demo_start : World := initial demo_vouchers [] 0.

(** One client authenticates with a voucher. *)
Definition demo_one_client : World :=
  run (handle demo_env
         (ReqAuthVoucher "TEST1234" (Some "AA-BB-CC-DD-EE-01") "192.168.4.10"))
      (with_clock demo_start 1000).

(** The same client then presents a second voucher. *)
Definition demo_second_voucher : World :=
  run (handle demo_env
         (ReqAuthVoucher "DEMO5678" (Some "AA-BB-CC-DD-EE-01") "192.168.4.10"))
      (with_clock demo_one_client 2000).

Lemma demo_one_client_reachable : reachable demo_env demo_vouchers [] demo_one_client.
Proof. apply reach_step; [apply reach_init | cbn; lia]. Qed.

Lemma demo_second_voucher_reachable :
  reachable demo_env demo_vouchers [] demo_second_voucher.
Proof.
  apply reach_step; [apply demo_one_client_reachable|].
  vm_compute. discriminate.
Qed.

(** ** C1: sessions per MAC *)

(** C1 as stated fails: a MAC that holds an ACTIVE session under one
    voucher and authenticates with another voucher ends with two ACTIVE
    sessions. *)
Lemma two_active_sessions_for_one_mac :
  ~ (forall env vs us w, reachable env vs us w -> one_session_per_mac w).
Proof.
  intros H.
  specialize (H _ _ _ _ demo_second_voucher_reachable "aa:bb:cc:dd:ee:01").
  vm_compute in H. lia.
Qed.

(** C1, as the code has it. At every reachable state, for every MAC and
    every voucher (every user account), at most one session row of that
    MAC under that voucher (account) is ACTIVE, and every request,
    authentication included, preserves this: an authentication for a MAC
    that already holds an ACTIVE session under the same credential never
    leaves two of them. *)
Theorem sessions_unique_per_credential :
  forall env vs us w,
    reachable env vs us w ->
    one_session_per_credential w
    /\ (forall req, one_session_per_credential (run (handle env req) w)).
Proof.
  intros env vs us w Hr.
  pose proof (reachable_credentials env vs us w Hr) as Hw.
  split; [exact Hw|]. intros req. now apply handle_keeps_credentials.
Qed.

Lemma sessions_unique_per_credential_witness :
  one_session_per_credential demo_second_voucher.
Proof.
  exact (proj1 (sessions_unique_per_credential demo_env demo_vouchers []
                  demo_second_voucher
                  (reach_step demo_env demo_vouchers [] demo_one_client
                     (ReqAuthVoucher "DEMO5678" (Some "AA-BB-CC-DD-EE-01") "192.168.4.10")
                     2000
                     (reach_step demo_env demo_vouchers [] demo_start
                        (ReqAuthVoucher "TEST1234" (Some "AA-BB-CC-DD-EE-01") "192.168.4.10")
                        1000 (reach_init demo_env demo_vouchers [] 0)
                        ltac:(vm_compute; discriminate))
                     ltac:(vm_compute; discriminate)))).
Defined.

(** ** C3: uniqueness of bindings *)

(** C3 as stated fails for the insert inside [createSession]: on its own
    it leaves a MAC that was bound to one IP with two ACTIVE bindings. *)
Lemma createSession_insert_alone_breaks_uniqueness :
  ~ (forall mac ip sid exp w,
        unique_bindings w ->
        unique_bindings (snd (BindingService.insert_or_replace mac ip sid exp w))).
Proof.
  intros H.
  specialize (H "aa:bb:cc:dd:ee:01" "192.168.4.99" (Some 1) None demo_one_client
                (reachable_unique demo_env _ _ _ demo_one_client_reachable)).
  destruct H as [H _]. specialize (H "aa:bb:cc:dd:ee:01").
  vm_compute in H. lia.
Qed.

Lemma bindings_unique_between_requests_witness :
  unique_bindings demo_second_voucher.
Proof.
  exact (proj2 (proj2 (bindings_unique_between_requests demo_env))
           demo_vouchers [] demo_second_voucher demo_second_voucher_reachable).
Defined.

(** ** C10: the three normalisers *)

(** The three normalisers agree on [mac]. *)
Definition normalizers_agree (mac : option string) : Prop :=
  Returns (Some (AuthService.normalizeMacAddress mac)) = BindingService.normalizeMac mac
  /\ BindingService.normalizeMac mac = Helpers.normalizeMac mac.

(** C10 as stated fails: on [null] the auth service answers the all-zero
    MAC and the other two answer [null]. *)
Lemma normalizers_differ_on_null : ~ (forall mac, normalizers_agree mac).
Proof. intros H. destruct (H None) as [H1 _]. discriminate. Qed.

(** C10, as the code has it. On a string the three normalisers agree
    exactly when the string, stripped of its separators, has twelve
    characters (and yields at least one pair); on [null], the empty string
    and every other length they differ.  All the same the binding
    service's [normalizeMac] leaves every MAC that [normalizeMacAddress]
    produces as it is, so a session's stored MAC and the binding-table
    lookups for it agree. *)
Theorem normalizers_agree_on_twelve :
  (forall mac : string,
      normalizers_agree (Some mac)
      <-> (String.length (JsString.clean mac) = 12%nat
           /\ JsString.match_pairs (JsString.clean mac) <> []))
  /\ (forall mac : option string,
         BindingService.normalizeMac (Some (AuthService.normalizeMacAddress mac))
         = Returns (Some (AuthService.normalizeMacAddress mac))).
Proof.
  split; [|apply normalizeMac_normalizeMacAddress].
  intros mac. unfold normalizers_agree, AuthService.normalizeMacAddress,
    BindingService.normalizeMac, Helpers.normalizeMac.
  destruct mac as [|c rest].
  - simpl. split; [intros [H _]; discriminate | intros [H _]; discriminate].
  - cbn [str_or_null].
    destruct (Nat.eqb_spec (String.length (JsString.clean (String c rest))) 12) as [E|E];
      destruct (JsString.match_pairs (JsString.clean (String c rest))) as [|p ps];
      cbn [negb]; split.
    + intros [H _]. discriminate.
    + intros [_ H]. congruence.
    + intros _. split; [exact E | discriminate].
    + intros _. split; reflexivity.
    + intros [_ H]. discriminate.
    + intros [H _]. contradiction.
    + intros [_ H]. discriminate.
    + intros [H _]. contradiction.
Qed.

Lemma normalizers_agree_on_twelve_witness :
  normalizers_agree (Some "AA-BB-CC-DD-EE-01").
Proof.
  apply (proj1 normalizers_agree_on_twelve "AA-BB-CC-DD-EE-01").
  split; [reflexivity | discriminate].
Defined.

(** ** C7 and C8 on a small table *)

(** Two clients, each bound to its own address. *)
Definition demo_two_bindings : World :=
  with_bindings demo_start
    [ {| b_id := 1; b_mac_address := "aa:bb:cc:dd:ee:01";
         b_ip_address := "192.168.4.10"; b_session_id := None;
         b_created_at := 0; b_expires_at := None; b_is_active := true |};
      {| b_id := 2; b_mac_address := "aa:bb:cc:dd:ee:02";
         b_ip_address := "192.168.4.11"; b_session_id := None;
         b_created_at := 0; b_expires_at := Some 500; b_is_active := true |} ]
    2.

Lemma demo_two_bindings_unique : unique_bindings demo_two_bindings.
Proof.
  split; intros x; unfold matching, active_mac, active_ip; cbn -[String.eqb].
  - destruct (String.eqb_spec "aa:bb:cc:dd:ee:01" x);
      destruct (String.eqb_spec "aa:bb:cc:dd:ee:02" x); simpl; try lia.
    subst x. discriminate.
  - destruct (String.eqb_spec "192.168.4.10" x);
      destruct (String.eqb_spec "192.168.4.11" x); simpl; try lia.
    subst x. discriminate.
Qed.

Lemma demo_two_bindings_keys : NoDup (map b_id (mac_ip_bindings demo_two_bindings)).
Proof.
  cbn. constructor; [simpl; intros [H|[]]; discriminate|].
  constructor; [simpl; tauto | constructor].
Qed.

(** C7 as stated fails: the new binding is not installed "in all cases".
    The first client turns up on the second client's address on behalf of
    a session that does not exist: both old bindings are retired, the
    insert violates the foreign key, and the call returns failure. *)
Lemma createBinding_unknown_session_retires_without_installing :
  ~ (forall w mac ip sid exp,
        exists id m,
          fst (BindingService.createBinding mac ip sid exp w)
          = Returns (BindingService.Created id m ip))
  /\ fst (BindingService.createBinding (Some "AA-BB-CC-DD-EE-01") "192.168.4.11"
            (Some 7) None demo_two_bindings)
     = Returns BindingService.CreateFailed
  /\ map b_is_active
         (mac_ip_bindings
            (snd (BindingService.createBinding (Some "AA-BB-CC-DD-EE-01") "192.168.4.11"
                    (Some 7) None demo_two_bindings)))
     = [false; false].
Proof.
  assert (Hfail : fst (BindingService.createBinding (Some "AA-BB-CC-DD-EE-01")
                         "192.168.4.11" (Some 7) None demo_two_bindings)
                  = Returns BindingService.CreateFailed) by (vm_compute; reflexivity).
  split; [|split; [exact Hfail | vm_compute; reflexivity]].
  intros H.
  destruct (H demo_two_bindings (Some "AA-BB-CC-DD-EE-01") "192.168.4.11" (Some 7) None)
    as (id & m & Hc).
  rewrite Hfail in Hc. discriminate Hc.
Qed.

(** The first client has just been given a session on the second client's
    address: [createSession] has inserted its binding, and the grant calls
    [createBinding] for the same pair. *)
Lemma createBinding_retires_and_installs_witness :
  fst (BindingService.createBinding (Some "AA-BB-CC-DD-EE-01") "192.168.4.11"
         None None
         (snd (BindingService.insert_or_replace "aa:bb:cc:dd:ee:01" "192.168.4.11"
                 None None demo_two_bindings)))
  = Returns (BindingService.Created 4 "aa:bb:cc:dd:ee:01" "192.168.4.11").
Proof.
  assert (Hpk : NoDup (map b_id
                         (mac_ip_bindings
                            (snd (BindingService.insert_or_replace "aa:bb:cc:dd:ee:01"
                                    "192.168.4.11" None None demo_two_bindings))))).
  { cbn. repeat constructor; simpl; intuition discriminate. }
  exact (proj1 (proj1 (proj2 (proj2 (proj2 (createBinding_retires_and_installs
                  (snd (BindingService.insert_or_replace "aa:bb:cc:dd:ee:01"
                          "192.168.4.11" None None demo_two_bindings))
                  (Some "AA-BB-CC-DD-EE-01") "192.168.4.11" None None))
                  "aa:bb:cc:dd:ee:01" eq_refl Hpk
                  (or_intror (ex_intro _ demo_two_bindings
                     (ex_intro _ None (ex_intro _ None
                        (conj demo_two_bindings_unique eq_refl)))))))
                eq_refl)).
Defined.

(** C8 as stated fails: [validateBinding] is not a pure read.  Asked
    about an address the client does not hold, it appends a
    BINDING_VIOLATION row to the audit log. *)
Lemma validateBinding_writes_the_audit_log :
  ~ (forall mac ip w, snd (BindingService.validateBinding mac ip w) = w).
Proof.
  intros H.
  specialize (H (Some "AA:BB:CC:DD:EE:01") "192.168.4.99" demo_two_bindings).
  apply (f_equal (fun w => List.length (event_logs w))) in H.
  vm_compute in H. discriminate H.
Qed.

(** The first client is asked about an address it does not hold. *)
Lemma validateBinding_outcome_witness :
  fst (BindingService.validateBinding (Some "AA:BB:CC:DD:EE:01") "192.168.4.99"
         demo_two_bindings)
  = Returns (BindingService.IP_MISMATCH "192.168.4.10").
Proof.
  destruct (validateBinding_outcome demo_two_bindings (Some "AA:BB:CC:DD:EE:01")
              "192.168.4.99" (Some "aa:bb:cc:dd:ee:01") eq_refl
              (proj1 demo_two_bindings_unique)) as (_ & _ & H).
  destruct (H {| b_id := 1; b_mac_address := "aa:bb:cc:dd:ee:01";
                 b_ip_address := "192.168.4.10"; b_session_id := None;
                 b_created_at := 0; b_expires_at := None; b_is_active := true |}
              (or_introl eq_refl) eq_refl eq_refl) as (Hm & _).
  exact (proj1 (Hm ltac:(discriminate))).
Defined.

(** ** The rule ledger *)

(** An APPLIED ledger row of session [sid]. *)
Definition applied_for (sid : Z) (r : FirewallRule) : bool :=
  (opt_Z_eqb (r_session_id r) sid && r_is_active r)%bool.

(** A ledger row after a revoke of session [sid]: untouched, or a row of
    that session that is no longer APPLIED. *)
Definition rule_quiet (sid : Z) (r r' : FirewallRule) : Prop :=
  r' = r \/
  (r_session_id r = Some sid /\ r_session_id r' = Some sid /\ r_is_active r' = false).

Definition quiet_rules (sid : Z) (w w' : World) : Prop :=
  Forall2 (rule_quiet sid) (firewall_rules w) (firewall_rules w').

(** A ledger row after any retraction: same session, APPLIED only if it
    was and then untouched. *)
Definition rule_tame (r r' : FirewallRule) : Prop :=
  r_session_id r' = r_session_id r /\ (r_is_active r' = true -> r' = r).

Definition tame_rules (w w' : World) : Prop :=
  Forall2 rule_tame (firewall_rules w) (firewall_rules w').

Lemma rule_quiet_refl sid r : rule_quiet sid r r.
Proof. now left. Qed.

Lemma rule_quiet_trans sid a b c :
  rule_quiet sid a b -> rule_quiet sid b c -> rule_quiet sid a c.
Proof.
  unfold rule_quiet.
  intros [->|(Ha & Hb & Hi)] [->|(Hb' & Hc & Hi')];
    [left; reflexivity | right; auto | right; auto | right; auto].
Qed.

Lemma rule_tame_refl r : rule_tame r r.
Proof. split; auto. Qed.

Lemma rule_tame_trans a b c : rule_tame a b -> rule_tame b c -> rule_tame a c.
Proof.
  unfold rule_tame. intros [S1 A1] [S2 A2]. split; [congruence|].
  intros Hc. specialize (A2 Hc). subst c. auto.
Qed.

Lemma rule_quiet_tame sid r r' : rule_quiet sid r r' -> rule_tame r r'.
Proof.
  intros [->|(Ha & Hb & Hi)]; [apply rule_tame_refl|].
  split; [congruence|]. intros Hact. congruence.
Qed.

#[export] Instance quiet_rules_preorder sid : Preorder (quiet_rules sid).
Proof.
  split; unfold quiet_rules.
  - intros w. apply Forall2_refl, rule_quiet_refl.
  - intros a b c. apply Forall2_trans, rule_quiet_trans.
Qed.

#[export] Instance tame_rules_preorder : Preorder tame_rules.
Proof.
  split; unfold tame_rules.
  - intros w. apply Forall2_refl, rule_tame_refl.
  - intros a b c. apply Forall2_trans, rule_tame_trans.
Qed.

Lemma Forall2_impl_rows {R} (r1 r2 : R -> R -> Prop) (l l' : list R) :
  (forall a b, r1 a b -> r2 a b) -> Forall2 r1 l l' -> Forall2 r2 l l'.
Proof. intros Hi H. induction H; constructor; auto. Qed.

Lemma quiet_tame_rules sid w w' : quiet_rules sid w w' -> tame_rules w w'.
Proof. apply Forall2_impl_rows. apply rule_quiet_tame. Qed.

Lemma update_where_pointwise_sel {R} (rel : R -> R -> Prop) sel f (l : list R) :
  (forall r, rel r r) -> (forall r, sel r = true -> rel r (f r)) ->
  Forall2 rel l (update_where sel f l).
Proof.
  intros Hrefl Hf. induction l as [|r l IH]; simpl; constructor; [|exact IH].
  destruct (sel r) eqn:E; auto.
Qed.

Lemma opt_Z_eqb_Some o z : opt_Z_eqb o z = true -> o = Some z.
Proof.
  destruct o as [x|]; simpl; [|discriminate]. intros H. apply Z.eqb_eq in H. now subst.
Qed.

Lemma quiet_removed sid sel now rows :
  (forall r, sel r = true -> opt_Z_eqb (r_session_id r) sid = true) ->
  Forall2 (rule_quiet sid) rows (update_where sel (fun r => removed r now) rows).
Proof.
  intros Hsel. apply update_where_pointwise_sel; [apply rule_quiet_refl|].
  intros r Hr. right. specialize (Hsel r Hr). apply opt_Z_eqb_Some in Hsel.
  simpl. auto.
Qed.

Lemma tame_removed sel now rows :
  Forall2 rule_tame rows (update_where sel (fun r => removed r now) rows).
Proof.
  apply update_where_pointwise; [apply rule_tame_refl|].
  intros r. split; [reflexivity|]. simpl. discriminate.
Qed.

Lemma rules_quiet_refl sid rows : Forall2 (rule_quiet sid) rows rows.
Proof. apply Forall2_refl, rule_quiet_refl. Qed.

Lemma rules_tame_refl rows : Forall2 rule_tame rows rows.
Proof. apply Forall2_refl, rule_tame_refl. Qed.

Ltac quiet_rules_statement :=
  let w := fresh "w" in
  intro w; unfold quiet_rules; unfold_statements; cbn;
  repeat match goal with
         | |- context [if ?b then _ else _] => destruct b; cbn
         end;
  first [ apply rules_quiet_refl
        | apply quiet_removed; intros ? Hsel;
          repeat (apply andb_true_iff in Hsel; destruct Hsel as [Hsel ?]);
          assumption ].

Ltac quiet_rules_auto :=
  unfold_services; along_structure; try quiet_rules_statement.

Ltac tame_rules_statement :=
  let w := fresh "w" in
  intro w; unfold tame_rules; unfold_statements; cbn;
  repeat match goal with
         | |- context [if ?b then _ else _] => destruct b; cbn
         end;
  first [ apply rules_tame_refl | apply tame_removed ].

Ltac tame_rules_auto :=
  unfold_services; along_structure; try tame_rules_statement.

Section Ledger.
Variable env : Env.

Lemma revokeClientAccess_quiet sd :
  along (quiet_rules (sessionId sd)) (RuleEngine.revokeClientAccess env sd).
Proof. quiet_rules_auto. Qed.

Lemma revokeClientAccess_tame_rules sd :
  along tame_rules (RuleEngine.revokeClientAccess env sd).
Proof.
  intros w. apply (quiet_tame_rules (sessionId sd)). apply revokeClientAccess_quiet.
Qed.

(** No APPLIED row of session [sid]. *)
Definition retracted (sid : Z) (w : World) : Prop :=
  forall r, In r (firewall_rules w) -> applied_for sid r = false.

Lemma tame_keeps_retracted sid w w' :
  tame_rules w w' -> retracted sid w -> retracted sid w'.
Proof.
  unfold tame_rules, retracted. intros Ht Hw r' Hin.
  destruct (Forall2_In_r _ _ _ _ Ht Hin) as (r & Hr & Hs & Ha).
  unfold applied_for. destruct (r_is_active r') eqn:E; [|apply andb_false_r].
  rewrite (Ha eq_refl). rewrite (Ha eq_refl) in E.
  specialize (Hw r Hr). unfold applied_for in Hw. now rewrite E in Hw.
Qed.

Lemma markRulesRemoved_retracts sid w :
  retracted sid (snd (IptablesService.markRulesRemoved sid w)).
Proof.
  unfold retracted, IptablesService.markRulesRemoved, bind, date_now, gets, modify, emit.
  cbn. intros r Hin. unfold update_where in Hin. apply in_map_iff in Hin.
  destruct Hin as (r0 & <- & _). fold (applied_for sid r0).
  destruct (applied_for sid r0) eqn:E; [|exact E].
  unfold applied_for. cbn. apply andb_false_r.
Qed.

Lemma removeClientRules_retracts mac ip sid w :
  retracted sid (snd (IptablesService.removeClientRules env mac ip sid w)).
Proof.
  unfold IptablesService.removeClientRules. rewrite bind_run. cbv zeta.
  rewrite bind_run.
  match goal with
  | |- retracted sid (snd (?k ?u (snd (IptablesService.markRulesRemoved sid ?w0)))) =>
      apply (tame_keeps_retracted sid (snd (IptablesService.markRulesRemoved sid w0)));
      [|apply markRulesRemoved_retracts];
      enough (Hk : along tame_rules (k u)) by apply Hk
  end.
  tame_rules_auto.
Qed.

(** The revoke path leaves no APPLIED row for its session. *)
Lemma revokeClientAccess_retracts sd w :
  retracted (sessionId sd) (snd (RuleEngine.revokeClientAccess env sd w)).
Proof.
  unfold RuleEngine.revokeClientAccess. rewrite bind_run.
  match goal with
  | |- retracted ?sid (snd (?k ?u (snd (IptablesService.removeClientRules env ?m ?i ?s ?w0)))) =>
      apply (tame_keeps_retracted sid
               (snd (IptablesService.removeClientRules env m i s w0)));
      [|apply removeClientRules_retracts];
      enough (Hk : along tame_rules (k u)) by apply Hk
  end.
  tame_rules_auto.
Qed.

Lemma onSessionEnded_retracts session w :
  retracted (s_id session) (snd (SessionFirewall.onSessionEnded env session w)).
Proof.
  unfold SessionFirewall.onSessionEnded. rewrite bind_run, bind_run. cbn [ret snd].
  unfold SessionFirewall.update_sessions, modify, retracted. cbn.
  apply (revokeClientAccess_retracts
           {| sessionId := s_id session; macAddress := s_mac_address session;
              ipAddress := s_ip_address session; authMethod := "";
              expiresAt := None |}).
Qed.

End Ledger.

(** ** C2: terminated sessions and their ledger rows *)

Section Disconnect.
Variable env : Env.

(** The operator's disconnect does not touch the ledger... *)
Lemma disconnectSession_ledger sid w :
  firewall_rules (snd (SessionService.disconnectSession sid w)) = firewall_rules w.
Proof.
  revert w.
  enough (H : along (same firewall_rules) (SessionService.disconnectSession sid)) by exact H.
  frame_auto.
Qed.

(** ... whereas the integration service's [forceDisconnect], like every
    caller of [onSessionEnded], leaves no APPLIED row for the session. *)
Lemma forceDisconnect_retracts sid admin reason w session :
  find (fun s => s_id s =? sid) (sessions w) = Some session ->
  retracted sid (snd (SessionFirewall.forceDisconnect env sid admin reason w)).
Proof.
  intros Hf. unfold SessionFirewall.forceDisconnect, SessionFirewall.find_session.
  rewrite bind_run. cbn [gets fst snd]. rewrite Hf.
  destruct (find_some _ _ Hf) as [_ Hid]. apply Z.eqb_eq in Hid. subst sid.
  rewrite bind_run, bind_run. cbn [ret snd]. apply onSessionEnded_retracts.
Qed.

End Disconnect.

(** C2 fails on the operator's disconnect: after
    [disconnectSession] the session is TERMINATED and its sixteen ledger
    rows are all still APPLIED. *)
Lemma disconnectSession_leaves_rules_applied :
  let w := run (handle demo_env (ReqDisconnectSession 1)) (with_clock demo_one_client 5000) in
  map (fun s => (s_id s, s_is_active s)) (sessions w) = [(1, false)]
  /\ matching (applied_for 1) (firewall_rules w) = 16%nat.
Proof. vm_compute. split; reflexivity. Qed.

(** ** C4: a grant whose rules do not all land *)

(** A gateway on which [ebtables] is not installed. *)
Definition demo_faulty_env : Env :=
  {| config :=
       {| fc_mode := production;
          fc_bridge := "wlan0"; fc_lan := "eth0";
          fc_portalIp := "192.168.4.1"; fc_subnet := "192.168.4.0/24";
          fc_gateway := "192.168.4.1"; fc_portal_port := "3000";
          fc_dns_port := "53"; fc_logPrefix := "CAPTIVE_PORTAL: ";
          fc_logLevel := "4"; fc_logDropped := true;
          fc_cleanup_intervalMs := 60000; fc_cleanup_graceperiodMs := 5000 |};
     gateway_mac := "dc:a6:32:xx:xx:xx";
     maxDevicesPerUser := 2;
     session_durationHours := 4;
     shell := fun _ cmd => negb (String.prefix "ebtables" cmd);
     bcrypt_compare := String.eqb;
     uuidv4 := fun n => "token";
     jwt_sign := fun _ mac _ => mac |}.

(** A session just recorded, before its rules are applied. *)
Definition demo_pending_session : Session :=
  {| s_id := 1; s_session_token := "token"; s_user_id := None;
     s_voucher_id := Some 1; s_device_id := 1;
     s_mac_address := "aa:bb:cc:dd:ee:01"; s_ip_address := "192.168.4.10";
     s_auth_method := "voucher"; s_started_at := 1000;
     s_expires_at := 14401000; s_ended_at := None; s_is_active := true;
     s_firewall_applied := false |}.

Definition demo_pending : World :=
  with_sessions (with_clock demo_start 1000) [demo_pending_session] 1.

Definition demo_pending_data : SessionData :=
  SessionFirewall.sessionData_of demo_pending_session.

(** C4 as stated fails: the grant whose Layer-2 step fails returns failure
    and leaves the rows it wrote APPLIED. *)
Lemma failed_grant_is_not_compensated :
  ~ (forall env sd w,
        success (fst (RuleEngine.grantClientAccess env sd w)) = false ->
        retracted (sessionId sd) (snd (RuleEngine.grantClientAccess env sd w))).
Proof.
  intros H.
  assert (Hfail : success (fst (RuleEngine.grantClientAccess demo_faulty_env
                                  demo_pending_data demo_pending)) = false)
    by (vm_compute; reflexivity).
  specialize (H _ _ _ Hfail).
  assert (Hrow : existsb (applied_for 1)
                   (firewall_rules
                      (snd (RuleEngine.grantClientAccess demo_faulty_env
                              demo_pending_data demo_pending))) = true)
    by (vm_compute; reflexivity).
  apply existsb_exists in Hrow. destruct Hrow as (r & Hin & Hr).
  specialize (H r Hin). change (applied_for 1 r = false) in H.
  rewrite H in Hr. discriminate Hr.
Qed.

(** The ledger gains APPLIED rows of session [sid] and loses none. *)
Definition ledger_grows (sid : Z) (w w' : World) : Prop :=
  exists ext, firewall_rules w' = (firewall_rules w ++ ext)%list
              /\ Forall (fun r => applied_for sid r = true) ext.

(** The process goes on acting, every new effect satisfying [P]. *)
Definition trace_grows (P : Effect -> Prop) (w w' : World) : Prop :=
  exists tr, trace w' = (trace w ++ tr)%list /\ Forall P tr.

Definition not_a_retract (e : Effect) : Prop :=
  match e with
  | LedgerRetract _ _ => False
  | _ => True
  end.

#[export] Instance ledger_grows_preorder sid : Preorder (ledger_grows sid).
Proof.
  split; unfold ledger_grows.
  - intros w. exists []. split; [now rewrite app_nil_r | constructor].
  - intros a b c (e1 & H1 & F1) (e2 & H2 & F2). exists (e1 ++ e2)%list. split.
    + now rewrite H2, H1, app_assoc.
    + apply Forall_app. now split.
Qed.

#[export] Instance trace_grows_preorder P : Preorder (trace_grows P).
Proof.
  split; unfold trace_grows.
  - intros w. exists []. split; [now rewrite app_nil_r | constructor].
  - intros a b c (e1 & H1 & F1) (e2 & H2 & F2). exists (e1 ++ e2)%list. split.
    + now rewrite H2, H1, app_assoc.
    + apply Forall_app. now split.
Qed.

Ltac ledger_grows_statement :=
  let w := fresh "w" in
  intro w; unfold ledger_grows; unfold_statements; cbn;
  repeat match goal with
         | |- context [if ?b then _ else _] => destruct b; cbn
         end;
  first [ exists []; split; [now rewrite app_nil_r | constructor]
        | eexists [_]; split; [reflexivity|];
          constructor; [|constructor];
          unfold applied_for; cbn; now rewrite Z.eqb_refl ].

Ltac trace_grows_statement :=
  let w := fresh "w" in
  intro w; unfold trace_grows; unfold_statements; cbn;
  repeat match goal with
         | |- context [if ?b then _ else _] => destruct b; cbn
         end;
  first [ exists []; split; [now rewrite app_nil_r | constructor]
        | eexists [_]; split; [reflexivity|];
          constructor; [exact I | constructor] ].

Section GrantOutcome.
Variable env : Env.

Lemma grantClientAccess_result sd w :
  let r := fst (RuleEngine.grantClientAccess env sd w) in
  success r = (negb (error r) && forallb step_success (steps r))%bool.
Proof.
  unfold RuleEngine.grantClientAccess. rewrite bind_run.
  destruct (fst (BindingService.createBinding _ _ _ _ w)) as [binding|];
    repeat rewrite bind_run; reflexivity.
Qed.

Lemma grantClientAccess_sessions sd :
  along (same sessions) (RuleEngine.grantClientAccess env sd).
Proof. frame_auto. Qed.

Lemma grantClientAccess_ledger sd :
  along (ledger_grows (sessionId sd)) (RuleEngine.grantClientAccess env sd).
Proof. unfold_services; along_structure; ledger_grows_statement. Qed.

Lemma grantClientAccess_trace sd :
  along (trace_grows not_a_retract) (RuleEngine.grantClientAccess env sd).
Proof. unfold_services; along_structure; trace_grows_statement. Qed.

End GrantOutcome.

(** C4, as the code has it. [grantClientAccess] reports failure exactly
    when it caught an error or one of its steps failed, so a grant with a
    failed step returns failure; it initiates no revoke: it changes no
    session row (the session stays ACTIVE), every ledger row it wrote is
    still APPLIED when it returns, no row of the ledger is retracted, and
    among its effects there is no retraction. *)
Theorem failed_grant_is_reported_and_left_in_place :
  forall env sd w,
    let r := RuleEngine.grantClientAccess env sd w in
    success (fst r) = (negb (error (fst r)) && forallb step_success (steps (fst r)))%bool
    /\ (forall st, In st (steps (fst r)) -> step_success st = false ->
                   success (fst r) = false)
    /\ sessions (snd r) = sessions w
    /\ ledger_grows (sessionId sd) w (snd r)
    /\ trace_grows not_a_retract w (snd r).
Proof.
  intros env sd w r. subst r.
  pose proof (grantClientAccess_result env sd w) as Hres. cbv zeta in Hres.
  split; [exact Hres|]. split.
  - intros st Hin Hst. rewrite Hres.
    destruct (forallb step_success _) eqn:Ef; [|apply andb_false_r].
    rewrite forallb_forall in Ef. rewrite (Ef st Hin) in Hst. discriminate.
  - split; [apply grantClientAccess_sessions|].
    split; [apply grantClientAccess_ledger | apply grantClientAccess_trace].
Qed.

Lemma failed_grant_is_reported_and_left_in_place_witness :
  success (fst (RuleEngine.grantClientAccess demo_faulty_env demo_pending_data
                  demo_pending)) = false.
Proof.
  apply (proj1 (proj2 (failed_grant_is_reported_and_left_in_place
                         demo_faulty_env demo_pending_data demo_pending))
               {| step := "Layer 2 Rules (ebtables)"; step_success := false |}).
  - vm_compute. right. right. right. left. reflexivity.
  - reflexivity.
Defined.

(** ** C5: the order of enforcer calls and ledger writes *)

(** What the claim asks of a run of effects: every command handed to the
    enforcer has its ledger row written before. *)
Fixpoint ledger_first (written : list string) (tr : list Effect) : bool :=
  match tr with
  | [] => true
  | LedgerInsert cmd _ :: rest => ledger_first (cmd :: written) rest
  | EnforcerCall full _ _ :: rest =>
      (existsb (fun cmd => String.eqb full ("iptables " ++ cmd)
                           || String.eqb full ("ebtables " ++ cmd)) written
       && ledger_first written rest)%bool
  | LedgerRetract _ _ :: rest => ledger_first written rest
  end.

(** What the code does: for each command in turn, the enforcer call, then
    the ledger row. *)
Inductive enforcer_then_ledger (tool : string) (sid : Z)
  : list string -> list Effect -> Prop :=
| etl_nil : enforcer_then_ledger tool sid [] []
| etl_cons : forall cmd cmds simulated ok tr,
    enforcer_then_ledger tool sid cmds tr ->
    enforcer_then_ledger tool sid (cmd :: cmds)
      (EnforcerCall (tool ++ cmd) simulated ok :: LedgerInsert cmd (Some sid) :: tr).

Lemma enforcer_then_ledger_app tool sid c1 t1 c2 t2 :
  enforcer_then_ledger tool sid c1 t1 ->
  enforcer_then_ledger tool sid c2 t2 ->
  enforcer_then_ledger tool sid (c1 ++ c2) (t1 ++ t2).
Proof.
  induction 1; intros H2; simpl; [exact H2|]. constructor. auto.
Qed.

Section WriteOrder.
Variable env : Env.

Lemma iptables_executeCommand_effect cmd desc w :
  exists simulated ok,
    trace (snd (IptablesService.executeCommand env cmd desc w))
    = (trace w ++ [EnforcerCall ("iptables " ++ cmd) simulated ok])%list
    /\ sessions (snd (IptablesService.executeCommand env cmd desc w)) = sessions w.
Proof.
  unfold IptablesService.executeCommand. cbv zeta.
  destruct (IptablesService.isSimulationMode env).
  - exists true, true. split; reflexivity.
  - exists false, (shell env (trace w) ("iptables " ++ cmd)).
    unfold bind, gets, emit, modify. cbn.
    destruct (shell env (trace w) _); split; reflexivity.
Qed.

Lemma ebtables_executeCommand_effect cmd desc w :
  exists simulated ok,
    trace (snd (EbtablesService.executeCommand env cmd desc w))
    = (trace w ++ [EnforcerCall ("ebtables " ++ cmd) simulated ok])%list
    /\ sessions (snd (EbtablesService.executeCommand env cmd desc w)) = sessions w.
Proof.
  unfold EbtablesService.executeCommand. cbv zeta.
  destruct (EbtablesService.isSimulationMode env).
  - exists true, true. split; reflexivity.
  - exists false, (shell env (trace w) ("ebtables " ++ cmd)).
    unfold bind, gets, emit, modify. cbn.
    destruct (shell env (trace w) _); split; reflexivity.
Qed.

Lemma iptables_storeRule_effect ty action cmd mac ip sid w :
  session_exists w sid = true ->
  trace (snd (IptablesService.storeRule env ty action cmd mac ip sid w))
  = (trace w ++ [LedgerInsert cmd (Some sid)])%list
  /\ sessions (snd (IptablesService.storeRule env ty action cmd mac ip sid w)) = sessions w.
Proof.
  intros Hs. unfold IptablesService.storeRule. rewrite Hs. split; reflexivity.
Qed.

Lemma ebtables_storeRule_effect ty action cmd mac ip sid w :
  session_exists w sid = true ->
  trace (snd (EbtablesService.storeRule env ty action cmd mac ip sid w))
  = (trace w ++ [LedgerInsert cmd (Some sid)])%list
  /\ sessions (snd (EbtablesService.storeRule env ty action cmd mac ip sid w)) = sessions w.
Proof.
  intros Hs. unfold EbtablesService.storeRule. rewrite Hs. split; reflexivity.
Qed.

Lemma session_exists_same w w' sid :
  sessions w' = sessions w -> session_exists w' sid = session_exists w sid.
Proof. unfold session_exists. now intros ->. Qed.

(** The loop over the commands of one rule, for either service. *)
Lemma apply_commands_effect (tool : string) (sid : Z)
    (exec : string -> M CommandResult) (store : string -> M unit) :
  (forall cmd w, exists simulated ok,
      trace (snd (exec cmd w)) = (trace w ++ [EnforcerCall (tool ++ cmd) simulated ok])%list
      /\ sessions (snd (exec cmd w)) = sessions w) ->
  (forall cmd w, session_exists w sid = true ->
      trace (snd (store cmd w)) = (trace w ++ [LedgerInsert cmd (Some sid)])%list
      /\ sessions (snd (store cmd w)) = sessions w) ->
  forall cmds w,
    session_exists w sid = true ->
    let w' := snd (forM cmds (fun cmd =>
                     result <- exec cmd ;; store cmd ;;; ret result) w) in
    sessions w' = sessions w
    /\ exists tr, trace w' = (trace w ++ tr)%list
                  /\ enforcer_then_ledger tool sid cmds tr.
Proof.
  intros Hexec Hstore. induction cmds as [|cmd cmds IH]; intros w Hs; cbv zeta.
  - cbn. split; [reflexivity|]. exists []. split; [now rewrite app_nil_r | constructor].
  - cbn [forM]. rewrite bind_run, bind_run, bind_run, bind_run. cbn [ret fst snd].
    destruct (Hexec cmd w) as (simulated & ok & Ht1 & Hs1).
    set (w1 := snd (exec cmd w)) in *.
    assert (Hx1 : session_exists w1 sid = true)
      by (rewrite (session_exists_same w w1 sid Hs1); exact Hs).
    destruct (Hstore cmd w1 Hx1) as (Ht2 & Hs2).
    set (w2 := snd (store cmd w1)) in *.
    assert (Hx2 : session_exists w2 sid = true)
      by (rewrite (session_exists_same w1 w2 sid Hs2); exact Hx1).
    destruct (IH w2 Hx2) as (Hs3 & tr & Ht3 & Hetl).
    split; [congruence|].
    exists (EnforcerCall (tool ++ cmd) simulated ok :: LedgerInsert cmd (Some sid) :: tr).
    split; [|now constructor].
    rewrite Ht3, Ht2, Ht1. rewrite <- !app_assoc. reflexivity.
Qed.

(** The loop over the rules of a client. *)
Lemma apply_rules_effect (tool : string) (sid : Z)
    (exec : string -> string -> M CommandResult) (store : string -> M unit) :
  (forall cmd desc w, exists simulated ok,
      trace (snd (exec cmd desc w))
      = (trace w ++ [EnforcerCall (tool ++ cmd) simulated ok])%list
      /\ sessions (snd (exec cmd desc w)) = sessions w) ->
  (forall cmd w, session_exists w sid = true ->
      trace (snd (store cmd w)) = (trace w ++ [LedgerInsert cmd (Some sid)])%list
      /\ sessions (snd (store cmd w)) = sessions w) ->
  forall rules w,
    session_exists w sid = true ->
    let w' := snd (forM rules (fun rule =>
                     forM (commands rule) (fun cmd =>
                       result <- exec cmd (description rule) ;;
                       store cmd ;;; ret result)) w) in
    sessions w' = sessions w
    /\ exists tr, trace w' = (trace w ++ tr)%list
                  /\ enforcer_then_ledger tool sid (flat_map commands rules) tr.
Proof.
  intros Hexec Hstore. induction rules as [|rule rules IH]; intros w Hs; cbv zeta.
  - cbn. split; [reflexivity|]. exists []. split; [now rewrite app_nil_r | constructor].
  - cbn [forM flat_map]. rewrite bind_run, bind_run. cbn [ret snd].
    destruct (apply_commands_effect tool sid (fun cmd => exec cmd (description rule)) store
                (fun cmd => Hexec cmd (description rule)) Hstore (commands rule) w Hs)
      as (Hs1 & tr1 & Ht1 & He1).
    cbv zeta in Hs1, Ht1.
    set (w1 := snd (forM (commands rule) _ w)) in *.
    assert (Hx1 : session_exists w1 sid = true)
      by (rewrite (session_exists_same w w1 sid Hs1); exact Hs).
    destruct (IH w1 Hx1) as (Hs2 & tr2 & Ht2 & He2).
    split; [congruence|].
    exists (tr1 ++ tr2)%list. split.
    + rewrite Ht2, Ht1. now rewrite app_assoc.
    + now apply enforcer_then_ledger_app.
Qed.

(** The ledger's part in the same loops: the commands leave the ledger
    alone, and each [storeRule] appends one APPLIED row for its command. *)
Definition ledger_rows (sid : Z) (cmds : list string) (w w' : World) : Prop :=
  exists ext, firewall_rules w' = (firewall_rules w ++ ext)%list
              /\ map r_rule_command ext = cmds
              /\ Forall (fun r => applied_for sid r = true) ext.

Lemma ledger_rows_nil sid w w' :
  firewall_rules w' = firewall_rules w -> ledger_rows sid [] w w'.
Proof.
  intros H. exists []. rewrite app_nil_r. repeat split; [exact H | constructor].
Qed.

Lemma ledger_rows_app sid c1 c2 w w1 w2 :
  ledger_rows sid c1 w w1 -> ledger_rows sid c2 w1 w2 ->
  ledger_rows sid (c1 ++ c2) w w2.
Proof.
  intros (e1 & H1 & M1 & F1) (e2 & H2 & M2 & F2). exists (e1 ++ e2)%list.
  split; [now rewrite H2, H1, app_assoc|]. split.
  - now rewrite map_app, M1, M2.
  - apply Forall_app. now split.
Qed.

Lemma iptables_executeCommand_ledger cmd desc w :
  firewall_rules (snd (IptablesService.executeCommand env cmd desc w)) = firewall_rules w.
Proof.
  unfold IptablesService.executeCommand. cbv zeta.
  destruct (IptablesService.isSimulationMode env); [reflexivity|].
  unfold bind, gets, emit, modify. cbn.
  destruct (shell env (trace w) _); reflexivity.
Qed.

Lemma ebtables_executeCommand_ledger cmd desc w :
  firewall_rules (snd (EbtablesService.executeCommand env cmd desc w)) = firewall_rules w.
Proof.
  unfold EbtablesService.executeCommand. cbv zeta.
  destruct (EbtablesService.isSimulationMode env); [reflexivity|].
  unfold bind, gets, emit, modify. cbn.
  destruct (shell env (trace w) _); reflexivity.
Qed.

Lemma iptables_storeRule_ledger ty action cmd mac ip sid w :
  session_exists w sid = true ->
  ledger_rows sid [cmd] w (snd (IptablesService.storeRule env ty action cmd mac ip sid w)).
Proof.
  intros Hs. unfold IptablesService.storeRule. rewrite Hs.
  eexists [_]. cbn. split; [reflexivity|]. split; [reflexivity|].
  constructor; [|constructor]. unfold applied_for. cbn. now rewrite Z.eqb_refl.
Qed.

Lemma ebtables_storeRule_ledger ty action cmd mac ip sid w :
  session_exists w sid = true ->
  ledger_rows sid [cmd] w (snd (EbtablesService.storeRule env ty action cmd mac ip sid w)).
Proof.
  intros Hs. unfold EbtablesService.storeRule. rewrite Hs.
  eexists [_]. cbn. split; [reflexivity|]. split; [reflexivity|].
  constructor; [|constructor]. unfold applied_for. cbn. now rewrite Z.eqb_refl.
Qed.

Lemma apply_commands_ledger (sid : Z)
    (exec : string -> M CommandResult) (store : string -> M unit) :
  (forall cmd w, firewall_rules (snd (exec cmd w)) = firewall_rules w
                 /\ sessions (snd (exec cmd w)) = sessions w) ->
  (forall cmd w, session_exists w sid = true ->
      ledger_rows sid [cmd] w (snd (store cmd w))
      /\ sessions (snd (store cmd w)) = sessions w) ->
  forall cmds w,
    session_exists w sid = true ->
    let w' := snd (forM cmds (fun cmd =>
                     result <- exec cmd ;; store cmd ;;; ret result) w) in
    sessions w' = sessions w /\ ledger_rows sid cmds w w'.
Proof.
  intros Hexec Hstore. induction cmds as [|cmd cmds IH]; intros w Hs; cbv zeta.
  - cbn. split; [reflexivity|]. now apply ledger_rows_nil.
  - cbn [forM]. rewrite bind_run, bind_run, bind_run, bind_run. cbn [ret fst snd].
    destruct (Hexec cmd w) as (Hl1 & Hs1).
    set (w1 := snd (exec cmd w)) in *.
    assert (Hx1 : session_exists w1 sid = true)
      by (rewrite (session_exists_same w w1 sid Hs1); exact Hs).
    destruct (Hstore cmd w1 Hx1) as (Hl2 & Hs2).
    set (w2 := snd (store cmd w1)) in *.
    assert (Hx2 : session_exists w2 sid = true)
      by (rewrite (session_exists_same w1 w2 sid Hs2); exact Hx1).
    destruct (IH w2 Hx2) as (Hs3 & Hl3).
    split; [congruence|].
    change (cmd :: cmds) with ([cmd] ++ cmds)%list.
    apply (ledger_rows_app sid [cmd] cmds w w2); [|exact Hl3].
    destruct Hl2 as (ext & He & Hm & Hf). exists ext. now rewrite He, Hl1.
Qed.

Lemma apply_rules_ledger (sid : Z)
    (exec : string -> string -> M CommandResult) (store : string -> M unit) :
  (forall cmd desc w, firewall_rules (snd (exec cmd desc w)) = firewall_rules w
                      /\ sessions (snd (exec cmd desc w)) = sessions w) ->
  (forall cmd w, session_exists w sid = true ->
      ledger_rows sid [cmd] w (snd (store cmd w))
      /\ sessions (snd (store cmd w)) = sessions w) ->
  forall rules w,
    session_exists w sid = true ->
    let w' := snd (forM rules (fun rule =>
                     forM (commands rule) (fun cmd =>
                       result <- exec cmd (description rule) ;;
                       store cmd ;;; ret result)) w) in
    sessions w' = sessions w /\ ledger_rows sid (flat_map commands rules) w w'.
Proof.
  intros Hexec Hstore. induction rules as [|rule rules IH]; intros w Hs; cbv zeta.
  - cbn. split; [reflexivity|]. now apply ledger_rows_nil.
  - cbn [forM flat_map]. rewrite bind_run, bind_run. cbn [ret snd].
    destruct (apply_commands_ledger sid (fun cmd => exec cmd (description rule)) store
                (fun cmd => Hexec cmd (description rule)) Hstore (commands rule) w Hs)
      as (Hs1 & Hl1).
    cbv zeta in Hs1, Hl1.
    set (w1 := snd (forM (commands rule) _ w)) in *.
    assert (Hx1 : session_exists w1 sid = true)
      by (rewrite (session_exists_same w w1 sid Hs1); exact Hs).
    destruct (IH w1 Hx1) as (Hs2 & Hl2).
    split; [congruence|]. now apply (ledger_rows_app sid _ _ w w1).
Qed.

End WriteOrder.

(** C5 as stated fails: in the run of [applyAuthenticatedRules] the first
    effect is an enforcer call whose ledger row is not written yet. *)
Lemma enforcer_call_precedes_ledger_insert :
  ~ (forall env mac ip sid w tr,
        trace (snd (IptablesService.applyAuthenticatedRules env mac ip sid w))
        = (trace w ++ tr)%list ->
        ledger_first [] tr = true).
Proof.
  intros H.
  specialize (H demo_env "aa:bb:cc:dd:ee:01" "192.168.4.10" 1 demo_pending
                (trace (snd (IptablesService.applyAuthenticatedRules demo_env
                               "aa:bb:cc:dd:ee:01" "192.168.4.10" 1 demo_pending)))
                eq_refl).
  vm_compute in H. discriminate H.
Qed.

(** C5, as the code has it. For a session that exists,
    [applyAuthenticatedRules] and [applyClientIsolation] go through the
    commands of their rules in order and, for each command, first hand it
    to the enforcer and then write its ledger row: the ledger insert
    follows the enforcer call for that command and precedes the enforcer
    call of the next.  The row is written whatever the enforcer returned,
    and always as an APPLIED row ([is_active = 1]): [storeRule] is not told
    the outcome of the command and the ledger has no column for it. *)
Theorem ledger_insert_follows_enforcer_call :
  forall env mac ip sid w,
    session_exists w sid = true ->
    let l3 := flat_map commands (IptablesService.clientRules env mac ip) in
    let l2 := flat_map commands (EbtablesService.clientRules env mac ip) in
    let w3 := snd (IptablesService.applyAuthenticatedRules env mac ip sid w) in
    let w2 := snd (EbtablesService.applyClientIsolation env mac ip sid w) in
    (exists tr, trace w3 = (trace w ++ tr)%list
                /\ enforcer_then_ledger "iptables " sid l3 tr)
    /\ (exists rows, firewall_rules w3 = (firewall_rules w ++ rows)%list
                     /\ map r_rule_command rows = l3
                     /\ Forall (fun r => applied_for sid r = true) rows)
    /\ (exists tr, trace w2 = (trace w ++ tr)%list
                   /\ enforcer_then_ledger "ebtables " sid l2 tr)
    /\ (exists rows, firewall_rules w2 = (firewall_rules w ++ rows)%list
                     /\ map r_rule_command rows = l2
                     /\ Forall (fun r => applied_for sid r = true) rows).
Proof.
  intros env mac ip sid w Hs. cbv zeta. split; [|split; [|split]].
  - unfold IptablesService.applyAuthenticatedRules. rewrite bind_run. cbn [ret snd].
    apply (apply_rules_effect "iptables " sid (IptablesService.executeCommand env)
             (fun cmd => IptablesService.storeRule env "iptables" "ALLOW" cmd mac ip sid)).
    + apply iptables_executeCommand_effect.
    + intros cmd w0. apply iptables_storeRule_effect.
    + exact Hs.
  - unfold IptablesService.applyAuthenticatedRules. rewrite bind_run. cbn [ret snd].
    apply (apply_rules_ledger sid (IptablesService.executeCommand env)
             (fun cmd => IptablesService.storeRule env "iptables" "ALLOW" cmd mac ip sid)).
    + intros cmd desc w0. split; [apply iptables_executeCommand_ledger|].
      now destruct (iptables_executeCommand_effect env cmd desc w0) as (? & ? & _ & H).
    + intros cmd w0 H0. split; [now apply iptables_storeRule_ledger|].
      now apply iptables_storeRule_effect.
    + exact Hs.
  - unfold EbtablesService.applyClientIsolation. rewrite bind_run. cbn [ret snd].
    apply (apply_rules_effect "ebtables " sid (EbtablesService.executeCommand env)
             (fun cmd => EbtablesService.storeRule env "ebtables" "ISOLATION" cmd mac ip sid)).
    + apply ebtables_executeCommand_effect.
    + intros cmd w0. apply ebtables_storeRule_effect.
    + exact Hs.
  - unfold EbtablesService.applyClientIsolation. rewrite bind_run. cbn [ret snd].
    apply (apply_rules_ledger sid (EbtablesService.executeCommand env)
             (fun cmd => EbtablesService.storeRule env "ebtables" "ISOLATION" cmd mac ip sid)).
    + intros cmd desc w0. split; [apply ebtables_executeCommand_ledger|].
      now destruct (ebtables_executeCommand_effect env cmd desc w0) as (? & ? & _ & H).
    + intros cmd w0 H0. split; [now apply ebtables_storeRule_ledger|].
      now apply ebtables_storeRule_effect.
    + exact Hs.
Qed.

(** On a gateway where every [ebtables] command fails, the isolation
    rules get their ledger rows all the same, and as APPLIED rows. *)
Lemma ledger_insert_follows_enforcer_call_witness :
  exists rows,
    firewall_rules (snd (EbtablesService.applyClientIsolation demo_faulty_env
                           "aa:bb:cc:dd:ee:01" "192.168.4.10" 1 demo_pending))
    = (firewall_rules demo_pending ++ rows)%list
    /\ map r_rule_command rows
       = flat_map commands
           (EbtablesService.clientRules demo_faulty_env "aa:bb:cc:dd:ee:01" "192.168.4.10")
    /\ Forall (fun r => applied_for 1 r = true) rows.
Proof.
  exact (proj2 (proj2 (proj2 (ledger_insert_follows_enforcer_call demo_faulty_env
                                "aa:bb:cc:dd:ee:01" "192.168.4.10" 1 demo_pending
                                eq_refl)))).
Defined.

(** ** C6: grant, then revoke *)

Section RoundTrip.
Variable env : Env.

Lemma revokeClientAccess_bindings sd w :
  mac_ip_bindings (snd (RuleEngine.revokeClientAccess env sd w))
  = update_where
      (fun b => (opt_Z_eqb (b_session_id b) (sessionId sd) && b_is_active b)%bool)
      BindingService.retire (mac_ip_bindings w).
Proof.
  unfold RuleEngine.revokeClientAccess. rewrite bind_run, bind_run, bind_run.
  match goal with
  | |- mac_ip_bindings (snd (?k ?u ?w3)) = _ =>
      assert (Hk : along (same mac_ip_bindings) (k u)) by frame_auto;
      rewrite (Hk w3)
  end.
  unfold BindingService.removeBindingBySession, BindingService.retire_where.
  cbn [snd mac_ip_bindings with_bindings].
  assert (H1 : along (same mac_ip_bindings)
                 (IptablesService.removeClientRules env (macAddress sd) (ipAddress sd)
                    (sessionId sd))) by frame_auto.
  assert (H2 : along (same mac_ip_bindings)
                 (EbtablesService.removeClientIsolation env (macAddress sd) (ipAddress sd)
                    (sessionId sd))) by frame_auto.
  now rewrite (H2 _), (H1 _).
Qed.

(** The calls that hand the commands [cmds] to [iptables]. *)
Definition iptables_calls (cmds : list string) (calls : list Effect) : Prop :=
  Forall2 (fun cmd e => exists simulated ok,
                          e = EnforcerCall ("iptables " ++ cmd) simulated ok)
          cmds calls.

Lemma execute_all_effect desc cmds w :
  exists calls,
    trace (snd (forM cmds (fun cmd => IptablesService.executeCommand env cmd desc) w))
    = (trace w ++ calls)%list
    /\ iptables_calls cmds calls.
Proof.
  revert w. induction cmds as [|cmd cmds IH]; intros w.
  - exists []. cbn. split; [now rewrite app_nil_r | constructor].
  - cbn [forM]. rewrite bind_run, bind_run. cbn [ret snd].
    destruct (iptables_executeCommand_effect env cmd desc w) as (s & o & Ht & _).
    destruct (IH (snd (IptablesService.executeCommand env cmd desc w)))
      as (calls & Ht2 & Hc).
    exists (EnforcerCall ("iptables " ++ cmd) s o :: calls). split.
    + rewrite Ht2, Ht. now rewrite <- app_assoc.
    + constructor; [eauto | exact Hc].
Qed.

(** The last thing a revoke does to the outside is to hand the portal
    redirect of the MAC to the enforcer. *)
Lemma revokeClientAccess_redirect sd w :
  exists pre calls,
    trace (snd (RuleEngine.revokeClientAccess env sd w)) = (pre ++ calls)%list
    /\ iptables_calls
         (commands (IptablesService.generatePortalRedirectRule env (macAddress sd)))
         calls.
Proof.
  unfold RuleEngine.revokeClientAccess.
  rewrite bind_run, bind_run, bind_run, bind_run.
  match goal with
  | |- exists pre calls, trace (snd (?k ?u ?w4)) = _ /\ _ =>
      assert (Hk : along (same trace) (k u)) by frame_auto;
      rewrite (Hk w4)
  end.
  unfold IptablesService.applyPortalRedirect. cbv zeta. rewrite bind_run. cbn [ret snd].
  match goal with
  | |- context [forM ?cmds ?body ?w3] =>
      destruct (execute_all_effect
                  (description (IptablesService.generatePortalRedirectRule env
                                  (macAddress sd)))
                  cmds w3) as (calls & Ht & Hc)
  end.
  eexists _, calls. split; [exact Ht | exact Hc].
Qed.

(** The ledger after a grant and a revoke of a session that had no APPLIED
    row before. *)
Lemma quiet_keeps_active sid rows rows' :
  Forall2 (rule_quiet sid) rows rows' ->
  (forall r, In r rows -> applied_for sid r = false) ->
  filter r_is_active rows' = filter r_is_active rows.
Proof.
  induction 1 as [|r r' rows rows' Hq Hrest IH]; intros Hret; [reflexivity|].
  simpl. rewrite IH by (intros x Hx; apply Hret; now right).
  destruct Hq as [->|(Hs & Hs' & Hi)]; [reflexivity|].
  rewrite Hi. specialize (Hret r (or_introl eq_refl)).
  unfold applied_for in Hret. rewrite Hs in Hret. simpl in Hret.
  rewrite Z.eqb_refl in Hret. simpl in Hret. now rewrite Hret.
Qed.

Lemma quiet_drops_session sid ext rows' :
  Forall2 (rule_quiet sid) ext rows' ->
  Forall (fun r => applied_for sid r = true) ext ->
  (forall r, In r rows' -> applied_for sid r = false) ->
  filter r_is_active rows' = [].
Proof.
  induction 1 as [|r r' ext rows' Hq Hrest IH]; intros Hext Hret; [reflexivity|].
  inversion Hext as [|? ? Hr Hext']; subst.
  simpl. rewrite IH; auto; [|intros x Hx; apply Hret; now right].
  specialize (Hret r' (or_introl eq_refl)).
  assert (Hs : r_session_id r' = Some sid).
  { destruct Hq as [->|(_ & Hs' & _)]; [|exact Hs'].
    unfold applied_for in Hr. apply andb_true_iff in Hr. destruct Hr as [Hr _].
    now apply opt_Z_eqb_Some. }
  unfold applied_for in Hret. rewrite Hs in Hret. simpl in Hret.
  rewrite Z.eqb_refl in Hret. simpl in Hret. now rewrite Hret.
Qed.

Lemma ledger_round_trip sid w w1 w2 :
  ledger_grows sid w w1 -> quiet_rules sid w1 w2 ->
  retracted sid w -> retracted sid w2 ->
  filter r_is_active (firewall_rules w2) = filter r_is_active (firewall_rules w).
Proof.
  unfold ledger_grows, quiet_rules, retracted.
  intros (ext & Hg & Hext) Hq Hr Hr2. rewrite Hg in Hq.
  apply Forall2_app_inv_l in Hq. destruct Hq as (a & b & Ha & Hb & Heq).
  rewrite Heq, filter_app.
  rewrite (quiet_keeps_active sid _ _ Ha Hr).
  rewrite (quiet_drops_session sid ext b Hb Hext).
  - apply app_nil_r.
  - intros r Hin. apply Hr2. rewrite Heq. apply in_or_app. now right.
Qed.

(** After the grant, an ACTIVE binding of the MAC belongs to the session. *)
Lemma grantClientAccess_owner sd w nm :
  BindingService.normalizeMac (Some (macAddress sd)) = Returns nm ->
  (forall b, In b (mac_ip_bindings w) -> BindingService.active_for nm b = false) ->
  forall b, In b (mac_ip_bindings (snd (RuleEngine.grantClientAccess env sd w))) ->
            BindingService.active_for nm b = true ->
            b_session_id b = Some (sessionId sd).
Proof.
  intros Hn Hnone b Hin Hb. rewrite grantClientAccess_bindings in Hin.
  pose proof (createBinding_bindings (Some (macAddress sd)) (ipAddress sd)
                (Some (sessionId sd)) (expiresAt sd) w nm Hn) as Hc.
  cbv zeta in Hc.
  assert (Hold : forall x, In x (retired_for nm (ipAddress sd) (mac_ip_bindings w)) ->
                           BindingService.active_for nm x = false).
  { intros x Hx. destruct (BindingService.active_for nm x) eqn:E; [|reflexivity].
    rewrite <- E. apply Hnone.
    apply (calm_active_In _ _ x (retired_for_calm nm (ipAddress sd) _) Hx).
    unfold BindingService.active_for in E. apply andb_true_iff in E. tauto. }
  destruct nm as [m|]; [destruct (fk_session w (Some (sessionId sd)))|];
    destruct Hc as [_ Hc]; rewrite Hc in Hin.
  - apply in_app_or in Hin. destruct Hin as [Hin|[<-|[]]]; [|reflexivity].
    apply filter_In in Hin. destruct Hin as [Hin _].
    rewrite (Hold b Hin) in Hb. discriminate.
  - rewrite (Hold b Hin) in Hb. discriminate.
  - rewrite (Hold b Hin) in Hb. discriminate.
Qed.

End RoundTrip.

(** C6 as stated fails: after a grant and a revoke from an empty ledger no
    row is APPLIED; the portal redirect has no ledger row. *)
Lemma portal_redirect_is_not_ledgered :
  ~ (forall env sd w,
        retracted (sessionId sd) w ->
        let w2 := snd (RuleEngine.revokeClientAccess env sd
                         (snd (RuleEngine.grantClientAccess env sd w))) in
        List.length (filter r_is_active (firewall_rules w2))
        = S (List.length (filter r_is_active (firewall_rules w)))).
Proof.
  intros H.
  assert (Hr : retracted (sessionId demo_pending_data) demo_pending)
    by (intros r []).
  specialize (H demo_env demo_pending_data demo_pending Hr).
  vm_compute in H. discriminate H.
Qed.

(** C6, as the code has it. From a state in which the session has no
    APPLIED ledger row and the MAC no ACTIVE binding, [grantClientAccess]
    followed by [revokeClientAccess] returns the APPLIED rows of the ledger
    to exactly their pre-grant contents; the portal redirect of the MAC is
    handed to the enforcer again, as the last effect of the revoke, without
    a ledger row; and [validateBinding] on the MAC then answers NO_BINDING. *)
Theorem grant_then_revoke_restores_ledger :
  forall env sd w nm,
    BindingService.normalizeMac (Some (macAddress sd)) = Returns nm ->
    retracted (sessionId sd) w ->
    (forall b, In b (mac_ip_bindings w) -> BindingService.active_for nm b = false) ->
    let w1 := snd (RuleEngine.grantClientAccess env sd w) in
    let w2 := snd (RuleEngine.revokeClientAccess env sd w1) in
    filter r_is_active (firewall_rules w2) = filter r_is_active (firewall_rules w)
    /\ (exists pre calls,
           trace w2 = (pre ++ calls)%list
           /\ iptables_calls
                (commands (IptablesService.generatePortalRedirectRule env (macAddress sd)))
                calls)
    /\ (forall ip,
           fst (BindingService.validateBinding (Some (macAddress sd)) ip w2)
           = Returns BindingService.NO_BINDING).
Proof.
  intros env sd w nm Hn Hret Hnone w1 w2. split; [|split].
  - apply (ledger_round_trip (sessionId sd) w w1 w2).
    + apply grantClientAccess_ledger.
    + apply revokeClientAccess_quiet.
    + exact Hret.
    + apply revokeClientAccess_retracts.
  - apply revokeClientAccess_redirect.
  - intros ip. rewrite (validateBinding_run _ ip w2 nm Hn).
    assert (Hfind : find (BindingService.active_for nm) (mac_ip_bindings w2) = None).
    { destruct (find _ _) as [b|] eqn:Ef; [exfalso|reflexivity].
      destruct (find_some _ _ Ef) as [Hin Hb].
      subst w2. rewrite revokeClientAccess_bindings in Hin.
      unfold update_where in Hin. apply in_map_iff in Hin.
      destruct Hin as (b0 & Hb0 & Hin0).
      destruct (opt_Z_eqb (b_session_id b0) (sessionId sd) && b_is_active b0)%bool eqn:Esel.
      - subst b. unfold BindingService.active_for in Hb. simpl in Hb.
        rewrite andb_false_r in Hb. discriminate.
      - subst b0.
        pose proof (grantClientAccess_owner env sd w nm Hn Hnone b Hin0 Hb) as Hown.
        unfold BindingService.active_for in Hb. apply andb_true_iff in Hb.
        destruct Hb as [_ Hact]. rewrite Hown, Hact in Esel. simpl in Esel.
        rewrite Z.eqb_refl in Esel. discriminate. }
    now rewrite Hfind.
Qed.

Lemma grant_then_revoke_restores_ledger_witness :
  filter r_is_active
    (firewall_rules
       (snd (RuleEngine.revokeClientAccess demo_env demo_pending_data
               (snd (RuleEngine.grantClientAccess demo_env demo_pending_data
                       demo_pending)))))
  = filter r_is_active (firewall_rules demo_pending).
Proof.
  exact (proj1 (grant_then_revoke_restores_ledger demo_env demo_pending_data
                  demo_pending (Some "aa:bb:cc:dd:ee:01") eq_refl
                  (fun r (H : In r []) => match H with end)
                  (fun b (H : In b []) => match H with end))).
Defined.

(** ** Timestamps as the database compares them *)

(** The first instant of the year 0000 and the first of the year 10000,
    from which on [toISOString] writes the year in the expanded form. *)
Definition firstPlain : Z := -62167219200000.
Definition firstExpanded : Z := 253402300800000.

(** An instant of the years 0000 to 9999. *)
Definition plain_year (t : Z) : Prop := firstPlain <= t < firstExpanded.

Section Timestamps.
Import JsDate.

Ltac zdiv := Z.div_mod_to_equations; lia.

Lemma DayFromYear_step y : 365 <= DayFromYear (y + 1) - DayFromYear y <= 366.
Proof. unfold DayFromYear. zdiv. Qed.

Lemma DayFromYear_mono y y' : y <= y' -> DayFromYear y <= DayFromYear y'.
Proof. unfold DayFromYear. zdiv. Qed.

Lemma DayFromYear_strict y y' : y < y' -> DayFromYear y < DayFromYear y'.
Proof. unfold DayFromYear. zdiv. Qed.

Lemma YearFromDay_spec d :
  DayFromYear (YearFromDay d) <= d < DayFromYear (YearFromDay d + 1).
Proof.
  unfold YearFromDay. cbv zeta.
  set (y := 1970 + 400 * d / 146097).
  assert (Hlo : DayFromYear (y - 1) <= d) by (subst y; unfold DayFromYear; zdiv).
  assert (Hhi : d < DayFromYear (y + 2)) by (subst y; unfold DayFromYear; zdiv).
  destruct (Z.leb_spec (DayFromYear (y + 1)) d).
  - replace (y + 1 + 1) with (y + 2) by lia. lia.
  - destruct (Z.ltb_spec d (DayFromYear y)).
    + replace (y - 1 + 1) with y by lia. lia.
    + lia.
Qed.

Lemma DaysInYear_step y : DaysInYear y = DayFromYear (y + 1) - DayFromYear y.
Proof.
  unfold DaysInYear, DayFromYear.
  destruct (Z.eqb_spec (y mod 4) 0), (Z.eqb_spec (y mod 100) 0), (Z.eqb_spec (y mod 400) 0);
    cbn [negb]; zdiv.
Qed.

Lemma Day_bounds t : Day t * msPerDay <= t < (Day t + 1) * msPerDay.
Proof. unfold Day, msPerDay. zdiv. Qed.

Lemma YearFromTime_spec t :
  DayFromYear (YearFromTime t) <= Day t < DayFromYear (YearFromTime t + 1).
Proof. apply YearFromDay_spec. Qed.

Lemma YearFromTime_mono a b : Day a <= Day b -> YearFromTime a <= YearFromTime b.
Proof.
  intros H. pose proof (YearFromTime_spec a) as Ha. pose proof (YearFromTime_spec b) as Hb.
  destruct (Z_lt_le_dec (YearFromTime b) (YearFromTime a)) as [Hlt|]; [exfalso|assumption].
  pose proof (DayFromYear_mono (YearFromTime b + 1) (YearFromTime a)). lia.
Qed.

Lemma DayFromYear_0 : DayFromYear 0 = -719528.
Proof. reflexivity. Qed.

Lemma DayFromYear_10000 : DayFromYear 10000 = 2932897.
Proof. reflexivity. Qed.

Lemma year_of_plain t : plain_year t -> 0 <= YearFromTime t <= 9999.
Proof.
  unfold plain_year, firstPlain, firstExpanded. intros H.
  pose proof (YearFromTime_spec t) as Hy. pose proof (Day_bounds t) as Hd.
  unfold msPerDay in Hd. split.
  - destruct (Z_lt_le_dec (YearFromTime t) 0) as [Hlt|]; [exfalso|assumption].
    pose proof (DayFromYear_mono (YearFromTime t + 1) 0). rewrite DayFromYear_0 in *. lia.
  - destruct (Z_lt_le_dec 9999 (YearFromTime t)) as [Hlt|]; [exfalso|lia].
    pose proof (DayFromYear_mono 10000 (YearFromTime t)). rewrite DayFromYear_10000 in *. lia.
Qed.

Lemma year_of_expanded t : firstExpanded <= t -> 10000 <= YearFromTime t.
Proof.
  unfold firstExpanded. intros H.
  pose proof (YearFromTime_spec t) as Hy. pose proof (Day_bounds t) as Hd.
  unfold msPerDay in Hd.
  destruct (Z_lt_le_dec (YearFromTime t) 10000) as [Hlt|]; [exfalso|assumption].
  pose proof (DayFromYear_mono (YearFromTime t + 1) 10000). rewrite DayFromYear_10000 in *. lia.
Qed.

Lemma year_of_early t : t < firstPlain -> YearFromTime t < 0.
Proof.
  unfold firstPlain. intros H.
  pose proof (YearFromTime_spec t) as Hy. pose proof (Day_bounds t) as Hd.
  unfold msPerDay in Hd.
  destruct (Z_lt_le_dec (YearFromTime t) 0) as [|Hge]; [assumption|exfalso].
  pose proof (DayFromYear_mono 0 (YearFromTime t)). rewrite DayFromYear_0 in *. lia.
Qed.

Lemma DayWithinYear_range t :
  0 <= DayWithinYear t < 365 + InLeapYear t /\ 0 <= InLeapYear t <= 1.
Proof.
  unfold DayWithinYear, InLeapYear.
  pose proof (YearFromTime_spec t) as Hy.
  pose proof (DaysInYear_step (YearFromTime t)) as Hs.
  pose proof (DayFromYear_step (YearFromTime t)).
  destruct (Z.eqb_spec (DaysInYear (YearFromTime t)) 366); lia.
Qed.

Ltac month_table :=
  repeat match goal with
         | |- context [?x <? ?y] => destruct (Z.ltb_spec x y)
         end.

Lemma month_date_range t :
  0 <= MonthFromTime t <= 11 /\ 1 <= DateFromTime t <= 31.
Proof.
  pose proof (DayWithinYear_range t) as [Hd Hl].
  unfold DateFromTime, MonthFromTime. cbv zeta.
  set (d := DayWithinYear t) in *. set (leap := InLeapYear t) in *.
  month_table; lia.
Qed.

Lemma month_date_mono a b :
  YearFromTime a = YearFromTime b -> Day a < Day b ->
  MonthFromTime a < MonthFromTime b
  \/ (MonthFromTime a = MonthFromTime b /\ DateFromTime a < DateFromTime b).
Proof.
  intros Hy Hlt.
  pose proof (DayWithinYear_range a) as [Ha Hl]. pose proof (DayWithinYear_range b) as [Hb _].
  assert (Hd : DayWithinYear a < DayWithinYear b) by (unfold DayWithinYear; rewrite Hy; lia).
  assert (HL : InLeapYear b = InLeapYear a) by (unfold InLeapYear; now rewrite Hy).
  unfold DateFromTime, MonthFromTime. cbv zeta. rewrite HL in *.
  set (d1 := DayWithinYear a) in *. set (d2 := DayWithinYear b) in *.
  set (leap := InLeapYear a) in *.
  month_table; lia.
Qed.

Lemma day_parts_eq a b :
  Day a = Day b ->
  YearFromTime a = YearFromTime b /\ MonthFromTime a = MonthFromTime b
  /\ DateFromTime a = DateFromTime b.
Proof.
  intros H. unfold DateFromTime, MonthFromTime, InLeapYear, DayWithinYear, YearFromTime.
  now rewrite H.
Qed.

Lemma time_fields_range t :
  0 <= HourFromTime t <= 23 /\ 0 <= MinFromTime t <= 59
  /\ 0 <= SecFromTime t <= 59 /\ 0 <= msFromTime t <= 999.
Proof. unfold HourFromTime, MinFromTime, SecFromTime, msFromTime. zdiv. Qed.

Lemma time_fields_mono a b :
  Day a = Day b -> a < b ->
  HourFromTime a < HourFromTime b
  \/ (HourFromTime a = HourFromTime b
      /\ (MinFromTime a < MinFromTime b
          \/ (MinFromTime a = MinFromTime b
              /\ (SecFromTime a < SecFromTime b
                  \/ (SecFromTime a = SecFromTime b /\ msFromTime a < msFromTime b))))).
Proof.
  unfold Day, msPerDay, HourFromTime, MinFromTime, SecFromTime, msFromTime.
  intros Hd Hlt. zdiv.
Qed.

(** Strings of equal length compare part by part. *)

Lemma compare_refl (s : string) : (s ?= s)%string = Eq.
Proof.
  pose proof (String.compare_antisym s s) as H.
  destruct (s ?= s)%string; [reflexivity | discriminate | discriminate].
Qed.

Lemma compare_app (s1 s2 r1 r2 : string) :
  String.length s1 = String.length s2 ->
  (s1 ++ r1 ?= s2 ++ r2)%string
  = match (s1 ?= s2)%string with Eq => (r1 ?= r2)%string | c => c end.
Proof.
  revert s2. induction s1 as [|c s1 IH]; intros [|c2 s2] Hl; try discriminate Hl.
  - reflexivity.
  - cbn [String.append String.compare]. injection Hl as Hl.
    destruct (c ?= c2)%char; [now apply IH | reflexivity | reflexivity].
Qed.

Lemma compare_sep (sep r1 r2 : string) :
  (sep ++ r1 ?= sep ++ r2)%string = (r1 ?= r2)%string.
Proof. rewrite compare_app by reflexivity. now rewrite compare_refl. Qed.

Lemma length_append (s1 s2 : string) :
  String.length (s1 ++ s2) = (String.length s1 + String.length s2)%nat.
Proof. induction s1 as [|c s1 IH]; [reflexivity|]. cbn. now rewrite IH. Qed.

Lemma length_digits k : forall n, String.length (digits k n) = k.
Proof.
  induction k as [|k IH]; intros n; [reflexivity|]. cbn [digits].
  rewrite length_append, IH. cbn. lia.
Qed.

Lemma digit_cases n : 0 <= n <= 9 -> In n [0; 1; 2; 3; 4; 5; 6; 7; 8; 9].
Proof. intros H. cbn [In]. lia. Qed.

Lemma digit_compare i j :
  0 <= i <= 9 -> 0 <= j <= 9 -> (digit i ?= digit j)%char = (i ?= j).
Proof.
  intros Hi Hj.
  destruct (digit_cases i Hi) as [<-|[<-|[<-|[<-|[<-|[<-|[<-|[<-|[<-|[<-|[]]]]]]]]]]];
    destruct (digit_cases j Hj) as [<-|[<-|[<-|[<-|[<-|[<-|[<-|[<-|[<-|[<-|[]]]]]]]]]]];
    reflexivity.
Qed.

Lemma digits_compare k : forall a b,
  0 <= a < 10 ^ Z.of_nat k -> 0 <= b < 10 ^ Z.of_nat k ->
  (digits k a ?= digits k b)%string = (a ?= b).
Proof.
  induction k as [|k IH]; intros a b Ha Hb.
  - cbn in Ha, Hb. assert (a = 0) by lia. assert (b = 0) by lia. subst. reflexivity.
  - rewrite Nat2Z.inj_succ, Z.pow_succ_r in Ha, Hb by lia.
    cbn [digits]. rewrite compare_app by now rewrite !length_digits.
    rewrite (IH (a / 10) (b / 10)) by zdiv.
    cbn [String.compare]. rewrite digit_compare by zdiv.
    destruct (Z.compare_spec (a / 10) (b / 10)) as [He|Hl|Hg].
    + destruct (Z.compare_spec (a mod 10) (b mod 10)) as [He'|Hl'|Hg'];
        symmetry; [apply Z.compare_eq_iff | apply Z.compare_lt_iff | apply Z.compare_gt_iff];
        zdiv.
    + symmetry. apply Z.compare_lt_iff. zdiv.
    + symmetry. apply Z.compare_gt_iff. zdiv.
Qed.

Lemma compare_lt_of (x y : Z) (c : comparison) : x < y -> match x ?= y with Eq => c | o => o end = Lt.
Proof. intros H. apply Z.compare_lt_iff in H. now rewrite H. Qed.

Lemma compare_eq_of (x y : Z) (c : comparison) : x = y -> match x ?= y with Eq => c | o => o end = c.
Proof. intros ->. now rewrite Z.compare_refl. Qed.

Lemma year_string_plain t : plain_year t -> year_string (YearFromTime t) = digits 4 (YearFromTime t).
Proof.
  intros H. apply year_of_plain in H. unfold year_string.
  destruct (Z.leb_spec 0 (YearFromTime t)), (Z.leb_spec (YearFromTime t) 9999);
    try lia. reflexivity.
Qed.

(** Within the years 0000 to 9999 the strings sort as the instants do. *)
Lemma toISOString_lt a b :
  plain_year a -> plain_year b -> a < b ->
  (toISOString a ?= toISOString b)%string = Lt.
Proof.
  intros Ha Hb Hlt. unfold toISOString.
  rewrite (year_string_plain a Ha), (year_string_plain b Hb).
  pose proof (year_of_plain a Ha) as Ya. pose proof (year_of_plain b Hb) as Yb.
  pose proof (month_date_range a) as [Ma Da]. pose proof (month_date_range b) as [Mb Db].
  pose proof (time_fields_range a) as (ha & ma & sa & la).
  pose proof (time_fields_range b) as (hb & mb & sb & lb).
  repeat (rewrite compare_app by now rewrite !length_digits);
    repeat first [ rewrite (compare_sep "-") | rewrite (compare_sep "T")
                 | rewrite (compare_sep ":") | rewrite (compare_sep ".")
                 | rewrite compare_app by now rewrite !length_digits ].
  rewrite !digits_compare by (cbn; lia).
  assert (Hd : Day a <= Day b) by (unfold Day, msPerDay; zdiv).
  destruct (Z_lt_le_dec (Day a) (Day b)) as [Hdl|Hde].
  - pose proof (YearFromTime_mono a b Hd) as Hy.
    destruct (Z_lt_le_dec (YearFromTime a) (YearFromTime b)) as [Hyl|Hye].
    + now apply compare_lt_of.
    + assert (Heq : YearFromTime a = YearFromTime b) by lia.
      rewrite compare_eq_of by exact Heq.
      destruct (month_date_mono a b Heq Hdl) as [Hm|[Hm Hdd]].
      * apply compare_lt_of. lia.
      * rewrite compare_eq_of by lia. now apply compare_lt_of.
  - assert (Heq : Day a = Day b) by lia.
    destruct (day_parts_eq a b Heq) as (Hy & Hm & Hdd).
    rewrite compare_eq_of by exact Hy. rewrite compare_eq_of by lia.
    rewrite compare_eq_of by exact Hdd.
    destruct (time_fields_mono a b Heq Hlt) as [H|[H1 [H|[H2 [H|[H3 H]]]]]].
    + now apply compare_lt_of.
    + rewrite compare_eq_of by exact H1. now apply compare_lt_of.
    + rewrite compare_eq_of by exact H1. rewrite compare_eq_of by exact H2.
      now apply compare_lt_of.
    + rewrite compare_eq_of by exact H1. rewrite compare_eq_of by exact H2.
      rewrite compare_eq_of by exact H3.
      apply Z.compare_lt_iff in H. rewrite H. reflexivity.
Qed.

Lemma digits_head k n :
  exists rest, digits (S k) n = String (digit ((n / 10 ^ Z.of_nat k) mod 10)) rest.
Proof.
  revert n. induction k as [|k IH]; intros n.
  - exists EmptyString. cbn [digits String.append]. now rewrite Z.div_1_r.
  - destruct (IH (n / 10)) as [rest Hr].
    exists (rest ++ String (digit (n mod 10)) EmptyString).
    change (digits (S (S k)) n)
      with (digits (S k) (n / 10) ++ String (digit (n mod 10)) EmptyString).
    rewrite Hr. cbn [String.append]. f_equal. f_equal.
    rewrite Nat2Z.inj_succ, Z.pow_succ_r by lia.
    rewrite Z.div_div by lia. reflexivity.
Qed.

Lemma sign_before_digit v :
  0 <= v <= 9 -> ("+" ?= digit v)%char = Lt /\ ("-" ?= digit v)%char = Lt.
Proof.
  intros H.
  destruct (digit_cases v H) as [<-|[<-|[<-|[<-|[<-|[<-|[<-|[<-|[<-|[<-|[]]]]]]]]]]];
    split; reflexivity.
Qed.

Lemma toISOString_plain_head t :
  plain_year t ->
  exists v rest, toISOString t = String (digit v) rest /\ 0 <= v <= 9.
Proof.
  intros H. unfold toISOString. rewrite (year_string_plain t H).
  destruct (digits_head 3 (YearFromTime t)) as [rest Hr]. rewrite Hr.
  cbn [String.append]. eexists _, _. split; [reflexivity|]. zdiv.
Qed.

Lemma toISOString_expanded_head t :
  firstExpanded <= t -> exists rest, toISOString t = String "+" rest.
Proof.
  intros H. apply year_of_expanded in H. unfold toISOString, year_string.
  destruct (Z.leb_spec (YearFromTime t) 9999); [lia|]. rewrite andb_false_r.
  destruct (Z.ltb_spec (YearFromTime t) 0); [lia|].
  cbn [String.append]. eexists. reflexivity.
Qed.

Lemma toISOString_early_head t :
  t < firstPlain -> exists rest, toISOString t = String "-" rest.
Proof.
  intros H. apply year_of_early in H. unfold toISOString, year_string.
  destruct (Z.leb_spec 0 (YearFromTime t)); [lia|]. cbn [andb].
  destruct (Z.ltb_spec (YearFromTime t) 0); [|lia].
  cbn [String.append]. eexists. reflexivity.
Qed.

(** The comparison the database makes, for a clock in the years 0000 to
    9999: a timestamp sorts before now when it is earlier than now, and
    also when its year takes the expanded form [+YYYYYY]. *)
Lemma sql_text_lt_plain e now :
  plain_year now ->
  sql_text_lt e now = ((e <? now) || (firstExpanded <=? e))%bool.
Proof.
  intros Hn. unfold sql_text_lt, String.ltb.
  destruct (toISOString_plain_head now Hn) as (v & rest & Hnow & Hv).
  destruct (sign_before_digit v Hv) as [Hplus Hminus].
  destruct (Z.leb_spec firstExpanded e) as [Hle|Hlt].
  - rewrite orb_true_r.
    destruct (toISOString_expanded_head e Hle) as [r ->]. rewrite Hnow.
    cbn [String.compare]. now rewrite Hplus.
  - rewrite orb_false_r. destruct (Z_lt_le_dec e firstPlain) as [Hearly|Hplain].
    + destruct (toISOString_early_head e Hearly) as [r ->]. rewrite Hnow.
      cbn [String.compare]. rewrite Hminus.
      symmetry. apply Z.ltb_lt. unfold plain_year in Hn. lia.
    + assert (He : plain_year e) by (unfold plain_year; lia).
      destruct (Z.ltb_spec e now) as [H|H].
      * now rewrite (toISOString_lt e now He Hn H).
      * destruct (Z.eq_dec e now) as [->|Hne].
        -- now rewrite compare_refl.
        -- rewrite String.compare_antisym.
           rewrite (toISOString_lt now e Hn He) by lia. reflexivity.
Qed.

Lemma sql_text_lt_opt_plain col now :
  plain_year now ->
  sql_text_lt_opt col now
  = match col with
    | Some e => ((e <? now) || (firstExpanded <=? e))%bool
    | None => false
    end.
Proof. intros H. destruct col as [e|]; [now apply sql_text_lt_plain | reflexivity]. Qed.

End Timestamps.

(** [SELECT DISTINCT] keeps the rows and drops the repetitions. *)
Lemma distinct_In {R} (eqb : R -> R -> bool) (rows : list R) (x : R) :
  (forall a b, eqb a b = true -> a = b) ->
  In x (distinct eqb rows) <-> In x rows.
Proof.
  intros Heq. induction rows as [|r rows IH]; [reflexivity|].
  cbn [distinct]. split.
  - intros [->|Hin]; [now left|]. apply filter_In in Hin. right. now apply IH.
  - intros [->|Hin]; [now left|].
    destruct (eqb r x) eqn:E; [left; now apply Heq|].
    right. apply filter_In. split; [now apply IH | now rewrite E].
Qed.

(** ** C9: the cleanup cycle *)


(** The ids of the sessions a cycle revoked. *)
Definition revoked_ids (r : RuleEngine.CleanupResult) : list Z :=
  map (fun x => fst (fst x)) (RuleEngine.cleaned_sessions r).

Lemma expired_eqb_eq (a b : RuleEngine.ExpiredSession) :
  RuleEngine.expired_eqb a b = true -> a = b.
Proof.
  destruct a as [[i m] p], b as [[i' m'] p']. unfold RuleEngine.expired_eqb. cbn [fst snd].
  intros H. apply andb_true_iff in H. destruct H as [H Hp].
  apply andb_true_iff in H. destruct H as [Hi Hm].
  apply Z.eqb_eq in Hi. apply String.eqb_eq in Hm. apply String.eqb_eq in Hp.
  now subst.
Qed.

(** The rows of the cleanup query: the sessions that have an APPLIED
    ledger row and whose [expires_at] sorts before [now]. *)
Lemma expired_with_active_rules_In now w (x : RuleEngine.ExpiredSession) :
  In x (RuleEngine.expired_with_active_rules now w)
  <-> exists s, In s (sessions w)
                /\ x = (s_id s, s_mac_address s, s_ip_address s)
                /\ sql_text_lt (s_expires_at s) now = true
                /\ exists rule, In rule (firewall_rules w)
                                /\ applied_for (s_id s) rule = true.
Proof.
  unfold RuleEngine.expired_with_active_rules.
  rewrite (distinct_In _ _ _ expired_eqb_eq), in_flat_map. split.
  - intros (f & Hf & Hin). destruct (r_is_active f) eqn:Ea; [|inversion Hin].
    apply in_map_iff in Hin. destruct Hin as (s & <- & Hs).
    apply filter_In in Hs. destruct Hs as [Hs Hc].
    apply andb_true_iff in Hc. destruct Hc as [Hid Hlt].
    exists s. repeat split; auto. exists f. split; [exact Hf|].
    unfold applied_for. now rewrite Hid, Ea.
  - intros (s & Hs & -> & Hlt & f & Hf & Ha).
    unfold applied_for in Ha. apply andb_true_iff in Ha. destruct Ha as [Hid Ea].
    exists f. split; [exact Hf|]. rewrite Ea. apply in_map_iff. exists s.
    split; [reflexivity|]. apply filter_In. split; [exact Hs|]. now rewrite Hid, Hlt.
Qed.

Section Cleanup.
Variable env : Env.

Lemma forM_results {A B C} (proj : B -> C) (h : A -> C) (body : A -> M B) :
  (forall x w, proj (fst (body x w)) = h x) ->
  forall xs w, map proj (fst (forM xs body w)) = map h xs.
Proof.
  intros Hb. induction xs as [|x xs IH]; intros w; [reflexivity|].
  cbn [forM]. rewrite bind_run, bind_run. cbn [ret fst map].
  now rewrite Hb, IH.
Qed.

(** What one turn of the cleanup loop does with a row of the query. *)
Definition revoke_expired (session : RuleEngine.ExpiredSession) : M (Z * string * bool) :=
  result <- RuleEngine.revokeClientAccess env
              {| sessionId := fst (fst session);
                 macAddress := snd (fst session);
                 ipAddress := snd session;
                 authMethod := "";
                 expiresAt := None |} ;;
  ret (fst (fst session), snd (fst session), success result).

Lemma revoke_expired_retracts session w :
  retracted (fst (fst session)) (snd (revoke_expired session w)).
Proof.
  unfold revoke_expired. rewrite bind_run. cbn [ret snd].
  apply (revokeClientAccess_retracts env
           {| sessionId := fst (fst session); macAddress := snd (fst session);
              ipAddress := snd session; authMethod := "";
              expiresAt := None |}).
Qed.

Lemma revoke_expired_tame session : along tame_rules (revoke_expired session).
Proof.
  unfold revoke_expired. apply along_bind; [typeclasses eauto | | intros; apply along_ret;
    typeclasses eauto].
  apply revokeClientAccess_tame_rules.
Qed.

Lemma revoke_all_retracts xs : forall w session,
  In session xs ->
  retracted (fst (fst session)) (snd (forM xs revoke_expired w)).
Proof.
  induction xs as [|x xs IH]; intros w session Hin; [inversion Hin|].
  cbn [forM]. rewrite bind_run, bind_run. cbn [ret snd].
  destruct Hin as [->|Hin].
  - apply (tame_keeps_retracted _ (snd (revoke_expired session w))).
    + apply (along_forM tame_rules xs revoke_expired revoke_expired_tame).
    + apply revoke_expired_retracts.
  - now apply IH.
Qed.

Lemma cleanupExpiredSessions_run w :
  let r := RuleEngine.cleanupExpiredSessions env w in
  let expired := RuleEngine.expired_with_active_rules (clock w) w in
  revoked_ids (fst r) = map (fun x => fst (fst x)) expired
  /\ (forall session, In session expired -> retracted (fst (fst session)) (snd r)).
Proof.
  cbv zeta. unfold RuleEngine.cleanupExpiredSessions.
  rewrite bind_run, bind_run. cbn [date_now gets fst snd].
  destruct (RuleEngine.expired_with_active_rules (clock w) w) as [|s0 rest] eqn:E.
  - split; [reflexivity | intros s []].
  - rewrite bind_run, bind_run. cbn [ret fst snd].
    fold revoke_expired. split.
    + unfold revoked_ids. cbn [RuleEngine.cleaned_sessions].
      apply (forM_results (fun x => fst (fst x)) (fun x => fst (fst x)) revoke_expired).
      intros x w0. unfold revoke_expired. rewrite bind_run. reflexivity.
    + intros session Hin.
      unfold BindingService.cleanupExpiredBindings, BindingService.retire_where.
      rewrite bind_run. cbn [date_now gets fst snd]. unfold retracted. cbn [firewall_rules with_bindings].
      now apply revoke_all_retracts.
Qed.


End Cleanup.



Lemma demo_clock_plain : plain_year 20000000.
Proof. unfold plain_year, firstPlain, firstExpanded. lia. Qed.


(** * Further properties of the services *)

(** ** The binding table: what is installed is what is found *)

Section BindingLookups.
Import BindingService.

Lemma find_app_last {R} (p : R -> bool) (l : list R) (x : R) :
  (forall r, In r l -> p r = false) -> p x = true -> find p (l ++ [x]) = Some x.
Proof.
  intros Hl Hx. induction l as [|r l IH]; simpl.
  - now rewrite Hx.
  - rewrite (Hl r (or_introl eq_refl)). apply IH. intros r' Hr'. apply Hl. now right.
Qed.

Lemma createBinding_clock mac ip sid exp w :
  clock (snd (createBinding mac ip sid exp w)) = clock w.
Proof.
  revert w.
  enough (H : along (same clock) (createBinding mac ip sid exp)) by exact H.
  frame_auto.
Qed.

(** On a table with (B1) and (B2), [createBinding] leaves its new row last,
    behind rows that, when ACTIVE, have another MAC and another IP. *)
Lemma createBinding_installs mac ip sid exp w m :
  normalizeMac mac = Returns (Some m) ->
  fk_session w sid = true ->
  unique_bindings w ->
  exists older,
    mac_ip_bindings (snd (createBinding mac ip sid exp w))
    = (older ++ [installed w m ip sid exp])%list
    /\ (forall b, In b older -> b_is_active b = true ->
                  b_mac_address b <> m /\ b_ip_address b <> ip).
Proof.
  intros Hn Hfk [H1 H2].
  pose proof (createBinding_bindings mac ip sid exp w (Some m) Hn) as Hb.
  cbv zeta in Hb. rewrite Hfk in Hb. destruct Hb as [_ Hbs].
  eexists. split; [exact Hbs|].
  intros b Hin Ha.
  apply (rebound_only_row m ip (mac_ip_bindings w) b); auto.
  now apply unique_nearly.
Qed.

Lemma validateBinding_at mac ip w t nm :
  normalizeMac mac = Returns nm ->
  fst (validateBinding mac ip (with_clock w t))
  = match find (active_for nm) (mac_ip_bindings w) with
    | None => Returns NO_BINDING
    | Some b =>
        if negb (String.eqb (b_ip_address b) ip) then Returns (IP_MISMATCH (b_ip_address b))
        else if sql_lt_opt (b_expires_at b) t then Returns EXPIRED
             else Returns (Valid b)
    end.
Proof.
  intros Hn. rewrite (validateBinding_run mac ip (with_clock w t) nm Hn). cbn.
  destruct (find _ _) as [b|]; [|reflexivity].
  destruct (negb _); [reflexivity|]. now destruct (sql_lt_opt _ _).
Qed.

End BindingLookups.

(** X1. Validation after creation.  On a table satisfying (B1) and (B2),
    once [createBinding(MAC, IP, session, expiresAt)] has gone through for
    a MAC that normalises to a string and a session that exists (or
    [null]), [validateBinding] for that MAC, asked at any instant [t],
    answers: valid, with the row just installed, for the same IP as long as
    [expiresAt] is [null] or not earlier than [t]; EXPIRED for the same IP
    once [expiresAt] is earlier than [t]; and IP_MISMATCH, naming the IP
    just bound, for any other IP. *)
Theorem validateBinding_after_createBinding :
  forall (w : World) (mac : option string) (ip : string) (sid exp : option Z)
         (m : string) (t : Z),
    BindingService.normalizeMac mac = Returns (Some m) ->
    fk_session w sid = true ->
    unique_bindings w ->
    let w' := snd (BindingService.createBinding mac ip sid exp w) in
    fst (BindingService.validateBinding mac ip (with_clock w' t))
    = Returns (if sql_lt_opt exp t then BindingService.EXPIRED
               else BindingService.Valid (installed w m ip sid exp))
    /\ (forall ip', ip' <> ip ->
          fst (BindingService.validateBinding mac ip' (with_clock w' t))
          = Returns (BindingService.IP_MISMATCH ip)).
Proof.
  intros w mac ip sid exp m t Hn Hfk Hu w'.
  destruct (createBinding_installs mac ip sid exp w m Hn Hfk Hu) as (older & Hbs & Hold).
  fold w' in Hbs.
  assert (Hfind : find (BindingService.active_for (Some m)) (mac_ip_bindings w')
                  = Some (installed w m ip sid exp)).
  { rewrite Hbs. apply find_app_last.
    - intros b Hin. unfold BindingService.active_for, sql_eq_str.
      destruct (b_is_active b) eqn:Ha; [|apply andb_false_r].
      destruct (Hold b Hin Ha) as [Hm _]. apply String.eqb_neq in Hm. now rewrite Hm.
    - unfold BindingService.active_for, sql_eq_str. cbn. now rewrite String.eqb_refl. }
  split.
  - rewrite (validateBinding_at mac ip w' t (Some m) Hn), Hfind. cbn.
    rewrite String.eqb_refl. cbn. now destruct (sql_lt_opt exp t).
  - intros ip' Hne. rewrite (validateBinding_at mac ip' w' t (Some m) Hn), Hfind. cbn.
    apply not_eq_sym in Hne. apply String.eqb_neq in Hne. now rewrite Hne.
Qed.

(** The first client of the small table moves to a new address, bound for
    500 ms; asked a second later, the binding has expired. *)
Lemma validateBinding_after_createBinding_witness :
  fst (BindingService.validateBinding (Some "AA-BB-CC-DD-EE-01") "192.168.4.20"
         (with_clock
            (snd (BindingService.createBinding (Some "AA-BB-CC-DD-EE-01") "192.168.4.20"
                    None (Some 500) demo_two_bindings))
            1500))
  = Returns BindingService.EXPIRED.
Proof.
  exact (proj1 (validateBinding_after_createBinding demo_two_bindings
                  (Some "AA-BB-CC-DD-EE-01") "192.168.4.20" None (Some 500)
                  "aa:bb:cc:dd:ee:01" 1500 eq_refl eq_refl demo_two_bindings_unique)).
Defined.

(** X2. Lookup after creation.  Under the same conditions the row that
    [createBinding] installed is the one [getBindingByMac] returns for the
    MAC and the one [getBindingByIp] returns for the IP. *)
Theorem lookups_after_createBinding :
  forall (w : World) (mac : option string) (ip : string) (sid exp : option Z) (m : string),
    BindingService.normalizeMac mac = Returns (Some m) ->
    fk_session w sid = true ->
    unique_bindings w ->
    let w' := snd (BindingService.createBinding mac ip sid exp w) in
    fst (BindingService.getBindingByMac mac w') = Returns (Some (installed w m ip sid exp))
    /\ fst (BindingService.getBindingByIp ip w') = Some (installed w m ip sid exp).
Proof.
  intros w mac ip sid exp m Hn Hfk Hu w'.
  destruct (createBinding_installs mac ip sid exp w m Hn Hfk Hu) as (older & Hbs & Hold).
  fold w' in Hbs. unfold BindingService.getBindingByMac, BindingService.getBindingByIp.
  rewrite Hn. unfold bind, gets, ret. cbn. rewrite Hbs. split.
  - f_equal. apply find_app_last.
    + intros b Hin. unfold BindingService.active_for, sql_eq_str.
      destruct (b_is_active b) eqn:Ha; [|apply andb_false_r].
      destruct (Hold b Hin Ha) as [Hm _]. apply String.eqb_neq in Hm. now rewrite Hm.
    + unfold BindingService.active_for, sql_eq_str. cbn. now rewrite String.eqb_refl.
  - apply find_app_last.
    + intros b Hin. destruct (b_is_active b) eqn:Ha; [|apply andb_false_r].
      destruct (Hold b Hin Ha) as [_ Hi]. apply String.eqb_neq in Hi. now rewrite Hi.
    + cbn. now rewrite String.eqb_refl.
Qed.

Lemma lookups_after_createBinding_witness :
  fst (BindingService.getBindingByIp "192.168.4.11"
         (snd (BindingService.createBinding (Some "AA-BB-CC-DD-EE-01") "192.168.4.11"
                 None None demo_two_bindings)))
  = Some (installed demo_two_bindings "aa:bb:cc:dd:ee:01" "192.168.4.11" None None).
Proof.
  exact (proj2 (lookups_after_createBinding demo_two_bindings
                  (Some "AA-BB-CC-DD-EE-01") "192.168.4.11" None None
                  "aa:bb:cc:dd:ee:01" eq_refl eq_refl demo_two_bindings_unique)).
Defined.

(** ** The binding table: removal and expiry *)

Section BindingRemoval.
Import BindingService.

Lemma update_where_none {R} (p : R -> bool) (f : R -> R) (rows : list R) :
  (forall r, In r rows -> p r = false) -> update_where p f rows = rows.
Proof.
  intros Hn. induction rows as [|r rows IH]; [reflexivity|]. simpl.
  rewrite (Hn r (or_introl eq_refl)). f_equal. apply IH.
  intros r' Hr'. apply Hn. now right.
Qed.

Lemma update_where_kept {R} (p : R -> bool) (f : R -> R) (rows : list R) (r : R) :
  In r rows -> p r = false -> In r (update_where p f rows).
Proof.
  intros Hin Hp. unfold update_where. apply in_map_iff. exists r. now rewrite Hp.
Qed.

(** After [UPDATE ... SET is_active = 0 WHERE p], with [p] asking for an
    ACTIVE row, no row satisfies [p]. *)
Lemma retire_where_clears (p : Binding -> bool) (bs : list Binding) :
  (forall b, p b = true -> b_is_active b = true) ->
  (forall b, p (retire b) = false) ->
  forall b, In b (update_where p retire bs) -> p b = false.
Proof.
  intros Hact Hret b Hin. unfold update_where in Hin. apply in_map_iff in Hin.
  destruct Hin as (b0 & <- & _). destruct (p b0) eqn:E; [apply Hret | exact E].
Qed.

Lemma active_for_retire nm b : active_for nm (retire b) = false.
Proof. unfold active_for. cbn. apply andb_false_r. Qed.

Lemma active_for_active nm b : active_for nm b = true -> b_is_active b = true.
Proof. unfold active_for. intros H. now apply andb_true_iff in H. Qed.

Lemma count_where_none {R} (p : R -> bool) (rows : list R) :
  (forall r, In r rows -> p r = false) -> count_where p rows = 0.
Proof.
  intros Hn. unfold count_where. fold (matching p rows). now rewrite matching_none.
Qed.

End BindingRemoval.

(** X3. [removeBinding(MAC)] retires every ACTIVE row of the normalised
    MAC and reports how many there were.  Afterwards [validateBinding]
    answers NO_BINDING for that MAC whatever the IP and the instant, and
    [getBindingByMac] finds nothing; rows of other MACs and rows already
    retired stay as they are; and a second [removeBinding] of the same MAC
    reports 0 and changes nothing. *)
Theorem removeBinding_clears_mac :
  forall (w : World) (mac : option string) (nm : option string),
    BindingService.normalizeMac mac = Returns nm ->
    let r := BindingService.removeBinding mac w in
    fst r = Returns (Z.of_nat (matching (BindingService.active_for nm) (mac_ip_bindings w)))
    /\ (forall ip t,
          fst (BindingService.validateBinding mac ip (with_clock (snd r) t))
          = Returns BindingService.NO_BINDING)
    /\ fst (BindingService.getBindingByMac mac (snd r)) = Returns None
    /\ (forall b, In b (mac_ip_bindings w) -> BindingService.active_for nm b = false ->
                  In b (mac_ip_bindings (snd r)))
    /\ BindingService.removeBinding mac (snd r) = (Returns 0, snd r).
Proof.
  intros w mac nm Hn r.
  assert (Hr : r = (Returns (count_where (BindingService.active_for nm) (mac_ip_bindings w)),
                    with_bindings w
                      (update_where (BindingService.active_for nm) BindingService.retire
                                    (mac_ip_bindings w))
                      (seq_bindings w))).
  { subst r. unfold BindingService.removeBinding. rewrite Hn. reflexivity. }
  assert (Hclear : forall b, In b (mac_ip_bindings (snd r)) ->
                             BindingService.active_for nm b = false).
  { rewrite Hr. cbn. apply retire_where_clears;
      [apply active_for_active | apply active_for_retire]. }
  assert (Hfind : find (BindingService.active_for nm) (mac_ip_bindings (snd r)) = None).
  { destruct (find _ _) as [b|] eqn:Ef; [|reflexivity].
    destruct (find_some _ _ Ef) as [Hin Hb]. rewrite (Hclear b Hin) in Hb. discriminate. }
  split; [now rewrite Hr|]. split; [|split; [|split]].
  - intros ip t. rewrite (validateBinding_at mac ip (snd r) t nm Hn). now rewrite Hfind.
  - unfold BindingService.getBindingByMac. rewrite Hn. unfold bind, gets, ret. cbn.
    now rewrite Hfind.
  - intros b Hin Hb. rewrite Hr. cbn. now apply update_where_kept.
  - unfold BindingService.removeBinding. rewrite Hn.
    unfold bind, ret, BindingService.retire_where.
    rewrite (count_where_none _ _ Hclear), (update_where_none _ _ _ Hclear).
    rewrite Hr. reflexivity.
Qed.

Lemma removeBinding_clears_mac_witness :
  fst (BindingService.removeBinding (Some "AA-BB-CC-DD-EE-02") demo_two_bindings)
  = Returns 1.
Proof.
  exact (proj1 (removeBinding_clears_mac demo_two_bindings (Some "AA-BB-CC-DD-EE-02")
                  (Some "aa:bb:cc:dd:ee:02") eq_refl)).
Defined.

Lemma update_where_ext {R} (p q : R -> bool) (f : R -> R) (rows : list R) :
  (forall r, p r = q r) -> update_where p f rows = update_where q f rows.
Proof. intros H. unfold update_where. apply map_ext. intros r. now rewrite H. Qed.

Lemma count_where_ext {R} (p q : R -> bool) (rows : list R) :
  (forall r, p r = q r) -> count_where p rows = count_where q rows.
Proof. intros H. unfold count_where. now rewrite (filter_ext p q H). Qed.

(** X4. [cleanupExpiredBindings] leaves the comparison of [expires_at]
    with the current time to the database, which compares the two ISO
    strings.  While the clock shows a year from 0000 to 9999, it retires
    exactly the ACTIVE rows whose [expires_at] is set and is earlier than
    the current time or lies past the year 9999 (written [+YYYYYY-...],
    which sorts before every four-digit year), and returns their number:
    afterwards no ACTIVE row is past its expiry, every other row is as it
    was, [validateBinding] does not answer EXPIRED at that instant for any
    MAC and IP, and a second cleanup at the same instant retires
    nothing. *)
Theorem cleanupExpiredBindings_retires_expired :
  forall w : World,
    plain_year (clock w) ->
    let r := BindingService.cleanupExpiredBindings w in
    let overdue_row (b : Binding) :=
      (b_is_active b
       && match b_expires_at b with
          | Some e => (e <? clock w) || (firstExpanded <=? e)
          | None => false
          end)%bool in
    fst r = Z.of_nat (matching overdue_row (mac_ip_bindings w))
    /\ (forall b, In b (mac_ip_bindings (snd r)) -> b_is_active b = true ->
                  forall e, b_expires_at b = Some e -> clock w <= e < firstExpanded)
    /\ (forall b, In b (mac_ip_bindings w) -> overdue_row b = false ->
                  In b (mac_ip_bindings (snd r)))
    /\ (forall mac ip,
          fst (BindingService.validateBinding mac ip (snd r))
          <> Returns BindingService.EXPIRED)
    /\ BindingService.cleanupExpiredBindings (snd r) = (0, snd r).
Proof.
  intros w Hclock r overdue_row.
  assert (Hsel : forall b,
             (b_is_active b && sql_text_lt_opt (b_expires_at b) (clock w))%bool
             = overdue_row b).
  { intros b. subst overdue_row. cbv beta. now rewrite (sql_text_lt_opt_plain _ _ Hclock). }
  assert (Hr : r = (count_where overdue_row (mac_ip_bindings w),
                    with_bindings w
                      (update_where overdue_row BindingService.retire (mac_ip_bindings w))
                      (seq_bindings w))).
  { subst r. unfold BindingService.cleanupExpiredBindings, bind, date_now, gets,
      BindingService.retire_where. cbn [fst snd].
    now rewrite (count_where_ext _ _ _ Hsel), (update_where_ext _ _ _ _ Hsel). }
  assert (Hclear : forall b, In b (mac_ip_bindings (snd r)) -> overdue_row b = false).
  { rewrite Hr. cbn. apply retire_where_clears.
    - intros b Hb. subst overdue_row. cbn in Hb. now apply andb_true_iff in Hb.
    - intros b. reflexivity. }
  split; [now rewrite Hr|]. split; [|split; [|split]].
  - intros b Hin Ha e He. specialize (Hclear b Hin). subst overdue_row. cbn in Hclear.
    rewrite Ha, He in Hclear. cbn in Hclear. apply orb_false_iff in Hclear.
    destruct Hclear as [H1 H2]. apply Z.ltb_ge in H1. apply Z.leb_gt in H2. lia.
  - intros b Hin Hb. rewrite Hr. cbn. now apply update_where_kept.
  - intros mac ip. destruct (BindingService.normalizeMac mac) as [nm|] eqn:Hn.
    + rewrite (validateBinding_run mac ip (snd r) nm Hn).
      destruct (find _ _) as [b|] eqn:Ef; [|discriminate].
      destruct (find_some _ _ Ef) as [Hin Hb]. apply active_for_active in Hb.
      specialize (Hclear b Hin). subst overdue_row. cbn in Hclear. rewrite Hb in Hclear.
      cbn in Hclear. destruct (negb _); [discriminate|].
      assert (Hc : clock (snd r) = clock w) by now rewrite Hr.
      rewrite Hc. unfold sql_lt_opt.
      destruct (b_expires_at b) as [e|]; [|discriminate].
      apply orb_false_iff in Hclear. destruct Hclear as [-> _]. discriminate.
    + unfold BindingService.validateBinding. rewrite Hn. discriminate.
  - unfold BindingService.cleanupExpiredBindings, bind, date_now, gets,
      BindingService.retire_where. cbn [fst snd].
    assert (Hc : clock (snd r) = clock w) by now rewrite Hr.
    rewrite Hc.
    rewrite (count_where_ext _ _ _ Hsel), (update_where_ext _ _ _ _ Hsel).
    rewrite (count_where_none _ _ Hclear), (update_where_none _ _ _ Hclear).
    rewrite Hr. reflexivity.
Qed.

(** The second client's binding, looked at after it has expired. *)
Lemma cleanupExpiredBindings_retires_expired_witness :
  fst (BindingService.cleanupExpiredBindings (with_clock demo_two_bindings 1000)) = 1.
Proof.
  assert (Hp : plain_year (clock (with_clock demo_two_bindings 1000)))
    by (unfold plain_year, firstPlain, firstExpanded; cbn; lia).
  exact (proj1 (cleanupExpiredBindings_retires_expired
                  (with_clock demo_two_bindings 1000) Hp)).
Defined.

(** ** Ending sessions through the integration service *)

Section SessionEnd.
Variable env : Env.

Lemma revokeClientAccess_sessions sd :
  along (same sessions) (RuleEngine.revokeClientAccess env sd).
Proof. frame_auto. Qed.

(** [onSessionEnded] rewrites the session rows of its id and no other. *)
Lemma onSessionEnded_sessions session w :
  sessions (snd (SessionFirewall.onSessionEnded env session w))
  = update_where (fun x => s_id x =? s_id session) SessionFirewall.end_session (sessions w).
Proof.
  unfold SessionFirewall.onSessionEnded. rewrite bind_run, bind_run. cbn [ret snd].
  unfold SessionFirewall.update_sessions, modify. cbn [snd sessions with_sessions].
  now rewrite (revokeClientAccess_sessions _ w).
Qed.

Lemma onSessionEnded_bindings session w :
  mac_ip_bindings (snd (SessionFirewall.onSessionEnded env session w))
  = update_where
      (fun b => (opt_Z_eqb (b_session_id b) (s_id session) && b_is_active b)%bool)
      BindingService.retire (mac_ip_bindings w).
Proof.
  unfold SessionFirewall.onSessionEnded. rewrite bind_run, bind_run. cbn [ret snd].
  unfold SessionFirewall.update_sessions, modify. cbn [snd mac_ip_bindings with_sessions].
  apply (revokeClientAccess_bindings env).
Qed.

Lemma onSessionEnded_tame_sessions session :
  along tame_sessions (SessionFirewall.onSessionEnded env session).
Proof. tame_sessions_auto. Qed.

Lemma onSessionEnded_tame_rules session :
  along tame_rules (SessionFirewall.onSessionEnded env session).
Proof. tame_rules_auto. Qed.

(** No ACTIVE session row carries the id [i]. *)
Definition ended (i : Z) (w : World) : Prop :=
  forall x, In x (sessions w) -> s_id x = i -> s_is_active x = false.

Lemma onSessionEnded_ended session w :
  ended (s_id session) (snd (SessionFirewall.onSessionEnded env session w)).
Proof.
  intros x Hin Hid. rewrite onSessionEnded_sessions in Hin.
  unfold update_where in Hin. apply in_map_iff in Hin. destruct Hin as (x0 & Hx & _).
  destruct (s_id x0 =? s_id session) eqn:E.
  - now subst x.
  - subst x0. rewrite Hid, Z.eqb_refl in E. discriminate.
Qed.

Lemma tame_keeps_ended i w w' : tame_sessions w w' -> ended i w -> ended i w'.
Proof.
  unfold tame_sessions, ended. intros Ht He x' Hin Hid.
  destruct (Forall2_In_r _ _ _ _ Ht Hin) as (x & Hx & Hi & _ & _ & _ & Ha).
  destruct (s_is_active x') eqn:E; [|reflexivity].
  rewrite <- (He x Hx); [symmetry; now apply Ha | congruence].
Qed.

(** One turn of [logoutDevice]'s loop. *)
Definition end_one (session : Session) : M (Z * EngineResult) :=
  result <- SessionFirewall.onSessionEnded env session ;;
  ret (s_id session, result).

Lemma end_one_snd session w :
  snd (end_one session w) = snd (SessionFirewall.onSessionEnded env session w).
Proof. unfold end_one. now rewrite bind_run. Qed.

Lemma end_one_tame_sessions session : along tame_sessions (end_one session).
Proof. intros w. rewrite end_one_snd. apply onSessionEnded_tame_sessions. Qed.

Lemma end_one_tame_rules session : along tame_rules (end_one session).
Proof. intros w. rewrite end_one_snd. apply onSessionEnded_tame_rules. Qed.

Lemma end_all xs : forall w session,
  In session xs ->
  ended (s_id session) (snd (forM xs end_one w))
  /\ retracted (s_id session) (snd (forM xs end_one w)).
Proof.
  induction xs as [|x xs IH]; intros w session Hin; [inversion Hin|].
  cbn [forM]. rewrite bind_run, bind_run. cbn [ret snd].
  destruct Hin as [->|Hin]; [|now apply IH].
  split.
  - apply (tame_keeps_ended _ (snd (end_one session w))).
    + apply (along_forM tame_sessions xs end_one end_one_tame_sessions).
    + rewrite end_one_snd. apply onSessionEnded_ended.
  - apply (tame_keeps_retracted _ (snd (end_one session w))).
    + apply (along_forM tame_rules xs end_one end_one_tame_rules).
    + rewrite end_one_snd. apply onSessionEnded_retracts.
Qed.

End SessionEnd.

(** X5. [logoutSession(id)].  For an id no session row carries, nothing
    changes.  Otherwise the session rows of that id, and no others, become
    inactive with [firewall_applied = 0]; no ledger row of the session
    stays APPLIED; and no binding owned by the session stays ACTIVE. *)
Theorem logoutSession_tears_down :
  forall (env : Env) (w : World) (sid : Z),
    let r := SessionFirewall.logoutSession env sid w in
    (find (fun s => s_id s =? sid) (sessions w) = None -> r = (None, w))
    /\ (forall s, find (fun s => s_id s =? sid) (sessions w) = Some s ->
          (forall x, In x (sessions (snd r)) -> s_id x = sid ->
                     s_is_active x = false /\ s_firewall_applied x = false)
          /\ (forall x, In x (sessions w) -> s_id x <> sid -> In x (sessions (snd r)))
          /\ retracted sid (snd r)
          /\ (forall b, In b (mac_ip_bindings (snd r)) -> b_session_id b = Some sid ->
                        b_is_active b = false)).
Proof.
  intros env w sid r. subst r.
  unfold SessionFirewall.logoutSession, SessionFirewall.find_session.
  rewrite bind_run. cbn [gets fst snd]. split.
  - intros ->. reflexivity.
  - intros s Hf. rewrite Hf.
    destruct (find_some _ _ Hf) as [_ Hid]. apply Z.eqb_eq in Hid. subst sid.
    rewrite bind_run. cbn [ret snd]. split; [|split; [|split]].
    + intros x Hin Hx. rewrite onSessionEnded_sessions in Hin.
      unfold update_where in Hin. apply in_map_iff in Hin. destruct Hin as (x0 & Hx0 & _).
      destruct (s_id x0 =? s_id s) eqn:E.
      * subst x. split; reflexivity.
      * subst x0. rewrite Hx, Z.eqb_refl in E. discriminate.
    + intros x Hin Hx. rewrite onSessionEnded_sessions. apply update_where_kept; [exact Hin|].
      now apply Z.eqb_neq.
    + apply onSessionEnded_retracts.
    + intros b Hin Hb. rewrite onSessionEnded_bindings in Hin.
      unfold update_where in Hin. apply in_map_iff in Hin. destruct Hin as (b0 & Hb0 & _).
      destruct (opt_Z_eqb (b_session_id b0) (s_id s) && b_is_active b0)%bool eqn:E.
      * now subst b.
      * subst b0. rewrite Hb in E. cbn in E. rewrite Z.eqb_refl in E. exact E.
Qed.

Lemma logoutSession_tears_down_witness :
  retracted 1 (snd (SessionFirewall.logoutSession demo_env 1 demo_one_client)).
Proof.
  assert (Hs : exists s, find (fun s => s_id s =? 1) (sessions demo_one_client) = Some s).
  { eexists. vm_compute. reflexivity. }
  destruct Hs as (s & Hs).
  exact (proj1 (proj2 (proj2 (proj2 (logoutSession_tears_down demo_env demo_one_client 1)
                                      s Hs)))).
Defined.

(** X6. [logoutDevice(MAC)] ends every ACTIVE session of the MAC, one
    [onSessionEnded] each in table order: afterwards no session row of
    that MAC is ACTIVE, and none of the sessions it ended has an APPLIED
    ledger row. *)
Theorem logoutDevice_ends_every_session :
  forall (env : Env) (w : World) (mac : string),
    let r := SessionFirewall.logoutDevice env mac w in
    map fst (fst r)
    = map s_id (filter (fun s => (String.eqb (s_mac_address s) mac && s_is_active s)%bool)
                       (sessions w))
    /\ (forall s, In s (sessions (snd r)) -> s_mac_address s = mac -> s_is_active s = false)
    /\ (forall s, In s (sessions w) -> s_mac_address s = mac -> s_is_active s = true ->
                  retracted (s_id s) (snd r)).
Proof.
  intros env w mac r. subst r. unfold SessionFirewall.logoutDevice.
  rewrite bind_run. cbn [gets fst snd]. fold (end_one env).
  set (found := filter _ (sessions w)).
  assert (Hfound : forall s, In s (sessions w) -> s_mac_address s = mac ->
                             s_is_active s = true -> In s found).
  { intros s Hin Hm Ha. apply filter_In. split; [exact Hin|].
    now rewrite Hm, String.eqb_refl, Ha. }
  split; [|split].
  - apply (forM_results fst s_id (end_one env)).
    intros x w0. unfold end_one. now rewrite bind_run.
  - intros s' Hin Hm. destruct (s_is_active s') eqn:Ha; [|reflexivity].
    pose proof (along_forM tame_sessions found (end_one env) (end_one_tame_sessions env) w)
      as Ht.
    destruct (Forall2_In_r _ _ _ _ Ht Hin) as (s & Hs & Hi & Hmac & _ & _ & Hact).
    assert (Hsf : In s found) by (apply Hfound; [exact Hs | congruence | now apply Hact]).
    destruct (end_all env found w s Hsf) as [Hended _].
    rewrite <- Ha. apply (Hended s' Hin Hi).
  - intros s Hin Hm Ha. now apply (end_all env found w s (Hfound s Hin Hm Ha)).
Qed.

Lemma logoutDevice_ends_every_session_witness :
  retracted 1 (snd (SessionFirewall.logoutDevice demo_env "aa:bb:cc:dd:ee:01"
                      demo_second_voucher)).
Proof.
  assert (Hs : exists s, In s (sessions demo_second_voucher) /\ s_id s = 1
                         /\ s_mac_address s = "aa:bb:cc:dd:ee:01"
                         /\ s_is_active s = true).
  { eexists. split; [vm_compute; left; reflexivity | repeat split]. }
  destruct Hs as (s & Hin & Hid & Hm & Ha). rewrite <- Hid.
  exact (proj2 (proj2 (logoutDevice_ends_every_session demo_env demo_second_voucher
                         "aa:bb:cc:dd:ee:01")) s Hin Hm Ha).
Defined.

(** ** Authentication: what a refusal leaves behind *)

Section AuthRefusal.
Variable env : Env.
Context {X : Type} (f : World -> X).
Hypothesis f_event_logs : forall w l, f (with_event_logs w l) = f w.
Hypothesis f_devices : forall w l n, f (with_devices w l n) = f w.

Lemma authFailure_frame mac ip reason w :
  f (snd (Logging.authFailure mac ip reason w)) = f w.
Proof. unfold Logging.authFailure, Logging.logEvent. cbn. apply f_event_logs. Qed.

Lemma getOrCreateDevice_frame mac w :
  f (snd (AuthService.getOrCreateDevice mac w)) = f w.
Proof.
  unfold AuthService.getOrCreateDevice. rewrite bind_run. cbn [gets fst snd].
  destruct (find _ (devices w)); cbn; apply f_devices.
Qed.

Ltac refused :=
  repeat rewrite bind_run; cbn [ret fst snd];
  rewrite ?authFailure_frame, ?getOrCreateDevice_frame; reflexivity.

Ltac granted H :=
  exfalso; repeat rewrite bind_run in H; cbn [ret fst snd auth_success] in H;
  discriminate H.

Lemma authenticateWithVoucher_refused code mac ip w :
  auth_success (fst (AuthService.authenticateWithVoucher env code mac ip w)) = false ->
  f (snd (AuthService.authenticateWithVoucher env code mac ip w)) = f w.
Proof.
  unfold AuthService.authenticateWithVoucher.
  rewrite bind_run. cbn [gets fst snd].
  destruct (find _ (vouchers w)) as [v|]; [|intros _; refused].
  rewrite bind_run. cbn [date_now gets fst snd].
  destruct (sql_lt_opt _ _); [intros _; refused|].
  rewrite bind_run, bind_run. cbn [gets fst snd].
  destruct (find _ (sessions w)) as [existing|] eqn:Eex.
  - cbv iota. rewrite bind_run.
    destruct (d_is_blocked _); [intros _; refused | intros H; granted H].
  - destruct (Z.leb _ _); [intros _; refused|].
    rewrite bind_run.
    destruct (d_is_blocked _); [intros _; refused | intros H; granted H].
Qed.

Lemma authenticateWithCredentials_refused username password mac ip w :
  auth_success (fst (AuthService.authenticateWithCredentials env username password mac ip w))
  = false ->
  f (snd (AuthService.authenticateWithCredentials env username password mac ip w)) = f w.
Proof.
  unfold AuthService.authenticateWithCredentials.
  rewrite bind_run. cbn [gets fst snd].
  destruct (find _ (users w)) as [u|]; [|intros _; refused].
  destruct (negb _); [intros _; refused|].
  rewrite bind_run.
  destruct (d_is_blocked _); [intros _; refused|].
  rewrite bind_run, bind_run. cbn [gets fst snd].
  destruct (find _ (sessions _)) as [existing|] eqn:Eex; [intros H; granted H|].
  destruct (Z.leb _ _); [intros _; refused | intros H; granted H].
Qed.

End AuthRefusal.

(** X7. A refused authentication, by voucher or by credentials, writes to
    the audit log and at most to the device table: it adds or changes no
    session, binding, ledger row, voucher or user account, and asks
    nothing of the enforcer. *)
Theorem refused_authentication_changes_nothing :
  forall (env : Env) (w : World) (mac : option string) (ip : string),
    (forall code,
        let r := AuthService.authenticateWithVoucher env code mac ip w in
        auth_success (fst r) = false ->
        sessions (snd r) = sessions w
        /\ mac_ip_bindings (snd r) = mac_ip_bindings w
        /\ firewall_rules (snd r) = firewall_rules w
        /\ vouchers (snd r) = vouchers w
        /\ users (snd r) = users w
        /\ trace (snd r) = trace w)
    /\ (forall username password,
           let r := AuthService.authenticateWithCredentials env username password mac ip w in
           auth_success (fst r) = false ->
           sessions (snd r) = sessions w
           /\ mac_ip_bindings (snd r) = mac_ip_bindings w
           /\ firewall_rules (snd r) = firewall_rules w
           /\ vouchers (snd r) = vouchers w
           /\ users (snd r) = users w
           /\ trace (snd r) = trace w).
Proof.
  intros env w mac ip. split.
  - intros code r Hr. subst r.
    repeat split; apply (authenticateWithVoucher_refused env); auto.
  - intros username password r Hr. subst r.
    repeat split; apply (authenticateWithCredentials_refused env); auto.
Qed.

(** A code no voucher carries. *)
Lemma refused_authentication_changes_nothing_witness :
  sessions (snd (AuthService.authenticateWithVoucher demo_env "NOSUCH00"
                   (Some "AA-BB-CC-DD-EE-09") "192.168.4.30" demo_one_client))
  = sessions demo_one_client.
Proof.
  exact (proj1 (proj1 (refused_authentication_changes_nothing demo_env demo_one_client
                         (Some "AA-BB-CC-DD-EE-09") "192.168.4.30")
                      "NOSUCH00" eq_refl)).
Defined.

(** ** Blocked devices *)

Section Blocked.
Variable env : Env.

Lemma getOrCreateDevice_found mac w d :
  find (fun d => String.eqb (d_mac_address d) mac) (devices w) = Some d ->
  fst (AuthService.getOrCreateDevice mac w) = d.
Proof.
  intros Hf. unfold AuthService.getOrCreateDevice. rewrite bind_run.
  cbn [gets fst snd]. rewrite Hf. now rewrite bind_run.
Qed.

Lemma blocked_voucher code mac ip w d :
  find (fun d => String.eqb (d_mac_address d) (AuthService.normalizeMacAddress mac))
       (devices w) = Some d ->
  d_is_blocked d = true ->
  auth_success (fst (AuthService.authenticateWithVoucher env code mac ip w)) = false.
Proof.
  intros Hf Hb. unfold AuthService.authenticateWithVoucher.
  rewrite bind_run. cbn [gets fst snd].
  destruct (find _ (vouchers w)) as [v|]; [|now repeat rewrite bind_run].
  rewrite bind_run. cbn [date_now gets fst snd].
  destruct (sql_lt_opt _ _); [now repeat rewrite bind_run|].
  rewrite bind_run, bind_run. cbn [gets fst snd].
  destruct (find _ (sessions w)) as [existing|].
  - cbv iota. rewrite bind_run, (getOrCreateDevice_found _ w d Hf), Hb.
    now repeat rewrite bind_run.
  - destruct (Z.leb _ _); [now repeat rewrite bind_run|].
    rewrite bind_run, (getOrCreateDevice_found _ w d Hf), Hb.
    now repeat rewrite bind_run.
Qed.

Lemma blocked_credentials username password mac ip w d :
  find (fun d => String.eqb (d_mac_address d) (AuthService.normalizeMacAddress mac))
       (devices w) = Some d ->
  d_is_blocked d = true ->
  auth_success
    (fst (AuthService.authenticateWithCredentials env username password mac ip w)) = false.
Proof.
  intros Hf Hb. unfold AuthService.authenticateWithCredentials.
  rewrite bind_run. cbn [gets fst snd].
  destruct (find _ (users w)) as [u|]; [|now repeat rewrite bind_run].
  destruct (negb _); [now repeat rewrite bind_run|].
  rewrite bind_run, (getOrCreateDevice_found _ w d Hf), Hb.
  now repeat rewrite bind_run.
Qed.

(** After a [blockDevice] that found the device, the lookup by that MAC
    yields a blocked row. *)
Lemma blockDevice_blocks mac reason w t :
  fst (DeviceService.blockDevice mac reason w) = true ->
  exists d,
    find (fun d => String.eqb (d_mac_address d) mac)
         (devices (with_clock (snd (DeviceService.blockDevice mac reason w)) t)) = Some d
    /\ d_is_blocked d = true.
Proof.
  unfold DeviceService.blockDevice. rewrite bind_run. cbn [gets fst snd].
  destruct (find _ (devices w)) as [d0|] eqn:Ef; [intros _ | discriminate].
  cbn [devices with_clock]. rewrite bind_run.
  match goal with
  | |- exists d, find _ (devices (snd (?k ?u ?w1))) = _ /\ _ =>
      assert (Hk : along (same devices) (k u)) by frame_auto; rewrite (Hk w1)
  end.
  unfold modify. cbn [snd devices with_devices].
  induction (devices w) as [|x xs IH]; [discriminate|].
  simpl in Ef. simpl.
  destruct (String.eqb (d_mac_address x) mac) eqn:E.
  - exists (DeviceService.block reason x). simpl. rewrite E. auto.
  - rewrite E. apply IH. exact Ef.
Qed.

End Blocked.

(** X8. A blocked device cannot authenticate.  When the device row found
    for the normalised MAC is blocked, [authenticateWithVoucher] and
    [authenticateWithCredentials] refuse, whatever the voucher or the
    account and even when the MAC holds an ACTIVE session that could be
    resumed; and that is the state in which a successful
    [blockDevice(MAC)] leaves the device, at any later instant. *)
Theorem blocked_device_cannot_authenticate :
  forall (env : Env) (w : World) (mac : option string),
    (forall d,
        find (fun d => String.eqb (d_mac_address d) (AuthService.normalizeMacAddress mac))
             (devices w) = Some d ->
        d_is_blocked d = true ->
        (forall code ip,
            auth_success (fst (AuthService.authenticateWithVoucher env code mac ip w)) = false)
        /\ (forall username password ip,
               auth_success
                 (fst (AuthService.authenticateWithCredentials env username password mac ip w))
               = false))
    /\ (forall reason t,
           fst (DeviceService.blockDevice (AuthService.normalizeMacAddress mac) reason w)
           = true ->
           let w' := with_clock
                       (snd (DeviceService.blockDevice
                               (AuthService.normalizeMacAddress mac) reason w)) t in
           (forall code ip,
               auth_success (fst (AuthService.authenticateWithVoucher env code mac ip w'))
               = false)
           /\ (forall username password ip,
                  auth_success
                    (fst (AuthService.authenticateWithCredentials env username password
                            mac ip w'))
                  = false)).
Proof.
  intros env w mac. split.
  - intros d Hf Hb. split.
    + intros code ip. now apply (blocked_voucher env code mac ip w d).
    + intros username password ip.
      now apply (blocked_credentials env username password mac ip w d).
  - intros reason t Hok w'.
    destruct (blockDevice_blocks _ reason w t Hok) as (d & Hf & Hb). fold w' in Hf.
    split.
    + intros code ip. now apply (blocked_voucher env code mac ip w' d).
    + intros username password ip.
      now apply (blocked_credentials env username password mac ip w' d).
Qed.

(** The client of the small deployment is blocked, then presents its
    voucher again. *)
Lemma blocked_device_cannot_authenticate_witness :
  auth_success
    (fst (AuthService.authenticateWithVoucher demo_env "TEST1234"
            (Some "AA-BB-CC-DD-EE-01") "192.168.4.10"
            (with_clock
               (snd (DeviceService.blockDevice
                       (AuthService.normalizeMacAddress (Some "AA-BB-CC-DD-EE-01"))
                       "abuse" demo_one_client))
               3000)))
  = false.
Proof.
  exact (proj1 (proj2 (blocked_device_cannot_authenticate demo_env demo_one_client
                         (Some "AA-BB-CC-DD-EE-01"))
                      "abuse" 3000 eq_refl)
               "TEST1234" "192.168.4.10").
Defined.

(** ** Validating and resuming sessions *)

(** X9. [validateSession] vouches only for live sessions.  The session it
    returns for a token is a row of the table with the id the token names,
    ACTIVE, and not past its expiry, and the call then changes nothing.
    When it returns none, no ACTIVE row with that id is left: the row it
    found expired has been deactivated.  In no case does it touch a
    binding or a ledger row or call the enforcer. *)
Theorem validateSession_vouches_for_live_sessions :
  forall (w : World) (id : Z),
    let r := AuthService.validateSession (Some id) w in
    (forall s, fst r = Some s ->
        In s (sessions w) /\ s_id s = id /\ s_is_active s = true
        /\ clock w <= s_expires_at s /\ snd r = w)
    /\ (fst r = None -> ended id (snd r))
    /\ mac_ip_bindings (snd r) = mac_ip_bindings w
    /\ firewall_rules (snd r) = firewall_rules w
    /\ trace (snd r) = trace w.
Proof.
  intros w id r. subst r. unfold AuthService.validateSession.
  rewrite bind_run. cbn [gets fst snd].
  destruct (find _ (sessions w)) as [s|] eqn:Ef.
  - destruct (find_some _ _ Ef) as [Hin Hs]. apply andb_true_iff in Hs.
    destruct Hs as [Hid Ha]. apply Z.eqb_eq in Hid.
    rewrite bind_run. cbn [date_now gets fst snd].
    destruct (s_expires_at s <? clock w) eqn:El.
    + rewrite bind_run. cbn. split; [discriminate|]. split; [|auto].
      intros _ x Hx Hxid. unfold update_where in Hx. apply in_map_iff in Hx.
      destruct Hx as (x0 & Hx0 & _). destruct (s_id x0 =? s_id s) eqn:E.
      * now subst x.
      * subst x0. rewrite Hxid, Hid, Z.eqb_refl in E. discriminate.
    + cbn. split; [|split; [discriminate | auto]].
      intros s' Hs'. inversion Hs'; subst s'. apply Z.ltb_ge in El. auto.
  - cbn. split; [discriminate|]. split; [|auto].
    intros _ x Hx Hxid. pose proof (find_none _ _ Ef x Hx) as Hn. cbn in Hn.
    rewrite Hxid, Z.eqb_refl in Hn. exact Hn.
Qed.

Lemma validateSession_vouches_for_live_sessions_witness :
  ended 1 (snd (AuthService.validateSession (Some 1)
                  (with_clock demo_one_client 20000000))).
Proof.
  exact (proj1 (proj2 (validateSession_vouches_for_live_sessions
                         (with_clock demo_one_client 20000000) 1))
               eq_refl).
Defined.

Lemma getOrCreateDevice_not_blocked mac w :
  (forall d, find (fun d => String.eqb (d_mac_address d) mac) (devices w) = Some d ->
             d_is_blocked d = false) ->
  d_is_blocked (fst (AuthService.getOrCreateDevice mac w)) = false.
Proof.
  intros Hd. unfold AuthService.getOrCreateDevice. rewrite bind_run.
  cbn [gets fst snd]. destruct (find _ (devices w)) as [d|].
  - rewrite bind_run. cbn. now apply Hd.
  - reflexivity.
Qed.

(** X10. Resuming a session.  When an ACTIVE voucher with the code (upper
    case) exists and has not expired, the MAC already holds an ACTIVE
    session under it and the device is not blocked,
    [authenticateWithVoucher] answers with that session's id and expiry
    ("Session resumed"), whatever the number of devices on the voucher and
    whatever the IP presented: it creates no session and changes no
    session, binding, ledger row or voucher, and asks nothing of the
    enforcer. *)
Theorem authenticateWithVoucher_resumes :
  forall (env : Env) (w : World) (code : string) (mac : option string) (ip : string)
         (v : Voucher) (s : Session),
    find (fun v => (String.eqb (v_code v) (JsString.toUpperCase code) && v_is_active v)%bool)
         (vouchers w) = Some v ->
    sql_lt_opt (v_expires_at v) (clock w) = false ->
    find (fun s => (opt_Z_eqb (s_voucher_id s) (v_id v)
                    && String.eqb (s_mac_address s) (AuthService.normalizeMacAddress mac)
                    && s_is_active s)%bool)
         (sessions w) = Some s ->
    (forall d, find (fun d => String.eqb (d_mac_address d)
                                (AuthService.normalizeMacAddress mac))
                    (devices w) = Some d ->
               d_is_blocked d = false) ->
    let r := AuthService.authenticateWithVoucher env code mac ip w in
    fst r = AuthOk (AuthService.generateToken env s) (s_id s) (s_expires_at s)
                   "Session resumed"
    /\ sessions (snd r) = sessions w
    /\ mac_ip_bindings (snd r) = mac_ip_bindings w
    /\ firewall_rules (snd r) = firewall_rules w
    /\ vouchers (snd r) = vouchers w
    /\ trace (snd r) = trace w.
Proof.
  intros env w code mac ip v s Hv Hexp Hs Hd r. subst r.
  unfold AuthService.authenticateWithVoucher.
  rewrite bind_run. cbn [gets fst snd]. rewrite Hv.
  rewrite bind_run. cbn [date_now gets fst snd]. rewrite Hexp.
  rewrite bind_run, bind_run. cbn [gets fst snd]. rewrite Hs. cbv iota.
  rewrite bind_run, (getOrCreateDevice_not_blocked _ w Hd). cbn [ret fst snd].
  split; [reflexivity|].
  repeat split; apply getOrCreateDevice_frame; reflexivity.
Qed.

(** The client of the small deployment presents its voucher again, from
    another address. *)
Lemma authenticateWithVoucher_resumes_witness :
  sessions (snd (AuthService.authenticateWithVoucher demo_env "test1234"
                   (Some "AA-BB-CC-DD-EE-01") "192.168.4.77"
                   (with_clock demo_one_client 2000)))
  = sessions (with_clock demo_one_client 2000).
Proof.
  assert (Hv : exists v,
             find (fun v => (String.eqb (v_code v) (JsString.toUpperCase "test1234")
                             && v_is_active v)%bool)
                  (vouchers (with_clock demo_one_client 2000)) = Some v
             /\ sql_lt_opt (v_expires_at v) 2000 = false
             /\ exists s,
                 find (fun s => (opt_Z_eqb (s_voucher_id s) (v_id v)
                                 && String.eqb (s_mac_address s)
                                      (AuthService.normalizeMacAddress
                                         (Some "AA-BB-CC-DD-EE-01"))
                                 && s_is_active s)%bool)
                      (sessions (with_clock demo_one_client 2000)) = Some s).
  { eexists. split; [vm_compute; reflexivity|]. split; [reflexivity|].
    eexists. vm_compute. reflexivity. }
  destruct Hv as (v & Hv & Hexp & s & Hs).
  refine (proj1 (proj2 (authenticateWithVoucher_resumes demo_env
                          (with_clock demo_one_client 2000) "test1234"
                          (Some "AA-BB-CC-DD-EE-01") "192.168.4.77" v s Hv Hexp Hs _))).
  intros d Hd. vm_compute in Hd. inversion Hd. reflexivity.
Defined.

(** ** Vouchers taken out of service *)

(** X11. A deactivated voucher admits nobody.  After
    [deactivateVoucher(id)], an authentication with the code of that
    voucher (in any case of letters) is refused as "Invalid voucher code",
    also for a device that holds a session under the voucher; the sessions
    opened under it before are left as they are. *)
Theorem deactivated_voucher_is_refused :
  forall (env : Env) (w : World) (id : Z) (code : string) (mac : option string)
         (ip : string) (t : Z),
    (forall v, In v (vouchers w) -> v_code v = JsString.toUpperCase code -> v_id v = id) ->
    let w' := with_clock (snd (VoucherService.deactivateVoucher id w)) t in
    fst (AuthService.authenticateWithVoucher env code mac ip w')
    = AuthFailed "Invalid voucher code"
    /\ sessions w' = sessions w
    /\ sessions (snd (AuthService.authenticateWithVoucher env code mac ip w')) = sessions w.
Proof.
  intros env w id code mac ip t Hcode w'.
  assert (Hfind : find (fun v => (String.eqb (v_code v) (JsString.toUpperCase code)
                                  && v_is_active v)%bool) (vouchers w') = None).
  { destruct (find _ _) as [v|] eqn:Ef; [exfalso|reflexivity].
    destruct (find_some _ _ Ef) as [Hin Hv]. apply andb_true_iff in Hv.
    destruct Hv as [Hc Ha]. apply String.eqb_eq in Hc.
    subst w'. cbn in Hin. unfold update_where in Hin. apply in_map_iff in Hin.
    destruct Hin as (v0 & Hv0 & Hin0). destruct (v_id v0 =? id) eqn:E.
    - subst v. discriminate Ha.
    - subst v0. rewrite (Hcode v Hin0 Hc), Z.eqb_refl in E. discriminate. }
  assert (Hrun : AuthService.authenticateWithVoucher env code mac ip w'
                 = (AuthFailed "Invalid voucher code",
                    snd (Logging.authFailure (AuthService.normalizeMacAddress mac) ip
                           "Invalid voucher code" w'))).
  { unfold AuthService.authenticateWithVoucher. rewrite bind_run. cbn [gets fst snd].
    rewrite Hfind. now rewrite bind_run. }
  rewrite Hrun. cbn [fst snd]. split; [reflexivity|]. split; [reflexivity|].
  now rewrite (authFailure_frame sessions (fun _ _ => eq_refl)).
Qed.

(** In the small deployment the code TEST1234 belongs to voucher 1. *)
Lemma demo_voucher_code :
  forall v, In v (vouchers demo_one_client) ->
            v_code v = JsString.toUpperCase "test1234" -> v_id v = 1.
Proof.
  assert (Hvs : map (fun v => (v_code v, v_id v)) (vouchers demo_one_client)
                = [("TEST1234", 1); ("DEMO5678", 2); ("WIFI2024", 3)])
    by (vm_compute; reflexivity).
  assert (Hup : JsString.toUpperCase "test1234" = "TEST1234") by (vm_compute; reflexivity).
  intros v Hin Hc. rewrite Hup in Hc.
  apply (in_map (fun v => (v_code v, v_id v))) in Hin. rewrite Hvs, Hc in Hin.
  destruct Hin as [H|[H|[H|[]]]]; inversion H; reflexivity.
Qed.

Lemma deactivated_voucher_is_refused_witness :
  fst (AuthService.authenticateWithVoucher demo_env "test1234"
         (Some "AA-BB-CC-DD-EE-01") "192.168.4.10"
         (with_clock (snd (VoucherService.deactivateVoucher 1 demo_one_client)) 2000))
  = AuthFailed "Invalid voucher code".
Proof.
  exact (proj1 (deactivated_voucher_is_refused demo_env demo_one_client 1 "test1234"
                  (Some "AA-BB-CC-DD-EE-01") "192.168.4.10" 2000 demo_voucher_code)).
Defined.

(** ** Extending a session *)

Section Extend.
Import SessionService.

Lemma find_update_where {R} (sel : R -> bool) (f : R -> R) (rows : list R) (r : R) :
  (forall x, sel (f x) = sel x) ->
  find sel rows = Some r -> find sel (update_where sel f rows) = Some (f r).
Proof.
  intros Hsel. induction rows as [|x rows IH]; [discriminate|]. simpl.
  destruct (sel x) eqn:E.
  - intros Hx. inversion Hx; subst x. now rewrite Hsel, E.
  - rewrite E. exact IH.
Qed.

Lemma update_where_twice {R} (sel : R -> bool) (f g : R -> R) (rows : list R) :
  (forall x, sel (f x) = sel x) -> (forall x, g (f x) = g x) ->
  update_where sel g (update_where sel f rows) = update_where sel g rows.
Proof.
  intros Hsel Hg. unfold update_where. rewrite map_map. apply map_ext.
  intros x. destruct (sel x) eqn:E; [now rewrite Hsel, E, Hg | now rewrite E].
Qed.

(** The instants a [Date] holds. *)
Definition time_value (t : Z) : Prop := - JsDate.maxTime <= t <= JsDate.maxTime.

Lemma valid_time_value t : JsDate.valid t = true <-> time_value t.
Proof.
  unfold JsDate.valid, time_value. rewrite andb_true_iff, !Z.leb_le. reflexivity.
Qed.

Lemma extendSession_run sid h w s :
  find (fun s => s_id s =? sid) (sessions w) = Some s ->
  time_value (s_expires_at s + h * 60 * 60 * 1000) ->
  extendSession sid h w
  = (Returns (Some (s_expires_at s + h * 60 * 60 * 1000)),
     with_bindings
       (with_sessions w
          (update_where (fun x => s_id x =? sid)
             (set_session_expiry (s_expires_at s + h * 60 * 60 * 1000)) (sessions w))
          (seq_sessions w))
       (update_where (fun b => opt_Z_eqb (b_session_id b) sid)
          (set_binding_expiry (s_expires_at s + h * 60 * 60 * 1000)) (mac_ip_bindings w))
       (seq_bindings w)).
Proof.
  intros Hf Hv. apply valid_time_value in Hv.
  unfold extendSession, SessionFirewall.find_session.
  rewrite bind_run. cbn [gets fst snd]. rewrite Hf. cbv zeta. rewrite Hv. reflexivity.
Qed.

Lemma extendSession_throws sid h w s :
  find (fun s => s_id s =? sid) (sessions w) = Some s ->
  ~ time_value (s_expires_at s + h * 60 * 60 * 1000) ->
  extendSession sid h w = (Throws, w).
Proof.
  intros Hf Hv. unfold extendSession, SessionFirewall.find_session.
  rewrite bind_run. cbn [gets fst snd]. rewrite Hf. cbv zeta.
  destruct (JsDate.valid _) eqn:E; [|reflexivity].
  apply valid_time_value in E. contradiction.
Qed.

End Extend.

(** X12. [extendSession(id, hours)], for a whole number of hours.  For an
    id no session row carries, nothing changes.  Otherwise the new expiry
    is the old one plus [hours] hours.  When that is not an instant a
    [Date] holds (beyond 8.64e15 ms on either side of the epoch), the call
    throws and nothing is written.  When it is, it is written to the
    session rows of that id and to every binding the session owns, so
    that the two expire together; other sessions, the ledger and the
    enforcer are left alone; whether the session is still ACTIVE is not
    looked at; and a second extension that stays within the range amounts,
    with the first, to one extension by the sum of the hours. *)
Theorem extendSession_moves_expiry :
  forall (w : World) (sid h : Z),
    let r := SessionService.extendSession sid h w in
    (find (fun s => s_id s =? sid) (sessions w) = None -> r = (Returns None, w))
    /\ (forall s, find (fun s => s_id s =? sid) (sessions w) = Some s ->
          let e := s_expires_at s + h * 3600000 in
          (~ time_value e -> r = (Throws, w))
          /\ (time_value e ->
              fst r = Returns (Some e)
              /\ (forall x, In x (sessions (snd r)) -> s_id x = sid -> s_expires_at x = e)
              /\ (forall b, In b (mac_ip_bindings (snd r)) -> b_session_id b = Some sid ->
                            b_expires_at b = Some e)
              /\ (forall x, In x (sessions w) -> s_id x <> sid -> In x (sessions (snd r)))
              /\ map s_is_active (sessions (snd r)) = map s_is_active (sessions w)
              /\ firewall_rules (snd r) = firewall_rules w
              /\ trace (snd r) = trace w
              /\ (forall h2,
                     time_value (e + h2 * 3600000) ->
                     SessionService.extendSession sid h2 (snd r)
                     = (Returns (Some (e + h2 * 3600000)),
                        snd (SessionService.extendSession sid (h + h2) w))))).
Proof.
  intros w sid h r. subst r. split.
  - intros Hf. unfold SessionService.extendSession, SessionFirewall.find_session.
    rewrite bind_run. cbn [gets fst snd]. now rewrite Hf.
  - intros s Hf e.
    assert (He : s_expires_at s + h * 60 * 60 * 1000 = e) by (subst e; lia).
    split.
    { intros Hv. apply (extendSession_throws sid h w s Hf). now rewrite He. }
    intros Hv.
    rewrite (extendSession_run sid h w s Hf) by now rewrite He.
    rewrite He. cbn [fst snd].
    split; [reflexivity|]. split; [|split; [|split; [|split; [|split; [|split]]]]].
    + intros x Hin Hx. cbn in Hin. unfold update_where in Hin. apply in_map_iff in Hin.
      destruct Hin as (x0 & Hx0 & _). destruct (s_id x0 =? sid) eqn:E.
      * now subst x.
      * subst x0. rewrite Hx, Z.eqb_refl in E. discriminate.
    + intros b Hin Hb. cbn in Hin. unfold update_where in Hin. apply in_map_iff in Hin.
      destruct Hin as (b0 & Hb0 & _). destruct (opt_Z_eqb (b_session_id b0) sid) eqn:E.
      * now subst b.
      * subst b0. rewrite Hb in E. cbn in E. rewrite Z.eqb_refl in E. discriminate.
    + intros x Hin Hx. cbn. apply update_where_kept; [exact Hin | now apply Z.eqb_neq].
    + cbn. unfold update_where. rewrite map_map. apply map_ext.
      intros x. now destruct (s_id x =? sid).
    + reflexivity.
    + reflexivity.
    + intros h2 Hv2.
      assert (Hf2 : find (fun s => s_id s =? sid)
                      (sessions
                         (with_bindings
                            (with_sessions w
                               (update_where (fun x => s_id x =? sid)
                                  (SessionService.set_session_expiry e) (sessions w))
                               (seq_sessions w))
                            (update_where (fun b => opt_Z_eqb (b_session_id b) sid)
                               (SessionService.set_binding_expiry e) (mac_ip_bindings w))
                            (seq_bindings w)))
                    = Some (SessionService.set_session_expiry e s)).
      { cbn. apply find_update_where; [reflexivity | exact Hf]. }
      assert (E2 : s_expires_at (SessionService.set_session_expiry e s) + h2 * 60 * 60 * 1000
                   = e + h2 * 3600000) by (cbn; lia).
      assert (E3 : s_expires_at s + (h + h2) * 60 * 60 * 1000 = e + h2 * 3600000)
        by (subst e; lia).
      rewrite (extendSession_run sid h2 _ _ Hf2) by now rewrite E2.
      rewrite (extendSession_run sid (h + h2) w s Hf) by now rewrite E3.
      rewrite E2, E3.
      cbn [fst snd sessions mac_ip_bindings seq_sessions seq_bindings with_bindings
           with_sessions].
      rewrite !update_where_twice by reflexivity.
      reflexivity.
Qed.

Lemma extendSession_moves_expiry_witness :
  fst (SessionService.extendSession 1 2 demo_one_client) = Returns (Some 21601000).
Proof.
  assert (Hs : exists s, find (fun s => s_id s =? 1) (sessions demo_one_client) = Some s
                         /\ s_expires_at s = 14401000).
  { eexists. split; [vm_compute; reflexivity | reflexivity]. }
  destruct Hs as (s & Hs & He).
  pose proof (proj2 (proj2 (extendSession_moves_expiry demo_one_client 1 2) s Hs)) as H.
  cbv zeta in H. rewrite He in H.
  assert (Hv : time_value (14401000 + 2 * 3600000))
    by (unfold time_value, JsDate.maxTime; lia).
  exact (proj1 (H Hv)).
Defined.

(** ** Blocking and unblocking a device *)

Section BlockDevice.
Import DeviceService.

Lemma blockDevice_run mac reason w d :
  find (fun d => String.eqb (d_mac_address d) mac) (devices w) = Some d ->
  let r := blockDevice mac reason w in
  fst r = true
  /\ devices (snd r)
     = update_where (fun d => String.eqb (d_mac_address d) mac) (block reason) (devices w)
  /\ sessions (snd r)
     = update_where (fun s => (String.eqb (s_mac_address s) mac && s_is_active s)%bool)
                    (SessionService.disconnect (clock w)) (sessions w)
  /\ mac_ip_bindings (snd r)
     = update_where (fun b => String.eqb (b_mac_address b) mac) BindingService.retire
                    (mac_ip_bindings w)
  /\ firewall_rules (snd r) = firewall_rules w
  /\ trace (snd r) = trace w.
Proof.
  intros Hf. cbv zeta. unfold blockDevice. rewrite bind_run. cbn [gets fst snd].
  rewrite Hf. repeat split; reflexivity.
Qed.

End BlockDevice.

(** X13. [blockDevice(MAC)].  For a MAC no device row carries, nothing
    changes and the call fails.  Otherwise every device row of the MAC is
    blocked with the reason given, every session of the MAC is ended and
    every binding of the MAC retired; the rule ledger and the enforcer are
    not touched. *)
Theorem blockDevice_ends_sessions_and_bindings :
  forall (w : World) (mac reason : string),
    let r := DeviceService.blockDevice mac reason w in
    (find (fun d => String.eqb (d_mac_address d) mac) (devices w) = None -> r = (false, w))
    /\ (forall d, find (fun d => String.eqb (d_mac_address d) mac) (devices w) = Some d ->
          fst r = true
          /\ (forall x, In x (devices (snd r)) -> d_mac_address x = mac ->
                        d_is_blocked x = true /\ d_block_reason x = Some reason)
          /\ (forall s, In s (sessions (snd r)) -> s_mac_address s = mac ->
                        s_is_active s = false)
          /\ (forall b, In b (mac_ip_bindings (snd r)) -> b_mac_address b = mac ->
                        b_is_active b = false)
          /\ firewall_rules (snd r) = firewall_rules w
          /\ trace (snd r) = trace w).
Proof.
  intros w mac reason r. subst r. split.
  - intros Hf. unfold DeviceService.blockDevice. rewrite bind_run. cbn [gets fst snd].
    now rewrite Hf.
  - intros d Hf.
    destruct (blockDevice_run mac reason w d Hf) as (Hr & Hd & Hs & Hb & Hl & Ht).
    split; [exact Hr|]. split; [|split; [|split; [|split]]]; try assumption.
    + intros x Hin Hx. rewrite Hd in Hin. unfold update_where in Hin.
      apply in_map_iff in Hin. destruct Hin as (x0 & Hx0 & _).
      destruct (String.eqb (d_mac_address x0) mac) eqn:E.
      * subst x. split; reflexivity.
      * subst x0. rewrite Hx, String.eqb_refl in E. discriminate.
    + intros s Hin Hm. rewrite Hs in Hin. unfold update_where in Hin.
      apply in_map_iff in Hin. destruct Hin as (s0 & Hs0 & _).
      destruct (String.eqb (s_mac_address s0) mac && s_is_active s0)%bool eqn:E.
      * now subst s.
      * subst s0. rewrite Hm, String.eqb_refl in E. exact E.
    + intros b Hin Hm. rewrite Hb in Hin. unfold update_where in Hin.
      apply in_map_iff in Hin. destruct Hin as (b0 & Hb0 & _).
      destruct (String.eqb (b_mac_address b0) mac) eqn:E.
      * now subst b.
      * subst b0. rewrite Hm, String.eqb_refl in E. discriminate.
Qed.

Lemma blockDevice_ends_sessions_and_bindings_witness :
  fst (DeviceService.blockDevice "aa:bb:cc:dd:ee:01" "abuse" demo_one_client) = true.
Proof.
  assert (Hd : exists d, find (fun d => String.eqb (d_mac_address d) "aa:bb:cc:dd:ee:01")
                              (devices demo_one_client) = Some d).
  { eexists. vm_compute. reflexivity. }
  destruct Hd as (d & Hd).
  exact (proj1 (proj2 (blockDevice_ends_sessions_and_bindings demo_one_client
                         "aa:bb:cc:dd:ee:01" "abuse") d Hd)).
Defined.

(** X14. [unblockDevice(MAC)] clears the block on every device row of the
    MAC and reports whether there was such a row.  Run after a successful
    [blockDevice] of a device that was not blocked, it restores the device
    table as it was; the sessions and bindings that the block ended stay
    ended. *)
Theorem unblockDevice_undoes_blockDevice :
  forall (w : World) (mac reason : string),
    (forall d, In d (devices w) -> d_mac_address d = mac ->
               d_is_blocked d = false /\ d_block_reason d = None) ->
    fst (DeviceService.blockDevice mac reason w) = true ->
    let w1 := snd (DeviceService.blockDevice mac reason w) in
    let r := DeviceService.unblockDevice mac w1 in
    fst r = true
    /\ devices (snd r) = devices w
    /\ sessions (snd r) = sessions w1
    /\ mac_ip_bindings (snd r) = mac_ip_bindings w1.
Proof.
  intros w mac reason Hfree Hok w1 r.
  assert (Hf : exists d, find (fun d => String.eqb (d_mac_address d) mac) (devices w)
                         = Some d).
  { unfold DeviceService.blockDevice in Hok. rewrite bind_run in Hok.
    cbn [gets fst snd] in Hok. destruct (find _ (devices w)) as [d|]; [now exists d|].
    discriminate Hok. }
  destruct Hf as (d & Hf).
  destruct (blockDevice_run mac reason w d Hf) as (_ & Hd & _). fold w1 in Hd.
  subst r. unfold DeviceService.unblockDevice. cbn [fst snd devices sessions
    mac_ip_bindings with_devices]. rewrite Hd. split; [|split; [|split]]; try reflexivity.
  - apply Z.ltb_lt. unfold count_where.
    destruct (find_some _ _ Hf) as [Hin Hm].
    assert (Hin' : In (DeviceService.block reason d)
                      (filter (fun d => String.eqb (d_mac_address d) mac)
                         (update_where (fun d => String.eqb (d_mac_address d) mac)
                                       (DeviceService.block reason) (devices w)))).
    { apply filter_In. split; [|exact Hm]. unfold update_where. apply in_map_iff.
      exists d. now rewrite Hm. }
    destruct (filter _ _); [inversion Hin' | cbn; lia].
  - unfold update_where. rewrite map_map. rewrite <- (map_id (devices w)) at 2.
    apply map_ext_in. intros x Hx.
    destruct (String.eqb (d_mac_address x) mac) eqn:E.
    + cbn. rewrite E. apply String.eqb_eq in E.
      destruct (Hfree x Hx E) as [Hb Hr]. destruct x; cbn in *. now subst.
    + now rewrite E.
Qed.

Lemma unblockDevice_undoes_blockDevice_witness :
  devices (snd (DeviceService.unblockDevice "aa:bb:cc:dd:ee:01"
                  (snd (DeviceService.blockDevice "aa:bb:cc:dd:ee:01" "abuse"
                          demo_one_client))))
  = devices demo_one_client.
Proof.
  refine (proj1 (proj2 (unblockDevice_undoes_blockDevice demo_one_client
                          "aa:bb:cc:dd:ee:01" "abuse" _ _))).
  - assert (Hds : map (fun d => (d_is_blocked d, d_block_reason d)) (devices demo_one_client)
                  = [(false, None)]) by (vm_compute; reflexivity).
    intros d Hin _. apply (in_map (fun d => (d_is_blocked d, d_block_reason d))) in Hin.
    rewrite Hds in Hin. destruct Hin as [H|[]]. inversion H. auto.
  - vm_compute. reflexivity.
Defined.

(** ** The database service's cleanup *)

Section DatabaseCleanup.

Lemma databaseCleanup_run w :
  let now := clock w in
  let stale (s : Session) := (s_is_active s && sql_text_lt (s_expires_at s) now)%bool in
  let ss := update_where stale (SessionService.disconnect now) (sessions w) in
  let r := DatabaseService.cleanupExpiredSessions w in
  fst r = count_where stale (sessions w)
  /\ sessions (snd r) = ss
  /\ mac_ip_bindings (snd r)
     = update_where (fun b => (b_is_active b && sql_text_lt_opt (b_expires_at b) now)%bool)
                    BindingService.retire (mac_ip_bindings w)
  /\ firewall_rules (snd r)
     = update_where
         (fun r => (r_is_active r
                    && existsb (fun s => opt_Z_eqb (r_session_id r) (s_id s)
                                         && negb (s_is_active s)) ss)%bool)
         (fun r => removed r now) (firewall_rules w)
  /\ trace (snd r) = trace w.
Proof. cbv zeta. repeat split; reflexivity. Qed.

End DatabaseCleanup.

(** X15. The database service's [cleanupExpiredSessions] leaves the
    comparison of [expires_at] with the current time to the database,
    which compares the two ISO strings.  While the clock shows a year
    from 0000 to 9999, it ends exactly the ACTIVE sessions whose expiry is
    earlier than the current time or lies past the year 9999 (written
    [+YYYYYY-...], which sorts before every four-digit year) and returns
    their number; afterwards no ACTIVE session and no ACTIVE binding is
    past its expiry, and no ledger row of a session that is inactive, for
    whatever reason, is still APPLIED.  It writes to the tables only: the
    enforcer is not asked to remove anything. *)
Theorem databaseCleanup_ends_expired_sessions :
  forall w : World,
    plain_year (clock w) ->
    let now := clock w in
    let stale (s : Session) :=
      (s_is_active s
       && ((s_expires_at s <? now) || (firstExpanded <=? s_expires_at s)))%bool in
    let r := DatabaseService.cleanupExpiredSessions w in
    fst r = Z.of_nat (matching stale (sessions w))
    /\ (forall s, In s (sessions (snd r)) -> s_is_active s = true ->
                  now <= s_expires_at s < firstExpanded)
    /\ (forall s, In s (sessions w) -> stale s = false -> In s (sessions (snd r)))
    /\ (forall b, In b (mac_ip_bindings (snd r)) -> b_is_active b = true ->
                  forall e, b_expires_at b = Some e -> now <= e < firstExpanded)
    /\ (forall s rule, In s (sessions (snd r)) -> s_is_active s = false ->
                       In rule (firewall_rules (snd r)) ->
                       applied_for (s_id s) rule = false)
    /\ trace (snd r) = trace w.
Proof.
  intros w Hclock now stale r.
  destruct (databaseCleanup_run w) as (Hc & Hs & Hb & Hl & Ht).
  fold now in Hc, Hs, Hb, Hl. fold r in Hc, Hs, Hb, Hl, Ht.
  assert (Hstale : forall s, (s_is_active s && sql_text_lt (s_expires_at s) now)%bool
                             = stale s).
  { intros s. subst stale now. cbv beta. now rewrite (sql_text_lt_plain _ _ Hclock). }
  split; [|split; [|split; [|split; [|split]]]]; try assumption.
  - rewrite Hc. now rewrite (count_where_ext _ _ _ Hstale).
  - intros s Hin Ha. rewrite Hs in Hin. unfold update_where in Hin.
    apply in_map_iff in Hin. destruct Hin as (s0 & Hs0 & _).
    rewrite Hstale in Hs0. destruct (stale s0) eqn:E.
    + subst s. discriminate Ha.
    + subst s0. subst stale. cbv beta in E. rewrite Ha in E. cbn [andb] in E.
      apply orb_false_iff in E. destruct E as [H1 H2].
      apply Z.ltb_ge in H1. apply Z.leb_gt in H2. lia.
  - intros s Hin Hn. rewrite Hs. apply update_where_kept; [exact Hin|].
    now rewrite Hstale.
  - intros b Hin Ha e He. rewrite Hb in Hin. unfold update_where in Hin.
    apply in_map_iff in Hin. destruct Hin as (b0 & Hb0 & _).
    destruct (b_is_active b0 && sql_text_lt_opt (b_expires_at b0) now)%bool eqn:E.
    + subst b. discriminate Ha.
    + subst b0. rewrite Ha, He in E. cbn [andb sql_text_lt_opt] in E.
      subst now. rewrite (sql_text_lt_plain _ _ Hclock) in E.
      apply orb_false_iff in E. destruct E as [H1 H2].
      apply Z.ltb_ge in H1. apply Z.leb_gt in H2. lia.
  - intros s rule Hin Ha Hr. rewrite Hl in Hr. unfold update_where in Hr.
    apply in_map_iff in Hr. destruct Hr as (r0 & Hr0 & _).
    match type of Hr0 with
    | (if ?c then _ else _) = _ => destruct c eqn:E
    end.
    + subst rule. unfold applied_for. cbn. apply andb_false_r.
    + subst r0. unfold applied_for.
      destruct (opt_Z_eqb (r_session_id rule) (s_id s)) eqn:Eid; [|reflexivity].
      destruct (r_is_active rule) eqn:Er; [|reflexivity]. exfalso.
      unfold update_where in Hs. rewrite <- Hs in E.
      assert (Hex : existsb (fun s0 => opt_Z_eqb (r_session_id rule) (s_id s0)
                                       && negb (s_is_active s0)) (sessions (snd r)) = true).
      { apply existsb_exists. exists s. split; [exact Hin|]. now rewrite Eid, Ha. }
      rewrite Hex in E. discriminate E.
Qed.

(** The first client's session, looked at after it has expired. *)
Lemma databaseCleanup_ends_expired_sessions_witness :
  fst (DatabaseService.cleanupExpiredSessions (with_clock demo_one_client 20000000)) = 1.
Proof.
  assert (Hn : matching (fun s => (s_is_active s
                                   && ((s_expires_at s <? 20000000)
                                       || (firstExpanded <=? s_expires_at s)))%bool)
                        (sessions (with_clock demo_one_client 20000000)) = 1%nat)
    by (vm_compute; reflexivity).
  pose proof (proj1 (databaseCleanup_ends_expired_sessions
                       (with_clock demo_one_client 20000000) demo_clock_plain)) as H.
  cbv zeta in H. change (clock (with_clock demo_one_client 20000000)) with 20000000 in H.
  rewrite Hn in H. exact H.
Defined.

(** ** The rule engine's cleanup cycle, run twice *)

Section CleanupTwice.
Variable env : Env.

Lemma ruleCleanup_sessions : along (same sessions) (RuleEngine.cleanupExpiredSessions env).
Proof. frame_auto. Qed.

Lemma ruleCleanup_clock : along (same clock) (RuleEngine.cleanupExpiredSessions env).
Proof. frame_auto. Qed.

Lemma ruleCleanup_tame_rules : along tame_rules (RuleEngine.cleanupExpiredSessions env).
Proof. tame_rules_auto. Qed.

(** An APPLIED row after retractions is an APPLIED row from before. *)
Lemma tame_applied_before sid w w' :
  tame_rules w w' ->
  existsb (applied_for sid) (firewall_rules w') = true ->
  existsb (applied_for sid) (firewall_rules w) = true.
Proof.
  unfold tame_rules. intros Ht Hex. apply existsb_exists in Hex.
  destruct Hex as (r' & Hin & Ha). apply existsb_exists.
  destruct (Forall2_In_r _ _ _ _ Ht Hin) as (r & Hr & _ & Heq).
  exists r. split; [exact Hr|].
  assert (Hact : r_is_active r' = true).
  { unfold applied_for in Ha. now apply andb_true_iff in Ha. }
  now rewrite <- (Heq Hact).
Qed.

End CleanupTwice.

(** X16. A cleanup cycle of the rule engine changes no session row: the
    sessions it revokes keep [is_active] as it was.  And it leaves nothing
    for a second cycle at the same instant, which finds no session to
    revoke and returns at once with [cleaned = 0], without looking at the
    bindings and without changing anything. *)
Theorem ruleCleanup_leaves_nothing_to_clean :
  forall (env : Env) (w : World),
    let r := RuleEngine.cleanupExpiredSessions env w in
    sessions (snd r) = sessions w
    /\ RuleEngine.cleanupExpiredSessions env (snd r)
       = ({| RuleEngine.cleaned := 0; RuleEngine.bindingsCleaned := None;
             RuleEngine.cleaned_sessions := [] |}, snd r).
Proof.
  intros env w r.
  pose proof (ruleCleanup_sessions env w) as Hs. unfold same in Hs. fold r in Hs.
  pose proof (ruleCleanup_clock env w) as Hc. unfold same in Hc. fold r in Hc.
  pose proof (ruleCleanup_tame_rules env w) as Ht. fold r in Ht.
  destruct (cleanupExpiredSessions_run env w) as [_ Hret]. fold r in Hret.
  split; [exact Hs|].
  assert (Hnone : RuleEngine.expired_with_active_rules (clock (snd r)) (snd r) = []).
  { destruct (RuleEngine.expired_with_active_rules (clock (snd r)) (snd r))
      as [|x rest] eqn:Ef; [reflexivity|exfalso].
    assert (Hin : In x (RuleEngine.expired_with_active_rules (clock (snd r)) (snd r)))
      by (rewrite Ef; now left).
    apply expired_with_active_rules_In in Hin.
    destruct Hin as (s & Hin & -> & Hexp & rule & Hr & Ha).
    rewrite Hs in Hin. rewrite Hc in Hexp.
    assert (Hex : existsb (applied_for (s_id s)) (firewall_rules (snd r)) = true)
      by (apply existsb_exists; now exists rule).
    apply (tame_applied_before (s_id s) w (snd r) Ht) in Hex.
    apply existsb_exists in Hex. destruct Hex as (rule0 & Hr0 & Ha0).
    assert (Hbefore : In (s_id s, s_mac_address s, s_ip_address s)
                         (RuleEngine.expired_with_active_rules (clock w) w)).
    { apply expired_with_active_rules_In. exists s. repeat split; auto.
      now exists rule0. }
    specialize (Hret _ Hbefore). cbn [fst snd] in Hret.
    rewrite (Hret rule Hr) in Ha. discriminate Ha. }
  unfold RuleEngine.cleanupExpiredSessions at 1.
  rewrite bind_run, bind_run. cbn [date_now gets fst snd]. now rewrite Hnone.
Qed.

(** ** What the rule engine asks of the enforcer *)

(** The commands handed to the enforcer, in order. *)
Fixpoint enforcer_commands (tr : list Effect) : list string :=
  match tr with
  | [] => []
  | EnforcerCall fullCommand _ _ :: rest => fullCommand :: enforcer_commands rest
  | _ :: rest => enforcer_commands rest
  end.

(** [issues c cmds]: running [c] hands exactly [cmds] to the enforcer. *)
Definition issues {A} (c : M A) (cmds : list string) : Prop :=
  forall w,
    enforcer_commands (trace (snd (c w))) = (enforcer_commands (trace w) ++ cmds)%list.

Section Issues.

Lemma enforcer_commands_app t1 t2 :
  enforcer_commands (t1 ++ t2) = (enforcer_commands t1 ++ enforcer_commands t2)%list.
Proof.
  induction t1 as [|e t1 IH]; [reflexivity|]. destruct e; simpl; now rewrite IH.
Qed.

Lemma issues_ret {A} (a : A) : issues (ret a) [].
Proof. intros w. cbn. now rewrite app_nil_r. Qed.

Lemma issues_silent {A} (c : M A) : along (same trace) c -> issues c [].
Proof. intros Hc w. rewrite (Hc w). now rewrite app_nil_r. Qed.

Lemma issues_bind {A B} (c : M A) (k : A -> M B) a b :
  issues c a -> (forall x, issues (k x) b) -> issues (bind c k) (a ++ b).
Proof.
  intros Hc Hk w. rewrite bind_run, Hk, Hc. now rewrite app_assoc.
Qed.

Lemma issues_forM {A B} (xs : list A) (body : A -> M B) (g : A -> list string) :
  (forall x, issues (body x) (g x)) -> issues (forM xs body) (flat_map g xs).
Proof.
  intros Hb. induction xs as [|x xs IH]; cbn [forM flat_map].
  - apply issues_ret.
  - rewrite <- (app_nil_r (flat_map g xs)).
    apply issues_bind; [apply Hb|]. intros y.
    apply issues_bind; [exact IH|]. intros ys. apply issues_ret.
Qed.

Lemma issues_as {A} (c : M A) a b : a = b -> issues c a -> issues c b.
Proof. now intros ->. Qed.

Lemma flat_map_singleton {A B} (f : A -> B) (l : list A) :
  flat_map (fun x => [f x]) l = map f l.
Proof. induction l as [|x l IH]; [reflexivity|]. simpl. now rewrite IH. Qed.

Lemma flat_map_map_inner {A B C} (f : B -> C) (g : A -> list B) (l : list A) :
  flat_map (fun x => map f (g x)) l = map f (flat_map g l).
Proof.
  induction l as [|x l IH]; [reflexivity|]. simpl. now rewrite IH, map_app.
Qed.

Variable env : Env.

Lemma iptables_executeCommand_issues cmd desc :
  issues (IptablesService.executeCommand env cmd desc) ["iptables " ++ cmd].
Proof.
  intros w. destruct (iptables_executeCommand_effect env cmd desc w) as (s & o & Ht & _).
  rewrite Ht, enforcer_commands_app. reflexivity.
Qed.

Lemma ebtables_executeCommand_issues cmd desc :
  issues (EbtablesService.executeCommand env cmd desc) ["ebtables " ++ cmd].
Proof.
  intros w. destruct (ebtables_executeCommand_effect env cmd desc w) as (s & o & Ht & _).
  rewrite Ht, enforcer_commands_app. reflexivity.
Qed.

Lemma iptables_storeRule_issues ty action cmd mac ip sid :
  issues (IptablesService.storeRule env ty action cmd mac ip sid) [].
Proof.
  intros w. unfold IptablesService.storeRule. destruct (session_exists w sid); cbn.
  - rewrite enforcer_commands_app. reflexivity.
  - now rewrite app_nil_r.
Qed.

Lemma ebtables_storeRule_issues ty action cmd mac ip sid :
  issues (EbtablesService.storeRule env ty action cmd mac ip sid) [].
Proof.
  intros w. unfold EbtablesService.storeRule. destruct (session_exists w sid); cbn.
  - rewrite enforcer_commands_app. reflexivity.
  - now rewrite app_nil_r.
Qed.

Lemma iptables_markRulesRemoved_issues sid :
  issues (IptablesService.markRulesRemoved sid) [].
Proof.
  intros w. unfold IptablesService.markRulesRemoved, bind, date_now, gets, modify, emit.
  cbn. rewrite enforcer_commands_app. reflexivity.
Qed.

Lemma ebtables_markRulesRemoved_issues sid ty :
  issues (EbtablesService.markRulesRemoved sid ty) [].
Proof.
  intros w. unfold EbtablesService.markRulesRemoved, bind, date_now, gets, modify, emit.
  cbn. rewrite enforcer_commands_app. reflexivity.
Qed.

(** The loops of the two services. *)
Lemma apply_loop_issues (tool : string) (rules : list Rule)
    (exec : string -> string -> M CommandResult) (store : string -> M unit) :
  (forall cmd desc, issues (exec cmd desc) [tool ++ cmd]) ->
  (forall cmd, issues (store cmd) []) ->
  issues (forM rules (fun rule =>
            forM (commands rule) (fun cmd =>
              result <- exec cmd (description rule) ;;
              store cmd ;;;
              ret result)))
         (map (String.append tool) (flat_map commands rules)).
Proof.
  intros Hexec Hstore.
  apply (issues_as _ (flat_map (fun rule => map (String.append tool) (commands rule)) rules));
    [apply flat_map_map_inner|].
  apply issues_forM. intros rule.
  apply (issues_as _ (flat_map (fun cmd => [tool ++ cmd]) (commands rule)));
    [apply flat_map_singleton|].
  apply issues_forM. intros cmd.
  apply (issues_bind _ _ [tool ++ cmd] []); [apply Hexec|]. intros result.
  apply (issues_bind _ _ [] []); [apply Hstore|]. intros _. apply issues_ret.
Qed.

Lemma remove_loop_issues (tool : string) (rules : list Rule)
    (exec : string -> string -> M CommandResult) :
  (forall cmd desc, issues (exec cmd desc) [tool ++ cmd]) ->
  issues (forM rules (fun rule =>
            forM (removeCommands rule) (fun cmd =>
              exec cmd ("Remove: " ++ description rule))))
         (map (String.append tool) (flat_map removeCommands rules)).
Proof.
  intros Hexec.
  apply (issues_as _ (flat_map (fun rule => map (String.append tool) (removeCommands rule))
                               rules));
    [apply flat_map_map_inner|].
  apply issues_forM. intros rule.
  apply (issues_as _ (flat_map (fun cmd => [tool ++ cmd]) (removeCommands rule)));
    [apply flat_map_singleton|].
  apply issues_forM. intros cmd. apply Hexec.
Qed.

Lemma one_rule_issues (cmds : list string) (desc : string) :
  issues (forM cmds (fun cmd => IptablesService.executeCommand env cmd desc))
         (map (String.append "iptables ") cmds).
Proof.
  apply (issues_as _ (flat_map (fun cmd => ["iptables " ++ cmd]) cmds));
    [apply flat_map_singleton|].
  apply issues_forM. intros cmd. apply iptables_executeCommand_issues.
Qed.

Lemma logEvent_issues cat ty mac ip uid sid details sev :
  issues (Logging.logEvent cat ty mac ip uid sid details sev) [].
Proof. apply issues_silent. apply (logEvent_events trace). reflexivity. Qed.

Lemma applyAuthenticatedRules_issues mac ip sid :
  issues (IptablesService.applyAuthenticatedRules env mac ip sid)
         (map (String.append "iptables ")
              (flat_map commands (IptablesService.clientRules env mac ip))).
Proof.
  unfold IptablesService.applyAuthenticatedRules.
  rewrite <- (app_nil_r (map _ _)). apply issues_bind; [|intros; apply issues_ret].
  apply (apply_loop_issues "iptables " _ (IptablesService.executeCommand env)
           (fun cmd => IptablesService.storeRule env "iptables" "ALLOW" cmd mac ip sid)).
  - apply iptables_executeCommand_issues.
  - intros cmd. apply iptables_storeRule_issues.
Qed.

Lemma applyClientIsolation_issues mac ip sid :
  issues (EbtablesService.applyClientIsolation env mac ip sid)
         (map (String.append "ebtables ")
              (flat_map commands (EbtablesService.clientRules env mac ip))).
Proof.
  unfold EbtablesService.applyClientIsolation.
  rewrite <- (app_nil_r (map _ _)). apply issues_bind; [|intros; apply issues_ret].
  apply (apply_loop_issues "ebtables " _ (EbtablesService.executeCommand env)
           (fun cmd => EbtablesService.storeRule env "ebtables" "ISOLATION" cmd mac ip sid)).
  - apply ebtables_executeCommand_issues.
  - intros cmd. apply ebtables_storeRule_issues.
Qed.

Lemma removeClientRules_issues mac ip sid :
  issues (IptablesService.removeClientRules env mac ip sid)
         (map (String.append "iptables ")
              (flat_map removeCommands (IptablesService.clientRules env mac ip))).
Proof.
  unfold IptablesService.removeClientRules.
  rewrite <- (app_nil_r (map _ _)).
  apply issues_bind;
    [apply (remove_loop_issues "iptables " _ (IptablesService.executeCommand env)),
       iptables_executeCommand_issues|].
  intros nested. cbv zeta.
  apply (issues_bind _ _ [] []); [apply iptables_markRulesRemoved_issues|]. intros _.
  apply (issues_bind _ _ [] []); [apply logEvent_issues|]. intros _. apply issues_ret.
Qed.

Lemma removeClientIsolation_issues mac ip sid :
  issues (EbtablesService.removeClientIsolation env mac ip sid)
         (map (String.append "ebtables ")
              (flat_map removeCommands (EbtablesService.clientRules env mac ip))).
Proof.
  unfold EbtablesService.removeClientIsolation.
  rewrite <- (app_nil_r (map _ _)).
  apply issues_bind;
    [apply (remove_loop_issues "ebtables " _ (EbtablesService.executeCommand env)),
       ebtables_executeCommand_issues|].
  intros nested. cbv zeta.
  apply (issues_bind _ _ [] []); [apply ebtables_markRulesRemoved_issues|]. intros _.
  apply (issues_bind _ _ [] []); [apply logEvent_issues|]. intros _. apply issues_ret.
Qed.

Lemma applyPortalRedirect_issues mac :
  issues (IptablesService.applyPortalRedirect env mac)
         (map (String.append "iptables ")
              (commands (IptablesService.generatePortalRedirectRule env mac))).
Proof.
  unfold IptablesService.applyPortalRedirect. cbv zeta.
  rewrite <- (app_nil_r (map _ _)). apply issues_bind; [|intros; apply issues_ret].
  apply one_rule_issues.
Qed.

Lemma removePortalRedirect_issues mac :
  issues (IptablesService.removePortalRedirect env mac)
         (map (String.append "iptables ")
              (removeCommands (IptablesService.generatePortalRedirectRule env mac))).
Proof.
  unfold IptablesService.removePortalRedirect. cbv zeta.
  rewrite <- (app_nil_r (map _ _)). apply issues_bind; [|intros; apply issues_ret].
  apply one_rule_issues.
Qed.

Lemma createBinding_silent mac ip sid exp :
  along (same trace) (BindingService.createBinding mac ip sid exp).
Proof. frame_auto. Qed.

Lemma removeBindingBySession_silent sid :
  along (same trace) (BindingService.removeBindingBySession sid).
Proof. frame_auto. Qed.

End Issues.

Section Mirror.
Variable env : Env.

Lemma createBinding_returns mac ip sid exp w nm :
  BindingService.normalizeMac mac = Returns nm ->
  exists res, fst (BindingService.createBinding mac ip sid exp w) = Returns res.
Proof.
  intros Hn. pose proof (createBinding_bindings mac ip sid exp w nm Hn) as Hb.
  cbv zeta in Hb. destruct nm as [m|]; [destruct (fk_session w sid)|];
    destruct Hb as [Hr _]; eexists; exact Hr.
Qed.

Lemma grantClientAccess_issues sd w nm :
  BindingService.normalizeMac (Some (macAddress sd)) = Returns nm ->
  enforcer_commands (trace (snd (RuleEngine.grantClientAccess env sd w)))
  = (enforcer_commands (trace w)
     ++ map (String.append "iptables ")
            (removeCommands (IptablesService.generatePortalRedirectRule env (macAddress sd)))
     ++ map (String.append "iptables ")
            (flat_map commands
               (IptablesService.clientRules env (macAddress sd) (ipAddress sd)))
     ++ map (String.append "ebtables ")
            (flat_map commands
               (EbtablesService.clientRules env (macAddress sd) (ipAddress sd))))%list.
Proof.
  intros Hn. unfold RuleEngine.grantClientAccess. cbv zeta. rewrite bind_run.
  destruct (createBinding_returns (Some (macAddress sd)) (ipAddress sd)
              (Some (sessionId sd)) (expiresAt sd) w nm Hn) as (res & Hres).
  rewrite Hres.
  rewrite <- (createBinding_silent (Some (macAddress sd)) (ipAddress sd)
                (Some (sessionId sd)) (expiresAt sd) w).
  match goal with
  | |- enforcer_commands (trace (snd (?c ?w1))) = _ =>
      enough (Hc : issues c
                     (map (String.append "iptables ")
                          (removeCommands
                             (IptablesService.generatePortalRedirectRule env (macAddress sd)))
                      ++ map (String.append "iptables ")
                             (flat_map commands
                                (IptablesService.clientRules env (macAddress sd)
                                                             (ipAddress sd)))
                      ++ map (String.append "ebtables ")
                             (flat_map commands
                                (EbtablesService.clientRules env (macAddress sd)
                                                             (ipAddress sd)))
                      ++ [])%list)
        by (rewrite (Hc w1), app_nil_r; reflexivity)
  end.
  apply issues_bind; [apply removePortalRedirect_issues|]. intros redirectResult.
  apply issues_bind; [apply applyAuthenticatedRules_issues|]. intros iptablesResult.
  apply issues_bind; [apply applyClientIsolation_issues|]. intros ebtablesResult.
  cbv zeta. apply (issues_bind _ _ [] []); [apply logEvent_issues|]. intros _.
  apply issues_ret.
Qed.

Lemma revokeClientAccess_issues sd :
  issues (RuleEngine.revokeClientAccess env sd)
         (map (String.append "iptables ")
              (flat_map removeCommands
                 (IptablesService.clientRules env (macAddress sd) (ipAddress sd)))
          ++ map (String.append "ebtables ")
                 (flat_map removeCommands
                    (EbtablesService.clientRules env (macAddress sd) (ipAddress sd)))
          ++ map (String.append "iptables ")
                 (commands (IptablesService.generatePortalRedirectRule env (macAddress sd))))%list.
Proof.
  unfold RuleEngine.revokeClientAccess. cbv zeta.
  apply issues_bind; [apply removeClientRules_issues|]. intros iptablesResult.
  apply issues_bind; [apply removeClientIsolation_issues|]. intros ebtablesResult.
  rewrite <- (app_nil_l (map _ (commands _))).
  apply issues_bind; [apply issues_silent, removeBindingBySession_silent|].
  intros removedBindings.
  rewrite <- (app_nil_r (map _ (commands _))).
  apply issues_bind; [apply applyPortalRedirect_issues|]. intros redirectResult.
  apply (issues_bind _ _ [] []); [apply logEvent_issues|]. intros _.
  apply issues_ret.
Qed.

End Mirror.

(** X17. What the enforcer is asked.  A grant hands the enforcer, in this
    order: the remove commands of the MAC's portal redirect, the commands
    of the three iptables rules of the client (allow, binding, DNS) and the
    commands of its two ebtables rules (MAC/IP binding, ARP protection).
    The revoke of the same session data hands it the remove commands of
    those same iptables and ebtables rules, in the same order, and then the
    commands of the portal redirect.  Every one of these commands is
    issued whatever the outcome of the ones before, in simulation as in
    production mode. *)
Theorem revoke_mirrors_grant :
  forall (env : Env) (sd : SessionData) (w : World),
    let mac := macAddress sd in
    let ip := ipAddress sd in
    let iptables := map (String.append "iptables ") in
    let ebtables := map (String.append "ebtables ") in
    let redirect := IptablesService.generatePortalRedirectRule env mac in
    let l3 := IptablesService.clientRules env mac ip in
    let l2 := EbtablesService.clientRules env mac ip in
    (BindingService.normalizeMac (Some mac) <> Throws ->
     enforcer_commands (trace (snd (RuleEngine.grantClientAccess env sd w)))
     = (enforcer_commands (trace w)
        ++ iptables (removeCommands redirect)
        ++ iptables (flat_map commands l3)
        ++ ebtables (flat_map commands l2))%list)
    /\ enforcer_commands (trace (snd (RuleEngine.revokeClientAccess env sd w)))
       = (enforcer_commands (trace w)
          ++ iptables (flat_map removeCommands l3)
          ++ ebtables (flat_map removeCommands l2)
          ++ iptables (commands redirect))%list
    /\ l3 = [ IptablesService.generateAllowRule env mac ip;
              IptablesService.generateBindingRule env mac ip;
              IptablesService.generateDnsAllowRule env mac ]
    /\ l2 = [ EbtablesService.generateMacIpBindingRule env mac ip;
              EbtablesService.generateArpProtectionRule env
                (fc_gateway (config env)) (gateway_mac env) mac ip ].
Proof.
  intros env sd w mac ip iptables ebtables redirect l3 l2. split; [|split; [|split]].
  - intros Hn. destruct (BindingService.normalizeMac (Some mac)) as [nm|] eqn:E;
      [|contradiction]. apply (grantClientAccess_issues env sd w nm E).
  - apply (revokeClientAccess_issues env sd w).
  - reflexivity.
  - reflexivity.
Qed.

Lemma revoke_mirrors_grant_witness :
  List.length
    (enforcer_commands
       (trace (snd (RuleEngine.grantClientAccess demo_env demo_pending_data demo_pending))))
  = 18%nat.
Proof.
  rewrite (proj1 (revoke_mirrors_grant demo_env demo_pending_data demo_pending)
             ltac:(discriminate)).
  reflexivity.
Defined.

(** ** A grant whose commands all succeed *)

(** [yields c P]: whatever the state, the value [c] returns satisfies [P]. *)
Definition yields {A} (c : M A) (P : A -> Prop) : Prop :=
  forall w, P (fst (c w)).

Section Yields.

Lemma yields_ret {A} (a : A) (P : A -> Prop) : P a -> yields (ret a) P.
Proof. intros Ha w. exact Ha. Qed.

Lemma yields_bind {A B} (c : M A) (k : A -> M B) (P : B -> Prop) :
  (forall x, yields (k x) P) -> yields (bind c k) P.
Proof. intros Hk w. rewrite bind_run. apply Hk. Qed.

Lemma yields_bind_with {A B} (c : M A) (k : A -> M B) (Q : A -> Prop) (P : B -> Prop) :
  yields c Q -> (forall x, Q x -> yields (k x) P) -> yields (bind c k) P.
Proof. intros Hc Hk w. rewrite bind_run. apply Hk, Hc. Qed.

Lemma yields_forM {A B} (xs : list A) (body : A -> M B) (P : B -> Prop) :
  (forall x, yields (body x) P) -> yields (forM xs body) (Forall P).
Proof.
  intros Hb. induction xs as [|x xs IH]; cbn [forM].
  - apply yields_ret. constructor.
  - apply (yields_bind_with _ _ P); [apply Hb|]. intros y Hy.
    apply (yields_bind_with _ _ (Forall P)); [exact IH|]. intros ys Hys.
    apply yields_ret. now constructor.
Qed.

Lemma every_success_concat (nested : list (list CommandResult)) :
  Forall (Forall (fun r => cmd_success r = true)) nested ->
  every_success (List.concat nested) = true.
Proof.
  unfold every_success. induction 1 as [|rs nested Hrs _ IH]; [reflexivity|].
  simpl. rewrite forallb_app, IH, andb_true_r.
  apply forallb_forall. now apply Forall_forall.
Qed.

Lemma every_success_all (results : list CommandResult) :
  Forall (fun r => cmd_success r = true) results -> every_success results = true.
Proof. intros H. apply forallb_forall. now apply Forall_forall. Qed.

Variable env : Env.

(** Every command the enforcer is given succeeds: the mode is simulation,
    or the shell never fails. *)
Definition obliging : Prop :=
  fc_mode (config env) = simulation \/ forall tr cmd, shell env tr cmd = true.

Hypothesis Hob : obliging.

Lemma iptables_executeCommand_succeeds cmd desc :
  yields (IptablesService.executeCommand env cmd desc) (fun r => cmd_success r = true).
Proof.
  intros w. unfold IptablesService.executeCommand, IptablesService.isSimulationMode.
  cbv zeta. destruct Hob as [Hsim|Hsh].
  - rewrite Hsim. now repeat rewrite bind_run.
  - destruct (fc_mode (config env)); repeat rewrite bind_run; cbn; auto.
Qed.

Lemma ebtables_executeCommand_succeeds cmd desc :
  yields (EbtablesService.executeCommand env cmd desc) (fun r => cmd_success r = true).
Proof.
  intros w. unfold EbtablesService.executeCommand, EbtablesService.isSimulationMode.
  cbv zeta. destruct Hob as [Hsim|Hsh].
  - rewrite Hsim. now repeat rewrite bind_run.
  - destruct (fc_mode (config env)); repeat rewrite bind_run; cbn; auto.
Qed.

Lemma removePortalRedirect_succeeds mac :
  yields (IptablesService.removePortalRedirect env mac) (fun r => rr_success r = true).
Proof.
  unfold IptablesService.removePortalRedirect. cbv zeta.
  apply (yields_bind_with _ _ (Forall (fun r => cmd_success r = true))).
  - apply yields_forM. intros cmd. apply iptables_executeCommand_succeeds.
  - intros results Hr. apply yields_ret. cbn. now apply every_success_all.
Qed.

Lemma applyAuthenticatedRules_succeeds mac ip sid :
  yields (IptablesService.applyAuthenticatedRules env mac ip sid)
         (fun r => rr_success r = true).
Proof.
  unfold IptablesService.applyAuthenticatedRules.
  apply (yields_bind_with _ _ (Forall (Forall (fun r => cmd_success r = true)))).
  - apply yields_forM. intros rule. apply yields_forM. intros cmd.
    apply (yields_bind_with _ _ (fun r => cmd_success r = true));
      [apply iptables_executeCommand_succeeds|].
    intros result Hres. apply yields_bind. intros _. now apply yields_ret.
  - intros nested Hn. apply yields_ret. cbn. now apply every_success_concat.
Qed.

Lemma applyClientIsolation_succeeds mac ip sid :
  yields (EbtablesService.applyClientIsolation env mac ip sid)
         (fun r => rr_success r = true).
Proof.
  unfold EbtablesService.applyClientIsolation.
  apply (yields_bind_with _ _ (Forall (Forall (fun r => cmd_success r = true)))).
  - apply yields_forM. intros rule. apply yields_forM. intros cmd.
    apply (yields_bind_with _ _ (fun r => cmd_success r = true));
      [apply ebtables_executeCommand_succeeds|].
    intros result Hres. apply yields_bind. intros _. now apply yields_ret.
  - intros nested Hn. apply yields_ret. cbn. now apply every_success_concat.
Qed.

Lemma grantClientAccess_succeeds sd w m :
  BindingService.normalizeMac (Some (macAddress sd)) = Returns (Some m) ->
  session_exists w (sessionId sd) = true ->
  success (fst (RuleEngine.grantClientAccess env sd w)) = true
  /\ error (fst (RuleEngine.grantClientAccess env sd w)) = false.
Proof.
  intros Hn Hs. unfold RuleEngine.grantClientAccess. cbv zeta. rewrite bind_run.
  pose proof (createBinding_bindings (Some (macAddress sd)) (ipAddress sd)
                (Some (sessionId sd)) (expiresAt sd) w (Some m) Hn) as Hb.
  cbv zeta in Hb. cbn [fk_session] in Hb. rewrite Hs in Hb. destruct Hb as [Hres _].
  rewrite Hres.
  match goal with
  | |- success (fst (?c ?w1)) = true /\ _ =>
      enough (Hc : yields c (fun r => success r = true /\ error r = false))
        by apply (Hc w1)
  end.
  apply (yields_bind_with _ _ (fun r => rr_success r = true));
    [apply removePortalRedirect_succeeds|]. intros r1 H1.
  apply (yields_bind_with _ _ (fun r => rr_success r = true));
    [apply applyAuthenticatedRules_succeeds|]. intros r2 H2.
  apply (yields_bind_with _ _ (fun r => rr_success r = true));
    [apply applyClientIsolation_succeeds|]. intros r3 H3.
  cbv zeta. apply yields_bind. intros _. apply yields_ret. cbn.
  now rewrite H1, H2, H3.
Qed.

End Yields.

(** X18. When no command can fail (the mode is simulation, in which the
    shell is not run, or every shell command succeeds), a grant for a
    session that exists and a MAC that normalises to a string succeeds in
    all four steps, and [onSessionCreated] then records
    [firewall_applied = 1] on the session. *)
Theorem grant_succeeds_when_commands_do :
  forall (env : Env) (w : World) (session : Session) (m : string),
    obliging env ->
    BindingService.normalizeMac (Some (s_mac_address session)) = Returns (Some m) ->
    session_exists w (s_id session) = true ->
    let r := SessionFirewall.onSessionCreated env session w in
    success (fst r) = true
    /\ error (fst r) = false
    /\ (forall x, In x (sessions (snd r)) -> s_id x = s_id session ->
                  s_firewall_applied x = true).
Proof.
  intros env w session m Hob Hn Hs r. subst r.
  unfold SessionFirewall.onSessionCreated. rewrite bind_run, bind_run. cbn [ret fst snd].
  destruct (grantClientAccess_succeeds env Hob (SessionFirewall.sessionData_of session)
              w m Hn Hs) as [Hok Herr].
  split; [exact Hok|]. split; [exact Herr|].
  intros x Hin Hx. unfold SessionFirewall.update_sessions, modify in Hin.
  cbn [snd sessions with_sessions] in Hin. unfold update_where in Hin.
  apply in_map_iff in Hin. destruct Hin as (x0 & Hx0 & _).
  destruct (s_id x0 =? s_id session) eqn:E.
  - subst x. cbn. exact Hok.
  - subst x0. rewrite Hx, Z.eqb_refl in E. discriminate.
Qed.

Lemma grant_succeeds_when_commands_do_witness :
  success (fst (SessionFirewall.onSessionCreated demo_env demo_pending_session
                  demo_pending)) = true.
Proof.
  exact (proj1 (grant_succeeds_when_commands_do demo_env demo_pending
                  demo_pending_session "aa:bb:cc:dd:ee:01"
                  (or_introl eq_refl) eq_refl eq_refl)).
Defined.

(** ** Device limits of vouchers and accounts *)

(** The devices (distinct MACs) with an ACTIVE session under voucher [v],
    as [authenticateWithVoucher] counts them; likewise for an account. *)
Definition devices_on_voucher (v : Z) (ss : list Session) : Z :=
  AuthService.count_distinct_macs
    (fun s => (opt_Z_eqb (s_voucher_id s) v && s_is_active s)%bool) ss.

Definition devices_on_account (u : Z) (ss : list Session) : Z :=
  AuthService.count_distinct_macs
    (fun s => (opt_Z_eqb (s_user_id s) u && s_is_active s)%bool) ss.

(** The id and the device limit of every voucher. *)
Definition voucher_terms (w : World) : list (Z * Z) :=
  map (fun v => (v_id v, v_max_devices v)) (vouchers w).

(** No voucher and no account serves more devices at a time than its
    limit allows; voucher ids are a key. *)
Definition within_limits (env : Env) (w : World) : Prop :=
  NoDup (map fst (voucher_terms w))
  /\ (forall id limit, In (id, limit) (voucher_terms w) ->
                       devices_on_voucher id (sessions w) <= Z.max 0 limit)
  /\ (forall u, devices_on_account u (sessions w) <= Z.max 0 (maxDevicesPerUser env)).

Section Limits.
Variable env : Env.

Lemma distinct_macs_tame (p : Session -> bool) (ss ss' : list Session) :
  Forall2 session_tame ss ss' ->
  (forall s s', session_tame s s' -> p s' = true -> p s = true) ->
  AuthService.count_distinct_macs p ss' <= AuthService.count_distinct_macs p ss.
Proof.
  intros Ht Hp. unfold AuthService.count_distinct_macs. apply Nat2Z.inj_le.
  apply NoDup_incl_length; [apply NoDup_nodup|].
  intros m Hm. apply nodup_In in Hm. apply nodup_In.
  apply in_map_iff in Hm. destruct Hm as (s' & Hmac & Hin).
  apply filter_In in Hin. destruct Hin as [Hin Hs'].
  destruct (Forall2_In_r _ _ _ _ Ht Hin) as (s & Hs & Hrel).
  apply in_map_iff. exists s. split.
  - destruct Hrel as (_ & Hm & _). congruence.
  - apply filter_In. split; [exact Hs | now apply (Hp s s')].
Qed.

Lemma distinct_macs_grow (p : Session -> bool) (ss : list Session) (row : Session) :
  AuthService.count_distinct_macs p (ss ++ [row])
  <= AuthService.count_distinct_macs p ss + (if p row then 1 else 0).
Proof.
  unfold AuthService.count_distinct_macs. rewrite filter_app, map_app. cbn [filter].
  destruct (p row); cbn [map].
  - replace (Z.of_nat (List.length (nodup string_dec (map s_mac_address (filter p ss)))) + 1)
      with (Z.of_nat (List.length (s_mac_address row
                                   :: nodup string_dec (map s_mac_address (filter p ss)))))
      by (cbn [List.length]; lia).
    apply Nat2Z.inj_le. apply NoDup_incl_length; [apply NoDup_nodup|].
    intros m Hm. apply nodup_In in Hm. apply in_app_or in Hm.
    destruct Hm as [Hm|[<-|[]]]; [right; now apply nodup_In | now left].
  - rewrite app_nil_r. lia.
Qed.

Lemma on_voucher_tame v s s' :
  session_tame s s' ->
  (opt_Z_eqb (s_voucher_id s') v && s_is_active s')%bool = true ->
  (opt_Z_eqb (s_voucher_id s) v && s_is_active s)%bool = true.
Proof.
  intros (_ & _ & Hv & _ & Ha) H. apply andb_true_iff in H. destruct H as [H1 H2].
  rewrite <- Hv, H1. now rewrite (Ha H2).
Qed.

Lemma on_account_tame u s s' :
  session_tame s s' ->
  (opt_Z_eqb (s_user_id s') u && s_is_active s')%bool = true ->
  (opt_Z_eqb (s_user_id s) u && s_is_active s)%bool = true.
Proof.
  intros (_ & _ & _ & Hu & Ha) H. apply andb_true_iff in H. destruct H as [H1 H2].
  rewrite <- Hu, H1. now rewrite (Ha H2).
Qed.

(** Requests that only update session rows and leave the vouchers' terms
    alone keep the limits. *)
Lemma limits_tame w w' :
  tame_sessions w w' -> voucher_terms w' = voucher_terms w ->
  within_limits env w -> within_limits env w'.
Proof.
  unfold tame_sessions. intros Ht Hv (Hk & Hvo & Hac). unfold within_limits.
  rewrite Hv. split; [exact Hk|]. split.
  - intros id limit Hin. specialize (Hvo id limit Hin).
    pose proof (distinct_macs_tame _ _ _ Ht (on_voucher_tame id)).
    unfold devices_on_voucher in *. lia.
  - intros u. specialize (Hac u).
    pose proof (distinct_macs_tame _ _ _ Ht (on_account_tame u)).
    unfold devices_on_account in *. lia.
Qed.

Lemma limits_tame_keeps {A} (c : M A) :
  along tame_sessions c -> along (same voucher_terms) c -> keeps (within_limits env) c.
Proof. intros Ht Hv w Hw. exact (limits_tame w _ (Ht w) (Hv w) Hw). Qed.

Lemma terms_key (terms : list (Z * Z)) id a b :
  NoDup (map fst terms) -> In (id, a) terms -> In (id, b) terms -> a = b.
Proof.
  induction terms as [|[i x] terms IH]; intros Hk Ha Hb; [inversion Ha|].
  cbn in Hk. inversion Hk as [|? ? Hnot Hk']; subst.
  destruct Ha as [Ha|Ha], Hb as [Hb|Hb].
  - congruence.
  - inversion Ha; subst. exfalso. apply Hnot.
    change id with (fst (id, b)). now apply in_map.
  - inversion Hb; subst. exfalso. apply Hnot.
    change id with (fst (id, a)). now apply in_map.
  - now apply IH.
Qed.

(** The sessions after a new row [row] was appended and rows were updated. *)
Lemma limits_grow w w' row :
  within_limits env w ->
  Forall2 session_tame (sessions w ++ [row]) (sessions w') ->
  voucher_terms w' = voucher_terms w ->
  (forall id, s_voucher_id row = Some id -> s_is_active row = true ->
     forall limit, In (id, limit) (voucher_terms w) ->
                   devices_on_voucher id (sessions w) < limit) ->
  (forall u, s_user_id row = Some u -> s_is_active row = true ->
             devices_on_account u (sessions w) < maxDevicesPerUser env) ->
  within_limits env w'.
Proof.
  intros (Hk & Hvo & Hac) Ht Hv Hnv Hnu. unfold within_limits. rewrite Hv.
  split; [exact Hk|]. split.
  - intros id limit Hin. specialize (Hvo id limit Hin).
    pose proof (distinct_macs_tame _ _ _ Ht (on_voucher_tame id)) as H1.
    pose proof (distinct_macs_grow
                  (fun s => (opt_Z_eqb (s_voucher_id s) id && s_is_active s)%bool)
                  (sessions w) row) as H2.
    unfold devices_on_voucher in *. cbv beta in H2.
    destruct (opt_Z_eqb (s_voucher_id row) id && s_is_active row)%bool eqn:E; [|lia].
    apply andb_true_iff in E. destruct E as [E1 E2]. apply opt_Z_eqb_Some in E1.
    specialize (Hnv id E1 E2 limit Hin). lia.
  - intros u. specialize (Hac u).
    pose proof (distinct_macs_tame _ _ _ Ht (on_account_tame u)) as H1.
    pose proof (distinct_macs_grow
                  (fun s => (opt_Z_eqb (s_user_id s) u && s_is_active s)%bool)
                  (sessions w) row) as H2.
    unfold devices_on_account in *. cbv beta in H2.
    destruct (opt_Z_eqb (s_user_id row) u && s_is_active row)%bool eqn:E; [|lia].
    apply andb_true_iff in E. destruct E as [E1 E2]. apply opt_Z_eqb_Some in E1.
    specialize (Hnu u E1 E2). lia.
Qed.

Lemma terms_mark_used sel now mac vs :
  map (fun v => (v_id v, v_max_devices v)) (update_where sel (AuthService.mark_used now mac) vs)
  = map (fun v => (v_id v, v_max_devices v)) vs.
Proof.
  unfold update_where. rewrite map_map. apply map_ext. intros v. now destruct (sel v).
Qed.

End Limits.

Section LimitsKept.
Variable env : Env.

Ltac terms_auto :=
  unfold AuthService.createSession; frame_auto;
  try (let w := fresh "w" in
       intro w; unfold same, voucher_terms, modify; cbn; apply terms_mark_used).

Ltac limits_rest :=
  match goal with
  | |- within_limits env (snd (?k ?w0)) =>
      apply (limits_tame_keeps env k); [tame_sessions_auto | terms_auto | try assumption]
  end.

Lemma getOrCreateDevice_limits mac w :
  within_limits env w -> within_limits env (snd (AuthService.getOrCreateDevice mac w)).
Proof.
  intros Hw. unfold within_limits, voucher_terms.
  rewrite !(getOrCreateDevice_frame sessions (fun _ _ _ => eq_refl)).
  rewrite !(getOrCreateDevice_frame vouchers (fun _ _ _ => eq_refl)). exact Hw.
Qed.

Lemma createSession_terms uid vid dev mac ip method hours :
  along (same voucher_terms)
        (AuthService.createSession env uid vid dev mac ip method hours).
Proof. terms_auto. Qed.

Lemma authenticateWithVoucher_limits code mac ip :
  keeps (within_limits env) (AuthService.authenticateWithVoucher env code mac ip).
Proof.
  intros w Hinv. unfold AuthService.authenticateWithVoucher.
  rewrite bind_run. cbn [gets fst snd].
  destruct (find _ (vouchers w)) as [v|] eqn:Ev; [|limits_rest].
  rewrite bind_run. cbn [date_now gets fst snd].
  destruct (sql_lt_opt _ _); [limits_rest|].
  rewrite bind_run, bind_run. cbn [gets fst snd].
  destruct (find _ (sessions w)) as [existing|] eqn:Eex.
  { cbv iota. limits_rest. }
  destruct (Z.leb _ _) eqn:El; [limits_rest|].
  rewrite bind_run.
  pose proof (getOrCreateDevice_limits (AuthService.normalizeMacAddress mac) w Hinv) as Hinv1.
  pose proof (getOrCreateDevice_frame sessions (fun _ _ _ => eq_refl)
                (AuthService.normalizeMacAddress mac) w) as Hs1.
  pose proof (getOrCreateDevice_frame vouchers (fun _ _ _ => eq_refl)
                (AuthService.normalizeMacAddress mac) w) as Hv1.
  set (w1 := snd (AuthService.getOrCreateDevice _ w)) in *.
  destruct (d_is_blocked _); [limits_rest|].
  rewrite bind_run.
  match goal with
  | |- context [AuthService.createSession env ?u ?vi ?d ?m ?i ?me ?h w1] =>
      destruct (createSession_sessions env u vi d m i me h w1)
        as (row & Hm & Hvr & Hur & _ & Ht);
      pose proof (createSession_terms u vi d m i me h w1) as Hterms;
      set (w2 := snd (AuthService.createSession env u vi d m i me h w1)) in *
  end.
  assert (Hinv2 : within_limits env w2).
  { apply (limits_grow env w1 w2 row Hinv1 Ht Hterms).
    - intros id Hid _ limit Hin. rewrite Hvr in Hid. simpl in Hid.
      apply num_or_null_Some in Hid. subst id.
      destruct (find_some _ _ Ev) as [Hvin _].
      assert (Hin0 : In (v_id v, v_max_devices v) (voucher_terms w1)).
      { unfold voucher_terms. rewrite Hv1.
        apply (in_map (fun v => (v_id v, v_max_devices v))). exact Hvin. }
      destruct Hinv1 as (Hk & _).
      rewrite (terms_key _ _ _ _ Hk Hin Hin0). rewrite Hs1.
      apply Z.leb_gt in El. exact El.
    - intros u Hu. rewrite Hur in Hu. discriminate Hu. }
  limits_rest.
Qed.

Lemma authenticateWithCredentials_limits username password mac ip :
  keeps (within_limits env)
        (AuthService.authenticateWithCredentials env username password mac ip).
Proof.
  intros w Hinv. unfold AuthService.authenticateWithCredentials.
  rewrite bind_run. cbn [gets fst snd].
  destruct (find _ (users w)) as [u|]; [|limits_rest].
  destruct (negb _); [limits_rest|].
  rewrite bind_run.
  pose proof (getOrCreateDevice_limits (AuthService.normalizeMacAddress mac) w Hinv) as Hinv1.
  set (w1 := snd (AuthService.getOrCreateDevice _ w)) in *.
  destruct (d_is_blocked _); [limits_rest|].
  rewrite bind_run, bind_run. cbn [gets fst snd].
  destruct (find _ (sessions w1)) as [existing|] eqn:Eex; [limits_rest|].
  destruct (Z.leb _ _) eqn:El; [limits_rest|].
  rewrite bind_run.
  match goal with
  | |- context [AuthService.createSession env ?ui ?vi ?d ?m ?i ?me ?h w1] =>
      destruct (createSession_sessions env ui vi d m i me h w1)
        as (row & Hm & Hvr & Hur & _ & Ht);
      pose proof (createSession_terms ui vi d m i me h w1) as Hterms;
      set (w2 := snd (AuthService.createSession env ui vi d m i me h w1)) in *
  end.
  assert (Hinv2 : within_limits env w2).
  { apply (limits_grow env w1 w2 row Hinv1 Ht Hterms).
    - intros id Hid. rewrite Hvr in Hid. discriminate Hid.
    - intros u0 Hu0 _. rewrite Hur in Hu0. simpl in Hu0.
      apply num_or_null_Some in Hu0. subst u0.
      apply Z.leb_gt in El. exact El. }
  limits_rest.
Qed.

Lemma handle_limits req : keeps (within_limits env) (handle env req).
Proof.
  destruct req; unfold handle;
    try solve [apply limits_tame_keeps; [tame_sessions_auto | frame_auto]].
  - apply keeps_bind; [apply authenticateWithVoucher_limits | intros; apply keeps_ret].
  - apply keeps_bind; [apply authenticateWithCredentials_limits | intros; apply keeps_ret].
Qed.

Lemma reachable_limits vs us w :
  NoDup (map v_id vs) ->
  reachable env vs us w -> within_limits env w.
Proof.
  intros Hk. induction 1 as [t|w req t Hr IH Ht].
  - split; [|split].
    + unfold voucher_terms. cbn. now rewrite map_map.
    + intros id limit _. cbn. lia.
    + intros u. cbn. lia.
  - apply handle_limits. exact IH.
Qed.

End LimitsKept.

(** X19. Device limits.  With requests served one after the other, at
    every reachable state the number of devices (distinct MACs) that hold
    an ACTIVE session under a voucher is at most the voucher's
    [max_devices], and the number of devices with an ACTIVE session under
    an account is at most [maxDevicesPerUser] (at most 0 for a limit below
    0); every request preserves both. *)
Theorem device_limits_are_kept :
  forall (env : Env) (vs : list Voucher) (us : list User) (w : World),
    NoDup (map v_id vs) ->
    reachable env vs us w ->
    (forall v, In v (vouchers w) ->
               devices_on_voucher (v_id v) (sessions w) <= Z.max 0 (v_max_devices v))
    /\ (forall u, devices_on_account u (sessions w) <= Z.max 0 (maxDevicesPerUser env))
    /\ (forall req, within_limits env (run (handle env req) w)).
Proof.
  intros env vs us w Hk Hr.
  pose proof (reachable_limits env vs us w Hk Hr) as Hw.
  split; [|split].
  - intros v Hin. destruct Hw as (_ & Hvo & _). apply Hvo.
    unfold voucher_terms. apply (in_map (fun v => (v_id v, v_max_devices v))). exact Hin.
  - now destruct Hw as (_ & _ & Hac).
  - intros req. now apply handle_limits.
Qed.

Lemma demo_voucher_ids : NoDup (map v_id demo_vouchers).
Proof.
  cbn. repeat constructor; cbn; intuition discriminate.
Qed.

Lemma device_limits_are_kept_witness :
  devices_on_account 1 (sessions demo_second_voucher) <= Z.max 0 (maxDevicesPerUser demo_env).
Proof.
  exact (proj1 (proj2 (device_limits_are_kept demo_env demo_vouchers [] demo_second_voucher
                         demo_voucher_ids demo_second_voucher_reachable))
               1).
Defined.

(** ** Admission: from the voucher to the binding *)

Section Admission.
Variable env : Env.

Lemma createBinding_installs_nearly mac ip sid exp w m :
  BindingService.normalizeMac mac = Returns (Some m) ->
  fk_session w sid = true ->
  nearly_unique (Some m) ip (mac_ip_bindings w) ->
  exists older,
    mac_ip_bindings (snd (BindingService.createBinding mac ip sid exp w))
    = (older ++ [installed w m ip sid exp])%list
    /\ (forall b, In b older -> b_is_active b = true ->
                  b_mac_address b <> m /\ b_ip_address b <> ip).
Proof.
  intros Hn Hfk Hnear.
  pose proof (createBinding_bindings mac ip sid exp w (Some m) Hn) as Hb.
  cbv zeta in Hb. rewrite Hfk in Hb. destruct Hb as [_ Hbs].
  eexists. split; [exact Hbs|].
  intros b Hin Ha. now apply (rebound_only_row m ip (mac_ip_bindings w) b).
Qed.

(** The session row that [createSession] inserts. *)
Definition new_session (w : World) (uid vid : option Z) (dev : Z)
    (mac ip method : string) (hours : Z) : Session :=
  {| s_id := seq_sessions w + 1; s_session_token := uuidv4 env (seq_sessions w + 1);
     s_user_id := opt_num_or_null uid; s_voucher_id := opt_num_or_null vid;
     s_device_id := dev; s_mac_address := mac; s_ip_address := ip;
     s_auth_method := method; s_started_at := clock w;
     s_expires_at := clock w + hours * 60 * 60 * 1000;
     s_ended_at := None; s_is_active := true; s_firewall_applied := false |}.

Lemma createSession_outcome uid vid dev x ip method hours w :
  unique_bindings w ->
  let mac := AuthService.normalizeMacAddress x in
  let row := new_session w uid vid dev mac ip method hours in
  let r := AuthService.createSession env uid vid dev mac ip method hours w in
  fst r = {| AuthService.ns_id := s_id row;
             AuthService.ns_token := AuthService.generateToken env row;
             AuthService.ns_expiresAt := s_expires_at row |}
  /\ (exists flag, In (SessionFirewall.set_firewall_applied flag row) (sessions (snd r)))
  /\ (exists older b,
         mac_ip_bindings (snd r) = (older ++ [b])%list
         /\ b_mac_address b = mac /\ b_ip_address b = ip
         /\ b_session_id b = Some (s_id row)
         /\ b_expires_at b = Some (s_expires_at row)
         /\ b_is_active b = true
         /\ (forall o, In o older -> b_is_active o = true ->
                       b_mac_address o <> mac /\ b_ip_address o <> ip))
  /\ clock (snd r) = clock w.
Proof.
  intros [H1 H2] mac row r. subst r. unfold AuthService.createSession.
  repeat rewrite bind_run. cbn [ret fst snd date_now gets].
  fold (new_session w uid vid dev mac ip method hours). fold row.
  split; [reflexivity|].
  match goal with
  | |- context [SessionFirewall.onSessionCreated env row ?w3] => set (before := w3)
  end.
  assert (Hsess : sessions before = (sessions w ++ [row])%list) by reflexivity.
  assert (Hclock : clock before = clock w) by reflexivity.
  assert (Hbs : exists first,
             b_mac_address first = mac /\ b_ip_address first = ip
             /\ mac_ip_bindings before
                = (filter (fun b => negb (BindingService.same_pair mac ip b))
                          (mac_ip_bindings w) ++ [first])%list).
  { eexists. split; [|split]; [| |reflexivity]; reflexivity. }
  destruct Hbs as (first & Hfm & Hfi & Hbs).
  assert (Hfk : fk_session before (Some (s_id row)) = true).
  { cbn [fk_session]. unfold session_exists. rewrite Hsess, existsb_app. cbn.
    rewrite Z.eqb_refl. now rewrite orb_true_r. }
  assert (Hnear : nearly_unique (Some mac) ip (mac_ip_bindings before)).
  { rewrite Hbs. now apply insert_nearly. }
  split; [|split].
  - exists (success (fst (RuleEngine.grantClientAccess env
                            (SessionFirewall.sessionData_of row) before))).
    unfold SessionFirewall.onSessionCreated. rewrite bind_run, bind_run. cbn [ret snd].
    unfold SessionFirewall.update_sessions, modify. cbn [snd sessions with_sessions].
    rewrite (grantClientAccess_sessions env _ before), Hsess.
    unfold update_where. apply in_map_iff. exists row. cbn [s_id row new_session].
    rewrite Z.eqb_refl. split; [reflexivity|]. apply in_or_app. right. now left.
  - rewrite onSessionCreated_bindings.
    destruct (createBinding_installs_nearly (Some (s_mac_address row)) (s_ip_address row)
                (Some (s_id row)) (Some (s_expires_at row)) before mac
                (normalizeMac_normalizeMacAddress x) Hfk Hnear) as (older & Hafter & Hold).
    exists older, (installed before mac ip (Some (s_id row)) (Some (s_expires_at row))).
    split; [exact Hafter|]. repeat split; try reflexivity. 
    + apply (Hold o); assumption.
    + apply (Hold o); assumption.
  - match goal with
    | |- clock (snd (?c before)) = _ =>
        assert (Hk : along (same clock) c) by frame_auto; now rewrite (Hk before)
    end.
Qed.

End Admission.

(** X20. Admission by voucher.  On a binding table satisfying (B1) and
    (B2): when an ACTIVE, unexpired voucher carries the code, the MAC
    holds no ACTIVE session under it, the voucher serves fewer devices than
    its limit, the device is not blocked and the voucher's duration is not
    negative, [authenticateWithVoucher] answers "Authentication
    successful" with a new session id and the expiry now + duration; the
    session row is in the table, ACTIVE, with the normalised MAC, the IP
    and that expiry; and [validateBinding] for that MAC and IP is valid at
    once, through a binding owned by the new session that expires with
    it. *)
Theorem authenticateWithVoucher_admits :
  forall (env : Env) (w : World) (code : string) (mac : option string) (ip : string)
         (v : Voucher),
    unique_bindings w ->
    find (fun v => (String.eqb (v_code v) (JsString.toUpperCase code) && v_is_active v)%bool)
         (vouchers w) = Some v ->
    sql_lt_opt (v_expires_at v) (clock w) = false ->
    find (fun s => (opt_Z_eqb (s_voucher_id s) (v_id v)
                    && String.eqb (s_mac_address s) (AuthService.normalizeMacAddress mac)
                    && s_is_active s)%bool)
         (sessions w) = None ->
    devices_on_voucher (v_id v) (sessions w) < v_max_devices v ->
    (forall d, find (fun d => String.eqb (d_mac_address d)
                                (AuthService.normalizeMacAddress mac))
                    (devices w) = Some d ->
               d_is_blocked d = false) ->
    0 <= v_duration_hours v ->
    let m := AuthService.normalizeMacAddress mac in
    let sid := seq_sessions w + 1 in
    let exp := clock w + v_duration_hours v * 3600000 in
    let r := AuthService.authenticateWithVoucher env code mac ip w in
    fst r = AuthOk (jwt_sign env sid m "voucher") sid exp "Authentication successful"
    /\ (exists s, In s (sessions (snd r))
                  /\ s_id s = sid /\ s_mac_address s = m /\ s_ip_address s = ip
                  /\ s_voucher_id s = num_or_null (v_id v)
                  /\ s_expires_at s = exp /\ s_is_active s = true)
    /\ (exists b, fst (BindingService.validateBinding (Some m) ip (snd r))
                  = Returns (BindingService.Valid b)
                  /\ b_session_id b = Some sid /\ b_expires_at b = Some exp).
Proof.
  intros env w code mac ip v Hu Hv Hexp Hex Hcount Hdev Hdur m sid exp r.
  fold m in Hex, Hdev.
  set (w1 := snd (AuthService.getOrCreateDevice m w)).
  set (dev := d_id (fst (AuthService.getOrCreateDevice m w))).
  assert (Hu1 : unique_bindings w1).
  { unfold unique_bindings, w1.
    now rewrite (getOrCreateDevice_frame mac_ip_bindings (fun _ _ _ => eq_refl)). }
  assert (Hseq : seq_sessions w1 = seq_sessions w)
    by apply (getOrCreateDevice_frame seq_sessions (fun _ _ _ => eq_refl)).
  assert (Hclk : clock w1 = clock w)
    by apply (getOrCreateDevice_frame clock (fun _ _ _ => eq_refl)).
  destruct (createSession_outcome env None (Some (v_id v)) dev mac ip "voucher"
              (v_duration_hours v) w1 Hu1) as (Hres & (flag & Hrow) & Hbind & Hclock).
  fold m in Hres, Hrow, Hbind, Hclock.
  set (w2 := snd (AuthService.createSession env None (Some (v_id v)) dev m ip "voucher"
                    (v_duration_hours v) w1)) in *.
  assert (Hrun : exists rest : M unit,
             along (same sessions) rest /\ along (same mac_ip_bindings) rest
             /\ along (same clock) rest
             /\ r = (AuthOk (jwt_sign env sid m "voucher") sid exp "Authentication successful",
                     snd (rest w2))).
  { exists (match v_used_at v with
            | None =>
                modify (fun w0 =>
                  with_vouchers w0
                    (update_where (fun v0 => v_id v0 =? v_id v)
                                  (AuthService.mark_used (clock w0) m) (vouchers w0)))
            | Some _ => ret tt
            end ;;; Logging.authSuccess m ip "voucher" None).
    split; [frame_auto|]. split; [frame_auto|]. split; [frame_auto|].
    subst r. unfold AuthService.authenticateWithVoucher. fold m.
    rewrite bind_run. cbn [gets fst snd]. rewrite Hv.
    rewrite bind_run. cbn [date_now gets fst snd]. rewrite Hexp.
    rewrite bind_run, bind_run. cbn [gets fst snd]. rewrite Hex.
    fold (devices_on_voucher (v_id v) (sessions w)).
    apply Z.leb_gt in Hcount. rewrite Hcount.
    rewrite bind_run. rewrite (getOrCreateDevice_not_blocked m w Hdev).
    rewrite bind_run. fold w1 dev. rewrite Hres.
    rewrite bind_run, bind_run. cbn [ret fst snd AuthService.ns_id AuthService.ns_token
      AuthService.ns_expiresAt]. fold w2.
    unfold AuthService.generateToken, new_session. cbn [s_id s_mac_address s_auth_method
      s_expires_at]. rewrite Hseq, Hclk. subst sid exp.
    replace (clock w + v_duration_hours v * 60 * 60 * 1000)
      with (clock w + v_duration_hours v * 3600000) by lia.
    rewrite bind_run. reflexivity. }
  destruct Hrun as (rest & Hrs & Hrb & Hrc & Hr). rewrite Hr. cbn [fst snd].
  split; [reflexivity|]. split.
  - exists (SessionFirewall.set_firewall_applied flag
              (new_session env w1 None (Some (v_id v)) dev m ip "voucher"
                           (v_duration_hours v))).
    rewrite (Hrs w2). split; [exact Hrow|]. cbn. rewrite Hseq, Hclk.
    subst sid exp. repeat split; reflexivity || lia.
  - destruct Hbind as (older & b & Hbs & Hbm & Hbi & Hbsid & Hbexp & Hba & Hold).
    exists b.
    assert (Hfind : find (BindingService.active_for (Some m))
                         (mac_ip_bindings (snd (rest w2))) = Some b).
    { rewrite (Hrb w2), Hbs. apply find_app_last.
      - intros o Ho. unfold BindingService.active_for, sql_eq_str.
        destruct (b_is_active o) eqn:Ea; [|apply andb_false_r].
        destruct (Hold o Ho Ea) as [Hm _]. apply String.eqb_neq in Hm. now rewrite Hm.
      - unfold BindingService.active_for, sql_eq_str. now rewrite Hbm, Hba, String.eqb_refl. }
    rewrite (validateBinding_run (Some m) ip (snd (rest w2)) (Some m)
               (normalizeMac_normalizeMacAddress mac)).
    rewrite Hfind, Hbi, String.eqb_refl. cbn [negb]. rewrite Hbexp.
    cbn [sql_lt_opt new_session s_expires_at]. rewrite (Hrc w2), Hclock.
    assert (Hlive : (clock w1 + v_duration_hours v * 60 * 60 * 1000 <? clock w1) = false)
      by (apply Z.ltb_ge; lia).
    rewrite Hlive. cbn [fst]. split; [reflexivity|].
    rewrite Hbsid. cbn [new_session s_id]. rewrite Hseq, Hclk. subst sid exp.
    split; [reflexivity | f_equal; lia].
Qed.

(** The first login of the small deployment. *)
Lemma authenticateWithVoucher_admits_witness :
  fst (AuthService.authenticateWithVoucher demo_env "TEST1234" (Some "AA-BB-CC-DD-EE-01")
         "192.168.4.10" (initial demo_vouchers [] 1000))
  = AuthOk "aa:bb:cc:dd:ee:01" 1 14401000 "Authentication successful".
Proof.
  assert (Hv : exists v,
             find (fun v => (String.eqb (v_code v) (JsString.toUpperCase "TEST1234")
                             && v_is_active v)%bool)
                  (vouchers (initial demo_vouchers [] 1000)) = Some v
             /\ v_expires_at v = None /\ v_id v = 1 /\ v_max_devices v = 2
             /\ v_duration_hours v = 4).
  { eexists. split; [vm_compute; reflexivity | repeat split]. }
  destruct Hv as (v & Hv & Hexp & Hid & Hmax & Hdur).
  pose proof (proj1 (authenticateWithVoucher_admits demo_env (initial demo_vouchers [] 1000)
                       "TEST1234" (Some "AA-BB-CC-DD-EE-01") "192.168.4.10" v
                       (reachable_unique demo_env demo_vouchers [] _
                          (reach_init demo_env demo_vouchers [] 1000))
                       Hv
                       ltac:(rewrite Hexp; reflexivity)
                       eq_refl
                       ltac:(rewrite Hmax; reflexivity)
                       ltac:(intros d Hd; discriminate Hd)
                       ltac:(rewrite Hdur; discriminate))) as H.
  cbv zeta in H. rewrite Hdur in H. exact H.
Defined.

(** ** MAC addresses that pass [isValidMac] *)

Section ValidMac.
Import JsString Helpers.

Lemma hex_facts c :
  is_hex c = true ->
  is_separator c = false
  /\ dot (lower_char c) = true
  /\ is_hex (lower_char c) = true
  /\ is_separator (lower_char c) = false
  /\ lower_char (lower_char c) = lower_char c.
Proof.
  destruct c as [[] [] [] [] [] [] [] []]; vm_compute; intros H;
    try discriminate H; repeat split.
Qed.

Lemma separator_facts c :
  is_separator c = true -> is_hex c = false /\ (c = ":" \/ c = "-")%char.
Proof.
  destruct c as [[] [] [] [] [] [] [] []]; vm_compute; intros H;
    try discriminate H; split; auto.
Qed.

(** The shape [isValidMac] accepts: six pairs of hexadecimal digits, a
    separator between one pair and the next. *)
Inductive mac_shape : string -> list (ascii * ascii) -> Prop :=
| shape_last : forall a b,
    is_hex a = true -> is_hex b = true ->
    mac_shape (String a (String b EmptyString)) [(a, b)]
| shape_more : forall a b s rest pairs,
    is_hex a = true -> is_hex b = true -> is_separator s = true ->
    mac_shape rest pairs ->
    mac_shape (String a (String b (String s rest))) ((a, b) :: pairs).

Lemma hex_groups_shape n : forall s rest tail,
  hex_groups n s = Some rest -> mac_shape rest tail ->
  exists pairs, mac_shape s pairs /\ List.length pairs = (n + List.length tail)%nat.
Proof.
  induction n as [|n IH]; intros s rest tail Hg Ht.
  - inversion Hg; subst. now exists tail.
  - cbn [hex_groups] in Hg.
    destruct s as [|a [|b [|c s']]]; try discriminate Hg.
    destruct (is_hex a) eqn:Ea; [|discriminate Hg].
    destruct (is_hex b) eqn:Eb; [|discriminate Hg].
    destruct (is_separator c) eqn:Ec; [|discriminate Hg]. cbn in Hg.
    destruct (IH s' rest tail Hg Ht) as (pairs & Hp & Hl).
    exists ((a, b) :: pairs). split; [now constructor|]. cbn. now rewrite Hl.
Qed.

Lemma isValidMac_shape mac :
  isValidMac mac = true -> exists pairs, mac_shape mac pairs /\ List.length pairs = 6%nat.
Proof.
  unfold isValidMac. destruct (hex_groups 5 mac) as [rest|] eqn:Hg; [|discriminate].
  destruct rest as [|a [|b [|? ?]]]; try discriminate.
  intros H. apply andb_true_iff in H. destruct H as [Ha Hb].
  apply (hex_groups_shape 5 mac _ [(a, b)] Hg). now constructor.
Qed.

(** The pairs, lower-cased and joined by colons. *)
Definition lower_pair (p : ascii * ascii) : string :=
  String (lower_char (fst p)) (String (lower_char (snd p)) EmptyString).

Lemma shape_clean mac pairs :
  mac_shape mac pairs -> clean mac = String.concat "" (map lower_pair pairs).
Proof.
  unfold clean. induction 1 as [a b Ha Hb | a b s rest pairs Ha Hb Hs H IH].
  - cbn [strip_separators]. destruct (hex_facts a Ha) as [-> _].
    destruct (hex_facts b Hb) as [-> _]. reflexivity.
  - cbn [strip_separators]. destruct (hex_facts a Ha) as [-> _].
    destruct (hex_facts b Hb) as [-> _]. rewrite Hs. cbn [toLowerCase]. rewrite IH.
    cbn [map]. destruct (map lower_pair pairs) eqn:E.
    + inversion H; subst; discriminate E.
    + reflexivity.
Qed.

Lemma pairs_of_lowered pairs :
  Forall (fun p => is_hex (fst p) = true /\ is_hex (snd p) = true) pairs ->
  match_pairs (String.concat "" (map lower_pair pairs)) = map lower_pair pairs.
Proof.
  induction 1 as [|[a b] pairs [Ha Hb] _ IH]; [reflexivity|].
  assert (Hstep : forall rest,
             match_pairs (String (lower_char a) (String (lower_char b) rest))
             = lower_pair (a, b) :: match_pairs rest).
  { intros rest. cbn [match_pairs].
    destruct (hex_facts a Ha) as (_ & -> & _). destruct (hex_facts b Hb) as (_ & -> & _).
    reflexivity. }
  cbn [map]. destruct (map lower_pair pairs) as [|q qs] eqn:E.
  - cbn [String.concat]. unfold lower_pair at 1. cbn [fst snd].
    rewrite Hstep. reflexivity.
  - cbn [String.concat]. unfold lower_pair at 1. cbn [fst snd append].
    rewrite Hstep. cbn [String.concat] in IH. cbn [append] in IH. now rewrite IH.
Qed.

Lemma shape_hex mac pairs :
  mac_shape mac pairs ->
  Forall (fun p => is_hex (fst p) = true /\ is_hex (snd p) = true) pairs.
Proof. induction 1; constructor; auto. Qed.

Lemma length_lowered pairs :
  String.length (String.concat "" (map lower_pair pairs)) = (2 * List.length pairs)%nat.
Proof.
  induction pairs as [|p pairs IH]; [reflexivity|].
  cbn [map]. destruct (map lower_pair pairs) as [|q qs] eqn:E.
  - destruct pairs; [reflexivity | discriminate E].
  - cbn [String.concat] in *. cbn [lower_pair append String.length] in *.
    rewrite IH. cbn [List.length]. lia.
Qed.

(** The colon-joined form passes [isValidMac] again. *)
Lemma joined_shape pairs :
  pairs <> [] ->
  Forall (fun p => is_hex (fst p) = true /\ is_hex (snd p) = true) pairs ->
  mac_shape (join_colon (map lower_pair pairs))
            (map (fun p => (lower_char (fst p), lower_char (snd p))) pairs).
Proof.
  intros Hne Hall. unfold join_colon.
  induction Hall as [|[a b] pairs [Ha Hb] Hrest IH]; [contradiction|].
  destruct (hex_facts a Ha) as (_ & _ & Hla & _).
  destruct (hex_facts b Hb) as (_ & _ & Hlb & _).
  destruct pairs as [|q qs].
  - cbn. now constructor.
  - cbn [map String.concat]. cbn [lower_pair fst snd append].
    constructor; auto. apply IH. discriminate.
Qed.

Lemma shape_hex_groups n : forall s pairs,
  mac_shape s pairs -> List.length pairs = S n ->
  exists a b, hex_groups n s = Some (String a (String b EmptyString))
              /\ is_hex a = true /\ is_hex b = true.
Proof.
  induction n as [|n IH]; intros s pairs H Hl;
    inversion H as [a b Ha Hb | a b c rest ps Ha Hb Hc Hrest]; subst.
  - exists a, b. auto.
  - cbn in Hl. apply Nat.succ_inj in Hl. destruct ps; [inversion Hrest | discriminate Hl].
  - discriminate Hl.
  - cbn [hex_groups]. rewrite Ha, Hb, Hc. cbn [andb]. apply (IH rest ps Hrest).
    cbn in Hl. now apply Nat.succ_inj in Hl.
Qed.

Lemma shape_isValidMac mac pairs :
  mac_shape mac pairs -> List.length pairs = 6%nat -> isValidMac mac = true.
Proof.
  intros H Hl. destruct (shape_hex_groups 5 mac pairs H Hl) as (a & b & Hg & Ha & Hb).
  unfold isValidMac. now rewrite Hg, Ha, Hb.
Qed.

End ValidMac.

Section ValidMacNormalised.
Import JsString Helpers.

Lemma shape_nonempty mac pairs : mac_shape mac pairs -> exists c rest, mac = String c rest.
Proof. destruct 1; eauto. Qed.

Lemma normalize_shape mac pairs :
  mac_shape mac pairs -> List.length pairs = 6%nat ->
  let r := join_colon (map lower_pair pairs) in
  Helpers.normalizeMac (Some mac) = Returns (Some r)
  /\ BindingService.normalizeMac (Some mac) = Returns (Some r)
  /\ AuthService.normalizeMacAddress (Some mac) = r.
Proof.
  intros Hs Hl r.
  destruct (shape_nonempty mac pairs Hs) as (c & rest & Hmac).
  pose proof (shape_clean mac pairs Hs) as Hclean.
  pose proof (pairs_of_lowered pairs (shape_hex mac pairs Hs)) as Hpairs.
  pose proof (length_lowered pairs) as Hlen. rewrite Hl in Hlen.
  unfold Helpers.normalizeMac, BindingService.normalizeMac, AuthService.normalizeMacAddress.
  rewrite Hmac. cbn [str_or_null]. rewrite <- Hmac, Hclean, Hlen, Hpairs.
  cbn [Nat.eqb negb Nat.mul Nat.add].
  destruct pairs as [|p ps]; [discriminate Hl|]. cbn [map]. auto.
Qed.

End ValidMacNormalised.

(** X21. A MAC address that passes [isValidMac] (six pairs of hexadecimal
    digits separated by [:] or [-]) is normalised to the same string by
    the three normalisers; that string passes [isValidMac] again, and
    normalising it once more gives it back. *)
Theorem valid_mac_normalises :
  forall mac : string,
    Helpers.isValidMac mac = true ->
    exists r : string,
      Helpers.normalizeMac (Some mac) = Returns (Some r)
      /\ BindingService.normalizeMac (Some mac) = Returns (Some r)
      /\ AuthService.normalizeMacAddress (Some mac) = r
      /\ Helpers.isValidMac r = true
      /\ String.length r = 17%nat
      /\ Helpers.normalizeMac (Some r) = Returns (Some r).
Proof.
  intros mac Hv. destruct (isValidMac_shape mac Hv) as (pairs & Hs & Hl).
  pose proof (shape_hex mac pairs Hs) as Hhex.
  destruct (normalize_shape mac pairs Hs Hl) as (H1 & H2 & H3).
  exists (JsString.join_colon (map lower_pair pairs)).
  assert (Hne : pairs <> []) by (intros ->; discriminate Hl).
  pose proof (joined_shape pairs Hne Hhex) as Hs'.
  assert (Hl' : List.length
                  (map (fun p => (JsString.lower_char (fst p), JsString.lower_char (snd p)))
                       pairs) = 6%nat) by now rewrite length_map.
  split; [exact H1|]. split; [exact H2|]. split; [exact H3|]. split; [|split].
  - apply (shape_isValidMac _ _ Hs' Hl').
  - clear - Hl. do 7 (destruct pairs as [|? pairs]; try discriminate Hl). reflexivity.
  - destruct (normalize_shape _ _ Hs' Hl') as (H1' & _). rewrite H1'.
    do 3 f_equal. rewrite map_map. apply map_ext_in. intros [a b] Hin.
    rewrite Forall_forall in Hhex. destruct (Hhex (a, b) Hin) as [Ha Hb]. cbn in Ha, Hb.
    unfold lower_pair. cbn [fst snd].
    destruct (hex_facts a Ha) as (_ & _ & _ & _ & ->).
    destruct (hex_facts b Hb) as (_ & _ & _ & _ & ->). reflexivity.
Qed.

Lemma valid_mac_normalises_witness :
  exists r : string,
    Helpers.normalizeMac (Some "AA-BB-CC-DD-EE-01") = Returns (Some r)
    /\ BindingService.normalizeMac (Some "AA-BB-CC-DD-EE-01") = Returns (Some r)
    /\ AuthService.normalizeMacAddress (Some "AA-BB-CC-DD-EE-01") = r
    /\ Helpers.isValidMac r = true
    /\ String.length r = 17%nat
    /\ Helpers.normalizeMac (Some r) = Returns (Some r).
Proof. exact (valid_mac_normalises "AA-BB-CC-DD-EE-01" eq_refl). Defined.

(** ** Escaping for display *)

Section Sanitize.
Import Helpers.

(** What becomes of one character. *)
Definition escaped (c : ascii) : string :=
  if (c =? "&")%char then "&amp;"
  else if (c =? "<")%char then "&lt;"
  else if (c =? ">")%char then "&gt;"
  else if (c =? ascii_of_nat 34)%char then "&quot;"
  else if (c =? "'")%char then "&#039;"
  else String c EmptyString.

Fixpoint escape_all (s : string) : string :=
  match s with
  | EmptyString => EmptyString
  | String c rest => escaped c ++ escape_all rest
  end.

(** The five replacements of [sanitize], in the order it makes them. *)
Definition replace_five (s : string) : string :=
  replace_char "'" "&#039;"
    (replace_char (ascii_of_nat 34) "&quot;"
       (replace_char ">" "&gt;"
          (replace_char "<" "&lt;"
             (replace_char "&" "&amp;" s)))).

Lemma string_app_assoc (a b c : string) : (a ++ b) ++ c = a ++ (b ++ c).
Proof. induction a as [|x a IH]; [reflexivity|]. cbn. now rewrite IH. Qed.

Lemma replace_char_app c r (s1 s2 : string) :
  replace_char c r (s1 ++ s2) = replace_char c r s1 ++ replace_char c r s2.
Proof.
  induction s1 as [|a s1 IH]; [reflexivity|]. cbn.
  destruct (a =? c)%char; cbn; rewrite IH; [now rewrite string_app_assoc | reflexivity].
Qed.

Lemma replace_five_app (s1 s2 : string) :
  replace_five (s1 ++ s2) = replace_five s1 ++ replace_five s2.
Proof. unfold replace_five. now rewrite !replace_char_app. Qed.

Lemma replace_five_char c : replace_five (String c EmptyString) = escaped c.
Proof.
  destruct c as [[] [] [] [] [] [] [] []]; vm_compute; reflexivity.
Qed.

Lemma replace_five_escape s : replace_five s = escape_all s.
Proof.
  induction s as [|c s IH]; [reflexivity|].
  change (String c s) with (String c EmptyString ++ s).
  rewrite replace_five_app, replace_five_char, IH. reflexivity.
Qed.

(** The characters that must not reach a page as they are. *)
Definition raw (c : ascii) : bool :=
  ((c =? "<") || (c =? ">") || (c =? ascii_of_nat 34) || (c =? "'"))%char.

Fixpoint has_raw (s : string) : bool :=
  match s with
  | EmptyString => false
  | String c rest => (raw c || has_raw rest)%bool
  end.

Lemma has_raw_app s1 s2 : has_raw (s1 ++ s2) = (has_raw s1 || has_raw s2)%bool.
Proof. induction s1 as [|c s1 IH]; [reflexivity|]. cbn. now rewrite IH, orb_assoc. Qed.

Lemma escaped_clean c : has_raw (escaped c) = false.
Proof. destruct c as [[] [] [] [] [] [] [] []]; vm_compute; reflexivity. Qed.

Lemma escape_all_clean s : has_raw (escape_all s) = false.
Proof.
  induction s as [|c s IH]; [reflexivity|]. cbn [escape_all].
  now rewrite has_raw_app, escaped_clean, IH.
Qed.

(** An ampersand of the output opens one of the five entities. *)
Fixpoint entities_only (s : string) : bool :=
  match s with
  | EmptyString => true
  | String c rest =>
      ((negb (c =? "&")%char
        || String.prefix "amp;" rest || String.prefix "lt;" rest
        || String.prefix "gt;" rest || String.prefix "quot;" rest
        || String.prefix "#039;" rest)
       && entities_only rest)%bool
  end.

Lemma prefix_nil s : String.prefix "" s = true.
Proof. now destruct s. Qed.

Lemma entities_only_escaped c rest :
  entities_only rest = true -> entities_only (escaped c ++ rest) = true.
Proof.
  intros Hr.
  destruct c as [[] [] [] [] [] [] [] []]; cbn; rewrite ?prefix_nil, ?Hr; reflexivity.
Qed.

Lemma escape_all_entities s : entities_only (escape_all s) = true.
Proof.
  induction s as [|c s IH]; [reflexivity|]. cbn [escape_all].
  now apply entities_only_escaped.
Qed.

End Sanitize.

(** X22. [sanitize] escapes each character on its own: the output is the
    input with every [&], [<], [>], double quote and single quote replaced
    by its entity and every other character kept, so that an entity the
    function has just written is not escaped a second time.  The output
    holds no [<], [>] or quote, and each of its ampersands opens one of the
    five entities.  [null] and the empty string give the empty string. *)
Theorem sanitize_escapes_each_character :
  Helpers.sanitize None = ""
  /\ forall s : string,
       Helpers.sanitize (Some s) = escape_all s
       /\ has_raw (Helpers.sanitize (Some s)) = false
       /\ entities_only (Helpers.sanitize (Some s)) = true.
Proof.
  split; [reflexivity|]. intros s.
  assert (Hs : Helpers.sanitize (Some s) = escape_all s).
  { destruct s as [|c s]; [reflexivity|]. apply (replace_five_escape (String c s)). }
  rewrite Hs. split; [reflexivity|]. split.
  - apply escape_all_clean.
  - apply escape_all_entities.
Qed.

(** ** IP addresses that pass [isValidIp] *)

Section ValidIp.
Import JsString Helpers.

Fixpoint has_char (c : ascii) (s : string) : bool :=
  match s with
  | EmptyString => false
  | String a rest => ((a =? c)%char || has_char c rest)%bool
  end.

Lemma split_nonempty c s : split c s <> [].
Proof.
  induction s as [|a s IH]; cbn; [discriminate|].
  destruct (a =? c)%char; [discriminate|]. destruct (split c s); discriminate.
Qed.

Lemma concat_head a sep p ps :
  String.concat sep (String a p :: ps) = String a (String.concat sep (p :: ps)).
Proof. destruct ps; reflexivity. Qed.

(** Joining the parts gives the string back. *)
Lemma join_split c s : String.concat (String c EmptyString) (split c s) = s.
Proof.
  induction s as [|a s IH]; [reflexivity|]. cbn [split].
  pose proof (split_nonempty c s) as Hn.
  destruct (split c s) as [|p ps]; [contradiction|].
  destruct (Ascii.eqb_spec a c) as [->|Hne].
  - change (String.concat (String c EmptyString) (EmptyString :: p :: ps))
      with (String c (String.concat (String c EmptyString) (p :: ps))).
    now rewrite IH.
  - rewrite concat_head. now rewrite IH.
Qed.

Lemma split_plain c s : has_char c s = false -> split c s = [s].
Proof.
  induction s as [|a s IH]; [reflexivity|]. cbn. intros H.
  apply orb_false_iff in H. destruct H as [Ha Hs]. rewrite Ha, (IH Hs). reflexivity.
Qed.

Lemma split_app c p rest :
  has_char c p = false -> split c (p ++ String c rest) = p :: split c rest.
Proof.
  induction p as [|a p IH]; cbn.
  - intros _. now rewrite Ascii.eqb_refl.
  - intros H. apply orb_false_iff in H. destruct H as [Ha Hp].
    rewrite Ha, (IH Hp). reflexivity.
Qed.

Definition octet (n : Z) : Prop := 0 <= n <= 255.

(** What [isValidIp] asks of a part. *)
Definition part_ok (part : string) : bool :=
  match parseInt part with
  | None => false
  | Some num => ((0 <=? num) && (num <=? 255) && String.eqb part (toString num))%bool
  end.

Lemma octets_checked :
  forallb (fun k => (part_ok (toString (Z.of_nat k))
                     && negb (has_char "." (toString (Z.of_nat k))))%bool)
          (seq 0 256) = true.
Proof. vm_compute. reflexivity. Qed.

Lemma octet_ok n :
  octet n -> part_ok (toString n) = true /\ has_char "." (toString n) = false.
Proof.
  intros [H0 H255]. pose proof octets_checked as Hall. rewrite forallb_forall in Hall.
  specialize (Hall (Z.to_nat n)). rewrite Z2Nat.id in Hall by exact H0.
  assert (Hin : In (Z.to_nat n) (seq 0 256)) by (apply in_seq; lia).
  specialize (Hall Hin). apply andb_true_iff in Hall. destruct Hall as [H1 H2].
  split; [exact H1 | now apply negb_true_iff in H2].
Qed.

Lemma part_ok_octet part :
  part_ok part = true -> exists n, octet n /\ part = toString n.
Proof.
  unfold part_ok. destruct (parseInt part) as [num|]; [|discriminate].
  intros H. apply andb_true_iff in H. destruct H as [H Heq].
  apply andb_true_iff in H. destruct H as [H0 H255].
  apply String.eqb_eq in Heq. exists num. split; [|exact Heq].
  split; [now apply Z.leb_le | now apply Z.leb_le].
Qed.

(** A decimal numeral as [toString] writes a number that is not negative:
    digits only, at least one, and no leading zero but for ["0"] itself. *)
Definition canonical (s : string) : bool :=
  match s with
  | EmptyString => false
  | String c rest =>
      (forallb (fun x => match digit_value x with Some _ => true | None => false end)
               (list_ascii_of_string s)
       && (negb (c =? "0")%char || String.eqb rest EmptyString))%bool
  end.

Lemma octets_canonical :
  forallb (fun k => canonical (toString (Z.of_nat k))) (seq 0 256) = true.
Proof. vm_compute. reflexivity. Qed.

Lemma octet_canonical n : octet n -> canonical (toString n) = true.
Proof.
  intros [H0 H255]. pose proof octets_canonical as Hall. rewrite forallb_forall in Hall.
  specialize (Hall (Z.to_nat n)). rewrite Z2Nat.id in Hall by exact H0.
  apply Hall, in_seq. lia.
Qed.

End ValidIp.

(** X23. [isValidIp] accepts exactly the dotted quads of canonical
    decimals: a string passes if and only if it is [a.b.c.d] with each of
    the four numbers between 0 and 255 and written as [toString] writes
    it, which is in digits only, without sign, white space or leading
    zero. *)
Theorem isValidIp_accepts_canonical_quads :
  (forall ip : string,
      Helpers.isValidIp ip = true
      <-> exists a b c d : Z,
            octet a /\ octet b /\ octet c /\ octet d
            /\ ip = JsString.toString a ++ "." ++ JsString.toString b ++ "."
                    ++ JsString.toString c ++ "." ++ JsString.toString d)
  /\ (forall n : Z, octet n -> canonical (JsString.toString n) = true).
Proof.
  split; [|exact octet_canonical].
  intros ip. unfold Helpers.isValidIp. cbv zeta. fold part_ok.
  change (fun part : string => part_ok part) with part_ok. split.
  - pose proof (join_split "." ip) as Hjoin.
    destruct (JsString.split "." ip) as [|p1 [|p2 [|p3 [|p4 [|p5 ps]]]]];
      cbn [List.length Nat.eqb negb]; try discriminate.
    cbn [forallb]. intros H.
    apply andb_true_iff in H. destruct H as [H1 H].
    apply andb_true_iff in H. destruct H as [H2 H].
    apply andb_true_iff in H. destruct H as [H3 H].
    apply andb_true_iff in H. destruct H as [H4 _].
    destruct (part_ok_octet p1 H1) as (a & Ha & ->).
    destruct (part_ok_octet p2 H2) as (b & Hb & ->).
    destruct (part_ok_octet p3 H3) as (c & Hc & ->).
    destruct (part_ok_octet p4 H4) as (d & Hd & ->).
    exists a, b, c, d. repeat split; try apply Ha; try apply Hb; try apply Hc; try apply Hd.
    rewrite <- Hjoin. reflexivity.
  - intros (a & b & c & d & Ha & Hb & Hc & Hd & ->).
    destruct (octet_ok a Ha) as [Pa Da]. destruct (octet_ok b Hb) as [Pb Db].
    destruct (octet_ok c Hc) as [Pc Dc]. destruct (octet_ok d Hd) as [Pd Dd].
    change (JsString.toString a ++ "." ++ JsString.toString b ++ "."
            ++ JsString.toString c ++ "." ++ JsString.toString d)
      with (JsString.toString a
            ++ String "." (JsString.toString b
                           ++ String "." (JsString.toString c
                                          ++ String "." (JsString.toString d)))).
    rewrite (split_app "." _ _ Da), (split_app "." _ _ Db), (split_app "." _ _ Dc),
      (split_plain "." _ Dd).
    cbn [List.length Nat.eqb negb forallb]. now rewrite Pa, Pb, Pc, Pd.
Qed.
